(** * tinygpt.live: the scalar autograd engine, the PRNG, the tokenizer and
      the GPT pipeline of [src/lib/value.ts] and [src/lib/gpt.ts]

    Conventions of the embedding.
    - A JavaScript [number] that holds a quantity (data, gradients, weights,
      logits) is a real number: rounding, overflow and not-a-number are not
      modelled, and where JavaScript would produce one of those the
      statements carry the hypothesis that excludes the point.
    - A JavaScript [number] that holds an index, a token id, a count or a
      32-bit word is a [nat] or a [Z], 32-bit wrap-around written out.
    - A reference to a [Value] object is its index in an arena ([Store]):
      objects are allocated at the end and never freed, fields are updated
      in place.
    - A string is the list of its characters (code points), as iterating
      over it yields them. Joining characters can pair a lone high surrogate
      with a lone low surrogate that follows it; a statement about a joined
      string that could be affected carries the hypothesis that excludes it.
    - A JavaScript exception is the result [Stop TypeError]. *)

From Stdlib Require Import Reals Lra Lia ZArith Sorted.
From stdpp Require Import base option list gmap strings pretty.

(** Comparisons of reals are decided classically. *)
#[global] Instance Rlt_decision (x y : R) : Decision (x < y)%R := Rlt_dec x y.
#[global] Instance Rle_decision (x y : R) : Decision (x <= y)%R := Rle_dec x y.
#[global] Instance Req_decision : EqDecision R := Req_dec_T.

(** ** Results of JavaScript evaluation *)

(** Why an evaluation stops without a value: the program throws a
    [TypeError]; the model ran out of the fuel that bounds a loop of the source;
    or the program goes on with a not-a-number (arithmetic on [undefined]),
    where the model, whose numbers are reals, does not follow it. *)
Inductive stop : Type :=
  | TypeError
  | OutOfFuel
  | NotANumber.

Inductive result (A : Type) : Type :=
  | Ok (a : A)
  | Stop (e : stop).
Arguments Ok {A} a.
Arguments Stop {A} e.

(** ** [src/lib/value.ts] *)

(** A reference to a [Value] object: its index in the arena. *)
Abbreviation ref := nat (only parsing).

(** [class Value]: the fields of the object. *)
Record Value : Type := mkValue {
  data : R;
  grad : R;
  _c0 : option ref;
  _c1 : option ref;
  _lg0 : R;
  _lg1 : R;
  _nch : nat;
  _gen : nat
}.

(** The arena of [Value] objects and the module-level counter [let _gen]. *)
Record Store : Type := mkStore {
  cells : list Value;
  module_gen : nat
}.

(** Code that reads and writes a state [S] and may throw. *)
Definition St (S A : Type) : Type := S → result (A * S).

Definition ret {S A} (a : A) : St S A := λ s, Ok (a, s).

Definition bind {S A B} (m : St S A) (k : A → St S B) : St S B :=
  λ s, match m s with
       | Ok (a, s') => k a s'
       | Stop e => Stop e
       end.

Abbreviation M := (St Store).

Notation "x <- m ;; k" := (bind m (λ x, k))
  (at level 100, m at next level, right associativity).
Notation "m1 ;;; m2" := (bind m1 (λ _, m2))
  (at level 100, right associativity).

Definition throw {S A} : St S A := λ _, Stop TypeError.

(** Property access through a reference; through a dangling one it throws. *)
Definition get (r : ref) : M Value :=
  λ s, match cells s !! r with
       | Some v => Ok (v, s)
       | None => Stop TypeError
       end.

(** [v!] followed by a property access: [undefined] throws. *)
Definition deref (o : option ref) : M ref :=
  match o with
  | Some r => ret r
  | None => throw
  end.

Definition modify (r : ref) (f : Value → Value) : M unit :=
  λ s, match cells s !! r with
       | Some v => Ok (tt, mkStore (<[r := f v]> (cells s)) (module_gen s))
       | None => Stop TypeError
       end.

Definition with_grad (g : R) (v : Value) : Value :=
  mkValue (data v) g (_c0 v) (_c1 v) (_lg0 v) (_lg1 v) (_nch v) (_gen v).
Definition with_data (d : R) (v : Value) : Value :=
  mkValue d (grad v) (_c0 v) (_c1 v) (_lg0 v) (_lg1 v) (_nch v) (_gen v).
Definition with_gen (g : nat) (v : Value) : Value :=
  mkValue (data v) (grad v) (_c0 v) (_c1 v) (_lg0 v) (_lg1 v) (_nch v) g.

(** [constructor(data, children = [], localGrads = [])] *)
Definition Value_new (d : R) (children : list ref) (localGrads : list R) : Value :=
  {| data := d;
     grad := 0;
     _c0 := children !! 0%nat;
     _c1 := children !! 1%nat;
     _lg0 := default 0%R (localGrads !! 0%nat);
     _lg1 := default 0%R (localGrads !! 1%nat);
     _nch := length children;
     _gen := 0 |}.

Definition new_Value (d : R) (children : list ref) (localGrads : list R) : M ref :=
  λ s, Ok (length (cells s),
           mkStore (cells s ++ [Value_new d children localGrads]) (module_gen s)).

(** [Value | number] *)
Inductive operand : Type :=
  | OValue (r : ref)
  | ONumber (x : R).

(** [x ** y] on reals. Where JavaScript gives an infinity or not-a-number
    (a zero base with a negative exponent, a negative base with a fractional
    exponent) the value here is 0. *)
Definition js_pow (x y : R) : R :=
  if Req_dec_T y 0 then 1%R
  else if Rlt_dec 0 x then Rpower x y
  else if Req_dec_T x 0 then 0%R
  else if Req_dec_T (frac_part y) 0 then powerRZ x (Int_part y)
  else 0%R.

Definition add (this : ref) (other : operand) : M ref :=
  t <- get this ;;
  match other with
  | OValue o => ov <- get o ;; new_Value (data t + data ov) [this; o] [1%R; 1%R]
  | ONumber x => new_Value (data t + x) [this] [1%R]
  end.

Definition mul (this : ref) (other : operand) : M ref :=
  t <- get this ;;
  match other with
  | OValue o => ov <- get o ;; new_Value (data t * data ov) [this; o] [data ov; data t]
  | ONumber x => new_Value (data t * x) [this] [x]
  end.

Definition pow (this : ref) (e : R) : M ref :=
  t <- get this ;;
  new_Value (js_pow (data t) e) [this] [(e * js_pow (data t) (e - 1))%R].

(** [log()]: of a number that is not positive JavaScript gives not-a-number
    or minus infinity, where [ln] is 0 here. *)
Definition log (this : ref) : M ref :=
  t <- get this ;;
  new_Value (ln (data t)) [this] [(1 / data t)%R].

Definition exp (this : ref) : M ref :=
  t <- get this ;;
  let e := Rtrigo_def.exp (data t) in
  new_Value e [this] [e].

Definition relu (this : ref) : M ref :=
  t <- get this ;;
  new_Value (Rmax 0 (data t)) [this] [if Rlt_dec 0 (data t) then 1%R else 0%R].

Definition neg (this : ref) : M ref :=
  t <- get this ;;
  new_Value (- data t) [this] [(-1)%R].

Definition sub (this : ref) (other : operand) : M ref :=
  match other with
  | OValue o => n <- neg o ;; add this (OValue n)
  | ONumber x => add this (ONumber (- x))
  end.

(** [div(other)]: by the number 0, or by a [Value] whose [data] is 0,
    JavaScript multiplies by an infinity, where [1 / 0] and [0 ** -1] are 0
    here. *)
Definition div (this : ref) (other : operand) : M ref :=
  match other with
  | OValue o => p <- pow o (-1) ;; mul this (OValue p)
  | ONumber x => mul this (ONumber (1 / x))
  end.

(** [const gen = ++_gen] *)
Definition next_gen : M nat :=
  λ s, Ok (S (module_gen s), mkStore (cells s) (S (module_gen s))).

Definition store_size : M nat := λ s, Ok (length (cells s), s).

(** [function buildTopo(v)]: the closure's [topo] array is threaded through.
    The recursion of the source is bounded by [fuel]. *)
Fixpoint buildTopo (fuel : nat) (gen : nat) (v : ref) (topo : list ref)
    : M (list ref) :=
  match fuel with
  | O => λ _, Stop OutOfFuel
  | S fuel' =>
    vv <- get v ;;
    if decide (_gen vv = gen) then ret topo
    else
      modify v (with_gen gen) ;;;
      topo <- (if decide (1 ≤ _nch vv)
              then c <- deref (_c0 vv) ;; buildTopo fuel' gen c topo
              else ret topo) ;;
      topo <- (if decide (_nch vv = 2)
              then c <- deref (_c1 vv) ;; buildTopo fuel' gen c topo
              else ret topo) ;;
      ret (topo ++ [v])
  end.

(** One iteration of the reverse loop over [topo]. *)
Definition propagate (v : ref) : M unit :=
  vv <- get v ;;
  let g := grad vv in
  (if decide (1 ≤ _nch vv)
   then c <- deref (_c0 vv) ;; modify c (λ cv, with_grad (grad cv + _lg0 vv * g) cv)
   else ret tt) ;;;
  (if decide (_nch vv = 2)
   then c <- deref (_c1 vv) ;; modify c (λ cv, with_grad (grad cv + _lg1 vv * g) cv)
   else ret tt).

Fixpoint for_each {S A} (f : A → St S unit) (l : list A) : St S unit :=
  match l with
  | [] => ret tt
  | x :: l' => f x ;;; for_each f l'
  end.

(** The [topo] array of a [backward()] call, after [buildTopo(this)]. *)
Definition backward_topo (this : ref) : M (list ref) :=
  gen <- next_gen ;;
  n <- store_size ;;
  buildTopo (S n) gen this [].

(** [backward()] *)
Definition backward (this : ref) : M unit :=
  topo <- backward_topo this ;;
  modify this (with_grad 1) ;;;
  for_each propagate (rev topo).

(** [smul(n, v)] and [vsum(vals)]: [reduce] without an initial value throws
    on the empty array. *)
Definition smul (n : R) (v : ref) : M ref := mul v (ONumber n).

Fixpoint vsum_from (acc : ref) (vals : list ref) : M ref :=
  match vals with
  | [] => ret acc
  | b :: vals' => a <- add acc (OValue b) ;; vsum_from a vals'
  end.

Definition vsum (vals : list ref) : M ref :=
  match vals with
  | [] => throw
  | a :: vals' => vsum_from a vals'
  end.

(** ** The expression graph of a store *)

(** The operands [backward] follows from a node, each with its recorded
    local derivative: [_c0] when [_nch >= 1], [_c1] when [_nch === 2]. *)
Definition operands (v : Value) : list (ref * R) :=
  (if decide (1 ≤ _nch v)
   then match _c0 v with Some c => [(c, _lg0 v)] | None => [] end
   else []) ++
  (if decide (_nch v = 2)
   then match _c1 v with Some c => [(c, _lg1 v)] | None => [] end
   else []).

Definition Rsum (l : list R) : R := foldr Rplus 0%R l.

(** The chain-rule sum over the recorded local derivatives, from node [n]
    down to node [x]: 1 for [x] itself, and for another node the sum over its
    operands of the recorded local derivative times the operand's sum (0 for
    a leaf). It is what [backward] accumulates; that it is the derivative of
    the value of [n] as a function of the value of [x] is a theorem about
    graphs built by the operations, not part of this definition. *)
Fixpoint partial_fuel (fuel : nat) (cs : list Value) (x n : ref) : R :=
  match fuel with
  | O => 0%R
  | S fuel' =>
    if decide (n = x) then 1%R
    else match cs !! n with
         | Some v =>
           Rsum (map (λ '(c, lg), (lg * partial_fuel fuel' cs x c)%R) (operands v))
         | None => 0%R
         end
  end.

Definition partial (cs : list Value) (x n : ref) : R :=
  partial_fuel (S n) cs x n.

(** [reach cs r n]: [n] is [r] or an operand of a node reachable from [r]. *)
Inductive reach (cs : list Value) (r : ref) : ref → Prop :=
  | reach_refl : reach cs r r
  | reach_step p v c lg :
      reach cs r p → cs !! p = Some v → (c, lg) ∈ operands v → reach cs r c.

(** Objects are built from existing objects and their operand fields never
    change: an operand that [backward] follows exists and is older. *)
Definition wf_cells (cs : list Value) : Prop :=
  ∀ i v, cs !! i = Some v →
    (1 ≤ _nch v → ∃ c, _c0 v = Some c ∧ c < i) ∧
    (_nch v = 2 → ∃ c, _c1 v = Some c ∧ c < i).

(** No object carries a generation mark that [++_gen] has yet to hand out. *)
Definition gen_ok (s : Store) : Prop :=
  ∀ i v, cells s !! i = Some v → _gen v ≤ module_gen s.

Definition wf_store (s : Store) : Prop := wf_cells (cells s) ∧ gen_ok s.

Definition grad_of (s : Store) (n : ref) : R :=
  match cells s !! n with Some v => grad v | None => 0%R end.

(** The fields of an object that neither [backward] nor the optimizer writes. *)
Definition links (v : Value) : option ref * option ref * R * R * nat :=
  (_c0 v, _c1 v, _lg0 v, _lg1 v, _nch v).

(** [c.grad += d] on the cells. *)
Definition add_grad (cs : list Value) (cd : ref * R) : list Value :=
  match cs !! cd.1 with
  | Some v => <[cd.1 := with_grad (grad v + cd.2) v]> cs
  | None => cs
  end.

Definition gradf (cs : list Value) (n : ref) : R :=
  match cs !! n with Some v => grad v | None => 0%R end.

(** A list of nodes in which every node comes after its operands. *)
Definition topo_sorted (cs : list Value) (l : list ref) : Prop :=
  ∀ l1 p l2, l = l1 ++ p :: l2 →
    ∃ v, cs !! p = Some v ∧ ∀ c lg, (c, lg) ∈ operands v → c ∈ l1.

(** [v._gen === gen] *)
Definition marked (g : nat) (cs : list Value) (n : ref) : Prop :=
  _gen <$> cs !! n = Some g.

(** What a call of [buildTopo] does to the cells and to [topo]: it appends
    [new], marks exactly the nodes of [new], and writes nothing else. *)
Definition topo_post (g : nat) (cs : list Value) (topo : list ref)
    (cs' : list Value) (new : list ref) : Prop :=
  map links cs' = map links cs ∧
  map grad cs' = map grad cs ∧
  map data cs' = map data cs ∧
  (∀ n, marked g cs' n ↔ marked g cs n ∨ n ∈ new) ∧
  (∀ n, ¬ marked g cs' n → _gen <$> cs' !! n = _gen <$> cs !! n) ∧
  (∀ n, n ∈ new → ¬ marked g cs n) ∧
  NoDup new ∧
  (∀ l1 p l2, new = l1 ++ p :: l2 →
     ∃ vp, cs !! p = Some vp ∧ ∀ c lg, (c, lg) ∈ operands vp → c ∈ topo ++ l1).

(** The contract of [buildTopo(v)] with enough fuel. *)
Definition buildTopo_claim (g fuel : nat) (v : ref) : Prop :=
  ∀ s topo,
    wf_cells (cells s) → v < length (cells s) → v < fuel →
    (∀ n, n ≤ v → marked g (cells s) n → n ∈ topo) →
    ∃ cs' new,
      buildTopo fuel g v topo s = Ok (topo ++ new, mkStore cs' (module_gen s)) ∧
      topo_post g (cells s) topo cs' new ∧
      (∀ n, n ∈ new → n ≤ v ∧ reach (cells s) v n) ∧
      v ∈ topo ++ new.

(** ** Stores built by the program *)

(** The calls a client of [value.ts] can make: the constructor with a number,
    the operations, [backward], and the two assignments [gpt.ts] makes to a
    parameter ([p.data -= ...] and [p.grad = 0]). *)
Inductive call : Type :=
  | CNew (d : R)
  | CAdd (this : ref) (other : operand)
  | CMul (this : ref) (other : operand)
  | CPow (this : ref) (e : R)
  | CLog (this : ref)
  | CExp (this : ref)
  | CRelu (this : ref)
  | CNeg (this : ref)
  | CSub (this : ref) (other : operand)
  | CDiv (this : ref) (other : operand)
  | CBackward (this : ref)
  | CSetGrad (this : ref) (g : R)
  | CSetData (this : ref) (d : R).

Definition ignore {S A} (m : St S A) : St S unit := _ <- m ;; ret tt.

Definition exec (c : call) : M unit :=
  match c with
  | CNew d => ignore (new_Value d [] [])
  | CAdd this other => ignore (add this other)
  | CMul this other => ignore (mul this other)
  | CPow this e => ignore (pow this e)
  | CLog this => ignore (log this)
  | CExp this => ignore (exp this)
  | CRelu this => ignore (relu this)
  | CNeg this => ignore (neg this)
  | CSub this other => ignore (sub this other)
  | CDiv this other => ignore (div this other)
  | CBackward this => backward this
  | CSetGrad this g => modify this (with_grad g)
  | CSetData this d => modify this (with_data d)
  end.

(** The module starts with no object and [_gen = 0]. *)
Definition empty_store : Store := mkStore [] 0.

Inductive built : Store → Prop :=
  | built_empty : built empty_store
  | built_call s c s' : built s → exec c s = Ok (tt, s') → built s'.

(** A freshly constructed object at index [n]. *)
Definition fresh_ok (n : nat) (v : Value) : Prop :=
  _gen v = 0 ∧ grad v = 0%R ∧
  (1 ≤ _nch v → ∃ c, _c0 v = Some c ∧ c < n) ∧
  (_nch v = 2 → ∃ c, _c1 v = Some c ∧ c < n).

(** One object was allocated, nothing else changed. *)
Definition allocated (s : Store) (r : ref) (s' : Store) : Prop :=
  ∃ v, s' = mkStore (cells s ++ [v]) (module_gen s) ∧
       r = length (cells s) ∧ fresh_ok (length (cells s)) v.

(** [x = new Value(2); y = new Value(3); z = x.mul(y); w = z.add(x)]:
    the node [x] is shared by [z] and [w]. *)
Definition demo_calls : list call :=
  [CNew 2; CNew 3; CMul 0 (OValue 1); CAdd 2 (OValue 0)].

Definition demo_store : Store :=
  mkStore [Value_new 2 [] []; Value_new 3 [] [];
           Value_new (2 * 3) [0; 1] [3%R; 2%R];
           Value_new (2 * 3 + 2) [2; 0] [1%R; 1%R]] 0.

Definition exec_all (l : list call) : M unit := for_each exec l.

(** ** [src/lib/gpt.ts]: 32-bit integer operators *)

Definition u32 (x : Z) : Z := (x mod 2 ^ 32)%Z.
Definition i32 (x : Z) : Z := ((x + 2 ^ 31) mod 2 ^ 32 - 2 ^ 31)%Z.

(** [a ^ b], [a & b], [a | b], [a << k], [a >>> k]: the operands go through
    ToInt32 (ToUint32 for [>>>]) and the shift count is taken modulo 32. *)
Definition js_xor (a b : Z) : Z := Z.lxor (i32 a) (i32 b).
Definition js_and (a b : Z) : Z := Z.land (i32 a) (i32 b).
Definition js_or (a b : Z) : Z := Z.lor (i32 a) (i32 b).
Definition js_shl (a k : Z) : Z := i32 (Z.shiftl (i32 a) (k mod 32)).
Definition js_ushr (a k : Z) : Z := Z.shiftr (u32 a) (k mod 32).
Definition js_sar (a k : Z) : Z := Z.shiftr (i32 a) (k mod 32).
Definition imul (a b : Z) : Z := i32 (i32 a * i32 b).

(** [Math.clz32] *)
Definition clz32 (x : Z) : Z :=
  if decide (u32 x = 0)%Z then 32%Z else (31 - Z.log2 (u32 x))%Z.

(** ** [class MersenneTwister] *)

(** [mt] is the [Uint32Array(624)]: a list of 624 words; every index the
    code reads or writes is between 0 and 623. *)
Record MersenneTwister : Type := mkMT {
  mt : list Z;
  idx : nat;
  _gaussNext : option R
}.

(** [const u = (a, b) => Math.imul(a, b) >>> 0] *)
Definition u (a b : Z) : Z := u32 (imul a b).

(** [for (let v = n || 0; v > 0; v = Math.floor(v / 0x100000000))
      key.push(v & 0xffffffff)], for an integer [n]. *)
Fixpoint seed_key (fuel : nat) (v : Z) : list Z :=
  match fuel with
  | O => []
  | S fuel' =>
    if decide (0 < v)%Z
    then js_and v 0xffffffff :: seed_key fuel' (v / 0x100000000)
    else []
  end.

Definition key_of_seed (n : Z) : list Z :=
  match seed_key (S (Z.to_nat (Z.log2 n))) n with
  | [] => [0%Z]
  | key => key
  end.

(** [for (this.idx = 1; this.idx < 624; ++this.idx) ...], [count] iterations
    from [i]. *)
Fixpoint seed_fill (count i : nat) (mt : list Z) : list Z :=
  match count with
  | O => mt
  | S count' =>
    let prev := mt !!! (i - 1) in
    seed_fill count' (S i)
      (<[i := u32 (u 1812433253 (js_xor prev (js_ushr prev 30)) + Z.of_nat i)]> mt)
  end.

(** [for (let k = Math.max(624, key.length); k > 0; --k, ++i, ++j) ...] *)
Fixpoint seed_mix_key (k : nat) (key : list Z) (i j : nat) (mt : list Z)
    : nat * list Z :=
  match k with
  | O => (i, mt)
  | S k' =>
    let '(i, mt) := if decide (624 ≤ i) then (1, <[0 := mt !!! 623]> mt) else (i, mt) in
    let j := if decide (length key ≤ j) then 0 else j in
    let prev := mt !!! (i - 1) in
    seed_mix_key k' key (S i) (S j)
      (<[i := u32 (js_xor (mt !!! i) (u (js_xor prev (js_ushr prev 30)) 1664525)
                   + key !!! j + Z.of_nat j)]> mt)
  end.

(** [for (let k = 623; k > 0; --k, ++i) ...] *)
Fixpoint seed_mix_index (k : nat) (i : nat) (mt : list Z) : list Z :=
  match k with
  | O => mt
  | S k' =>
    let '(i, mt) := if decide (624 ≤ i) then (1, <[0 := mt !!! 623]> mt) else (i, mt) in
    let prev := mt !!! (i - 1) in
    seed_mix_index k' (S i)
      (<[i := u32 (js_xor (mt !!! i) (u (js_xor prev (js_ushr prev 30)) 1566083941)
                   - Z.of_nat i)]> mt)
  end.

(** [seed(n)] *)
Definition seed (n : Z) (this : MersenneTwister) : MersenneTwister :=
  let key := key_of_seed n in
  let mt0 := <[0 := 19650218%Z]> (mt this) in
  let mt1 := seed_fill 623 1 mt0 in
  let '(i, mt2) := seed_mix_key (Nat.max 624 (length key)) key 1 0 mt1 in
  let mt3 := seed_mix_index 623 i mt2 in
  mkMT (<[0 := 0x80000000%Z]> mt3) 624 None.

(** [new MersenneTwister(seed)]: the field initialisers, then [seed]. *)
Definition MersenneTwister_new (n : Z) : MersenneTwister :=
  seed n (mkMT (replicate 624 0%Z) 625 None).

(** The regeneration loop of [int32()]: [for (let k = 0; k < 624; ++k) ...] *)
Fixpoint twist (count k : nat) (mt : list Z) : list Z :=
  match count with
  | O => mt
  | S count' =>
    let y := js_or (js_and (mt !!! k) 0x80000000)
                   (js_and (mt !!! ((k + 1) mod 624)) 0x7fffffff) in
    twist count' (S k)
      (<[k := u32 (js_xor (js_xor (mt !!! ((k + 397) mod 624)) (js_ushr y 1))
                          (if decide (js_and y 1 = 0)%Z then 0 else 0x9908b0df))]> mt)
  end.

Definition int32 : St MersenneTwister Z := λ this,
  let this := if decide (624 ≤ idx this)
              then mkMT (twist 624 0 (mt this)) 0 (_gaussNext this)
              else this in
  let y := mt this !!! idx this in
  let this := mkMT (mt this) (S (idx this)) (_gaussNext this) in
  let y := js_xor y (js_ushr y 11) in
  let y := js_xor y (js_and (js_shl y 7) 0x9d2c5680) in
  let y := js_xor y (js_and (js_shl y 15) 0xefc60000) in
  let y := js_xor y (js_ushr y 18) in
  Ok (u32 y, this).

(** [random()]: the left operand of [+] is drawn first. *)
Definition random : St MersenneTwister R :=
  a <- int32 ;;
  b <- int32 ;;
  ret ((IZR (js_ushr a 5) * 67108864 + IZR (js_ushr b 6)) / 9007199254740992)%R.

(** [gauss(mu = 0, sigma = 1)] *)
Definition gauss (mu sigma : R) : St MersenneTwister R := λ this,
  let z := _gaussNext this in
  let this := mkMT (mt this) (idx this) None in
  match z with
  | Some z => Ok ((mu + z * sigma)%R, this)
  | None =>
    (r1 <- random ;;
     let x2pi := (r1 * 2 * PI)%R in
     r2 <- random ;;
     let g2rad := sqrt (-2 * ln (1 - r2)) in
     let z := (cos x2pi * g2rad)%R in
     λ this, Ok ((mu + z * sigma)%R,
                 mkMT (mt this) (idx this) (Some (sin x2pi * g2rad)%R))) this
  end.

(** [let r = this.int32() >>> (32 - k); while (r > i) r = this.int32() >>> (32 - k)].
    Nothing in the source bounds the number of draws: the model does, by [fuel]. *)
Fixpoint shuffle_draw (fuel : nat) (i : nat) (k : Z) : St MersenneTwister nat :=
  match fuel with
  | O => λ _, Stop OutOfFuel
  | S fuel' =>
    y <- int32 ;;
    let r := js_ushr y (32 - k) in
    if decide (Z.of_nat i < r)%Z then shuffle_draw fuel' i k else ret (Z.to_nat r)
  end.

(** [const t = arr[i]; arr[i] = arr[r]; arr[r] = t], with [r <= i < arr.length]. *)
Definition swap {A} (arr : list A) (i r : nat) : list A :=
  match arr !! i, arr !! r with
  | Some t, Some x => <[r := t]> (<[i := x]> arr)
  | _, _ => arr
  end.

(** [shuffle(arr)]: [for (let i = arr.length - 1; i > 0; --i) ...], here for
    [i] from [count] down to 1. *)
Fixpoint shuffle_from {A} (fuel : nat) (count : nat) (arr : list A)
    : St MersenneTwister (list A) :=
  match count with
  | O => ret arr
  | S count' =>
    let i := count in
    let k := (32 - clz32 (Z.of_nat i + 1))%Z in
    r <- shuffle_draw fuel i k ;;
    shuffle_from fuel count' (swap arr i r)
  end.

Definition shuffle {A} (fuel : nat) (arr : list A) : St MersenneTwister (list A) :=
  shuffle_from fuel (length arr - 1) arr.

(** [cum[0] = weights[0]; for (let i = 1; ...) cum[i] = cum[i - 1] + weights[i]] *)
Fixpoint cum_from (prev : R) (ws : list R) : list R :=
  match ws with
  | [] => []
  | w :: ws' => (prev + w)%R :: cum_from (prev + w)%R ws'
  end.

Definition cum_of (weights : list R) : list R :=
  match weights with
  | [] => []
  | w :: ws => w :: cum_from w ws
  end.

(** [x < cum[mid]]; [x] is [None] when it is not-a-number ([weights] empty),
    and a comparison with not-a-number or [undefined] is false. *)
Definition js_lt (x : option R) (c : option R) : bool :=
  match x, c with
  | Some x, Some c => bool_decide (x < c)%R
  | _, _ => false
  end.

(** [while (lo < hi) { const mid = (lo + hi) >> 1; x < cum[mid] ? hi = mid : lo = mid + 1; }]:
    at most [fuel] iterations. *)
Fixpoint choices_search (fuel : nat) (x : option R) (cum : list R) (lo hi : nat) : nat :=
  match fuel with
  | O => lo
  | S fuel' =>
    if decide (lo < hi) then
      let mid := (lo + hi) / 2 in
      if js_lt x (cum !! mid) then choices_search fuel' x cum lo mid
      else choices_search fuel' x cum (mid + 1) hi
    else lo
  end.

(** [choices(population, weights)]. For an empty [weights], [hi] is -1 in the
    source and 0 here: the loop is not entered either way. The loop halves
    [hi - lo], so [cum.length] iterations are enough. The result is
    [population[lo]], [None] when that is [undefined]. *)
Definition choices {A} (population : list A) (weights : list R)
    : St MersenneTwister (option A) :=
  let cum := cum_of weights in
  r <- random ;;
  let x := (λ total, r * total)%R <$> last cum in
  let lo := choices_search (length cum) x cum 0 (length cum - 1) in
  ret (population !! lo).

(** ** The tokenizer *)

(** A character is a Unicode code point, as iterating over a string yields
    it; a string is the list of its characters. *)
Abbreviation char := N (only parsing).
Abbreviation jsstring := (list N) (only parsing).

(** A token id at run time: a number, or [undefined] ([None]). *)
Abbreviation token := (option nat) (only parsing).

(** The UTF-16 code units of a character: [sort()] without a comparator
    orders strings by code units. *)
Definition utf16 (c : N) : list N :=
  if decide (c < 0x10000)%N then [c]
  else [(0xD800 + (c - 0x10000) / 0x400)%N; (0xDC00 + (c - 0x10000) mod 0x400)%N].

Fixpoint units_ltb (a b : list N) : bool :=
  match a, b with
  | _, [] => false
  | [], _ :: _ => true
  | x :: a', y :: b' =>
    if (x <? y)%N then true else if (y <? x)%N then false else units_ltb a' b'
  end.

Definition char_ltb (c d : N) : bool := units_ltb (utf16 c) (utf16 d).

(** [sort()]: the sorted order is the comparator's, whatever the algorithm. *)
Fixpoint sort_insert (c : N) (l : list N) : list N :=
  match l with
  | [] => [c]
  | d :: l' => if char_ltb c d then c :: d :: l' else d :: sort_insert c l'
  end.

Definition sort (l : list N) : list N := foldr sort_insert [] l.

(** [charSet.add(ch)] on a [Set], which keeps insertion order. *)
Definition Set_add (set : list N) (ch : N) : list N :=
  if decide (ch ∈ set) then set else set ++ [ch].

(** [new Map(entries)]: a later entry of the same key overwrites. *)
Definition Map_new (entries : list (N * nat)) : gmap N nat :=
  foldl (λ m e, <[e.1 := e.2]> m) ∅ entries.

Record Tokenizer : Type := mkTokenizer {
  uchars : list N;
  BOS : nat;
  vocabSize : nat;
  charToId : gmap N nat   (* captured by [encode] *)
}.

(** [createTokenizer(docs)] *)
Definition createTokenizer (docs : list (list N)) : Tokenizer :=
  let charSet := foldl (λ set doc, foldl Set_add set doc) [] docs in
  let uchars := sort charSet in
  let charToId := Map_new (imap (λ i ch, (ch, i)) uchars) in
  {| uchars := uchars;
     BOS := length uchars;
     vocabSize := length uchars + 1;
     charToId := charToId |}.

(** [encode(s)]: [charToId.get(ch)!] is [undefined] for a character that is
    not a key; the [!] is erased at compile time. *)
Definition encode (tk : Tokenizer) (s : list N) : result (list (option nat)) :=
  Ok ([Some (BOS tk)] ++ map (λ ch, charToId tk !! ch) s ++ [Some (BOS tk)]).

(** [uchars[id]] as [join] and [??] see it. *)
Definition uchars_at (tk : Tokenizer) (id : option nat) : option N :=
  match id with
  | Some i => uchars tk !! i
  | None => None
  end.

(** [decode(ids)]: [join("")] turns [undefined] into the empty string. *)
Definition decode (tk : Tokenizer) (ids : list (option nat)) : result (list N) :=
  Ok (concat (map (λ id, match uchars_at tk id with Some c => [c] | None => [] end)
                  (filter (λ id, id ≠ Some (BOS tk)) ids))).

(** ["<BOS>"] and ["?"] *)
Definition str_BOS : list N := [60; 66; 79; 83; 62]%N.
Definition str_question : list N := [63%N].

Definition tokenToChar (tk : Tokenizer) (id : option nat) : list N :=
  if decide (id = Some (BOS tk)) then str_BOS
  else match uchars_at tk id with Some c => [c] | None => str_question end.

(** Sequencing of two results. *)
Definition result_bind {A B} (r : result A) (k : A → result B) : result B :=
  match r with
  | Ok a => k a
  | Stop e => Stop e
  end.

(** ** The model *)

(** [arr.map(f)], [arr.map((a, i) => f(a, i))]: [f] runs on the elements in
    order. *)
Fixpoint mapM {S A B} (f : A → St S B) (l : list A) : St S (list B) :=
  match l with
  | [] => ret []
  | a :: l' => b <- f a ;; bs <- mapM f l' ;; ret (b :: bs)
  end.

Fixpoint imapM_from {T A B} (i : nat) (f : nat → A → St T B) (l : list A)
    : St T (list B) :=
  match l with
  | [] => ret []
  | a :: l' => b <- f i a ;; bs <- imapM_from (S i) f l' ;; ret (b :: bs)
  end.

Definition imapM {S A B} (f : nat → A → St S B) (l : list A) : St S (list B) :=
  imapM_from 0 f l.

(** A value that must not be [undefined] because a property of it is read. *)
Definition defined {S A} (o : option A) : St S A :=
  match o with
  | Some a => ret a
  | None => throw
  end.

(** [x[i]] passed to [add] or [mul]: with [undefined] the result is a
    not-a-number. *)
Definition arg (o : option ref) : M operand :=
  match o with
  | Some r => ret (OValue r)
  | None => λ _, Stop NotANumber
  end.

(** [v.data] *)
Definition get_data (r : ref) : M R := v <- get r ;; ret (data v).
(** [v.grad] *)
Definition get_grad (r : ref) : M R := v <- get r ;; ret (grad v).

Abbreviation Matrix := (list (list nat)) (only parsing).

Record GPTConfig : Type := mkConfig {
  nEmbd : nat;
  nHead : nat;
  nLayer : nat;
  blockSize : nat;
  cfg_vocabSize : nat
}.

(** [DEFAULT_CONFIG] with [vocabSize] set. *)
Definition DEFAULT_CONFIG (vocabSize : nat) : GPTConfig :=
  {| nEmbd := 16; nHead := 4; nLayer := 1; blockSize := 16;
     cfg_vocabSize := vocabSize |}.

Record AttentionData : Type := mkAttention {
  layer : nat;
  head : nat;
  weights : list (list R)
}.

(** [StateDict = Record<string, Matrix>]: the properties in insertion order. *)
Definition dict_get {V} (d : list (string * V)) (key : string) : option V :=
  (λ ie, ie.2.2) <$> list_find (λ e, e.1 = key) d.

Definition dict_set {V} (d : list (string * V)) (key : string) (v : V)
    : list (string * V) :=
  match list_find (λ e, e.1 = key) d with
  | Some (i, _) => <[i := (key, v)]> d
  | None => d ++ [(key, v)]
  end.

Definition layer_key (li : nat) (name : string) : string :=
  "layer" +:+ pretty li +:+ "." +:+ name.

Record GPTModel : Type := mkModel {
  config : GPTConfig;
  stateDict : list (string * list (list nat));
  params : list nat;
  tokenizer : Tokenizer;
  rng : MersenneTwister;
  docs : list (list N);
  m : list R;
  v : list R;
  step : nat;
  learningRate : R;
  beta1 : R;
  beta2 : R;
  epsAdam : R
}.

(** [linear(x, w)] *)
Definition linear (x : list nat) (w : list (list nat)) : M (list nat) :=
  mapM (λ wo, ps <- imapM (λ i wi, o <- arg (x !! i) ;; mul wi o) wo ;; vsum ps) w.

(** [Math.max(...ds)]; of no argument it is minus infinity, which [softmax]
    never uses: [vsum] of no value throws first. *)
Definition Math_max (ds : list R) : R :=
  match ds with
  | [] => 0%R
  | d :: ds' => foldl Rmax d ds'
  end.

(** [softmax(logits)], in two parts: up to [const total = vsum(exps)], which
    gives [exps] and the denominator [total], and the division. *)
Definition softmax_sum (logits : list nat) : M (list nat * nat) :=
  ds <- mapM get_data logits ;;
  let maxVal := Math_max ds in
  exps <- mapM (λ v, d <- sub v (ONumber maxVal) ;; exp d) logits ;;
  total <- vsum exps ;;
  ret (exps, total).

Definition softmax (logits : list nat) : M (list nat) :=
  et <- softmax_sum logits ;;
  mapM (λ e, div e (OValue et.2)) et.1.

(** [rmsnorm(x)] *)
Definition rmsnorm (x : list nat) : M (list nat) :=
  sq <- mapM (λ xi, mul xi (OValue xi)) x ;;
  sm <- vsum sq ;;
  ms <- mul sm (ONumber (1 / INR (length x))) ;;
  a <- add ms (ONumber 1e-5) ;;
  s <- pow a (-0.5) ;;
  mapM (λ xi, mul xi (OValue s)) x.

(** [arr.slice(a, b)] *)
Definition slice {A} (a b : nat) (l : list A) : list A := take (b - a) (drop a l).

(** [keys[li].push(k)] *)
Definition cache_push (cache : list (list (list nat))) (li : nat) (k : list nat)
    : M (list (list (list nat))) :=
  row <- defined (cache !! li) ;;
  ret (<[li := row ++ [k]]> cache).

(** The body of [for (let h = 0; h < nHead; h++)] in [forward]: the outputs of
    head [h], and its attention record. *)
Definition attention_head (headDim : nat) (scale : R) (li h : nat)
    (q : list nat) (keys_li values_li : list (list nat))
    : M (list nat * AttentionData) :=
  let hs := h * headDim in
  let qH := slice hs (hs + headDim) q in
  let kH := map (slice hs (hs + headDim)) keys_li in
  let vH := map (slice hs (hs + headDim)) values_li in
  attnLogits <- mapM (λ kt,
      ps <- imapM (λ j qj, o <- arg (kt !! j) ;; mul qj o) qH ;;
      sm <- vsum ps ;;
      mul sm (ONumber scale)) kH ;;
  attnWeights <- softmax attnLogits ;;
  ws <- mapM get_data attnWeights ;;
  outs <- mapM (λ j,
      ps <- imapM (λ t w,
          vt <- defined (vH !! t) ;;
          o <- arg (vt !! j) ;;
          mul w o) attnWeights ;;
      vsum ps) (seq 0 headDim) ;;
  ret (outs, mkAttention li h [ws]).

Fixpoint attention_heads (headDim : nat) (scale : R) (li : nat) (count h : nat)
    (q : list nat) (keys_li values_li : list (list nat))
    : M (list nat * list AttentionData) :=
  match count with
  | O => ret ([], [])
  | S count' =>
    r <- attention_head headDim scale li h q keys_li values_li ;;
    rs <- attention_heads headDim scale li count' (S h) q keys_li values_li ;;
    ret (r.1 ++ rs.1, r.2 :: rs.2)
  end.

(** [a.map((a, i) => a.add(b[i]))] *)
Definition add_each (a b : list nat) : M (list nat) :=
  imapM (λ i ai, o <- arg (b !! i) ;; add ai o) a.

Record ForwardState : Type := mkForward {
  fw_x : list nat;
  fw_keys : list (list (list nat));
  fw_values : list (list (list nat));
  fw_attention : list AttentionData
}.

(** The body of [for (let li = 0; li < nLayer; li++)] in [forward], with
    [collectAttention] true as in every call. *)
Definition forward_layer (this : GPTModel) (li : nat) (st : ForwardState)
    : M ForwardState :=
  let headDim := nEmbd (config this) / nHead (config this) in
  let scale := (1 / js_pow (INR headDim) 0.5)%R in
  let xResidual := fw_x st in
  x <- rmsnorm (fw_x st) ;;
  wq <- defined (dict_get (stateDict this) (layer_key li "attn_wq")) ;;
  q <- linear x wq ;;
  wk <- defined (dict_get (stateDict this) (layer_key li "attn_wk")) ;;
  k <- linear x wk ;;
  wv <- defined (dict_get (stateDict this) (layer_key li "attn_wv")) ;;
  v <- linear x wv ;;
  keys <- cache_push (fw_keys st) li k ;;
  values <- cache_push (fw_values st) li v ;;
  keys_li <- defined (keys !! li) ;;
  values_li <- defined (values !! li) ;;
  heads <- attention_heads headDim scale li (nHead (config this)) 0
             q keys_li values_li ;;
  let xAttn := heads.1 in
  let ads := heads.2 in
  wo <- defined (dict_get (stateDict this) (layer_key li "attn_wo")) ;;
  x <- linear xAttn wo ;;
  x <- add_each x xResidual ;;
  let xRes2 := x in
  x <- rmsnorm x ;;
  fc1 <- defined (dict_get (stateDict this) (layer_key li "mlp_fc1")) ;;
  x <- linear x fc1 ;;
  x <- mapM relu x ;;
  fc2 <- defined (dict_get (stateDict this) (layer_key li "mlp_fc2")) ;;
  x <- linear x fc2 ;;
  x <- add_each x xRes2 ;;
  ret (mkForward x keys values (fw_attention st ++ ads)).

Fixpoint forward_layers (this : GPTModel) (count li : nat) (st : ForwardState)
    : M ForwardState :=
  match count with
  | O => ret st
  | S count' => st' <- forward_layer this li st ;; forward_layers this count' (S li) st'
  end.

(** [forward(tokenId, posId, keys, values, true)]: the logits, the attention
    records of this call, and the two caches the call pushed to. *)
Definition forward (this : GPTModel) (tokenId : option nat) (posId : nat)
    (keys values : list (list (list nat)))
    : M (list nat * list AttentionData * list (list (list nat)) * list (list (list nat))) :=
  wte <- defined (dict_get (stateDict this) "wte") ;;
  let tokEmb := tokenId ≫= (wte !!.) in
  wpe <- defined (dict_get (stateDict this) "wpe") ;;
  let posEmb := wpe !! posId in
  tokEmb <- defined tokEmb ;;
  x <- imapM (λ i t, pe <- defined posEmb ;; o <- arg (pe !! i) ;; add t o) tokEmb ;;
  x <- rmsnorm x ;;
  st <- forward_layers this (nLayer (config this)) 0 (mkForward x keys values []) ;;
  lm_head <- defined (dict_get (stateDict this) "lm_head") ;;
  logits <- linear (fw_x st) lm_head ;;
  ret (logits, fw_attention st, fw_keys st, fw_values st).

(** The merge loop of [trainStep] and [generate]:
    [for (const ad of attentionData) { existing = allAttention.find(...); ... }].
    A record of [forward] holds one row, [ad.weights[0]]. *)
Definition merge_attention (allAttention attentionData : list AttentionData)
    : list AttentionData :=
  foldl (λ all ad,
    match list_find (λ a, layer a = layer ad ∧ head a = head ad) all with
    | Some (i, existing) =>
      <[i := mkAttention (layer existing) (head existing)
                         (weights existing ++ take 1 (weights ad))]> all
    | None => all ++ [ad]
    end) allAttention attentionData.

(** A method of the generator called on [this.rng]. *)
Definition on_rng {A} (c : St MersenneTwister A) (this : GPTModel) : M (A * GPTModel) :=
  λ s, match c (rng this) with
       | Ok (a, rng') =>
         Ok ((a, mkModel (config this) (stateDict this) (params this) (tokenizer this)
                   rng' (docs this) (m this) (v this) (step this)
                   (learningRate this) (beta1 this) (beta2 this) (epsAdam this)), s)
       | Stop e => Stop e
       end.

Record GenerateResult : Type := mkGenerate {
  text : list N;
  tokens : list (option nat);
  tokenChars : list (list N);
  attentionData : list AttentionData
}.

(** The divisor of [l.div(temperature)] in [generate] of [src/lib/gpt.ts]. *)
Definition generate_divisor (temperature : R) : R := temperature.

(** The divisor of [l.div(Math.max(temperature, 0.01))] in [generate] of the
    copy of the model embedded in [src/components/TemperatureControl.tsx]. *)
Definition generate_divisor_embedded (temperature : R) : R := Rmax temperature 0.01.

Record GenerateState : Type := mkGenState {
  g_this : GPTModel;
  g_tokenId : option nat;
  g_keys : list (list (list nat));
  g_vals : list (list (list nat));
  g_tokenIds : list (option nat);
  g_tokenChars : list (list N);
  g_allAttention : list AttentionData
}.

(** [for (let posId = 0; posId < len; posId++)] of [generate]: [count]
    iterations from [posId]; [break] leaves the loop with the state of that
    moment. *)
Fixpoint generate_loop (temperature : R) (count posId : nat) (st : GenerateState)
    : M GenerateState :=
  match count with
  | O => ret st
  | S count' =>
    let this := g_this st in
    fw <- forward this (g_tokenId st) posId (g_keys st) (g_vals st) ;;
    let '(logits, attentionData, keys, vals) := fw in
    scaledLogits <- mapM (λ l, div l (ONumber (generate_divisor temperature))) logits ;;
    probs <- softmax scaledLogits ;;
    let tokenPool := seq 0 (cfg_vocabSize (config this)) in
    weights <- mapM get_data probs ;;
    drawn <- on_rng (choices tokenPool weights) this ;;
    let tokenId := drawn.1 in
    let this := drawn.2 in
    if decide (tokenId = Some (BOS (tokenizer this)))
    then ret (mkGenState this tokenId keys vals (g_tokenIds st) (g_tokenChars st)
                         (g_allAttention st))
    else
      generate_loop temperature count' (S posId)
        (mkGenState this tokenId keys vals
           (g_tokenIds st ++ [tokenId])
           (g_tokenChars st ++ [tokenToChar (tokenizer this) tokenId])
           (merge_attention (g_allAttention st) attentionData))
  end.

(** [generate(temperature = 0.5, maxLen?)] *)
Definition generate (temperature : R) (maxLen : option nat) (this : GPTModel)
    : M (GenerateResult * GPTModel) :=
  let keys := replicate (nLayer (config this)) [] in
  let vals := replicate (nLayer (config this)) [] in
  let len := default (blockSize (config this)) maxLen in
  st <- generate_loop temperature len 0
          (mkGenState this (Some (BOS (tokenizer this))) keys vals [] [] []) ;;
  ret (mkGenerate (concat (g_tokenChars st)) (g_tokenIds st) (g_tokenChars st)
                  (g_allAttention st),
       g_this st).

(** [generateBatch(count, temperature = 0.5)] *)
Fixpoint generateBatch (count : nat) (temperature : R) (this : GPTModel)
    : M (list GenerateResult * GPTModel) :=
  match count with
  | O => ret ([], this)
  | S count' =>
    r <- generate temperature None this ;;
    rs <- generateBatch count' temperature r.2 ;;
    ret (r.1 :: rs.1, rs.2)
  end.

Record TrainStepResult : Type := mkTrainStep {
  loss : R;
  ts_step : nat;
  doc : list N;
  ts_attentionData : list AttentionData
}.

(** [lrT] of [trainStep] in [src/lib/gpt.ts]. With [numSteps = 0] JavaScript
    gives not-a-number or an infinity, where [step / 0] is 0 here. *)
Definition lrT (learningRate : R) (step : nat) (numSteps : R) : R :=
  (learningRate * (1 - INR step / numSteps))%R.

(** [lrT] of [trainStep] in the copy of the model embedded in
    [src/components/TemperatureControl.tsx]. *)
Definition lrT_embedded (learningRate : R) (step : nat) (numSteps : R) : R :=
  (learningRate * Rmax 0.01 (1 - INR step / numSteps))%R.

Record TrainState : Type := mkTrainState {
  t_keys : list (list (list nat));
  t_vals : list (list (list nat));
  t_losses : list nat;
  t_allAttention : list AttentionData
}.

(** [for (let posId = 0; posId < n; posId++)] of [trainStep] *)
Fixpoint train_positions (this : GPTModel) (tokens : list (option nat))
    (count posId : nat) (st : TrainState) : M TrainState :=
  match count with
  | O => ret st
  | S count' =>
    let tokenId := mjoin (tokens !! posId) in
    let targetId := mjoin (tokens !! (posId + 1)) in
    fw <- forward this tokenId posId (t_keys st) (t_vals st) ;;
    let '(logits, attentionData, keys, vals) := fw in
    probs <- softmax logits ;;
    p <- defined (targetId ≫= (probs !!.)) ;;
    l <- log p ;;
    lossT <- neg l ;;
    train_positions this tokens count' (S posId)
      (mkTrainState keys vals (t_losses st ++ [lossT])
                    (merge_attention (t_allAttention st) attentionData))
  end.

(** The Adam loop of [trainStep]: [for (let i = 0; i < this.params.length; i++)].
    [m] and [v] are as long as [params]. *)
Fixpoint adam_update (lr bc1 bc2 b1 b2 eps : R) (i : nat) (ps : list nat)
    (m v : list R) : M (list R * list R) :=
  match ps with
  | [] => ret (m, v)
  | p :: ps' =>
    g <- get_grad p ;;
    let mi := (b1 * default 0 (m !! i) + (1 - b1) * g)%R in
    let vi := (b2 * default 0 (v !! i) + (1 - b2) * js_pow g 2)%R in
    let mHat := (mi / bc1)%R in
    let vHat := (vi / bc2)%R in
    d <- get_data p ;;
    modify p (with_data (d - lr * mHat / (sqrt vHat + eps))) ;;;
    modify p (with_grad 0) ;;;
    adam_update lr bc1 bc2 b1 b2 eps (S i) ps' (<[i := mi]> m) (<[i := vi]> v)
  end.

(** [trainStep(numSteps = 1000)] *)
Definition trainStep (numSteps : R) (this : GPTModel) : M (TrainStepResult * GPTModel) :=
  doc <- defined (docs this !! (step this mod length (docs this))) ;;
  tokens <- (λ s, match encode (tokenizer this) doc with
                  | Ok t => Ok (t, s)
                  | Stop e => Stop e
                  end) ;;
  let n := blockSize (config this) `min` (length tokens - 1) in
  let keys := replicate (nLayer (config this)) [] in
  let vals := replicate (nLayer (config this)) [] in
  st <- train_positions this tokens n 0 (mkTrainState keys vals [] []) ;;
  sm <- vsum (t_losses st) ;;
  loss <- mul sm (ONumber (1 / INR n)) ;;
  backward loss ;;;
  let lr := lrT (learningRate this) (step this) numSteps in
  let bc1 := (1 - js_pow (beta1 this) (INR (step this + 1)))%R in
  let bc2 := (1 - js_pow (beta2 this) (INR (step this + 1)))%R in
  mv <- adam_update lr bc1 bc2 (beta1 this) (beta2 this) (epsAdam this) 0
          (params this) (m this) (v this) ;;
  lossData <- get_data loss ;;
  let this' := mkModel (config this) (stateDict this) (params this) (tokenizer this)
                 (rng this) (docs this) mv.1 mv.2 (S (step this))
                 (learningRate this) (beta1 this) (beta2 this) (epsAdam this) in
  ret (mkTrainStep lossData (S (step this)) doc (t_allAttention st), this').

(** ** The constructor of the model *)

Section Constructor.

(** [NAMES] of [./names-data], which is not among the sources. *)
Variable NAMES : list (list N).

(** The bound of the model on the draws of one step of [shuffle]. *)
Variable draw_fuel : nat.

(** [for (let j = 0; j < nin; j++) row.push(new Value(this.rng.gauss(0, std)))] *)
Fixpoint matrix_row (nin : nat) (std : R) (rng : MersenneTwister)
    : M (list nat * MersenneTwister) :=
  match nin with
  | O => ret ([], rng)
  | S nin' =>
    λ s, match gauss 0 std rng with
         | Ok (g, rng') =>
           (p <- new_Value g [] [] ;;
            rest <- matrix_row nin' std rng' ;;
            ret (p :: rest.1, rest.2)) s
         | Stop e => Stop e
         end
  end.

(** [matrix(nout, nin, std = 0.08)] *)
Fixpoint matrix (nout nin : nat) (std : R) (rng : MersenneTwister)
    : M (list (list nat) * MersenneTwister) :=
  match nout with
  | O => ret ([], rng)
  | S nout' =>
    row <- matrix_row nin std rng ;;
    rest <- matrix nout' nin std row.2 ;;
    ret (row.1 :: rest.1, rest.2)
  end.

(** [for (let i = 0; i < nLayer; i++) { this.stateDict[...] = matrix(...); ... }] *)
Fixpoint init_layers (cfg : GPTConfig) (count i : nat)
    (sd : list (string * list (list nat))) (rng : MersenneTwister)
    : M (list (string * list (list nat)) * MersenneTwister) :=
  match count with
  | O => ret (sd, rng)
  | S count' =>
    wq <- matrix (nEmbd cfg) (nEmbd cfg) 0.08 rng ;;
    let sd := dict_set sd (layer_key i "attn_wq") wq.1 in
    wk <- matrix (nEmbd cfg) (nEmbd cfg) 0.08 wq.2 ;;
    let sd := dict_set sd (layer_key i "attn_wk") wk.1 in
    wv <- matrix (nEmbd cfg) (nEmbd cfg) 0.08 wk.2 ;;
    let sd := dict_set sd (layer_key i "attn_wv") wv.1 in
    wo <- matrix (nEmbd cfg) (nEmbd cfg) 0.08 wv.2 ;;
    let sd := dict_set sd (layer_key i "attn_wo") wo.1 in
    fc1 <- matrix (4 * nEmbd cfg) (nEmbd cfg) 0.08 wo.2 ;;
    let sd := dict_set sd (layer_key i "mlp_fc1") fc1.1 in
    fc2 <- matrix (nEmbd cfg) (4 * nEmbd cfg) 0.08 fc1.2 ;;
    let sd := dict_set sd (layer_key i "mlp_fc2") fc2.1 in
    init_layers cfg count' (S i) sd fc2.2
  end.

(** [new GPTModel(seed)] *)
Definition GPTModel_new (seed : Z) : M GPTModel :=
  let rng := MersenneTwister_new seed in
  λ s, match shuffle draw_fuel NAMES rng with
       | Stop e => Stop e
       | Ok (docs, rng) =>
         (let tokenizer := createTokenizer docs in
          let cfg := DEFAULT_CONFIG (vocabSize tokenizer) in
          wte <- matrix (cfg_vocabSize cfg) (nEmbd cfg) 0.08 rng ;;
          wpe <- matrix (blockSize cfg) (nEmbd cfg) 0.08 wte.2 ;;
          lm_head <- matrix (cfg_vocabSize cfg) (nEmbd cfg) 0.08 wpe.2 ;;
          let sd := [("wte", wte.1); ("wpe", wpe.1); ("lm_head", lm_head.1)] in
          ls <- init_layers cfg (nLayer cfg) 0 sd lm_head.2 ;;
          let stateDict := ls.1 in
          let params := concat (concat (map snd stateDict)) in
          ret (mkModel cfg stateDict params tokenizer ls.2 docs
                       (replicate (length params) 0%R)
                       (replicate (length params) 0%R)
                       0 0.01 0.85 0.99 1e-8)) s
       end.

End Constructor.

(** ** Specifications of store code *)

(** [s'] is [s] with more objects allocated: the objects of [s] are untouched. *)
Definition ext (s s' : Store) : Prop :=
  ∃ new, cells s' = cells s ++ new ∧ module_gen s' = module_gen s.

(** [r] is an object of [s] whose [data] is [d]. *)
Definition has_data (s : Store) (r : ref) (d : R) : Prop :=
  data <$> cells s !! r = Some d.

Definition valid (s : Store) (r : ref) : Prop := is_Some (cells s !! r).

(** [r.data], 0 for a dangling [r]. *)
Definition dat (s : Store) (r : ref) : R :=
  match cells s !! r with Some v => data v | None => 0%R end.

(** [m] returns from [s], only allocating, with a result and a store that
    satisfy [Q]. *)
Definition total {A} (m : M A) (s : Store) (Q : A → Store → Prop) : Prop :=
  ∃ a s', m s = Ok (a, s') ∧ ext s s' ∧ Q a s'.

(** Sum from the left, as [reduce((a, b) => a.add(b))] computes it. *)
Definition sum_left (ds : list R) : R :=
  match ds with
  | [] => 0%R
  | d :: ds' => foldl Rplus d ds'
  end.

(** The data of the nodes [softmax] builds, from the data of the logits:
    the exponentials, their sum (the denominator), the weights. *)
Definition softmax_exps (ds : list R) : list R :=
  map (λ d, Rtrigo_def.exp (d + - Math_max ds)) ds.
Definition softmax_total (ds : list R) : R := sum_left (softmax_exps ds).
Definition softmax_data (ds : list R) : list R :=
  map (λ e, (e * js_pow (softmax_total ds) (-1))%R) (softmax_exps ds).

(** The number an operand stands for. *)
Definition operand_data (s : Store) (o : operand) (d : R) : Prop :=
  match o with
  | OValue r => has_data s r d
  | ONumber x => d = x
  end.

(** ** Shapes *)

(** A vector of [n] objects of the store. *)
Definition vec_ok (s : Store) (n : nat) (x : list nat) : Prop :=
  length x = n ∧ Forall (valid s) x.

(** A matrix of [rows] rows of [cols] objects. *)
Definition mat_ok (s : Store) (rows cols : nat) (w : list (list nat)) : Prop :=
  length w = rows ∧ Forall (vec_ok s cols) w.

(** A key or value cache that holds positions [0 .. p-1] of every layer. *)
Definition cache_ok (s : Store) (cfg : GPTConfig) (p : nat)
    (cache : list (list (list nat))) : Prop :=
  length cache = nLayer cfg ∧ Forall (mat_ok s p (nEmbd cfg)) cache.

Definition has_matrix (s : Store) (this : GPTModel) (key : string)
    (rows cols : nat) : Prop :=
  ∃ w, dict_get (stateDict this) key = Some w ∧ mat_ok s rows cols w.

(** The model the constructor builds: the heads split the embedding width
    evenly, the parameter matrices have the sizes of the configuration, and
    the marker is a token of the vocabulary. *)
Definition model_ok (s : Store) (this : GPTModel) : Prop :=
  let cfg := config this in
  0 < nEmbd cfg / nHead cfg ∧
  nEmbd cfg = nHead cfg * (nEmbd cfg / nHead cfg) ∧
  BOS (tokenizer this) < cfg_vocabSize cfg ∧
  has_matrix s this "wte" (cfg_vocabSize cfg) (nEmbd cfg) ∧
  has_matrix s this "wpe" (blockSize cfg) (nEmbd cfg) ∧
  has_matrix s this "lm_head" (cfg_vocabSize cfg) (nEmbd cfg) ∧
  ∀ li, li < nLayer cfg →
    has_matrix s this (layer_key li "attn_wq") (nEmbd cfg) (nEmbd cfg) ∧
    has_matrix s this (layer_key li "attn_wk") (nEmbd cfg) (nEmbd cfg) ∧
    has_matrix s this (layer_key li "attn_wv") (nEmbd cfg) (nEmbd cfg) ∧
    has_matrix s this (layer_key li "attn_wo") (nEmbd cfg) (nEmbd cfg) ∧
    has_matrix s this (layer_key li "mlp_fc1") (4 * nEmbd cfg) (nEmbd cfg) ∧
    has_matrix s this (layer_key li "mlp_fc2") (nEmbd cfg) (4 * nEmbd cfg).

(** A row of attention weights over [n] key positions. *)
Definition row_ok (n : nat) (row : list R) : Prop :=
  length row = n ∧ Rsum row = 1%R ∧ Forall (λ w, 0 <= w <= 1)%R row.

(** The record [forward] pushes for head [h] of layer [li]: one row over
    [p1] key positions. *)
Definition head_record_ok (p1 li h : nat) (ad : AttentionData) : Prop :=
  layer ad = li ∧ head ad = h ∧ ∃ row, weights ad = [row] ∧ row_ok p1 row.

(** The caches in the middle of a forward pass at cache length [p]: the
    layers before [li] hold [p + 1] positions, the others [p]. *)
Definition cache_at (s : Store) (cfg : GPTConfig) (p li : nat)
    (cache : list (list (list nat))) : Prop :=
  length cache = nLayer cfg ∧
  ∀ l rows, cache !! l = Some rows →
    mat_ok s (if decide (l < li) then S p else p) (nEmbd cfg) rows.

(** The (layer, head) pairs of layers [li .. li + count - 1], in the order
    [forward] pushes their records. *)
Definition layer_heads (cfg : GPTConfig) (li count : nat) : list (nat * nat) :=
  l ← seq li count; h ← seq 0 (nHead cfg); [(l, h)].

(** The attention records of one forward pass over [p1] key positions. *)
Definition attention_ok (cfg : GPTConfig) (p1 li count : nat)
    (ads : list AttentionData) : Prop :=
  Forall2 (λ lh ad, head_record_ok p1 lh.1 lh.2 ad) (layer_heads cfg li count) ads.

(** A token [generate] keeps: a vocabulary id that is not the marker. *)
Definition kept_token (this : GPTModel) (tok : option nat) : Prop :=
  ∃ i, tok = Some i ∧ i < cfg_vocabSize (config this) ∧ i ≠ BOS (tokenizer this).

(** The fields of the model that a call leaves alone when it only draws from
    the generator. *)
Definition same_weights (this this' : GPTModel) : Prop :=
  config this' = config this ∧ stateDict this' = stateDict this ∧
  tokenizer this' = tokenizer this ∧ params this' = params this ∧
  docs this' = docs this ∧ step this' = step this.

(** ** Two runs *)

(** An object without its generation mark. *)
Definition ungen (v : Value) : Value := with_gen 0 v.

(** Two well-formed stores that differ at most in the generation marks of
    their objects and in the module's generation counter. *)
Definition sim (s1 s2 : Store) : Prop :=
  wf_store s1 ∧ wf_store s2 ∧ map ungen (cells s1) = map ungen (cells s2).

(** The outcomes of one piece of code from two stores: the same value and
    similar stores, or the same stop. *)
Definition same_outcome {A} (r1 r2 : result (A * Store)) : Prop :=
  match r1, r2 with
  | Ok (a1, s1), Ok (a2, s2) => a1 = a2 ∧ sim s1 s2
  | Stop e1, Stop e2 => e1 = e2
  | _, _ => False
  end.

(** Code whose outcome does not depend on generation marks. *)
Definition oblivious {A} (m : M A) : Prop :=
  ∀ s1 s2, sim s1 s2 → same_outcome (m s1) (m s2).

(** What a caller sees of an outcome: the value, or the stop. *)
Definition observe {A} (r : result (A * Store)) : result A :=
  match r with
  | Ok (a, _) => Ok a
  | Stop e => Stop e
  end.

(** A call of a public method of the model, and what it returns. *)
Inductive method_call : Type :=
  | CallTrainStep (numSteps : R)
  | CallGenerate (temperature : R) (maxLen : option nat)
  | CallGenerateBatch (count : nat) (temperature : R).

Inductive returned : Type :=
  | Trained (r : TrainStepResult)
  | Generated (r : GenerateResult)
  | GeneratedBatch (rs : list GenerateResult).

Definition invoke (c : method_call) (this : GPTModel) : M (returned * GPTModel) :=
  match c with
  | CallTrainStep numSteps =>
    r <- trainStep numSteps this ;; ret (Trained r.1, r.2)
  | CallGenerate temperature maxLen =>
    r <- generate temperature maxLen this ;; ret (Generated r.1, r.2)
  | CallGenerateBatch count temperature =>
    r <- generateBatch count temperature this ;; ret (GeneratedBatch r.1, r.2)
  end.

Fixpoint invoke_all (cs : list method_call) (this : GPTModel) : M (list returned) :=
  match cs with
  | [] => ret []
  | c :: cs' =>
    r <- invoke c this ;;
    rs <- invoke_all cs' r.2 ;;
    ret (r.1 :: rs)
  end.

(** What one run shows: the parameter values right after construction, the
    shuffled corpus, and what each call returned. *)
Record Run : Type := mkRun {
  initial_params : list R;
  corpus_order : list (list N);
  returns : list returned
}.

(** [const model = new GPTModel(seed)], then the calls in order. *)
Definition session (NAMES : list (list N)) (draw_fuel : nat) (seed : Z)
    (calls : list method_call) : M Run :=
  this <- GPTModel_new NAMES draw_fuel seed ;;
  initial <- mapM get_data (params this) ;;
  rs <- invoke_all calls this ;;
  ret (mkRun initial (docs this) rs).

(** ** Further definitions *)

(** [demo_store] after [x.grad = 5]: a gradient that was not reset. *)
Definition stale_store : Store :=
  mkStore [with_grad 5 (Value_new 2 [] []); Value_new 3 [] [];
           Value_new (2 * 3) [0; 1] [3%R; 2%R];
           Value_new (2 * 3 + 2) [2; 0] [1%R; 1%R]] 0.

(** The call [m] on the object [this] of [s] allocates one node whose one
    operand is [this], whose [data] is [f] of the operand's [data], and whose
    recorded local derivative is the derivative of [f] there. *)
Definition unary_op (s : Store) (this : ref) (f : R → R) (m : M ref) : Prop :=
  ∃ t v, cells s !! this = Some t ∧
         m s = Ok (length (cells s), mkStore (cells s ++ [v]) (module_gen s)) ∧
         data v = f (data t) ∧
         operands v = [(this, _lg0 v)] ∧
         derivable_pt_lim f (data t) (_lg0 v).

(** The same for a call with the two operands [this] and [other]: the two
    recorded local derivatives are the two partial derivatives of [f]. *)
Definition binary_op (s : Store) (this other : ref) (f : R → R → R) (m : M ref) : Prop :=
  ∃ t o v, cells s !! this = Some t ∧ cells s !! other = Some o ∧
           m s = Ok (length (cells s), mkStore (cells s ++ [v]) (module_gen s)) ∧
           data v = f (data t) (data o) ∧
           operands v = [(this, _lg0 v); (other, _lg1 v)] ∧
           derivable_pt_lim (λ x, f x (data o)) (data t) (_lg0 v) ∧
           derivable_pt_lim (λ y, f (data t) y) (data o) (_lg1 v).

(** A call with the [Value] operand [other] that goes through one
    intermediate node: [other.neg()] under [sub], [other.pow(-1)] under
    [div]. It allocates the intermediate node and the result, in that order;
    the result's [data] is [f] of the two operands' [data]; its local
    derivative for [this], and the product of the local derivatives along
    the path to [other], are the two partial derivatives of [f]. *)
Definition composed_op (s : Store) (this other : ref) (f : R → R → R) (m : M ref) : Prop :=
  ∃ t o v1 v2, cells s !! this = Some t ∧ cells s !! other = Some o ∧
    m s = Ok (S (length (cells s)), mkStore (cells s ++ [v1; v2]) (module_gen s)) ∧
    data v2 = f (data t) (data o) ∧
    operands v1 = [(other, _lg0 v1)] ∧
    operands v2 = [(this, _lg0 v2); (length (cells s), _lg1 v2)] ∧
    derivable_pt_lim (λ x, f x (data o)) (data t) (_lg0 v2) ∧
    derivable_pt_lim (λ y, f (data t) y) (data o) (_lg1 v2 * _lg0 v1)%R.

(** The [data] of the nodes [rmsnorm] returns, from the [data] of its input,
    as the code computes them. *)
Definition rmsnorm_data (ds : list R) : list R :=
  map (λ d, d * js_pow (sum_left (map (λ d, d * d) ds) * (1 / INR (length ds)) + 1e-5)
                       (-0.5))%R ds.

(** [getParamCount()], [getCurrentStep()] *)
Definition getParamCount (this : GPTModel) : nat := length (params this).
Definition getCurrentStep (this : GPTModel) : nat := step this.

(** An entry of [layers] in the result of [getArchitectureInfo()]. *)
Record ArchitectureLayer : Type := mkArchLayer {
  arch_name : string;
  arch_size : string;
  arch_params : nat
}.

Record ArchitectureInfo : Type := mkArchInfo {
  arch_layers : list ArchitectureLayer;
  totalParams : nat;
  arch_config : GPTConfig
}.

(** [getArchitectureInfo()]. A number in a template string is printed in
    decimal; [nEmbd / nHead] is printed as the integer quotient, which it is
    when the heads split the embedding width evenly. *)
Definition getArchitectureInfo (this : GPTModel) : ArchitectureInfo :=
  let cfg := config this in
  let nEmbd := nEmbd cfg in
  let nHead := nHead cfg in
  let nLayer := nLayer cfg in
  let blockSize := blockSize cfg in
  let vocabSize := cfg_vocabSize cfg in
  {| arch_layers :=
       [mkArchLayer "Token Embedding" (pretty vocabSize +:+ " x " +:+ pretty nEmbd)
                    (vocabSize * nEmbd);
        mkArchLayer "Position Embedding" (pretty blockSize +:+ " x " +:+ pretty nEmbd)
                    (blockSize * nEmbd)] ++
       concat (map (λ i,
         [mkArchLayer ("Layer " +:+ pretty i +:+ " — RMSNorm") (pretty nEmbd) 0;
          mkArchLayer ("Layer " +:+ pretty i +:+ " — Multi-Head Attention")
                      (pretty nHead +:+ " heads, dim=" +:+ pretty (nEmbd / nHead))
                      (4 * nEmbd * nEmbd);
          mkArchLayer ("Layer " +:+ pretty i +:+ " — RMSNorm") (pretty nEmbd) 0;
          mkArchLayer ("Layer " +:+ pretty i +:+ " — MLP (FC1 + ReLU + FC2)")
                      (pretty nEmbd +:+ " -> " +:+ pretty (4 * nEmbd) +:+ " -> " +:+
                       pretty nEmbd)
                      (2 * 4 * nEmbd * nEmbd)]) (seq 0 nLayer)) ++
       [mkArchLayer "LM Head (Logits)" (pretty nEmbd +:+ " -> " +:+ pretty vocabSize)
                    (vocabSize * nEmbd)];
     totalParams := length (params this);
     arch_config := cfg |}.

(** A node as [new Value(g)] makes it. *)
Definition leaf (g : R) : Value := Value_new g [] [].

(** [m] returns from [s] after allocating the leaves of data [gs], in that
    order, and nothing else; its result and [gs] satisfy [Q]. *)
Definition allocs {A} (m : M A) (s : Store) (Q : A → list R → Prop) : Prop :=
  ∃ a gs, m s = Ok (a, mkStore (cells s ++ map leaf gs) (module_gen s)) ∧ Q a gs.

(** Two models that differ at most in the state of the generator. *)
Definition same_but_rng (this this' : GPTModel) : Prop :=
  config this' = config this ∧ stateDict this' = stateDict this ∧
  params this' = params this ∧ tokenizer this' = tokenizer this ∧
  docs this' = docs this ∧ m this' = m this ∧ v this' = v this ∧
  step this' = step this ∧ learningRate this' = learningRate this ∧
  beta1 this' = beta1 this ∧ beta2 this' = beta2 this ∧
  epsAdam this' = epsAdam this.

(** Loss terms: objects of the store whose [data] is not negative. *)
Definition losses_ok (s : Store) (ls : list nat) : Prop :=
  Forall (λ l, ∃ d, has_data s l d ∧ (0 <= d)%R) ls.

(** A model that [trainStep] can be called on: the shape the constructor
    builds, in a well-formed store that holds its parameters, with a corpus
    that is not empty and whose characters the tokenizer knows. *)
Definition train_ready (s : Store) (this : GPTModel) : Prop :=
  model_ok s this ∧ wf_store s ∧ Forall (valid s) (params this) ∧
  0 < blockSize (config this) ∧
  docs this ≠ [] ∧
  cfg_vocabSize (config this) = vocabSize (tokenizer this) ∧
  ∃ corpus, tokenizer this = createTokenizer corpus ∧
            ∀ doc, doc ∈ docs this → doc ∈ corpus.

(** The step numbers that the [trainStep] calls of a session returned. *)
Definition trained_steps (rs : list returned) : list nat :=
  omap (λ r, match r with Trained t => Some (ts_step t) | _ => None end) rs.

(** What a call returned is of the call's kind: a loss that is not negative
    for [trainStep], at most [len] tokens for [generate] with
    [maxLen = len] (with [blockSize] when there is none), [count] results
    for [generateBatch(count)]. *)
Definition returned_ok (blockSize : nat) (c : method_call) (r : returned) : Prop :=
  match c, r with
  | CallTrainStep _, Trained t => (0 <= loss t)%R
  | CallGenerate _ maxLen, Generated g => length (tokens g) ≤ default blockSize maxLen
  | CallGenerateBatch count _, GeneratedBatch gs =>
      length gs = count ∧ Forall (λ g, length (tokens g) ≤ blockSize) gs
  | _, _ => False
  end.

(** A call that stays inside the position table and away from a division by
    zero: [generate] with a [maxLen] of at most [blockSize], or without one;
    [trainStep] with a [numSteps] other than 0 (the learning rate divides
    the step by it). *)
Definition call_in_context (blockSize : nat) (c : method_call) : Prop :=
  match c with
  | CallTrainStep numSteps => numSteps ≠ 0%R
  | CallGenerate _ (Some len) => len ≤ blockSize
  | _ => True
  end.

(** The dot product of two vectors of numbers. *)
Definition dot (a b : list R) : R := Rsum (zip_with Rmult a b).

(** [m] returns from [s] with a result and a store that satisfy [Q], or it
    throws a [TypeError] and [E] holds. *)
Definition returns_or_throws {A} (m : M A) (s : Store) (Q : A → Store → Prop)
    (E : Prop) : Prop :=
  (∃ a s', m s = Ok (a, s') ∧ Q a s') ∨ (m s = Stop TypeError ∧ E).

(** ** [class SeededRandom] of the copy of the model embedded in
    [src/components/TemperatureControl.tsx] *)

(** [next()]: [this.s = (this.s * 1664525 + 1013904223) & 0xffffffff;
    return (this.s >>> 0) / 0xffffffff]. The state is an integer; for a state
    of 32 bits the product and the sum are exact. *)
Definition SeededRandom_next : St Z R := λ s,
  let s' := js_and (s * 1664525 + 1013904223) 0xffffffff in
  Ok ((IZR (js_ushr s' 0) / 4294967295)%R, s').

(** [const j = Math.floor(this.next() * (i + 1))] in [shuffle]. *)
Definition SeededRandom_shuffle_index (i : nat) : St Z Z :=
  r <- SeededRandom_next ;;
  ret (Int_part (r * INR (i + 1))).

(** A weight matrix of [k] query positions in which row [i] is a row of
    attention weights over the key positions [0 .. i]. *)
Definition triangular (k : nat) (ws : list (list R)) : Prop :=
  length ws = k ∧ ∀ i row, ws !! i = Some row → row_ok (S i) row.

(** The merged attention trace after [k] positions: one record per layer
    and head, in the order of the forward pass, each with a triangular
    matrix of [k] rows. *)
Definition trace_ok (cfg : GPTConfig) (k : nat) (all : list AttentionData) : Prop :=
  Forall2 (λ lh a, layer a = lh.1 ∧ head a = lh.2 ∧ triangular k (weights a))
          (layer_heads cfg 0 (nLayer cfg)) all.

(** The trace is empty as long as no position has been merged. *)
Definition trace_inv (cfg : GPTConfig) (k : nat) (all : list AttentionData) : Prop :=
  (k = 0 ∧ all = []) ∨ (0 < k ∧ trace_ok cfg k all).

(** [existing.weights.push(ad.weights[0])] *)
Definition push_row (existing ad : AttentionData) : AttentionData :=
  mkAttention (layer existing) (head existing) (weights existing ++ take 1 (weights ad)).

Definition attention_key (a : AttentionData) : nat * nat := (layer a, head a).

(** The value the Adam loop of [trainStep] stores in [p.data], from the
    moments [m], [v] of the parameter, its gradient [g] and its data [d]. *)
Definition adam_data (lr bc1 bc2 b1 b2 eps m v g d : R) : R :=
  (d - lr * ((b1 * m + (1 - b1) * g) / bc1) /
       (sqrt ((b2 * v + (1 - b2) * js_pow g 2) / bc2) + eps))%R.

(** ** Graphs built by the operations, and the value of a node as a function
       of another node *)

(** The points at which an operation has a derivative and JavaScript
    computes a number: [log] of a positive number, [relu] away from 0, [pow]
    at a positive base or with an integer exponent (away from base 0 unless
    the exponent is positive), a division by something other than 0. The
    assignment [p.data = ...] is not an operation of the graph: it leaves
    the nodes computed from [p] with the values they had. *)
Definition regular (s : Store) (c : call) : Prop :=
  match c with
  | CPow this e =>
      (0 < dat s this)%R ∨ ∃ k : Z, e = IZR k ∧ (dat s this ≠ 0%R ∨ (0 < k)%Z)
  | CLog this => (0 < dat s this)%R
  | CRelu this => dat s this ≠ 0%R
  | CDiv _ (OValue o) => dat s o ≠ 0%R
  | CDiv _ (ONumber c) => c ≠ 0%R
  | CSetData _ _ => False
  | _ => True
  end.

(** [graph calls s]: the calls [calls], made in this order in a fresh module,
    all return, each at a regular point, and leave the store [s]. *)
Inductive graph : list call → Store → Prop :=
  | graph_empty : graph [] empty_store
  | graph_call calls s c s' :
      graph calls s → regular s c → exec c s = Ok (tt, s') →
      graph (calls ++ [c]) s'.

(** The values of the nodes, by index. *)
Definition value_of (vals : list R) (r : ref) : R := default 0%R (vals !! r).

Definition operand_value (vals : list R) (o : operand) : R :=
  match o with
  | OValue r => value_of vals r
  | ONumber c => c
  end.

(** The next node gets the value [d], unless it is the node [x], whose value
    is the variable [t]. *)
Definition node_value (x : ref) (t d : R) (vals : list R) : list R :=
  vals ++ [if decide (length vals = x) then t else d].

(** Modelled from the spec: "the partial derivative of the root's value with
    respect to that node's value". These are the values of all nodes when the calls
    are evaluated as the arithmetic they stand for (sum, product, power,
    logarithm, exponential, positive part, opposite, difference, quotient)
    with the value of node [x] replaced by [t]. Nothing is read from the
    store: neither the [data] nor the recorded local derivatives. *)
Definition spec_eval_call (x : ref) (t : R) (vals : list R) (c : call) : list R :=
  match c with
  | CNew d => node_value x t d vals
  | CAdd this other =>
      node_value x t (value_of vals this + operand_value vals other) vals
  | CMul this other =>
      node_value x t (value_of vals this * operand_value vals other) vals
  | CPow this e => node_value x t (js_pow (value_of vals this) e) vals
  | CLog this => node_value x t (ln (value_of vals this)) vals
  | CExp this => node_value x t (Rtrigo_def.exp (value_of vals this)) vals
  | CRelu this => node_value x t (Rmax 0 (value_of vals this)) vals
  | CNeg this => node_value x t (- value_of vals this) vals
  | CSub this (OValue o) =>
      let vals1 := node_value x t (- value_of vals o) vals in
      node_value x t (value_of vals1 this + value_of vals1 (length vals)) vals1
  | CSub this (ONumber c) => node_value x t (value_of vals this - c) vals
  | CDiv this (OValue o) =>
      let vals1 := node_value x t (/ value_of vals o) vals in
      node_value x t (value_of vals1 this * value_of vals1 (length vals)) vals1
  | CDiv this (ONumber c) => node_value x t (value_of vals this / c) vals
  | CBackward _ | CSetGrad _ _ | CSetData _ _ => vals
  end.

Definition spec_node_values (calls : list call) (x : ref) (t : R) : list R :=
  foldl (spec_eval_call x t) [] calls.

(** The value of node [n] as a function of the value [t] of node [x]. *)
Definition spec_value_at (calls : list call) (x : ref) (t : R) (n : ref) : R :=
  value_of (spec_node_values calls x t) n.

(** [vf x t] gives the values of the nodes of [s] as functions of the value
    [t] of node [x]: at the [data] of [x] they are the [data] of the nodes,
    and the derivative of the value of [n] there is the chain-rule sum
    [partial] over the recorded local derivatives. *)
Definition tracks (vf : ref → R → list R) (s : Store) : Prop :=
  (∀ x t, length (vf x t) = length (cells s)) ∧
  ∀ x t0, (x < length (cells s) → t0 = dat s x) →
    vf x t0 = map data (cells s) ∧
    ∀ n, n < length (cells s) →
      derivable_pt_lim (λ t, value_of (vf x t) n) t0 (partial (cells s) x n).

(** ** The sampling of [generate] *)

(** One sampling step of [generate] at position [posId]: the forward pass on
    the current token, the logits divided by the temperature, softmax, and
    the weighted draw of the next token from the generator of the model. *)
Definition sample_step (temperature : R) (this : GPTModel) (tokenId : option nat)
    (posId : nat) (keys vals : list (list (list nat)))
    : M (option nat * GPTModel * list (list (list nat)) * list (list (list nat))) :=
  fw <- forward this tokenId posId keys vals ;;
  let '(logits, _, keys', vals') := fw in
  scaledLogits <- mapM (λ l, div l (ONumber (generate_divisor temperature))) logits ;;
  probs <- softmax scaledLogits ;;
  weights <- mapM get_data probs ;;
  drawn <- on_rng (choices (seq 0 (cfg_vocabSize (config this))) weights) this ;;
  ret (drawn.1, drawn.2, keys', vals').

(** Modelled from the spec: "start from the start/end marker at position 0;
    repeatedly run the forward pass ...; draw next token ...; stop on
    re-sampling the marker or hitting a maximum length". From position
    [posId] with current token [tokenId], sampling with limit [len] keeps the
    tokens [toks] and ends with the model [this'] and the store [s']. It
    stops at position [len] without a step; it stops when a step draws the
    marker, which is not kept; every other drawn token is kept and is the
    current token of the next position. *)
Inductive spec_sampling (temperature : R) (len : nat) :
    nat → GPTModel → option nat → list (list (list nat)) → list (list (list nat)) →
    Store → list (option nat) → GPTModel → Store → Prop :=
  | sampling_length posId this tokenId keys vals s :
      len ≤ posId →
      spec_sampling temperature len posId this tokenId keys vals s [] this s
  | sampling_marker posId this tokenId keys vals s this' keys' vals' s' :
      posId < len →
      sample_step temperature this tokenId posId keys vals s =
        Ok ((Some (BOS (tokenizer this)), this', keys', vals'), s') →
      spec_sampling temperature len posId this tokenId keys vals s [] this' s'
  | sampling_token posId this tokenId keys vals s next this1 keys1 vals1 s1
                   toks this' s' :
      posId < len →
      sample_step temperature this tokenId posId keys vals s =
        Ok ((next, this1, keys1, vals1), s1) →
      next ≠ Some (BOS (tokenizer this)) →
      spec_sampling temperature len (S posId) this1 next keys1 vals1 s1 toks this' s' →
      spec_sampling temperature len posId this tokenId keys vals s (next :: toks) this' s'.

(** ** Strings and surrogates *)

Definition high_surrogate (c : N) : bool := ((0xD800 <=? c) && (c <=? 0xDBFF))%N.
Definition low_surrogate (c : N) : bool := ((0xDC00 <=? c) && (c <=? 0xDFFF))%N.

(** A list of characters is the iteration of the string its characters join
    to when no lone high surrogate is followed by a lone low surrogate:
    joined, these two would read as one character. *)
Fixpoint well_paired (l : list N) : bool :=
  match l with
  | a :: l' =>
    match l' with
    | b :: _ => negb (high_surrogate a && low_surrogate b) && well_paired l'
    | [] => true
    end
  | [] => true
  end.

(** The optimizer state [trainStep] computes numbers from: one moment pair
    per parameter, second moments that are not negative (their square root
    is taken), decay rates strictly between 0 and 1 (the bias corrections
    [1 - beta ** (step + 1)] divide) and a positive [epsAdam]. *)
Definition adam_ok (this : GPTModel) : Prop :=
  length (m this) = length (params this) ∧
  length (v this) = length (params this) ∧
  Forall (λ x, 0 <= x)%R (v this) ∧
  (0 < beta1 this < 1)%R ∧ (0 < beta2 this < 1)%R ∧ (0 < epsAdam this)%R.

(** [x = new Value(2); y = new Value(3); z = x.mul(y); w = z.add(x);
    q = w.div(y); l = q.log(); e = l.exp()]: [x] and [y] are shared, and
    [q] goes through the node [y.pow(-1)]. *)
Definition quotient_calls : list call :=
  [CNew 2; CNew 3; CMul 0 (OValue 1); CAdd 2 (OValue 0); CDiv 3 (OValue 1);
   CLog 5; CExp 6].

(** * Proofs *)

(** ** Sums of reals *)

Lemma Rsum_nil : Rsum [] = 0%R.
Proof. reflexivity. Qed.

Lemma Rsum_cons a l : Rsum (a :: l) = (a + Rsum l)%R.
Proof. reflexivity. Qed.

Lemma Rsum_app l1 l2 : Rsum (l1 ++ l2) = (Rsum l1 + Rsum l2)%R.
Proof.
  induction l1 as [|a l1 IH]; simpl.
  - lra.
  - rewrite IH. lra.
Qed.

Lemma Rsum_map_zero {A} (f : A → R) (l : list A) :
  (∀ a, a ∈ l → f a = 0%R) → Rsum (map f l) = 0%R.
Proof.
  induction l as [|a l IH]; simpl; intros H; [done|].
  rewrite (H a), IH; [lra| |]; [intros; apply H|]; set_solver.
Qed.

Lemma Rsum_map_ext {A} (f g : A → R) (l : list A) :
  (∀ a, a ∈ l → f a = g a) → Rsum (map f l) = Rsum (map g l).
Proof.
  induction l as [|a l IH]; simpl; intros H; [done|].
  rewrite (H a), IH; [done| |]; [intros; apply H|]; set_solver.
Qed.

Lemma Rsum_map_scale {A} (k : R) (f : A → R) (l : list A) :
  Rsum (map (λ a, k * f a)%R l) = (k * Rsum (map f l))%R.
Proof.
  induction l as [|a l IH]; simpl; [lra|]. rewrite IH. lra.
Qed.

Lemma Rsum_map_plus {A} (f g : A → R) (l : list A) :
  Rsum (map (λ a, f a + g a)%R l) = (Rsum (map f l) + Rsum (map g l))%R.
Proof.
  induction l as [|a l IH]; simpl; [lra|]. rewrite IH. lra.
Qed.

(** ** The graph: operands are older, partial derivatives unfold *)

Lemma operands_lt cs i v c lg :
  wf_cells cs → cs !! i = Some v → (c, lg) ∈ operands v → c < i.
Proof.
  intros Hwf Hi Hin. destruct (Hwf i v Hi) as [H0 H1].
  unfold operands in Hin. apply elem_of_app in Hin as [Hin|Hin].
  - case_decide as Hn; [|set_solver].
    destruct (H0 Hn) as (c' & Hc & Hlt). rewrite Hc in Hin.
    apply list_elem_of_singleton in Hin. by simplify_eq.
  - case_decide as Hn; [|set_solver].
    destruct (H1 Hn) as (c' & Hc & Hlt). rewrite Hc in Hin.
    apply list_elem_of_singleton in Hin. by simplify_eq.
Qed.

Lemma partial_fuel_S f cs x n :
  partial_fuel (S f) cs x n =
    if decide (n = x) then 1%R
    else match cs !! n with
         | Some v => Rsum (map (λ '(c, lg), (lg * partial_fuel f cs x c)%R) (operands v))
         | None => 0%R
         end.
Proof. reflexivity. Qed.

Lemma partial_fuel_enough cs x :
  wf_cells cs →
  ∀ n f1 f2, n < f1 → n < f2 → partial_fuel f1 cs x n = partial_fuel f2 cs x n.
Proof.
  intros Hwf n. induction n as [n IH] using lt_wf_ind.
  intros [|f1] [|f2] H1 H2; try lia. rewrite !partial_fuel_S.
  case_decide; [done|]. destruct (cs !! n) as [v|] eqn:Hn; [|done].
  apply Rsum_map_ext. intros [c lg] Hin.
  pose proof (operands_lt _ _ _ _ _ Hwf Hn Hin).
  f_equal. apply IH; lia.
Qed.

Lemma partial_unfold cs x n :
  wf_cells cs →
  partial cs x n =
    if decide (n = x) then 1%R
    else match cs !! n with
         | Some v => Rsum (map (λ '(c, lg), (lg * partial cs x c)%R) (operands v))
         | None => 0%R
         end.
Proof.
  intros Hwf. unfold partial at 1. rewrite partial_fuel_S.
  case_decide; [done|]. destruct (cs !! n) as [v|] eqn:Hn; [|done].
  apply Rsum_map_ext. intros [c lg] Hin.
  pose proof (operands_lt _ _ _ _ _ Hwf Hn Hin).
  f_equal. apply partial_fuel_enough; [done|lia..].
Qed.

Lemma partial_self cs x : partial cs x x = 1%R.
Proof. unfold partial. rewrite partial_fuel_S. by rewrite decide_True. Qed.

Lemma operands_links v v' : links v = links v' → operands v = operands v'.
Proof. unfold links, operands. intros [= -> -> -> -> ->]. done. Qed.

Lemma links_lookup cs cs' i v :
  map links cs = map links cs' → cs !! i = Some v →
  ∃ v', cs' !! i = Some v' ∧ links v' = links v.
Proof.
  intros Heq Hi.
  assert (map links cs' !! i = Some (links v)) as H.
  { rewrite <- Heq. change (map links cs) with (links <$> cs).
    by rewrite list_lookup_fmap, Hi. }
  change (map links cs') with (links <$> cs') in H.
  rewrite list_lookup_fmap in H.
  destruct (cs' !! i) as [v'|]; simpl in H; [|done].
  exists v'. split; [done|congruence].
Qed.

Lemma wf_cells_links cs cs' :
  map links cs = map links cs' → wf_cells cs → wf_cells cs'.
Proof.
  intros Heq Hwf i v' Hi.
  destruct (links_lookup cs' cs i v' (eq_sym Heq) Hi) as (v & Hv & Hl).
  destruct (Hwf i v Hv) as [H0 H1].
  unfold links in Hl. injection Hl as Hc0 Hc1 _ _ Hn.
  rewrite <- Hc0, <- Hc1, <- Hn in *. done.
Qed.

Lemma partial_fuel_links cs cs' x :
  map links cs = map links cs' →
  ∀ f n, partial_fuel f cs x n = partial_fuel f cs' x n.
Proof.
  intros Heq f. induction f as [|f IH]; intros n; [done|].
  rewrite !partial_fuel_S. case_decide; [done|].
  destruct (cs !! n) as [v|] eqn:Hn.
  - destruct (links_lookup cs cs' n v Heq Hn) as (v' & -> & Hl).
    rewrite (operands_links _ _ Hl). apply Rsum_map_ext. intros [c lg] _.
    by rewrite IH.
  - assert (cs' !! n = None) as ->; [|done].
    apply lookup_ge_None. apply lookup_ge_None in Hn.
    rewrite <- (length_map links cs'), <- Heq, length_map. done.
Qed.

Lemma partial_links cs cs' x n :
  map links cs = map links cs' → partial cs x n = partial cs' x n.
Proof. intros. by apply partial_fuel_links. Qed.

Lemma partial_older cs x n : wf_cells cs → n < x → partial cs x n = 0%R.
Proof.
  intros Hwf. induction n as [n IH] using lt_wf_ind. intros Hlt.
  rewrite partial_unfold by done. rewrite decide_False by lia.
  destruct (cs !! n) as [v|] eqn:Hn; [|done].
  apply Rsum_map_zero. intros [c lg] Hin.
  pose proof (operands_lt _ _ _ _ _ Hwf Hn Hin).
  rewrite IH by lia. lra.
Qed.

(** In a list closed under operands, nothing depends on a node outside it. *)
Lemma partial_outside cs (l : list nat) x :
  wf_cells cs →
  (∀ n v c lg, n ∈ l → cs !! n = Some v → (c, lg) ∈ operands v → c ∈ l) →
  x ∉ l → ∀ n, n ∈ l → partial cs x n = 0%R.
Proof.
  intros Hwf Hcl Hx n. induction n as [n IH] using lt_wf_ind. intros Hn.
  rewrite partial_unfold by done. rewrite decide_False by set_solver.
  destruct (cs !! n) as [v|] eqn:Hv; [|done].
  apply Rsum_map_zero. intros [c lg] Hin.
  rewrite IH; [lra| |]; eauto using operands_lt.
Qed.

(** ** The reverse loop of [backward] *)

Lemma add_grad_length cs cd : length (add_grad cs cd) = length cs.
Proof. unfold add_grad. destruct (cs !! cd.1); [apply length_insert|done]. Qed.

Lemma add_grad_map {B} (π : Value → B) cs cd :
  (∀ g v, π (with_grad g v) = π v) → map π (add_grad cs cd) = map π cs.
Proof.
  intros Hπ. unfold add_grad. destruct (cs !! cd.1) as [v|] eqn:Hv; [|done].
  change (π <$> <[cd.1:=with_grad (grad v + cd.2) v]> cs = π <$> cs).
  rewrite list_fmap_insert, Hπ. apply list_insert_id.
  by rewrite list_lookup_fmap, Hv.
Qed.

Lemma foldl_add_grad_length cs ops : length (foldl add_grad cs ops) = length cs.
Proof.
  revert cs. induction ops as [|cd ops IH]; intros cs; simpl; [done|].
  by rewrite IH, add_grad_length.
Qed.

Lemma foldl_add_grad_map {B} (π : Value → B) cs ops :
  (∀ g v, π (with_grad g v) = π v) → map π (foldl add_grad cs ops) = map π cs.
Proof.
  intros Hπ. revert cs. induction ops as [|cd ops IH]; intros cs; simpl; [done|].
  by rewrite IH, add_grad_map.
Qed.

Lemma gradf_add_grad cs cd n :
  cd.1 < length cs →
  gradf (add_grad cs cd) n = (gradf cs n + if decide (n = cd.1) then cd.2 else 0)%R.
Proof.
  intros Hlt. unfold add_grad, gradf.
  destruct (lookup_lt_is_Some_2 cs cd.1 Hlt) as [v Hv]. rewrite Hv.
  case_decide as Hn.
  - subst n. rewrite list_lookup_insert_eq by done. by rewrite Hv.
  - rewrite list_lookup_insert_ne by done. destruct (cs !! n); simpl; lra.
Qed.

Lemma gradf_foldl_add_grad_other cs ops n :
  (∀ c d, (c, d) ∈ ops → c ≠ n) → gradf (foldl add_grad cs ops) n = gradf cs n.
Proof.
  revert cs. induction ops as [|[c d] ops IH]; intros cs Hne; simpl; [done|].
  rewrite IH by (intros c' d' H; eapply Hne; apply elem_of_cons; right; exact H).
  unfold add_grad, gradf. simpl. destruct (cs !! c) as [v|] eqn:Hv; [|done].
  rewrite list_lookup_insert_ne; [done|]. eapply Hne. apply elem_of_cons. by left.
Qed.

Lemma Rsum_add_grad cs c d (l : list nat) (f : nat → R) :
  NoDup l → c ∈ l → c < length cs →
  Rsum (map (λ n, gradf (add_grad cs (c, d)) n * f n)%R l) =
  (Rsum (map (λ n, gradf cs n * f n)%R l) + d * f c)%R.
Proof.
  intros Hnd Hin Hlt. revert Hin.
  induction Hnd as [|a l Ha Hnd IH]; intros Hin; [set_solver|].
  cbn [map]. rewrite !Rsum_cons, gradf_add_grad by done. cbn [fst snd].
  destruct (decide (a = c)) as [->|Hne].
  - rewrite (Rsum_map_ext _ (λ n, gradf cs n * f n)%R l); [lra|].
    intros n Hn. rewrite gradf_add_grad by done. cbn [fst snd].
    rewrite decide_False by set_solver. lra.
  - rewrite IH by set_solver. lra.
Qed.

Lemma Rsum_foldl_add_grad cs ops (l : list nat) (f : nat → R) :
  NoDup l → (∀ c d, (c, d) ∈ ops → c ∈ l ∧ c < length cs) →
  Rsum (map (λ n, gradf (foldl add_grad cs ops) n * f n)%R l) =
  (Rsum (map (λ n, gradf cs n * f n)%R l) + Rsum (map (λ cd, cd.2 * f cd.1)%R ops))%R.
Proof.
  intros Hnd. revert cs.
  induction ops as [|[c d] ops IH]; intros cs Hops; cbn [foldl map fst snd].
  - rewrite Rsum_nil. lra.
  - rewrite IH.
    + destruct (Hops c d) as [Hc Hlt]; [apply elem_of_cons; by left|].
      rewrite Rsum_add_grad, Rsum_cons by done. cbn [fst snd]. lra.
    + intros c' d' Hin. rewrite add_grad_length. apply (Hops c' d').
      apply elem_of_cons. by right.
Qed.

Lemma propagate_ok s v vv :
  wf_cells (cells s) → cells s !! v = Some vv →
  propagate v s =
    Ok (tt, mkStore (foldl add_grad (cells s)
                       (map (λ '(c, lg), (c, lg * grad vv)%R) (operands vv)))
                    (module_gen s)).
Proof.
  intros Hwf Hv. destruct s as [cs g]. simpl in *.
  destruct (Hwf v vv Hv) as [H0 H1].
  assert (v < length cs) as Hlen by (by eapply lookup_lt_Some).
  unfold propagate, operands, bind, get, modify, deref, ret. simpl. rewrite Hv.
  destruct (decide (1 ≤ _nch vv)) as [Hn0|Hn0];
    destruct (decide (_nch vv = 2)) as [Hn1|Hn1]; simpl.
  - destruct (H0 Hn0) as (c0 & -> & Hc0). destruct (H1 Hn1) as (c1 & -> & Hc1).
    simpl. destruct (lookup_lt_is_Some_2 cs c0) as [v0 Hv0]; [lia|].
    rewrite Hv0. simpl.
    unfold add_grad at 2. simpl. rewrite Hv0.
    destruct (lookup_lt_is_Some_2 (<[c0:=with_grad (grad v0 + _lg0 vv * grad vv) v0]> cs) c1)
      as [v1 Hv1]; [rewrite length_insert; lia|].
    rewrite Hv1. unfold add_grad. simpl. by rewrite Hv1.
  - destruct (H0 Hn0) as (c0 & -> & Hc0).
    simpl. destruct (lookup_lt_is_Some_2 cs c0) as [v0 Hv0]; [lia|].
    rewrite Hv0. simpl. unfold add_grad. simpl. by rewrite Hv0.
  - destruct (H1 Hn1) as (c1 & -> & Hc1).
    simpl. destruct (lookup_lt_is_Some_2 cs c1) as [v1 Hv1]; [lia|].
    rewrite Hv1. simpl. unfold add_grad. simpl. by rewrite Hv1.
  - done.
Qed.

Lemma topo_sorted_links cs cs' l :
  map links cs = map links cs' → topo_sorted cs l → topo_sorted cs' l.
Proof.
  intros Heq Hts l1 p l2 Hl. destruct (Hts l1 p l2 Hl) as (v & Hv & Hops).
  destruct (links_lookup cs cs' p v Heq Hv) as (v' & Hv' & Hlk).
  exists v'. split; [done|]. by rewrite (operands_links _ _ Hlk).
Qed.

Lemma topo_sorted_prefix cs l p : topo_sorted cs (l ++ [p]) → topo_sorted cs l.
Proof.
  intros Hts l1 q l2 ->. apply (Hts l1 q (l2 ++ [p])).
  by rewrite <- app_assoc.
Qed.

Lemma topo_sorted_closed cs (l : list nat) n v c lg :
  topo_sorted cs l → n ∈ l → cs !! n = Some v → (c, lg) ∈ operands v → c ∈ l.
Proof.
  intros Hts Hn Hv Hin. apply list_elem_of_split in Hn as (l1 & l2 & ->).
  destruct (Hts l1 n l2 eq_refl) as (v' & Hv' & Hops). simplify_eq.
  apply elem_of_app. left. eauto.
Qed.

Lemma Rsum_operands_scaled (k : R) (f : nat → R) (ops : list (nat * R)) :
  Rsum (map (λ cd : nat * R, cd.2 * f cd.1)%R (map (λ '(c, lg), (c, lg * k)%R) ops)) =
  (k * Rsum (map (λ '(c, lg), lg * f c)%R ops))%R.
Proof.
  induction ops as [|[c lg] ops IH]; cbn [map fst snd].
  - rewrite Rsum_nil. lra.
  - rewrite !Rsum_cons, IH. cbn [fst snd]. lra.
Qed.

Lemma backward_loop (F : nat → R) (U : list nat) :
  ∀ s,
    wf_cells (cells s) → topo_sorted (cells s) U → NoDup U →
    (∀ x, x ∈ U →
       Rsum (map (λ n, gradf (cells s) n * partial (cells s) x n)%R U) = F x) →
    ∃ cs',
      for_each propagate (rev U) s = Ok (tt, mkStore cs' (module_gen s)) ∧
      map links cs' = map links (cells s) ∧
      map _gen cs' = map _gen (cells s) ∧
      map data cs' = map data (cells s) ∧
      (∀ x, x ∈ U → gradf cs' x = F x) ∧
      (∀ x, x ∉ U → gradf cs' x = gradf (cells s) x).
Proof.
  induction U as [|p U IH] using rev_ind; intros s Hwf Hts Hnd Hinv.
  - exists (cells s). destruct s. simpl. split_and!; try done. set_solver.
  - apply NoDup_app in Hnd as (HndU & Hdisj & _).
    assert (p ∉ U) as HpU.
    { intros Hp. apply (Hdisj p Hp). apply list_elem_of_singleton. done. }
    destruct (Hts U p [] eq_refl) as (vp & Hvp & Hops).
    pose proof (topo_sorted_prefix _ _ _ Hts) as HtsU.
    set (ops' := map (λ '(c, lg), (c, lg * grad vp)%R) (operands vp)).
    set (cs1 := foldl add_grad (cells s) ops').
    assert (map links cs1 = map links (cells s)) as Hlk1
      by (by apply foldl_add_grad_map).
    (* the gradient of [p] is final *)
    assert (gradf (cells s) p = F p) as Hgp.
    { rewrite <- (Hinv p) by (apply elem_of_app; right; by apply list_elem_of_singleton).
      rewrite map_app, Rsum_app. cbn [map]. rewrite Rsum_cons, Rsum_nil, partial_self.
      rewrite Rsum_map_zero; [lra|].
      intros n Hn. rewrite (partial_outside (cells s) U p); [lra|done| |done|done].
      intros; by eapply topo_sorted_closed. }
    assert (grad vp = F p) as Hgvp.
    { rewrite <- Hgp. unfold gradf. by rewrite Hvp. }
    assert (∀ c d, (c, d) ∈ ops' → c ∈ U ∧ c < length (cells s)) as Hops'.
    { intros c d Hin. unfold ops' in Hin.
      apply list_elem_of_fmap in Hin as ([c' lg] & [= -> ->] & Hin).
      split; [by eapply Hops|].
      pose proof (operands_lt _ _ _ _ _ Hwf Hvp Hin).
      apply lookup_lt_Some in Hvp. lia. }
    destruct (IH (mkStore cs1 (module_gen s))) as (cs' & Hrun & Hlk & Hgen & Hdat & HinU & HoutU).
    + simpl. by eapply wf_cells_links.
    + simpl. by eapply topo_sorted_links.
    + done.
    + simpl. intros x Hx.
      rewrite (Rsum_map_ext _ (λ n, gradf cs1 n * partial (cells s) x n)%R).
      2:{ intros n _. by rewrite (partial_links cs1 (cells s)). }
      unfold cs1. rewrite Rsum_foldl_add_grad by done.
      unfold ops'. rewrite Rsum_operands_scaled.
      rewrite <- (Hinv x) by (apply elem_of_app; by left).
      rewrite map_app, Rsum_app. cbn [map]. rewrite Rsum_cons, Rsum_nil.
      rewrite (partial_unfold (cells s) x p) by done.
      rewrite decide_False by (intros ->; done). rewrite Hvp.
      unfold gradf at 3. rewrite Hvp. lra.
    + exists cs'. simpl in *. split_and!.
      * rewrite rev_unit. cbn [for_each]. unfold bind.
        rewrite (propagate_ok s p vp) by done. exact Hrun.
      * congruence.
      * rewrite Hgen. by apply foldl_add_grad_map.
      * rewrite Hdat. by apply foldl_add_grad_map.
      * intros x Hx. apply elem_of_app in Hx as [Hx|Hx]; [by apply HinU|].
        apply list_elem_of_singleton in Hx as ->.
        rewrite HoutU by done. unfold cs1.
        rewrite gradf_foldl_add_grad_other; [done|].
        intros c d Hin ->. by destruct (Hops' p d Hin).
      * intros x Hx. rewrite HoutU by set_solver. unfold cs1.
        rewrite gradf_foldl_add_grad_other; [done|].
        intros c d Hin ->. destruct (Hops' x d Hin). set_solver.
Qed.

(** ** [buildTopo] *)

Lemma buildTopo_S fuel gen v topo :
  buildTopo (S fuel) gen v topo =
    (vv <- get v ;;
     if decide (_gen vv = gen) then ret topo
     else
       modify v (with_gen gen) ;;;
       topo <- (if decide (1 ≤ _nch vv)
               then c <- deref (_c0 vv) ;; buildTopo fuel gen c topo
               else ret topo) ;;
       topo <- (if decide (_nch vv = 2)
               then c <- deref (_c1 vv) ;; buildTopo fuel gen c topo
               else ret topo) ;;
       ret (topo ++ [v])).
Proof. reflexivity. Qed.

Lemma reach_links cs cs' r n :
  map links cs = map links cs' → reach cs r n → reach cs' r n.
Proof.
  intros Heq. induction 1 as [|p v c lg _ IH Hp Hin]; [constructor|].
  destruct (links_lookup cs cs' p v Heq Hp) as (v' & Hv' & Hlk).
  eapply reach_step; [exact IH|exact Hv'|]. by rewrite (operands_links _ _ Hlk).
Qed.

Lemma reach_via cs r v c lg n :
  cs !! r = Some v → (c, lg) ∈ operands v → reach cs c n → reach cs r n.
Proof.
  intros Hr Hin. induction 1 as [|p vp c' lg' _ IH Hp Hin'].
  - eapply reach_step; [constructor|done..].
  - eapply reach_step; [exact IH|done..].
Qed.

Lemma marked_links_lookup cs cs' n v :
  map links cs' = map links cs → cs' !! n = Some v →
  ∃ v0, cs !! n = Some v0 ∧ operands v0 = operands v.
Proof.
  intros Heq Hn. destruct (links_lookup cs' cs n v Heq Hn) as (v0 & Hv0 & Hlk).
  exists v0. split; [done|]. by apply operands_links.
Qed.

Lemma topo_post_nil g cs topo : topo_post g cs topo cs [].
Proof.
  unfold topo_post. split_and!; try done.
  - set_solver.
  - set_solver.
  - constructor.
  - intros [|??] ???; done.
Qed.

Lemma topo_post_app g cs topo cs1 new0 cs2 new1 :
  topo_post g cs topo cs1 new0 →
  topo_post g cs1 (topo ++ new0) cs2 new1 →
  topo_post g cs topo cs2 (new0 ++ new1).
Proof.
  intros (Hl0 & Hg0 & Hd0 & Hm0 & Hu0 & Hn0 & Hnd0 & Hs0)
         (Hl1 & Hg1 & Hd1 & Hm1 & Hu1 & Hn1 & Hnd1 & Hs1).
  unfold topo_post. split_and!; try congruence.
  - intros n. rewrite Hm1, Hm0, elem_of_app. tauto.
  - intros n Hn. rewrite Hu1 by done. apply Hu0. rewrite Hm1 in Hn. tauto.
  - intros n Hn. apply elem_of_app in Hn as [Hn|Hn]; [by apply Hn0|].
    intros Hm. apply (Hn1 n Hn). apply Hm0. by left.
  - apply NoDup_app. split_and!; [done| |done].
    intros n Hn Hn'. apply (Hn1 n Hn'). apply Hm0. by right.
  - intros l1 p l2 Heq.
    apply app_eq_app in Heq as [l' [[-> Heq]|[-> Heq]]].
    + destruct l' as [|q l']; simpl in Heq.
      * subst new1. destruct (Hs1 [] p l2 eq_refl) as (vp & Hvp & Hops).
        destruct (marked_links_lookup cs cs1 p vp Hl0 Hvp) as (v0 & Hv0 & Ho).
        exists v0. split; [done|]. rewrite Ho. intros c lg Hin.
        specialize (Hops c lg Hin). by rewrite !app_nil_r in *.
      * injection Heq as -> ->.
        destruct (Hs0 l1 q l' eq_refl) as (vp & Hvp & Hops). eauto.
    + subst new1. destruct (Hs1 l' p l2 eq_refl) as (vp & Hvp & Hops).
      destruct (marked_links_lookup cs cs1 p vp Hl0 Hvp) as (v0 & Hv0 & Ho).
      exists v0. split; [done|]. rewrite Ho. intros c lg Hin.
      specialize (Hops c lg Hin). by rewrite <- app_assoc in Hops.
Qed.

Lemma insert_map {B} (π : Value → B) cs i v v' :
  cs !! i = Some v → π v' = π v → map π (<[i:=v']> cs) = map π cs.
Proof.
  intros Hi Hπ. change (π <$> <[i:=v']> cs = π <$> cs).
  rewrite list_fmap_insert, Hπ. apply list_insert_id.
  by rewrite list_lookup_fmap, Hi.
Qed.

Lemma marked_insert g cs v vv n :
  cs !! v = Some vv →
  marked g (<[v:=with_gen g vv]> cs) n ↔ marked g cs n ∨ n = v.
Proof.
  intros Hv. unfold marked. destruct (decide (n = v)) as [->|Hne].
  - rewrite list_lookup_insert_eq by (by eapply lookup_lt_Some). simpl. tauto.
  - rewrite list_lookup_insert_ne by done. tauto.
Qed.

Lemma topo_post_mark g cs topo v vv cs' inner :
  cs !! v = Some vv → _gen vv ≠ g →
  topo_post g (<[v:=with_gen g vv]> cs) topo cs' inner →
  v ∉ inner →
  (∀ c lg, (c, lg) ∈ operands vv → c ∈ topo ++ inner) →
  topo_post g cs topo cs' (inner ++ [v]).
Proof.
  intros Hv Hg (Hl & Hgr & Hd & Hm & Hu & Hn & Hnd & Hs) Hvi Hops.
  assert (¬ marked g cs v) as Hnm.
  { unfold marked. rewrite Hv. simpl. congruence. }
  unfold topo_post. split_and!.
  - rewrite Hl. by apply (insert_map links cs v vv).
  - rewrite Hgr. by apply (insert_map grad cs v vv).
  - rewrite Hd. by apply (insert_map data cs v vv).
  - intros n. rewrite Hm, marked_insert, elem_of_app, list_elem_of_singleton by done.
    tauto.
  - intros n Hn'. rewrite Hu by done.
    assert (n ≠ v) as Hne.
    { intros ->. apply Hn', Hm. left. apply marked_insert; auto. }
    by rewrite list_lookup_insert_ne.
  - intros n Hin Hmk. apply elem_of_app in Hin as [Hin|Hin].
    + apply (Hn n Hin). apply marked_insert; auto.
    + apply list_elem_of_singleton in Hin as ->. done.
  - apply NoDup_app. split_and!; [done| |apply NoDup_singleton].
    intros n Hin Hin'. apply list_elem_of_singleton in Hin' as ->. done.
  - intros l1 p l2 Heq.
    apply app_eq_app in Heq as [l' [[-> Heq]|[-> Heq]]].
    + destruct l' as [|q l']; simpl in Heq.
      * injection Heq as -> ->. exists vv. split; [done|].
        intros c lg Hin. specialize (Hops c lg Hin). by rewrite app_nil_r in Hops.
      * injection Heq as <- Heq.
        destruct (Hs l1 p l' eq_refl) as (vp & Hvp & Hops').
        destruct (marked_links_lookup cs (<[v:=with_gen g vv]> cs) p vp) as (v0 & Hv0 & Ho);
          [by apply (insert_map links cs v vv)|done|].
        exists v0. split; [done|]. by rewrite Ho.
    + symmetry in Heq. apply app_singleton in Heq as [[-> Heq]|[_ Heq]]; [|done].
      injection Heq as -> ->. exists vv. split; [done|].
      intros c lg Hin. rewrite app_nil_r. eauto.
Qed.

Lemma visit_child g fuel v (P : Prop) (d : Decision P) oc cs mg topo :
  (∀ c, c < v → buildTopo_claim g fuel c) →
  wf_cells cs → v ≤ length cs → v ≤ fuel →
  (P → ∃ c, oc = Some c ∧ c < v) →
  (∀ n, n < v → marked g cs n → n ∈ topo) →
  ∃ cs' new,
    (if d then c <- deref oc ;; buildTopo fuel g c topo else ret topo)
      (mkStore cs mg) = Ok (topo ++ new, mkStore cs' mg) ∧
    topo_post g cs topo cs' new ∧
    (∀ n, n ∈ new → n < v ∧ ∃ c, P ∧ oc = Some c ∧ reach cs c n) ∧
    (∀ c, P → oc = Some c → c ∈ topo ++ new).
Proof.
  intros IH Hwf Hlen Hfuel Hoc Hpre. destruct d as [HP|HP].
  - destruct (Hoc HP) as (c & -> & Hc).
    destruct (IH c Hc (mkStore cs mg) topo) as (cs' & new & Hrun & Hpost & Hnew & Hin);
      simpl; [done|lia|lia| |].
    { intros n Hn. apply Hpre. lia. }
    exists cs', new. split_and!.
    + unfold bind, deref, ret. exact Hrun.
    + done.
    + intros n Hn. destruct (Hnew n Hn) as [Hle Hr]. split; [lia|]. eauto.
    + intros c' _ [= <-]. done.
  - exists cs, []. split_and!.
    + unfold ret. by rewrite app_nil_r.
    + apply topo_post_nil.
    + set_solver.
    + done.
Qed.

Lemma buildTopo_spec g fuel v : buildTopo_claim g fuel v.
Proof.
  revert fuel. induction v as [v IH] using lt_wf_ind.
  intros [|fuel] [cs mg] topo Hwf Hlen Hfuel Hpre; [lia|].
  cbn [cells module_gen] in *.
  destruct (lookup_lt_is_Some_2 cs v Hlen) as [vv Hv].
  destruct (Hwf v vv Hv) as [H0 H1].
  rewrite buildTopo_S. unfold bind at 1. unfold get. simpl. rewrite Hv.
  destruct (decide (_gen vv = g)) as [Hg|Hg].
  - exists cs, []. rewrite app_nil_r. split_and!.
    + done.
    + apply topo_post_nil.
    + set_solver.
    + apply (Hpre v); [lia|]. unfold marked. by rewrite Hv, <- Hg.
  - set (csm := <[v:=with_gen g vv]> cs).
    assert (map links csm = map links cs) as Hlm by (by apply (insert_map links cs v vv)).
    assert (wf_cells csm) as Hwfm by (by eapply wf_cells_links).
    assert (length csm = length cs) as Hlenm by apply length_insert.
    destruct (visit_child g fuel v _ (decide (1 ≤ _nch vv)) (_c0 vv) csm mg topo)
      as (cs1 & new0 & Hrun0 & Hpost0 & Hnew0 & Hin0);
      [intros c Hc; apply IH; done|done|lia|lia|done| |].
    { intros n Hn Hm. apply (Hpre n); [lia|].
      apply marked_insert in Hm as [Hm| ->]; [done|lia|done]. }
    pose proof Hpost0 as (Hl0 & _ & _ & Hm0 & _).
    assert (wf_cells cs1) as Hwf1 by (by eapply wf_cells_links).
    assert (length cs1 = length cs) as Hlen1.
    { rewrite <- (length_map links cs1), Hl0, length_map. done. }
    destruct (visit_child g fuel v _ (decide (_nch vv = 2)) (_c1 vv) cs1 mg (topo ++ new0))
      as (cs2 & new1 & Hrun1 & Hpost1 & Hnew1 & Hin1);
      [intros c Hc; apply IH; done|done|lia|lia|done| |].
    { intros n Hn Hm. apply Hm0 in Hm as [Hm|Hm].
      - apply elem_of_app. left. apply (Hpre n); [lia|].
        apply marked_insert in Hm as [Hm| ->]; [done|lia|done].
      - apply elem_of_app. by right. }
    exists cs2, ((new0 ++ new1) ++ [v]). split_and!.
    + unfold bind in Hrun0, Hrun1 |- *. unfold modify. simpl. rewrite Hv. fold csm.
      rewrite Hrun0, Hrun1. unfold ret. by rewrite <- !app_assoc.
    + apply (topo_post_mark g cs topo v vv); [done|done| | |].
      * eapply topo_post_app; done.
      * intros Hin. apply elem_of_app in Hin as [Hin|Hin].
        -- destruct (Hnew0 v Hin). lia.
        -- destruct (Hnew1 v Hin). lia.
      * intros c lg Hin. unfold operands in Hin.
        apply elem_of_app in Hin as [Hin|Hin].
        -- case_decide as Hn; [|set_solver].
           destruct (H0 Hn) as (c0 & Hc0 & _). rewrite Hc0 in Hin.
           apply list_elem_of_singleton in Hin as [= -> ->].
           specialize (Hin0 c0 Hn Hc0). set_solver.
        -- case_decide as Hn; [|set_solver].
           destruct (H1 Hn) as (c1 & Hc1 & _). rewrite Hc1 in Hin.
           apply list_elem_of_singleton in Hin as [= -> ->].
           specialize (Hin1 c1 Hn Hc1). set_solver.
    + intros n Hin. apply elem_of_app in Hin as [Hin|Hin].
      * apply elem_of_app in Hin as [Hin|Hin].
        -- destruct (Hnew0 n Hin) as (Hlt & c & Hn & Hc & Hr). split; [lia|].
           apply (reach_via cs v vv c (_lg0 vv)); [done| |].
           ++ unfold operands. rewrite decide_True, Hc by done.
              apply elem_of_app. left. by apply list_elem_of_singleton.
           ++ by eapply reach_links.
        -- destruct (Hnew1 n Hin) as (Hlt & c & Hn & Hc & Hr). split; [lia|].
           apply (reach_via cs v vv c (_lg1 vv)); [done| |].
           ++ unfold operands. rewrite (decide_True (P := _nch vv = 2)), Hc by done.
              apply elem_of_app. right. by apply list_elem_of_singleton.
           ++ eapply reach_links; [|exact Hr]. congruence.
      * apply list_elem_of_singleton in Hin as ->. split; [lia|constructor].
    + apply elem_of_app. right. apply elem_of_app. right.
      by apply list_elem_of_singleton.
Qed.

(** ** [backward] *)

Lemma Rsum_indicator (l : list nat) (r : nat) (g f : nat → R) :
  NoDup l → r ∈ l → g r = 1%R → (∀ n, n ∈ l → n ≠ r → g n = 0%R) →
  Rsum (map (λ n, g n * f n)%R l) = f r.
Proof.
  intros Hnd Hr Hg1 Hg0. revert Hr Hg0.
  induction Hnd as [|a l Ha Hnd IH]; intros Hr Hg0; [by apply elem_of_nil in Hr|].
  cbn [map]. rewrite Rsum_cons. destruct (decide (a = r)) as [->|Hne].
  - rewrite Hg1, Rsum_map_zero; [lra|].
    intros n Hn. rewrite Hg0; [lra|by apply elem_of_cons; right|].
    intros ->. done.
  - rewrite Hg0, IH; [lra| | |by apply elem_of_cons; left|done].
    + apply elem_of_cons in Hr as [->|Hr]; done.
    + intros n Hn. apply Hg0. apply elem_of_cons. by right.
Qed.

Lemma map_lookup_eq {B} (π : Value → B) cs cs' n :
  map π cs = map π cs' → π <$> cs !! n = π <$> cs' !! n.
Proof.
  intros Heq. rewrite <- !list_lookup_fmap.
  change (π <$> cs) with (map π cs). change (π <$> cs') with (map π cs').
  by rewrite Heq.
Qed.

Lemma gradf_map cs cs' n : map grad cs = map grad cs' → gradf cs n = gradf cs' n.
Proof.
  intros Heq. pose proof (map_lookup_eq grad cs cs' n Heq) as H. unfold gradf.
  destruct (cs !! n), (cs' !! n); simpl in H; congruence.
Qed.

Lemma backward_general s root :
  wf_store s → root < length (cells s) →
  ∃ cs1 topo cs',
    backward_topo root s = Ok (topo, mkStore cs1 (S (module_gen s))) ∧
    backward root s = Ok (tt, mkStore cs' (S (module_gen s))) ∧
    NoDup topo ∧
    (∀ n, n ∈ topo ↔ reach (cells s) root n) ∧
    (∀ x, x ∈ topo →
       gradf cs' x =
         Rsum (map (λ n, (if decide (n = root) then 1 else gradf (cells s) n) *
                         partial (cells s) x n)%R topo)) ∧
    (∀ n, ¬ reach (cells s) root n → gradf cs' n = gradf (cells s) n) ∧
    map links cs' = map links (cells s) ∧
    map data cs' = map data (cells s) ∧
    wf_store (mkStore cs' (S (module_gen s))).
Proof.
  destruct s as [cs mg]. cbn [cells module_gen]. intros [Hwf Hgen] Hroot.
  cbn [cells module_gen] in *.
  (* buildTopo *)
  destruct (buildTopo_spec (S mg) (S (length cs)) root (mkStore cs (S mg)) [])
    as (cs1 & topo & Hrun & Hpost & Hnew & Hin); cbn [cells module_gen]; [done|lia|lia| |].
  { intros n _ Hm. unfold marked in Hm.
    destruct (cs !! n) as [v|] eqn:Hn; simpl in Hm; [|done].
    specialize (Hgen n v Hn). cbn in Hgen. injection Hm as Hm. lia. }
  rewrite app_nil_l in Hrun, Hin. cbn [cells module_gen] in *.
  destruct Hpost as (Hl1 & Hg1 & Hd1 & Hm1 & Hu1 & Hn1 & Hnd & Hs1).
  assert (topo_sorted cs topo) as Hts.
  { intros l1 p l2 Heq. destruct (Hs1 l1 p l2 Heq) as (vp & Hvp & Hops).
    exists vp. split; [done|]. intros c lg Hc. by apply (Hops c lg). }
  assert (∀ n, n ∈ topo ↔ reach cs root n) as Hcover.
  { intros n. split; [intros Hn; by apply Hnew|].
    induction 1 as [|p v c lg _ IH Hp Hc]; [done|]. by eapply topo_sorted_closed. }
  (* this.grad = 1 *)
  assert (wf_cells cs1) as Hwf1 by (by eapply wf_cells_links).
  assert (length cs1 = length cs) as Hlen1.
  { rewrite <- (length_map links cs1), Hl1, length_map. done. }
  destruct (lookup_lt_is_Some_2 cs1 root) as [vr Hvr]; [lia|].
  set (cs2 := <[root:=with_grad 1 vr]> cs1).
  assert (map links cs2 = map links cs) as Hl2.
  { rewrite <- Hl1. by apply (insert_map links cs1 root vr). }
  assert (∀ n, gradf cs2 n = if decide (n = root) then 1%R else gradf cs n) as Hg2.
  { intros n. unfold cs2, gradf at 1. case_decide as Hn.
    - subst n. rewrite list_lookup_insert_eq by lia. done.
    - rewrite list_lookup_insert_ne by done. by apply gradf_map. }
  (* the reverse loop *)
  destruct (backward_loop
              (λ x, Rsum (map (λ n, (if decide (n = root) then 1 else gradf cs n) *
                                    partial cs x n)%R topo))
              topo (mkStore cs2 (S mg)))
    as (cs' & Hloop & Hl' & Hgen' & Hd' & Hin' & Hout'); cbn [cells module_gen].
  { by eapply wf_cells_links. }
  { by eapply topo_sorted_links. }
  { done. }
  { intros x Hx. apply Rsum_map_ext. intros n _.
    by rewrite Hg2, (partial_links cs2 cs). }
  cbn [cells module_gen] in *.
  exists cs1, topo, cs'. split_and!.
  - unfold backward_topo, bind, next_gen, store_size. cbn [cells module_gen]. exact Hrun.
  - unfold backward, backward_topo, bind, next_gen, store_size. cbn [cells module_gen].
    rewrite Hrun. unfold modify. cbn [cells module_gen]. rewrite Hvr. exact Hloop.
  - done.
  - done.
  - done.
  - intros n Hn. rewrite Hout' by (by rewrite Hcover). rewrite Hg2.
    rewrite decide_False; [done|]. intros ->. apply Hn. constructor.
  - congruence.
  - rewrite Hd'. unfold cs2. rewrite (insert_map data cs1 root vr); done.
  - split; cbn [cells module_gen].
    + eapply wf_cells_links; [|exact Hwf]. congruence.
    + intros i v Hi. cbn [cells module_gen] in *.
      assert (_gen <$> cs1 !! i = Some (_gen v)) as Hi1.
      { rewrite (map_lookup_eq _gen cs1 cs2), <- (map_lookup_eq _gen cs' cs2), Hi; [done..|].
        unfold cs2. symmetry. by apply (insert_map _gen cs1 root vr). }
      destruct (decide (_gen v = S mg)) as [->|Hne]; [lia|].
      rewrite Hu1 in Hi1 by (unfold marked; rewrite Hi1; congruence).
      destruct (cs !! i) as [v0|] eqn:Hv0; simpl in Hi1; [|done].
      injection Hi1 as <-. specialize (Hgen i v0 Hv0). cbn in Hgen. lia.
Qed.

Lemma backward_spec s root :
  wf_store s → root < length (cells s) →
  (∀ n, reach (cells s) root n → gradf (cells s) n = 0%R) →
  ∃ cs1 topo cs',
    backward_topo root s = Ok (topo, mkStore cs1 (S (module_gen s))) ∧
    backward root s = Ok (tt, mkStore cs' (S (module_gen s))) ∧
    NoDup topo ∧
    (∀ n, n ∈ topo ↔ reach (cells s) root n) ∧
    (∀ n, reach (cells s) root n → gradf cs' n = partial (cells s) n root) ∧
    (∀ n, ¬ reach (cells s) root n → gradf cs' n = gradf (cells s) n) ∧
    map links cs' = map links (cells s) ∧
    map data cs' = map data (cells s) ∧
    wf_store (mkStore cs' (S (module_gen s))).
Proof.
  intros Hwf Hroot Hzero.
  destruct (backward_general s root Hwf Hroot)
    as (cs1 & topo & cs' & Ht & Hb & Hnd & Hcover & Hin & Hout & Hl & Hd & Hwf').
  exists cs1, topo, cs'. split_and!; try done.
  intros n Hn. rewrite Hin by (by apply Hcover).
  apply (Rsum_indicator topo root
           (λ n, if decide (n = root) then 1%R else gradf (cells s) n)
           (partial (cells s) n)); [done| | |].
  - apply Hcover. constructor.
  - by rewrite decide_True.
  - intros m Hm Hne. rewrite decide_False by done. apply Hzero. by apply Hcover.
Qed.

(** ** The operations allocate well-formed objects *)

Lemma new_Value_allocated d ch lgs s :
  (∀ c, c ∈ ch → c < length (cells s)) →
  ∃ s', new_Value d ch lgs s = Ok (length (cells s), s') ∧
        allocated s (length (cells s)) s'.
Proof.
  intros Hch. eexists. split; [reflexivity|].
  exists (Value_new d ch lgs). split_and!; [done..|].
  unfold fresh_ok. simpl. split_and!; [done|done| |].
  - intros Hn. destruct ch as [|c ch]; simpl in Hn; [lia|].
    exists c. split; [done|]. apply Hch. by left.
  - intros Hn. destruct ch as [|c [|c' ch]]; simpl in Hn; try lia.
    exists c'. split; [done|]. apply Hch. right. by left.
Qed.

Lemma allocated_wf s r s' : wf_store s → allocated s r s' → wf_store s'.
Proof.
  intros [Hwf Hgen] (v & -> & -> & Hg & _ & H0 & H1). split; cbn [cells module_gen].
  - intros i vi Hi. apply lookup_app_Some in Hi as [Hi|[Hlen Hi]].
    + by apply Hwf.
    + apply list_lookup_singleton_Some in Hi as [Hi <-].
      replace i with (length (cells s)) by lia. done.
  - intros i vi Hi. cbn [cells module_gen]. apply lookup_app_Some in Hi as [Hi|[Hlen Hi]].
    + by apply (Hgen i).
    + apply list_lookup_singleton_Some in Hi as [Hi <-]. lia.
Qed.

Lemma get_Ok r s v s' : get r s = Ok (v, s') → s' = s ∧ cells s !! r = Some v.
Proof.
  unfold get. destruct (cells s !! r) as [v'|]; [|done]. by intros [= -> ->].
Qed.

Ltac run_get H :=
  let v := fresh "v" in let s := fresh "s" in let E := fresh "E" in
  unfold bind in H at 1;
  match type of H with
  | context [get ?r ?s0] =>
      destruct (get r s0) as [[v s]|?] eqn:E; [|done];
      apply get_Ok in E as [-> E]; apply lookup_lt_Some in E as E
  end.

Ltac new_alloc H :=
  match type of H with
  | new_Value ?d ?ch ?lgs ?s = Ok (?r, ?s') =>
      let Hch := fresh in
      assert (∀ c, c ∈ ch → c < length (cells s)) as Hch
        by (let c := fresh "c" in let Hc := fresh "Hc" in
            intros c Hc;
            repeat (apply elem_of_cons in Hc as [->|Hc]; [done|]);
            by apply elem_of_nil in Hc);
      let H0 := fresh in
      destruct (new_Value_allocated d ch lgs s Hch) as (? & H0 & ?);
      rewrite H in H0; injection H0 as -> ->; done
  end.

Lemma add_allocated this other s r s' :
  add this other s = Ok (r, s') → allocated s r s'.
Proof.
  unfold add. intros H. run_get H. destruct other as [o|x]; [run_get H|]; new_alloc H.
Qed.

Lemma mul_allocated this other s r s' :
  mul this other s = Ok (r, s') → allocated s r s'.
Proof.
  unfold mul. intros H. run_get H. destruct other as [o|x]; [run_get H|]; new_alloc H.
Qed.

Lemma pow_allocated this e s r s' : pow this e s = Ok (r, s') → allocated s r s'.
Proof. unfold pow. intros H. run_get H. new_alloc H. Qed.

Lemma log_allocated this s r s' : log this s = Ok (r, s') → allocated s r s'.
Proof. unfold log. intros H. run_get H. new_alloc H. Qed.

Lemma exp_allocated this s r s' : exp this s = Ok (r, s') → allocated s r s'.
Proof. unfold exp. intros H. run_get H. new_alloc H. Qed.

Lemma relu_allocated this s r s' : relu this s = Ok (r, s') → allocated s r s'.
Proof. unfold relu. intros H. run_get H. new_alloc H. Qed.

Lemma neg_allocated this s r s' : neg this s = Ok (r, s') → allocated s r s'.
Proof. unfold neg. intros H. run_get H. new_alloc H. Qed.

Lemma bind_Ok {S A B} (m : St S A) (k : A → St S B) s b s' :
  bind m k s = Ok (b, s') → ∃ a s1, m s = Ok (a, s1) ∧ k a s1 = Ok (b, s').
Proof. unfold bind. destruct (m s) as [[a s1]|e]; [eauto|done]. Qed.

Lemma bind_run {S A B} (m : St S A) (k : A → St S B) s a s1 :
  m s = Ok (a, s1) → bind m k s = k a s1.
Proof. intros H. unfold bind. by rewrite H. Qed.

Lemma modify_Ok r f s u s' :
  modify r f s = Ok (u, s') →
  ∃ v, cells s !! r = Some v ∧ s' = mkStore (<[r:=f v]> (cells s)) (module_gen s).
Proof.
  unfold modify. destruct (cells s !! r) as [v|]; [|done]. intros [= <- <-]. eauto.
Qed.

Lemma modify_wf r f s u s' :
  (∀ v, links (f v) = links v) → (∀ v, _gen (f v) = _gen v) →
  wf_store s → modify r f s = Ok (u, s') → wf_store s'.
Proof.
  intros Hl Hg [Hwf Hgen] H. apply modify_Ok in H as (v & Hv & ->).
  split; cbn [cells module_gen].
  - eapply wf_cells_links; [|exact Hwf]. symmetry. by apply (insert_map links _ r v).
  - intros i vi Hi. cbn [cells module_gen] in *.
    destruct (decide (i = r)) as [->|Hne].
    + rewrite list_lookup_insert_eq in Hi by (by eapply lookup_lt_Some).
      injection Hi as <-. rewrite Hg. by apply (Hgen r).
    + rewrite list_lookup_insert_ne in Hi by done. by apply (Hgen i).
Qed.

Lemma backward_wf root s s' :
  wf_store s → backward root s = Ok (tt, s') → wf_store s'.
Proof.
  intros Hwf H. destruct (decide (root < length (cells s))) as [Hlt|Hge].
  - destruct (backward_general s root Hwf Hlt)
      as (cs1 & topo & cs' & _ & Hb & _ & _ & _ & _ & _ & _ & Hwf').
    rewrite Hb in H. by injection H as <-.
  - exfalso. unfold backward, backward_topo, bind, next_gen, store_size in H.
    cbn [cells module_gen] in H. rewrite buildTopo_S in H.
    unfold bind, get in H. cbn [cells] in H.
    rewrite (proj2 (lookup_ge_None _ _)) in H by lia. done.
Qed.

Lemma exec_wf c s s' : wf_store s → exec c s = Ok (tt, s') → wf_store s'.
Proof.
  intros Hwf H. destruct c; cbn [exec] in H;
    try (apply bind_Ok in H as (r & s1 & H & [= <-])).
  - destruct (new_Value_allocated d [] [] s) as (s2 & H2 & Hal);
      [intros c Hc; by apply elem_of_nil in Hc|].
    rewrite H in H2. injection H2 as _ <-. by eapply allocated_wf.
  - eapply allocated_wf; [done|]. by eapply add_allocated.
  - eapply allocated_wf; [done|]. by eapply mul_allocated.
  - eapply allocated_wf; [done|]. by eapply pow_allocated.
  - eapply allocated_wf; [done|]. by eapply log_allocated.
  - eapply allocated_wf; [done|]. by eapply exp_allocated.
  - eapply allocated_wf; [done|]. by eapply relu_allocated.
  - eapply allocated_wf; [done|]. by eapply neg_allocated.
  - unfold sub in H. destruct other as [o|x].
    + apply bind_Ok in H as (n & s2 & Hn & Ha).
      eapply allocated_wf; [|by eapply add_allocated].
      eapply allocated_wf; [done|]. by eapply neg_allocated.
    + eapply allocated_wf; [done|]. by eapply add_allocated.
  - unfold div in H. destruct other as [o|x].
    + apply bind_Ok in H as (n & s2 & Hn & Ha).
      eapply allocated_wf; [|by eapply mul_allocated].
      eapply allocated_wf; [done|]. by eapply pow_allocated.
    + eapply allocated_wf; [done|]. by eapply mul_allocated.
  - by eapply backward_wf.
  - by eapply (modify_wf this (with_grad g)).
  - by eapply (modify_wf this (with_data d)).
Qed.

Lemma built_wf s : built s → wf_store s.
Proof.
  induction 1 as [|s c s' _ IH H].
  - split.
    + intros i v Hi. done.
    + intros i v Hi. done.
  - by eapply exec_wf.
Qed.

(** ** Stores built by a list of calls *)

Lemma built_exec_all l s s' : built s → exec_all l s = Ok (tt, s') → built s'.
Proof.
  revert s. induction l as [|c l IH]; intros s Hb H.
  - by injection H as <-.
  - apply bind_Ok in H as ([] & s1 & Hc & Hl).
    eapply IH; [|exact Hl]. by eapply built_call.
Qed.

Lemma demo_store_built : built demo_store.
Proof. apply (built_exec_all demo_calls empty_store); [apply built_empty|reflexivity]. Qed.

Example demo_partial_x : partial (cells demo_store) 0 3 = 4%R.
Proof. vm_compute. ring. Qed.

Example demo_partial_y : partial (cells demo_store) 1 3 = 2%R.
Proof. vm_compute. ring. Qed.

(** ** The tokenizer *)

Lemma sort_insert_perm c l : sort_insert c l ≡ₚ c :: l.
Proof.
  induction l as [|d l IH]; simpl; [done|].
  destruct (char_ltb c d); [done|]. rewrite IH. apply Permutation_swap.
Qed.

Lemma sort_perm l : sort l ≡ₚ l.
Proof.
  induction l as [|c l IH]; simpl; [done|].
  by rewrite sort_insert_perm, IH.
Qed.

Lemma Set_add_elem set ch x : x ∈ Set_add set ch ↔ x ∈ set ∨ x = ch.
Proof.
  unfold Set_add. case_decide.
  - split; [auto|]. intros [?| ->]; done.
  - rewrite elem_of_app, list_elem_of_singleton. done.
Qed.

Lemma Set_add_NoDup set ch : NoDup set → NoDup (Set_add set ch).
Proof.
  intros Hnd. unfold Set_add. case_decide; [done|].
  apply NoDup_app. split_and!; [done| |apply NoDup_singleton].
  intros x Hx Hx'. apply list_elem_of_singleton in Hx' as ->. done.
Qed.

Lemma foldl_Set_add_elem doc set x :
  x ∈ foldl Set_add set doc ↔ x ∈ set ∨ x ∈ doc.
Proof.
  revert set. induction doc as [|ch doc IH]; intros set; simpl.
  - rewrite elem_of_nil. tauto.
  - rewrite IH, Set_add_elem, elem_of_cons. tauto.
Qed.

Lemma foldl_Set_add_NoDup doc set : NoDup set → NoDup (foldl Set_add set doc).
Proof.
  revert set. induction doc as [|ch doc IH]; intros set Hnd; simpl; [done|].
  by apply IH, Set_add_NoDup.
Qed.

Lemma charSet_elem (docs : list (list N)) set x :
  x ∈ foldl (λ set doc, foldl Set_add set doc) set docs ↔
  x ∈ set ∨ ∃ doc, doc ∈ docs ∧ x ∈ doc.
Proof.
  revert set. induction docs as [|doc docs IH]; intros set; simpl.
  - split; [auto|]. intros [?|(doc & Hd & _)]; [done|]. by apply elem_of_nil in Hd.
  - rewrite IH, foldl_Set_add_elem. split.
    + intros [[?|?]|(d & Hd & Hx)]; [by left|right..].
      * exists doc. split; [by left|done].
      * exists d. split; [by right|done].
    + intros [?|(d & Hd & Hx)]; [by left; left|].
      apply elem_of_cons in Hd as [->|Hd]; [by left; right|].
      right. eauto.
Qed.

Lemma charSet_NoDup (docs : list (list N)) set :
  NoDup set → NoDup (foldl (λ set doc, foldl Set_add set doc) set docs).
Proof.
  revert set. induction docs as [|doc docs IH]; intros set Hnd; simpl; [done|].
  by apply IH, foldl_Set_add_NoDup.
Qed.

(** The vocabulary is the set of the characters of the corpus. *)
Lemma uchars_elem docs ch :
  ch ∈ uchars (createTokenizer docs) ↔ ∃ doc, doc ∈ docs ∧ ch ∈ doc.
Proof.
  cbn [createTokenizer uchars]. rewrite sort_perm, charSet_elem, elem_of_nil. tauto.
Qed.

Lemma uchars_NoDup docs : NoDup (uchars (createTokenizer docs)).
Proof.
  cbn [createTokenizer uchars]. rewrite sort_perm. apply charSet_NoDup. constructor.
Qed.

Lemma Map_new_snoc entries e : Map_new (entries ++ [e]) = <[e.1 := e.2]> (Map_new entries).
Proof. unfold Map_new. by rewrite foldl_app. Qed.

Lemma Map_new_lookup_Some entries k v :
  Map_new entries !! k = Some v → (k, v) ∈ entries.
Proof.
  induction entries as [|[k' v'] entries IH] using rev_ind; [done|].
  rewrite Map_new_snoc, elem_of_app, list_elem_of_singleton. cbn [fst snd].
  destruct (decide (k' = k)) as [->|Hne].
  - rewrite lookup_insert_eq. intros [= ->]. by right.
  - rewrite lookup_insert_ne by done. auto.
Qed.

Lemma Map_new_lookup_is_Some entries k :
  k ∈ entries.*1 → is_Some (Map_new entries !! k).
Proof.
  induction entries as [|[k' v'] entries IH] using rev_ind.
  - intros H. by apply elem_of_nil in H.
  - rewrite fmap_app, elem_of_app, Map_new_snoc. cbn [fst snd fmap list_fmap].
    destruct (decide (k' = k)) as [->|Hne].
    + rewrite lookup_insert_eq. eauto.
    + rewrite lookup_insert_ne by done. intros [?|H]; [auto|].
      apply list_elem_of_singleton in H. congruence.
Qed.

(** The id of a character of the vocabulary is its position in [uchars]. *)
Lemma charToId_Some docs ch i :
  charToId (createTokenizer docs) !! ch = Some i →
  uchars (createTokenizer docs) !! i = Some ch.
Proof.
  cbn [createTokenizer uchars charToId]. intros H.
  apply Map_new_lookup_Some, list_elem_of_lookup in H as [j Hj].
  apply list_lookup_imap_Some in Hj as (c & Hc & [= -> ->]). done.
Qed.

Lemma charToId_is_Some docs ch :
  ch ∈ uchars (createTokenizer docs) →
  is_Some (charToId (createTokenizer docs) !! ch).
Proof.
  cbn [createTokenizer uchars charToId]. intros H.
  apply Map_new_lookup_is_Some.
  apply list_elem_of_lookup in H as [i Hi].
  apply list_elem_of_fmap. exists (ch, i). split; [done|].
  apply list_elem_of_lookup. exists i. by rewrite list_lookup_imap, Hi.
Qed.

Lemma charToId_None docs ch :
  ch ∉ uchars (createTokenizer docs) →
  charToId (createTokenizer docs) !! ch = None.
Proof.
  intros Hch. destruct (charToId (createTokenizer docs) !! ch) as [i|] eqn:Hi; [|done].
  apply charToId_Some in Hi. exfalso. apply Hch. by eapply list_elem_of_lookup_2.
Qed.

Lemma encode_ids docs s :
  (∀ ch, ch ∈ s → ch ∈ uchars (createTokenizer docs)) →
  ∃ ids : list nat,
    map (λ ch, charToId (createTokenizer docs) !! ch) s = map Some ids ∧
    Forall2 (λ ch id, uchars (createTokenizer docs) !! id = Some ch ∧
                      id ≠ BOS (createTokenizer docs)) s ids.
Proof.
  induction s as [|ch s IH]; intros Hs.
  - exists []. split; [done|constructor].
  - destruct IH as (ids & Hmap & Hall); [intros; apply Hs; by right|].
    destruct (charToId_is_Some docs ch) as [i Hi]; [apply Hs; by left|].
    exists (i :: ids). cbn [map]. rewrite Hi, Hmap. split; [done|].
    constructor; [|done]. pose proof (charToId_Some docs ch i Hi) as Hu.
    split; [done|]. apply lookup_lt_Some in Hu. cbn [createTokenizer BOS uchars] in *. lia.
Qed.

Lemma decode_body_ids (tk : Tokenizer) (s : list N) (ids : list nat) :
  Forall2 (λ ch id, uchars tk !! id = Some ch ∧ id ≠ BOS tk) s ids →
  concat (map (λ id, match uchars_at tk id with Some c => [c] | None => [] end)
              (filter (λ id, id ≠ Some (BOS tk)) (map Some ids ++ [Some (BOS tk)]))) = s.
Proof.
  induction 1 as [|ch id s ids [Hu Hne] _ IH]; cbn [map app].
  - rewrite filter_cons_False by (intros H; by apply H). done.
  - rewrite filter_cons_True by congruence.
    cbn [map concat uchars_at]. rewrite Hu, IH. done.
Qed.

(** C3: for a tokenizer built from any corpus and every string [s] over its
    vocabulary, [encode(s)] is the marker id, then one id per character of
    [s] (the character's position in [uchars], never the marker), then the
    marker id; [decode] of that is [s]; and [decode] drops marker ids wherever
    they stand. *)
Theorem decode_encode_roundtrip (docs : list (list N)) (s : list N) :
  (∀ ch, ch ∈ s → ch ∈ uchars (createTokenizer docs)) →
  ∃ ids : list nat,
    encode (createTokenizer docs) s =
      Ok ([Some (BOS (createTokenizer docs))] ++ map Some ids ++
          [Some (BOS (createTokenizer docs))]) ∧
    Forall2 (λ ch id, uchars (createTokenizer docs) !! id = Some ch ∧
                      id ≠ BOS (createTokenizer docs)) s ids ∧
    result_bind (encode (createTokenizer docs) s) (decode (createTokenizer docs)) = Ok s ∧
    (∀ ids1 ids2,
       decode (createTokenizer docs) (ids1 ++ [Some (BOS (createTokenizer docs))] ++ ids2) =
       decode (createTokenizer docs) (ids1 ++ ids2)).
Proof.
  intros Hs. destruct (encode_ids docs s Hs) as (ids & Hmap & Hall).
  exists ids. unfold encode. rewrite Hmap. split_and!; [done|done| |].
  - cbn [result_bind]. unfold decode. f_equal. cbn [app].
    rewrite filter_cons_False by (intros H; by apply H).
    by apply decode_body_ids.
  - intros ids1 ids2. unfold decode. f_equal. f_equal. f_equal.
    rewrite !filter_app. f_equal. cbn [app].
    rewrite filter_cons_False by (intros H; by apply H). done.
Qed.

(** The corpus ["ab"], the string ["ba"]. *)
Lemma decode_encode_roundtrip_witness :
  ∃ ids : list nat,
    encode (createTokenizer [[97; 98]%N]) [98; 97]%N =
      Ok ([Some (BOS (createTokenizer [[97; 98]%N]))] ++ map Some ids ++
          [Some (BOS (createTokenizer [[97; 98]%N]))]) ∧
    Forall2 (λ ch id, uchars (createTokenizer [[97; 98]%N]) !! id = Some ch ∧
                      id ≠ BOS (createTokenizer [[97; 98]%N])) [98; 97]%N ids ∧
    result_bind (encode (createTokenizer [[97; 98]%N]) [98; 97]%N)
                (decode (createTokenizer [[97; 98]%N])) = Ok [98; 97]%N ∧
    (∀ ids1 ids2,
       decode (createTokenizer [[97; 98]%N])
              (ids1 ++ [Some (BOS (createTokenizer [[97; 98]%N]))] ++ ids2) =
       decode (createTokenizer [[97; 98]%N]) (ids1 ++ ids2)).
Proof.
  apply (decode_encode_roundtrip [[97; 98]%N] [98; 97]%N).
  intros ch Hch. apply uchars_elem. exists [97; 98]%N. split; [by left|].
  apply elem_of_cons in Hch as [->|Hch]; [by right; left|].
  apply list_elem_of_singleton in Hch as ->. by left.
Defined.

Example encode_ab :
  encode (createTokenizer [[98; 97]%N; [97; 99]%N]) [99; 97; 98]%N =
  Ok [Some 3; Some 2; Some 0; Some 1; Some 3].
Proof. vm_compute. reflexivity. Qed.

Example decode_ab :
  decode (createTokenizer [[98; 97]%N; [97; 99]%N]) [Some 3; Some 2; Some 0; Some 1; Some 3] =
  Ok [99; 97; 98]%N.
Proof. vm_compute. reflexivity. Qed.

(** ** Claim C5 *)

(** C5, as stated, fails: with the vocabulary of the corpus ["ab"], the
    character ["z"] is outside the vocabulary and [encode("z")] returns the
    id sequence [[BOS, undefined, BOS]]. *)
Lemma encode_outside_vocabulary_returns :
  (122%N ∉ uchars (createTokenizer [[97; 98]%N])) ∧
  encode (createTokenizer [[97; 98]%N]) [122%N] = Ok [Some 2; None; Some 2].
Proof.
  split.
  - rewrite uchars_elem. intros (doc & Hdoc & Hch).
    apply list_elem_of_singleton in Hdoc as ->.
    apply elem_of_cons in Hch as [?|Hch]; [done|].
    by apply list_elem_of_singleton in Hch.
  - vm_compute. reflexivity.
Qed.

(** C5, amended: [encode] never fails. For every string it returns the
    marker id, one entry per character, and the marker id; the entry of a
    character of the vocabulary is its id, and the entry of a character
    outside the vocabulary is [undefined]. *)
Theorem encode_never_fails (docs : list (list N)) (s : list N) :
  ∃ ids : list (option nat),
    encode (createTokenizer docs) s =
      Ok ([Some (BOS (createTokenizer docs))] ++ ids ++
          [Some (BOS (createTokenizer docs))]) ∧
    length ids = length s ∧
    (∀ i ch, s !! i = Some ch →
       (ch ∉ uchars (createTokenizer docs) → ids !! i = Some None) ∧
       (ch ∈ uchars (createTokenizer docs) →
          ∃ id, ids !! i = Some (Some id) ∧
                uchars (createTokenizer docs) !! id = Some ch)).
Proof.
  exists (map (λ ch, charToId (createTokenizer docs) !! ch) s).
  split_and!; [done|by rewrite length_map|].
  intros i ch Hi.
  change (map ?f s) with (f <$> s). rewrite list_lookup_fmap, Hi. cbn [fmap option_fmap option_map].
  split.
  - intros Hch. by rewrite charToId_None.
  - intros Hch. destruct (charToId_is_Some docs ch Hch) as [id Hid].
    exists id. rewrite Hid. split; [done|]. by apply charToId_Some.
Qed.

(** ** [choices] *)

Lemma int32_Ok this : ∃ y this', int32 this = Ok (y, this').
Proof. unfold int32. eauto. Qed.

Lemma random_Ok this : ∃ r this', random this = Ok (r, this').
Proof.
  unfold random, bind.
  destruct (int32_Ok this) as (a & this1 & ->).
  destruct (int32_Ok this1) as (b & this2 & ->).
  unfold ret. eauto.
Qed.

(** The loop of [choices] ends by itself within the iterations the model
    allows: more fuel changes nothing. *)
Lemma choices_search_fuel x cum f1 f2 lo hi :
  hi - lo ≤ f1 → hi - lo ≤ f2 →
  choices_search f1 x cum lo hi = choices_search f2 x cum lo hi.
Proof.
  revert f2 lo hi. induction f1 as [|f1 IH]; intros [|f2] lo hi H1 H2; cbn [choices_search].
  - done.
  - rewrite decide_False by lia. done.
  - rewrite decide_False by lia. done.
  - case_decide as Hlt; [|done].
    pose proof (Nat.div_mod (lo + hi) 2 ltac:(lia)).
    pose proof (Nat.mod_upper_bound (lo + hi) 2 ltac:(lia)).
    destruct (js_lt x (cum !! ((lo + hi) / 2))); apply IH; lia.
Qed.

Lemma choices_search_bounds fuel x cum lo hi :
  lo ≤ hi → lo ≤ choices_search fuel x cum lo hi ≤ hi.
Proof.
  revert lo hi. induction fuel as [|fuel IH]; intros lo hi Hle; cbn [choices_search]; [lia|].
  case_decide as Hlt; [|lia].
  pose proof (Nat.div_mod (lo + hi) 2 ltac:(lia)).
  pose proof (Nat.mod_upper_bound (lo + hi) 2 ltac:(lia)).
  destruct (js_lt x (cum !! ((lo + hi) / 2))).
  - specialize (IH lo ((lo + hi) / 2)). lia.
  - specialize (IH ((lo + hi) / 2 + 1) hi). lia.
Qed.

(** When no comparison [x < cum[mid]] holds, the search ends at [hi]. *)
Lemma choices_search_never_less fuel x cum lo hi :
  (∀ mid, js_lt x (cum !! mid) = false) → lo ≤ hi → hi - lo ≤ fuel →
  choices_search fuel x cum lo hi = hi.
Proof.
  intros Hx. revert lo hi. induction fuel as [|fuel IH]; intros lo hi Hle Hf;
    cbn [choices_search]; [lia|].
  case_decide as Hlt; [|lia].
  pose proof (Nat.div_mod (lo + hi) 2 ltac:(lia)).
  pose proof (Nat.mod_upper_bound (lo + hi) 2 ltac:(lia)).
  rewrite Hx. apply IH; lia.
Qed.

Lemma cum_from_length prev ws : length (cum_from prev ws) = length ws.
Proof. revert prev. induction ws as [|w ws IH]; intros prev; simpl; [done|]. by rewrite IH. Qed.

Lemma cum_of_length ws : length (cum_of ws) = length ws.
Proof. destruct ws; simpl; [done|]. by rewrite cum_from_length. Qed.

Lemma cum_from_zero ws :
  (∀ w, w ∈ ws → w = 0%R) → ∀ c, c ∈ cum_from 0 ws → c = 0%R.
Proof.
  induction ws as [|w ws IH]; intros Hws c Hc; simpl in Hc; [by apply elem_of_nil in Hc|].
  rewrite (Hws w) in Hc by (by left). rewrite Rplus_0_r in Hc.
  apply elem_of_cons in Hc as [->|Hc]; [done|].
  apply IH; [|done]. intros w' Hw'. apply Hws. by right.
Qed.

Lemma cum_of_zero ws :
  (∀ w, w ∈ ws → w = 0%R) → ∀ c, c ∈ cum_of ws → c = 0%R.
Proof.
  destruct ws as [|w ws]; intros Hws c Hc; simpl in Hc; [by apply elem_of_nil in Hc|].
  rewrite (Hws w) in Hc by (by left).
  apply elem_of_cons in Hc as [->|Hc]; [done|].
  eapply cum_from_zero; [|done]. intros w' Hw'. apply Hws. by right.
Qed.

Lemma choices_Ok {A} (population : list A) weights this :
  ∃ lo this',
    choices population weights this = Ok (population !! lo, this') ∧
    lo ≤ length weights - 1.
Proof.
  unfold choices, bind. destruct (random_Ok this) as (r & this' & ->).
  eexists _, this'. split; [reflexivity|].
  rewrite cum_of_length.
  pose proof (choices_search_bounds (length weights)
                ((λ total, r * total)%R <$> last (cum_of weights))
                (cum_of weights) 0 (length weights - 1)). lia.
Qed.

Lemma choices_all_zero {A} (population : list A) weights this :
  (∀ w, w ∈ weights → w = 0%R) →
  ∃ this', choices population weights this =
           Ok (population !! (length weights - 1), this').
Proof.
  intros Hz. unfold choices, bind. destruct (random_Ok this) as (r & this' & ->).
  exists this'. unfold ret. do 2 f_equal.
  rewrite cum_of_length. f_equal.
  apply choices_search_never_less; [|lia|lia].
  intros mid. destruct (last (cum_of weights)) as [total|] eqn:Hl; [|done].
  cbn [fmap option_fmap option_map].
  destruct (cum_of weights !! mid) as [c|] eqn:Hc; [|done].
  cbn [js_lt]. apply bool_decide_eq_false.
  rewrite (cum_of_zero weights Hz total), (cum_of_zero weights Hz c).
  - lra.
  - by eapply list_elem_of_lookup_2.
  - apply last_Some in Hl as [l' ->]. apply elem_of_app. right. by left.
Qed.

(** ** Claim C4 *)

(** C4, as stated, fails: on the all-zero weight vector [[0, 0, 0]] the
    generator seeded with 42 raises nothing, it returns the last element of
    the population. *)
Lemma choices_zero_weights_returns :
  ∃ this', choices [0; 1; 2] [0%R; 0%R; 0%R] (MersenneTwister_new 42) =
           Ok (Some 2, this').
Proof.
  destruct (choices_all_zero [0; 1; 2] [0%R; 0%R; 0%R] (MersenneTwister_new 42))
    as [this' H].
  - intros w Hw. repeat (apply elem_of_cons in Hw as [->|Hw]; [done|]).
    by apply elem_of_nil in Hw.
  - exists this'. exact H.
Qed.

(** C4, amended: [choices] never raises. For every population, every weight
    vector and every generator state it returns [population[lo]]: for an
    empty weight vector [lo] is 0, otherwise [lo] is an index of the weight
    vector, [0 <= lo <= weights.length - 1], and when every weight is zero
    it is the last one, [weights.length - 1]. *)
Theorem choices_never_raises (population : list nat) (weights : list R)
    (this : MersenneTwister) :
  ∃ lo this',
    choices population weights this = Ok (population !! lo, this') ∧
    (weights = [] → lo = 0) ∧
    (weights ≠ [] → lo < length weights) ∧
    (weights ≠ [] → (∀ w, w ∈ weights → w = 0%R) → S lo = length weights).
Proof.
  assert (weights ≠ [] → 0 < length weights) as Hpos.
  { destruct weights; [done|]. simpl. lia. }
  destruct (choices_Ok population weights this) as (lo & this' & Hrun & Hlo).
  destruct (decide (Forall (λ w, w = 0%R) weights)) as [Hz|Hnz];
    rewrite Forall_forall in *.
  - destruct (choices_all_zero population weights this Hz) as [this2 Hrun2].
    exists (length weights - 1), this2. split_and!; [done| | |].
    + by intros ->.
    + intros Hne. specialize (Hpos Hne). lia.
    + intros Hne _. specialize (Hpos Hne). lia.
  - exists lo, this'. split_and!; [done| | |].
    + intros ->. simpl in Hlo. lia.
    + intros Hne. specialize (Hpos Hne). lia.
    + intros _ Hz. done.
Qed.

(** ** Claim C6 *)

(** What the copy of the model embedded in [TemperatureControl.tsx] does: the
    divisor is the temperature clamped to the floor 0.01. *)
Lemma generate_divisor_embedded_floor (temperature : R) :
  (0.01 <= generate_divisor_embedded temperature)%R ∧
  (0.01 <= temperature → generate_divisor_embedded temperature = temperature)%R.
Proof.
  unfold generate_divisor_embedded. split.
  - apply Rmax_r.
  - intros H. by apply Rmax_left.
Qed.

(** C6 at the failing input: [generate(0)] of [src/lib/gpt.ts] divides the
    logits by 0, and [generate(-1)] by -1: the divisor is the temperature
    itself, below every positive floor. *)
Theorem generate_divisor_not_clamped :
  generate_divisor 0 = 0%R ∧
  generate_divisor (-1) = (-1)%R ∧
  (∀ floor : R, (0 < floor)%R → (generate_divisor 0 < floor)%R).
Proof. unfold generate_divisor. split_and!; [done|done|]. intros floor H. done. Qed.

(** ** Claim C7 *)

(** What the copy of the model embedded in [TemperatureControl.tsx] does: the
    decay factor has the floor 0.01, so the rate stays positive. *)
Lemma lrT_embedded_positive (learningRate : R) (step : nat) (numSteps : R) :
  (0 < learningRate)%R →
  (learningRate * 0.01 <= lrT_embedded learningRate step numSteps)%R.
Proof.
  intros Hlr. unfold lrT_embedded.
  apply Rmult_le_compat_l; [lra|]. apply Rmax_l.
Qed.

(** C7 at the failing input: with the rate 0.01 of the constructor and the
    target 5000 that [TrainingStepper.tsx] passes, [lrT] of [src/lib/gpt.ts] is
    0 at step 5000 and negative at step 5001. *)
Theorem lrT_negative_past_target :
  lrT 0.01 5000 5000 = 0%R ∧ (lrT 0.01 5001 5000 < 0)%R.
Proof.
  unfold lrT. rewrite !INR_IZR_INZ. cbn [Z.of_nat Pos.of_succ_nat].
  split.
  - replace (IZR (Z.of_nat 5000)) with 5000%R by (vm_compute; reflexivity). lra.
  - replace (IZR (Z.of_nat 5001)) with 5001%R by (vm_compute; reflexivity). lra.
Qed.

(** ** Store code that only allocates *)

Lemma ext_refl s : ext s s.
Proof. exists []. by rewrite app_nil_r. Qed.

Lemma ext_trans s1 s2 s3 : ext s1 s2 → ext s2 s3 → ext s1 s3.
Proof.
  intros (n1 & H1 & G1) (n2 & H2 & G2). exists (n1 ++ n2).
  rewrite H2, H1, app_assoc. split; [done|congruence].
Qed.

Lemma allocated_ext s r s' : allocated s r s' → ext s s'.
Proof. intros (v & -> & _). by exists [v]. Qed.

Lemma has_data_ext s s' r d : ext s s' → has_data s r d → has_data s' r d.
Proof.
  intros (new & H & _) Hd. unfold has_data in *. rewrite H.
  destruct (cells s !! r) as [v|] eqn:Hv; [|done].
  by rewrite (lookup_app_l_Some _ _ _ _ Hv).
Qed.

Lemma valid_ext s s' r : ext s s' → valid s r → valid s' r.
Proof.
  intros (new & H & _) [v Hv]. exists v. rewrite H. by apply lookup_app_l_Some.
Qed.

Lemma has_data_valid s r d : has_data s r d → valid s r.
Proof. unfold has_data, valid. destruct (cells s !! r); [eauto|done]. Qed.

Lemma has_data_dat s r d : has_data s r d → dat s r = d.
Proof. unfold has_data, dat. destruct (cells s !! r); simpl; congruence. Qed.

Lemma valid_has_data s r : valid s r → has_data s r (dat s r).
Proof. intros [v Hv]. unfold has_data, dat. by rewrite Hv. Qed.

Lemma dat_ext s s' r : ext s s' → valid s r → dat s' r = dat s r.
Proof.
  intros He Hv. apply has_data_dat. eapply has_data_ext; [done|].
  by apply valid_has_data.
Qed.

Lemma total_ret {A} (a : A) s (Q : A → Store → Prop) : Q a s → total (ret a) s Q.
Proof. intros HQ. exists a, s. split_and!; [done|apply ext_refl|done]. Qed.

Lemma total_bind {A B} (m : M A) (k : A → M B) s (Q1 : A → Store → Prop)
    (Q : B → Store → Prop) :
  total m s Q1 →
  (∀ a s1, ext s s1 → Q1 a s1 → total (k a) s1 Q) →
  total (bind m k) s Q.
Proof.
  intros (a & s1 & Hm & He & HQ1) Hk.
  destruct (Hk a s1 He HQ1) as (b & s2 & Hkb & He2 & HQ).
  exists b, s2. unfold bind. rewrite Hm. split_and!; [done|by eapply ext_trans|done].
Qed.

Lemma total_mono {A} (m : M A) s (Q Q' : A → Store → Prop) :
  total m s Q → (∀ a s', ext s s' → Q a s' → Q' a s') → total m s Q'.
Proof. intros (a & s' & Hm & He & HQ) H. exists a, s'. auto. Qed.

Lemma total_defined {A} (o : option A) s (Q : A → Store → Prop) :
  (∃ a, o = Some a ∧ Q a s) → total (defined o) s Q.
Proof. intros (a & -> & HQ). by apply total_ret. Qed.

Lemma total_mapM {A B} (f : A → M B) (l : list A) s
    (Q : A → B → Store → Prop) :
  (∀ a b s1 s2, Q a b s1 → ext s1 s2 → Q a b s2) →
  (∀ a s1, a ∈ l → ext s s1 → total (f a) s1 (Q a)) →
  total (mapM f l) s (λ bs s', Forall2 (λ a b, Q a b s') l bs).
Proof.
  intros Hst. revert s. induction l as [|a l IH]; intros s Hf; cbn [mapM].
  - apply total_ret. constructor.
  - eapply total_bind; [apply Hf; [by left|apply ext_refl]|].
    intros b s1 He1 HQ. cbn beta.
    eapply total_bind.
    + apply IH. intros a' s2 Ha' He2. apply Hf; [by right|by eapply ext_trans].
    + intros bs s2 He2 Hall. cbn beta. apply total_ret.
      constructor; [by eapply Hst|done].
Qed.

Lemma total_imapM_from {A B} (f : nat → A → M B) (l : list A) i s
    (Q : nat → A → B → Store → Prop) :
  (∀ j a b s1 s2, Q j a b s1 → ext s1 s2 → Q j a b s2) →
  (∀ j a s1, l !! j = Some a → ext s s1 → total (f (i + j) a) s1 (Q (i + j) a)) →
  total (imapM_from i f l) s
        (λ bs s', length bs = length l ∧
                  ∀ j a b, l !! j = Some a → bs !! j = Some b → Q (i + j) a b s').
Proof.
  intros Hst. revert i s. induction l as [|a l IH]; intros i s Hf; cbn [imapM_from].
  - apply total_ret. split; [done|]. intros j a b H. done.
  - eapply total_bind.
    { specialize (Hf 0 a s eq_refl (ext_refl s)). rewrite Nat.add_0_r in Hf. exact Hf. }
    intros b s1 He1 HQ. cbn beta.
    eapply total_bind.
    + apply (IH (S i)). intros j a' s2 Hj He2.
      replace (S i + j) with (i + S j) by lia.
      apply Hf; [done|by eapply ext_trans].
    + intros bs s2 He2 [Hlen Hall]. cbn beta. apply total_ret.
      split; [simpl; by rewrite Hlen|].
      intros [|j] a' b' Ha' Hb'; simpl in Ha', Hb'.
      * simplify_eq. rewrite Nat.add_0_r. by eapply Hst.
      * replace (i + S j) with (S i + j) by lia. eauto.
Qed.

Lemma total_imapM {A B} (f : nat → A → M B) (l : list A) s
    (Q : nat → A → B → Store → Prop) :
  (∀ j a b s1 s2, Q j a b s1 → ext s1 s2 → Q j a b s2) →
  (∀ j a s1, l !! j = Some a → ext s s1 → total (f j a) s1 (Q j a)) →
  total (imapM f l) s
        (λ bs s', length bs = length l ∧
                  ∀ j a b, l !! j = Some a → bs !! j = Some b → Q j a b s').
Proof.
  intros Hst Hf. unfold imapM.
  apply (total_imapM_from f l 0 s Q Hst). intros j a s1. apply Hf.
Qed.

(** ** The values the operations compute *)

Lemma total_new_Value d ch lgs s :
  total (new_Value d ch lgs) s (λ r s', has_data s' r d).
Proof.
  eexists _, _. split; [reflexivity|]. split.
  - eexists. split; reflexivity.
  - unfold has_data. cbn [cells]. by rewrite list_lookup_middle.
Qed.

Lemma get_has_data s r d :
  has_data s r d → ∃ v, get r s = Ok (v, s) ∧ data v = d.
Proof.
  unfold has_data, get. destruct (cells s !! r) as [v|]; [|done].
  intros [= <-]. eauto.
Qed.

Ltac get_data_of H :=
  let v := fresh "v" in let Hg := fresh "Hg" in let Hd := fresh "Hd" in
  destruct (get_has_data _ _ _ H) as (v & Hg & Hd);
  unfold bind at 1; rewrite Hg; cbn beta iota; rewrite ?Hd.

Lemma total_add this other s d od :
  has_data s this d → operand_data s other od →
  total (add this other) s (λ r s', has_data s' r (d + od)%R).
Proof.
  intros Ht Ho. unfold add, total. get_data_of Ht.
  destruct other as [o|x]; cbn [operand_data] in Ho.
  - get_data_of Ho. apply total_new_Value.
  - subst. apply total_new_Value.
Qed.

Lemma total_mul this other s d od :
  has_data s this d → operand_data s other od →
  total (mul this other) s (λ r s', has_data s' r (d * od)%R).
Proof.
  intros Ht Ho. unfold mul, total. get_data_of Ht.
  destruct other as [o|x]; cbn [operand_data] in Ho.
  - get_data_of Ho. apply total_new_Value.
  - subst. apply total_new_Value.
Qed.

Lemma total_pow this e s d :
  has_data s this d → total (pow this e) s (λ r s', has_data s' r (js_pow d e)).
Proof. intros Ht. unfold pow, total. get_data_of Ht. apply total_new_Value. Qed.

Lemma total_log this s d :
  has_data s this d → total (log this) s (λ r s', has_data s' r (ln d)).
Proof. intros Ht. unfold log, total. get_data_of Ht. apply total_new_Value. Qed.

Lemma total_exp this s d :
  has_data s this d → total (exp this) s (λ r s', has_data s' r (Rtrigo_def.exp d)).
Proof. intros Ht. unfold exp, total. get_data_of Ht. apply total_new_Value. Qed.

Lemma total_relu this s d :
  has_data s this d → total (relu this) s (λ r s', has_data s' r (Rmax 0 d)).
Proof. intros Ht. unfold relu, total. get_data_of Ht. apply total_new_Value. Qed.

Lemma total_neg this s d :
  has_data s this d → total (neg this) s (λ r s', has_data s' r (- d)%R).
Proof. intros Ht. unfold neg, total. get_data_of Ht. apply total_new_Value. Qed.

Lemma total_sub this other s d od :
  has_data s this d → operand_data s other od →
  total (sub this other) s (λ r s', has_data s' r (d + - od)%R).
Proof.
  intros Ht Ho. unfold sub. destruct other as [o|x]; cbn [operand_data] in Ho.
  - eapply total_bind; [by apply total_neg|].
    intros n s1 He Hn. apply total_add; [by eapply has_data_ext|done].
  - subst. by apply total_add.
Qed.

Lemma total_div this other s d od :
  has_data s this d → operand_data s other od →
  total (div this other) s
        (λ r s', has_data s' r
                   (d * match other with
                        | OValue _ => js_pow od (-1)
                        | ONumber _ => 1 / od
                        end)%R).
Proof.
  intros Ht Ho. unfold div. destruct other as [o|x]; cbn [operand_data] in Ho.
  - eapply total_bind; [by apply total_pow|].
    intros n s1 He Hn. apply total_mul; [by eapply has_data_ext|done].
  - subst. by apply total_mul.
Qed.

Lemma total_get_data r s :
  valid s r → total (get_data r) s (λ d s', d = dat s r).
Proof.
  intros Hv. apply valid_has_data in Hv. unfold get_data, total.
  get_data_of Hv. by apply total_ret.
Qed.

Lemma total_vsum_from vals : ∀ acc s d ds,
  has_data s acc d → Forall2 (has_data s) vals ds →
  total (vsum_from acc vals) s (λ r s', has_data s' r (foldl Rplus d ds)).
Proof.
  induction vals as [|b vals IH]; intros acc s d ds Ha Hall; cbn [vsum_from].
  - apply Forall2_nil_inv_l in Hall as ->. by apply total_ret.
  - apply Forall2_cons_inv_l in Hall as (db & ds' & Hb & Hall & ->).
    eapply total_bind; [by apply (total_add acc (OValue b) s d db)|].
    intros a s1 He Ha1. cbn beta. cbn [foldl]. apply IH; [done|].
    eapply Forall2_impl; [exact Hall|]. intros r x. by apply has_data_ext.
Qed.

Lemma total_vsum vals s ds :
  vals ≠ [] → Forall2 (has_data s) vals ds →
  total (vsum vals) s (λ r s', has_data s' r (sum_left ds)).
Proof.
  intros Hne Hall. destruct vals as [|a vals]; [done|]. cbn [vsum].
  apply Forall2_cons_inv_l in Hall as (d & ds' & Ha & Hall & ->).
  cbn [sum_left]. by apply total_vsum_from.
Qed.

(** ** [softmax] *)

Lemma Forall2_eq_map {A B} (f : A → B) (l : list A) (k : list B) :
  Forall2 (λ a b, b = f a) l k → k = map f l.
Proof. induction 1; simpl; congruence. Qed.

Lemma total_mapM_get_data l s :
  Forall (valid s) l →
  total (mapM get_data l) s (λ ds s', ds = map (dat s) l).
Proof.
  intros Hv.
  eapply total_mono.
  - apply (total_mapM get_data l s (λ a d _, d = dat s a)); [done|].
    intros a s1 Ha He. rewrite Forall_forall in Hv.
    eapply total_mono; [apply total_get_data; eapply valid_ext; eauto|].
    intros d s2 _ ->. by apply dat_ext; auto.
  - intros ds s' _ Hall. by apply Forall2_eq_map.
Qed.

Lemma total_softmax_sum logits s :
  logits ≠ [] → Forall (valid s) logits →
  total (softmax_sum logits) s
    (λ et s', Forall2 (has_data s') et.1 (softmax_exps (map (dat s) logits)) ∧
              has_data s' et.2 (softmax_total (map (dat s) logits))).
Proof.
  intros Hne Hv. unfold softmax_sum.
  eapply total_bind; [by apply total_mapM_get_data|].
  intros ds s1 He1 ->. cbn beta zeta.
  set (ds := map (dat s) logits).
  eapply total_bind.
  { apply (total_mapM _ logits s1
             (λ v e s', has_data s' e (Rtrigo_def.exp (dat s v + - Math_max ds)))).
    - intros a b s2 s3 H He. by eapply has_data_ext.
    - intros a s2 Ha He2. rewrite Forall_forall in Hv.
      eapply total_bind.
      + apply (total_sub a (ONumber (Math_max ds)) s2 (dat s a) (Math_max ds)); [|done].
        apply (has_data_ext s s2); [by apply (ext_trans s s1 s2)|].
        by apply valid_has_data, Hv.
      + intros d s3 He3 Hd. cbn beta. by apply total_exp. }
  intros exps s2 He2 Hexps. cbn beta.
  assert (Forall2 (has_data s2) exps (softmax_exps ds)) as Hexps'.
  { unfold softmax_exps, ds. rewrite map_map.
    change (map ?f logits) with (f <$> logits). apply Forall2_fmap_r.
    by apply Forall2_flip. }
  eapply total_bind.
  { apply (total_vsum exps s2 (softmax_exps ds)); [|done].
    intros ->. apply Forall2_nil_inv_r in Hexps. done. }
  intros t s3 He3 Ht. cbn beta. apply total_ret. cbn [fst snd]. split; [|done].
  eapply Forall2_impl; [exact Hexps'|]. intros r x. by apply has_data_ext.
Qed.

Lemma total_softmax logits s :
  logits ≠ [] → Forall (valid s) logits →
  total (softmax logits) s
    (λ outs s', Forall2 (has_data s') outs (softmax_data (map (dat s) logits))).
Proof.
  intros Hne Hv. unfold softmax.
  eapply total_bind; [by apply total_softmax_sum|].
  intros [exps t] s1 He1 [Hexps Ht]. cbn [fst snd] in *.
  set (ds := map (dat s) logits) in *.
  eapply total_mono.
  - apply (total_mapM _ exps s1
             (λ e o s', has_data s' o (dat s1 e * js_pow (softmax_total ds) (-1))%R)).
    + intros a b s2 s3 H He. by eapply has_data_ext.
    + intros e s2 Hin He2.
      assert (valid s1 e) as Hve.
      { apply list_elem_of_lookup in Hin as [i Hi].
        destruct (Forall2_lookup_l _ _ _ _ _ Hexps Hi) as (x & _ & Hx).
        by eapply has_data_valid. }
      eapply total_mono.
      * apply (total_div e (OValue t) s2 (dat s1 e) (softmax_total ds)).
        -- eapply has_data_ext; [done|]. by apply valid_has_data.
        -- cbn [operand_data]. by eapply has_data_ext.
      * intros o s3 _ H. exact H.
  - intros outs s2 He2 Hall. cbn beta in Hall.
    unfold softmax_data. change (map ?f (softmax_exps ds)) with (f <$> softmax_exps ds).
    apply Forall2_fmap_r. apply Forall2_flip.
    apply Forall2_same_length_lookup. split.
    + rewrite <- (Forall2_length _ _ _ Hall). symmetry. by eapply Forall2_length.
    + intros i x o Hx Ho. change (has_data s2 o (x * js_pow (softmax_total ds) (-1))%R).
      destruct (Forall2_lookup_r _ _ _ _ _ Hall Ho) as (e & He & Hd).
      destruct (Forall2_lookup_l _ _ _ _ _ Hexps He) as (x' & Hx' & Hdx).
      rewrite Hx in Hx'. injection Hx' as <-.
      by rewrite (has_data_dat _ _ _ Hdx) in Hd.
Qed.

Lemma foldl_Rmax_ge a l : (a <= foldl Rmax a l)%R ∧ ∀ d, d ∈ l → (d <= foldl Rmax a l)%R.
Proof.
  revert a. induction l as [|b l IH]; intros a; cbn [foldl].
  - split; [lra|]. intros d Hd. by apply elem_of_nil in Hd.
  - destruct (IH (Rmax a b)) as [H1 H2].
    pose proof (Rmax_l a b). pose proof (Rmax_r a b). split; [lra|].
    intros d Hd. apply elem_of_cons in Hd as [->|Hd]; [lra|auto].
Qed.

Lemma foldl_Rmax_elem a l : foldl Rmax a l ∈ a :: l.
Proof.
  revert a. induction l as [|b l IH]; intros a; cbn [foldl]; [by left|].
  specialize (IH (Rmax a b)). apply elem_of_cons in IH as [IH|IH].
  - rewrite IH. unfold Rmax. destruct (Rle_dec a b); [right|]; by left.
  - right. by right.
Qed.

Lemma Math_max_ge ds d : d ∈ ds → (d <= Math_max ds)%R.
Proof.
  destruct ds as [|d0 ds]; intros Hd; [by apply elem_of_nil in Hd|].
  cbn [Math_max]. destruct (foldl_Rmax_ge d0 ds) as [H1 H2].
  apply elem_of_cons in Hd as [->|Hd]; auto.
Qed.

Lemma Math_max_elem ds : ds ≠ [] → Math_max ds ∈ ds.
Proof. destruct ds as [|d0 ds]; [done|]. intros _. apply foldl_Rmax_elem. Qed.

Lemma foldl_Rplus a l : foldl Rplus a l = (a + Rsum l)%R.
Proof.
  revert a. induction l as [|b l IH]; intros a; cbn [foldl].
  - rewrite Rsum_nil. lra.
  - rewrite IH, Rsum_cons. lra.
Qed.

Lemma sum_left_Rsum ds : sum_left ds = Rsum ds.
Proof. destruct ds as [|d ds]; [done|]. cbn [sum_left]. by rewrite foldl_Rplus, Rsum_cons. Qed.

Lemma Rsum_nonneg l : (∀ x, x ∈ l → 0 <= x)%R → (0 <= Rsum l)%R.
Proof.
  induction l as [|a l IH]; intros H; [rewrite Rsum_nil; lra|].
  rewrite Rsum_cons. pose proof (H a ltac:(by left)).
  assert (0 <= Rsum l)%R by (apply IH; intros; apply H; by right). lra.
Qed.

Lemma Rsum_ge_elem l x : (∀ y, y ∈ l → 0 <= y)%R → x ∈ l → (x <= Rsum l)%R.
Proof.
  induction l as [|a l IH]; intros H Hx; [by apply elem_of_nil in Hx|].
  rewrite Rsum_cons. pose proof (H a ltac:(by left)).
  assert (∀ y, y ∈ l → 0 <= y)%R as Hl by (intros; apply H; by right).
  pose proof (Rsum_nonneg l Hl).
  apply elem_of_cons in Hx as [->|Hx]; [lra|]. specialize (IH Hl Hx). lra.
Qed.

Lemma softmax_exps_range ds e :
  e ∈ softmax_exps ds → (0 < e <= 1)%R.
Proof.
  unfold softmax_exps. intros He.
  apply list_elem_of_fmap in He as (d & -> & Hd).
  split; [apply exp_pos|].
  pose proof (Math_max_ge ds d Hd) as Hle.
  destruct (Req_dec_T d (Math_max ds)) as [->|Hne].
  - rewrite Rplus_opp_r, exp_0. lra.
  - rewrite <- exp_0. left. apply exp_increasing. lra.
Qed.

Lemma softmax_exps_one ds : ds ≠ [] → 1%R ∈ softmax_exps ds.
Proof.
  intros Hne. unfold softmax_exps. apply list_elem_of_fmap.
  exists (Math_max ds). split; [|by apply Math_max_elem].
  by rewrite Rplus_opp_r, exp_0.
Qed.

(** The maximum logit contributes [exp(0) = 1] and nothing is negative. *)
Lemma softmax_total_ge_1 ds : ds ≠ [] → (1 <= softmax_total ds)%R.
Proof.
  intros Hne. unfold softmax_total. rewrite sum_left_Rsum.
  apply Rsum_ge_elem; [|by apply softmax_exps_one].
  intros y Hy. apply softmax_exps_range in Hy. lra.
Qed.

Lemma js_pow_inv t : (0 < t)%R → js_pow t (-1) = (/ t)%R.
Proof.
  intros Ht. unfold js_pow.
  destruct (Req_dec_T (-1) 0) as [?|_]; [lra|].
  destruct (Rlt_dec 0 t) as [_|?]; [|lra].
  replace (-1)%R with (Ropp 1) by lra.
  rewrite Rpower_Ropp, Rpower_1; done.
Qed.

Lemma softmax_data_range ds w :
  ds ≠ [] → w ∈ softmax_data ds → (0 < w <= 1)%R.
Proof.
  intros Hne Hw. unfold softmax_data in Hw.
  apply list_elem_of_fmap in Hw as (e & -> & He).
  pose proof (softmax_total_ge_1 ds Hne) as Ht.
  pose proof (softmax_exps_range ds e He) as [He0 He1].
  assert (e <= softmax_total ds)%R as Hle.
  { unfold softmax_total. rewrite sum_left_Rsum. apply Rsum_ge_elem; [|done].
    intros y Hy. apply softmax_exps_range in Hy. lra. }
  rewrite js_pow_inv by lra. split.
  - apply Rmult_lt_0_compat; [done|]. apply Rinv_0_lt_compat. lra.
  - apply (Rmult_le_reg_r (softmax_total ds)); [lra|].
    rewrite Rmult_assoc, Rinv_l by lra. lra.
Qed.

Lemma softmax_data_sum ds : ds ≠ [] → Rsum (softmax_data ds) = 1%R.
Proof.
  intros Hne. unfold softmax_data.
  pose proof (softmax_total_ge_1 ds Hne) as Ht.
  rewrite (Rsum_map_ext _ (λ e, js_pow (softmax_total ds) (-1) * id e)%R)
    by (intros; unfold id; lra).
  rewrite Rsum_map_scale, map_id, js_pow_inv by lra.
  rewrite <- sum_left_Rsum. fold (softmax_total ds). apply Rinv_l. lra.
Qed.

Lemma softmax_data_length ds : length (softmax_data ds) = length ds.
Proof. unfold softmax_data, softmax_exps. by rewrite !length_map. Qed.

Lemma Forall2_has_data_dat s outs ds :
  Forall2 (has_data s) outs ds → map (dat s) outs = ds ∧ Forall (valid s) outs.
Proof.
  induction 1 as [|o d outs ds Hd _ [IH1 IH2]]; [by split|].
  cbn [map]. rewrite (has_data_dat _ _ _ Hd), IH1. split; [done|].
  constructor; [by eapply has_data_valid|done].
Qed.

(** ** Claim C10 *)

(** C10: for every non-empty list of logits (objects of the store, whose
    data are real numbers), [softmax] returns; its denominator, the data of
    the node [total], is at least 1; the division is the multiplication by
    [1 / total], the inverse of a number that is not zero; there is one
    weight per logit, every weight is between 0 and 1, and the weights sum to 1. *)
Theorem softmax_denominator_at_least_one (s : Store) (logits : list nat) :
  logits ≠ [] → Forall (valid s) logits →
  ∃ exps total s1 outs s',
    softmax_sum logits s = Ok ((exps, total), s1) ∧
    softmax logits s = Ok (outs, s') ∧
    (1 <= dat s1 total)%R ∧
    js_pow (dat s1 total) (-1) = (/ dat s1 total)%R ∧
    length outs = length logits ∧
    Forall (λ o, valid s' o ∧ (0 <= dat s' o <= 1)%R) outs ∧
    Rsum (map (dat s') outs) = 1%R.
Proof.
  intros Hne Hv.
  assert (map (dat s) logits ≠ []) as Hds by (by destruct logits).
  destruct (total_softmax_sum logits s Hne Hv) as ([exps t] & s1 & Hsum & _ & _ & Ht).
  destruct (total_softmax logits s Hne Hv) as (outs & s' & Hrun & _ & Hout).
  cbn [fst snd] in *. apply has_data_dat in Ht.
  destruct (Forall2_has_data_dat _ _ _ Hout) as [Hmap Hval].
  pose proof (softmax_total_ge_1 _ Hds) as Hge.
  exists exps, t, s1, outs, s'. split_and!; try done.
  - by rewrite Ht.
  - rewrite Ht. apply js_pow_inv. lra.
  - rewrite (Forall2_length _ _ _ Hout), softmax_data_length, length_map. done.
  - rewrite Forall_forall in *. intros o Ho. split; [auto|].
    assert (dat s' o ∈ softmax_data (map (dat s) logits)) as Hin.
    { rewrite <- Hmap. apply list_elem_of_fmap. eauto. }
    apply softmax_data_range in Hin; [lra|done].
  - rewrite Hmap. by apply softmax_data_sum.
Qed.

Lemma softmax_denominator_witness :
  ∃ exps total s1 outs s',
    softmax_sum [0; 1] (mkStore [Value_new 1 [] []; Value_new 2 [] []] 0) =
      Ok ((exps, total), s1) ∧
    softmax [0; 1] (mkStore [Value_new 1 [] []; Value_new 2 [] []] 0) = Ok (outs, s') ∧
    (1 <= dat s1 total)%R ∧
    js_pow (dat s1 total) (-1) = (/ dat s1 total)%R ∧
    length outs = length [0; 1] ∧
    Forall (λ o, valid s' o ∧ (0 <= dat s' o <= 1)%R) outs ∧
    Rsum (map (dat s') outs) = 1%R.
Proof.
  apply (softmax_denominator_at_least_one
           (mkStore [Value_new 1 [] []; Value_new 2 [] []] 0) [0; 1]).
  - discriminate.
  - repeat constructor; eexists; reflexivity.
Defined.

(** ** Shapes through the forward pass *)

(** [ext a c] from a chain of extensions among the hypotheses. *)
Ltac ext_tac :=
  repeat match goal with
         | |- ext ?a ?a => apply ext_refl
         | H : ext ?a ?c |- ext ?a ?c => exact H
         | H : ext ?b ?c |- ext ?a ?c => apply (ext_trans a b c); [|exact H]
         end.

Lemma vec_ok_ext s s' n x : ext s s' → vec_ok s n x → vec_ok s' n x.
Proof.
  intros He [Hl Hv]. split; [done|].
  eapply Forall_impl; [exact Hv|]. intros r. by apply valid_ext.
Qed.

Lemma mat_ok_ext s s' r c w : ext s s' → mat_ok s r c w → mat_ok s' r c w.
Proof.
  intros He [Hl Hv]. split; [done|].
  eapply Forall_impl; [exact Hv|]. intros x. by apply vec_ok_ext.
Qed.

Lemma cache_ok_ext s s' cfg p c : ext s s' → cache_ok s cfg p c → cache_ok s' cfg p c.
Proof.
  intros He [Hl Hv]. split; [done|].
  eapply Forall_impl; [exact Hv|]. intros x. by apply mat_ok_ext.
Qed.

Lemma has_matrix_ext s s' this key r c :
  ext s s' → has_matrix s this key r c → has_matrix s' this key r c.
Proof. intros He (w & Hw & Hm). exists w. split; [done|]. by eapply mat_ok_ext. Qed.

Lemma model_ok_ext s s' this : ext s s' → model_ok s this → model_ok s' this.
Proof.
  intros He (H1 & H2 & H3 & H4 & H5 & H6 & H7).
  unfold model_ok. split_and!; try done; try by eapply has_matrix_ext.
  intros li Hli. destruct (H7 li Hli) as (A & B & C & D & E & F).
  split_and!; by eapply has_matrix_ext.
Qed.

Lemma vec_ok_lookup s n x i : vec_ok s n x → i < n → ∃ r, x !! i = Some r ∧ valid s r.
Proof.
  intros [Hl Hv] Hi. destruct (lookup_lt_is_Some_2 x i) as [r Hr]; [lia|].
  exists r. split; [done|]. rewrite Forall_forall in Hv. apply Hv.
  by eapply list_elem_of_lookup_2.
Qed.

Lemma Forall2_valid_vec {A} s (l : list A) (bs : list nat) :
  Forall2 (λ _ b, valid s b) l bs → vec_ok s (length l) bs.
Proof.
  intros H. split; [symmetry; by eapply Forall2_length|].
  induction H; constructor; auto.
Qed.

Lemma total_mul_valid this other s :
  valid s this →
  match other with OValue o => valid s o | ONumber _ => True end →
  total (mul this other) s (λ r s', valid s' r).
Proof.
  intros Ht Ho. eapply total_mono.
  - apply (total_mul this other s (dat s this)
             (match other with OValue o => dat s o | ONumber x => x end)).
    + by apply valid_has_data.
    + destruct other; cbn [operand_data]; [by apply valid_has_data|done].
  - intros r s' _ H. cbn beta in H. exact (has_data_valid _ _ _ H).
Qed.

Lemma total_add_valid this other s :
  valid s this →
  match other with OValue o => valid s o | ONumber _ => True end →
  total (add this other) s (λ r s', valid s' r).
Proof.
  intros Ht Ho. eapply total_mono.
  - apply (total_add this other s (dat s this)
             (match other with OValue o => dat s o | ONumber x => x end)).
    + by apply valid_has_data.
    + destruct other; cbn [operand_data]; [by apply valid_has_data|done].
  - intros r s' _ H. cbn beta in H. exact (has_data_valid _ _ _ H).
Qed.

Lemma total_vsum_valid vals s :
  vals ≠ [] → Forall (valid s) vals → total (vsum vals) s (λ r s', valid s' r).
Proof.
  intros Hne Hv. eapply total_mono.
  - apply (total_vsum vals s (map (dat s) vals) Hne).
    change (map ?f vals) with (f <$> vals). apply Forall2_fmap_r.
    apply Forall_Forall2_diag. eapply Forall_impl; [exact Hv|].
    intros r. apply valid_has_data.
  - intros r s' _ H. cbn beta in H. exact (has_data_valid _ _ _ H).
Qed.

(** [a.map((ai, i) => ai.op(b[i]))] for two vectors of the same length. *)
Lemma total_zip_op (op : nat → operand → M nat) a b n s :
  (∀ x o s1, valid s1 x →
     match o with OValue r => valid s1 r | ONumber _ => True end →
     total (op x o) s1 (λ r s', valid s' r)) →
  vec_ok s n a → vec_ok s n b →
  total (imapM (λ i ai, o <- arg (b !! i) ;; op ai o) a) s (λ y s', vec_ok s' n y).
Proof.
  intros Hop Ha Hb. eapply total_mono.
  - apply (total_imapM _ a s (λ _ _ r s', valid s' r)).
    + intros j x r s1 s2 H He. by eapply valid_ext.
    + intros j ai s1 Hj He.
      assert (j < n) as Hjn by (destruct Ha as [<- _]; by eapply lookup_lt_Some).
      destruct (vec_ok_lookup s n b j Hb Hjn) as (bj & Hbj & Hvb).
      rewrite Hbj. cbn [arg].
      apply (total_bind _ _ s1 (λ o _, o = OValue bj)); [by apply total_ret|].
      intros o s2 He2 ->. apply Hop.
      * apply (valid_ext s s2); [ext_tac|].
        destruct Ha as [_ Hva]. rewrite Forall_forall in Hva. apply Hva.
        by eapply list_elem_of_lookup_2.
      * apply (valid_ext s s2); [ext_tac|done].
  - intros y s' He [Hlen Hall]. destruct Ha as [Hla _]. split; [lia|].
    apply Forall_lookup. intros j r Hr.
    destruct (lookup_lt_is_Some_2 a j) as [aj Haj];
      [rewrite <- Hlen; by eapply lookup_lt_Some|].
    by eapply Hall.
Qed.

Lemma total_add_each a b n s :
  vec_ok s n a → vec_ok s n b → total (add_each a b) s (λ y s', vec_ok s' n y).
Proof. apply total_zip_op. intros. by apply total_add_valid. Qed.

(** The dot product of a row with a vector. *)
Lemma total_dot a b n s :
  0 < n → vec_ok s n a → vec_ok s n b →
  total (ps <- imapM (λ i ai, o <- arg (b !! i) ;; mul ai o) a ;; vsum ps) s
        (λ r s', valid s' r).
Proof.
  intros Hn Ha Hb. eapply total_bind.
  - apply (total_zip_op mul a b n s); [|done|done].
    intros. by apply total_mul_valid.
  - intros ps s1 He [Hl Hv]. cbn beta. apply total_vsum_valid; [|done].
    intros ->. simpl in Hl. lia.
Qed.

Lemma total_linear x w r n s :
  0 < n → vec_ok s n x → mat_ok s r n w →
  total (linear x w) s (λ y s', vec_ok s' r y).
Proof.
  intros Hn Hx [Hlw Hw]. unfold linear. eapply total_mono.
  - apply (total_mapM _ w s (λ _ b s', valid s' b)).
    + intros a b s1 s2 H He. by eapply valid_ext.
    + intros wo s1 Hin He. rewrite Forall_forall in Hw.
      apply (total_dot wo x n s1 Hn); by eapply vec_ok_ext; eauto.
  - intros y s' _ Hall. rewrite <- Hlw. by apply Forall2_valid_vec.
Qed.

Lemma total_mapM_valid {A} (f : A → M nat) (l : list A) s :
  (∀ a s1, a ∈ l → ext s s1 → total (f a) s1 (λ b s', valid s' b)) →
  total (mapM f l) s (λ y s', vec_ok s' (length l) y).
Proof.
  intros Hf. eapply total_mono.
  - apply (total_mapM f l s (λ _ b s', valid s' b)); [|done].
    intros a b s1 s2 H He. by eapply valid_ext.
  - intros y s' _ Hall. by apply Forall2_valid_vec.
Qed.

Lemma total_pow_valid this e s :
  valid s this → total (pow this e) s (λ r s', valid s' r).
Proof.
  intros Ht. eapply total_mono.
  - apply (total_pow this e s (dat s this)). by apply valid_has_data.
  - intros r s' _ H. cbn beta in H. exact (has_data_valid _ _ _ H).
Qed.

Lemma total_relu_valid this s :
  valid s this → total (relu this) s (λ r s', valid s' r).
Proof.
  intros Ht. eapply total_mono.
  - apply (total_relu this s (dat s this)). by apply valid_has_data.
  - intros r s' _ H. cbn beta in H. exact (has_data_valid _ _ _ H).
Qed.

Lemma vec_ok_elem s n x r : vec_ok s n x → r ∈ x → valid s r.
Proof. intros [_ Hv] Hr. rewrite Forall_forall in Hv. auto. Qed.

Lemma total_rmsnorm x n s :
  0 < n → vec_ok s n x → total (rmsnorm x) s (λ y s', vec_ok s' n y).
Proof.
  intros Hn Hx. unfold rmsnorm.
  eapply total_bind.
  { apply (total_mapM_valid _ x s). intros xi s1 Hin He.
    assert (valid s1 xi) by (eapply valid_ext; [done|by eapply vec_ok_elem]).
    by apply total_mul_valid. }
  intros sq s1 He1 [Hlsq Hvsq]. cbn beta.
  eapply total_bind.
  { apply total_vsum_valid; [|done]. intros ->. destruct Hx as [Hl _]. simpl in Hlsq. lia. }
  intros sm s2 He2 Hsm. cbn beta.
  eapply total_bind; [by apply total_mul_valid|].
  intros ms s3 He3 Hms. cbn beta.
  eapply total_bind; [by apply total_add_valid|].
  intros a s4 He4 Ha. cbn beta.
  eapply total_bind; [by apply total_pow_valid|].
  intros sc s5 He5 Hsc. cbn beta.
  eapply total_mono.
  - apply (total_mapM_valid _ x s5). intros xi s6 Hin He6.
    apply total_mul_valid.
    + apply (valid_ext s s6); [ext_tac|]. by eapply vec_ok_elem.
    + by eapply valid_ext.
  - intros y s' _ Hy. destruct Hx as [<- _]. done.
Qed.

Lemma slice_vec_ok s n x a k :
  vec_ok s n x → a + k ≤ n → vec_ok s k (slice a (a + k) x).
Proof.
  intros [Hl Hv] Hle. unfold slice. split.
  - rewrite length_take, length_drop. lia.
  - apply Forall_take, Forall_drop. done.
Qed.

Lemma mat_ok_lookup s r c w i :
  mat_ok s r c w → i < r → ∃ row, w !! i = Some row ∧ vec_ok s c row.
Proof.
  intros [Hl Hv] Hi. destruct (lookup_lt_is_Some_2 w i) as [row Hr]; [lia|].
  exists row. split; [done|]. rewrite Forall_forall in Hv. apply Hv.
  by eapply list_elem_of_lookup_2.
Qed.

Lemma slice_mat_ok s r n w a k :
  mat_ok s r n w → a + k ≤ n → mat_ok s r k (map (slice a (a + k)) w).
Proof.
  intros [Hl Hv] Hle. split; [by rewrite length_map|].
  change (map ?f w) with (f <$> w). apply Forall_fmap.
  eapply Forall_impl; [exact Hv|]. intros x Hx. cbn. by apply (slice_vec_ok s n).
Qed.

Lemma softmax_row_ok ds : ds ≠ [] → row_ok (length ds) (softmax_data ds).
Proof.
  intros Hne. split_and!.
  - apply softmax_data_length.
  - by apply softmax_data_sum.
  - apply Forall_forall. intros w Hw. apply softmax_data_range in Hw; [lra|done].
Qed.

Lemma total_attention_head headDim scale li h q keys_li values_li n p1 s :
  0 < headDim → h * headDim + headDim ≤ n → 0 < p1 →
  vec_ok s n q → mat_ok s p1 n keys_li → mat_ok s p1 n values_li →
  total (attention_head headDim scale li h q keys_li values_li) s
    (λ r s', vec_ok s' headDim r.1 ∧ head_record_ok p1 li h r.2).
Proof.
  intros Hhd Hle Hp Hq Hk Hv. unfold attention_head. cbn zeta.
  set (hs := h * headDim).
  pose proof (slice_vec_ok s n q hs headDim Hq Hle) as HqH.
  pose proof (slice_mat_ok s p1 n keys_li hs headDim Hk Hle) as HkH.
  pose proof (slice_mat_ok s p1 n values_li hs headDim Hv Hle) as HvH.
  set (qH := slice hs (hs + headDim) q) in *.
  set (kH := map (slice hs (hs + headDim)) keys_li) in *.
  set (vH := map (slice hs (hs + headDim)) values_li) in *.
  (* the attention logits *)
  eapply total_bind.
  { apply (total_mapM_valid _ kH s). intros kt s1 Hin He.
    destruct HkH as [_ HkH]. rewrite Forall_forall in HkH.
    eapply total_bind.
    { apply (total_zip_op mul qH kt headDim s1).
      - intros. by apply total_mul_valid.
      - by eapply vec_ok_ext.
      - eapply vec_ok_ext; [done|]. by apply HkH. }
    intros ps s2 He2 [Hlps Hvps]. cbn beta.
    eapply total_bind.
    { apply total_vsum_valid; [|done]. intros ->. simpl in Hlps. lia. }
    intros sm s3 He3 Hsm. cbn beta. by apply total_mul_valid. }
  intros attnLogits s1 He1 [Hll Hvl]. cbn beta.
  assert (length kH = p1) as HlkH by (by destruct HkH).
  rewrite HlkH in Hll.
  (* softmax *)
  eapply total_bind.
  { apply total_softmax; [|done]. intros ->. simpl in Hll. lia. }
  intros attnWeights s2 He2 Hw. cbn beta.
  destruct (Forall2_has_data_dat _ _ _ Hw) as [Hwd Hwv].
  assert (length attnWeights = p1) as Hlw.
  { rewrite (Forall2_length _ _ _ Hw), softmax_data_length, length_map. done. }
  eapply total_bind; [by apply total_mapM_get_data|].
  intros ws s3 He3 ->. cbn beta.
  (* the weighted sums *)
  eapply total_bind.
  { apply (total_mapM_valid _ (seq 0 headDim) s3). intros j s4 Hj He4.
    apply elem_of_seq in Hj.
    eapply total_bind.
    { apply (total_imapM _ attnWeights s4 (λ _ _ r s', valid s' r)).
      - intros t w r sa sb H He. by eapply valid_ext.
      - intros t w s5 Ht He5.
        assert (t < p1) as Htp by (rewrite <- Hlw; by eapply lookup_lt_Some).
        destruct (mat_ok_lookup s p1 headDim vH t HvH Htp) as (vt & Hvt & Hvtok).
        rewrite Hvt. cbn [defined].
        apply (total_bind _ _ s5 (λ x _, x = vt)); [by apply total_ret|].
        intros ? s6 He6 ->.
        destruct (vec_ok_lookup s headDim vt j Hvtok) as (vj & Hvj & Hvjv); [lia|].
        rewrite Hvj. cbn [arg].
        apply (total_bind _ _ s6 (λ o _, o = OValue vj)); [by apply total_ret|].
        intros ? s7 He7 ->. apply total_mul_valid.
        + apply (valid_ext s2 s7); [ext_tac|].
          rewrite Forall_forall in Hwv. apply Hwv. by eapply list_elem_of_lookup_2.
        + apply (valid_ext s s7); [ext_tac|done]. }
    intros ps s5 He5 [Hlps Hall]. cbn beta.
    apply total_vsum_valid.
    + intros ->. simpl in Hlps. lia.
    + apply Forall_lookup. intros t r Hr.
      destruct (lookup_lt_is_Some_2 attnWeights t) as [w Hwt];
        [rewrite <- Hlps; by eapply lookup_lt_Some|].
      by eapply Hall. }
  intros outs s4 He4 Houts. cbn beta. apply total_ret. cbn [fst snd]. split.
  - by rewrite length_seq in Houts.
  - split_and!; [done|done|]. eexists. split; [reflexivity|].
    rewrite Hwd. rewrite <- Hll, <- (length_map (dat s1)).
    apply softmax_row_ok. intros Hnil. apply (f_equal length) in Hnil.
    rewrite length_map in Hnil. simpl in Hnil. lia.
Qed.

Lemma total_attention_heads headDim scale li q keys_li values_li n p1 count :
  ∀ h s,
    0 < headDim → (h + count) * headDim ≤ n → 0 < p1 →
    vec_ok s n q → mat_ok s p1 n keys_li → mat_ok s p1 n values_li →
    total (attention_heads headDim scale li count h q keys_li values_li) s
      (λ r s', vec_ok s' (count * headDim) r.1 ∧
               Forall2 (head_record_ok p1 li) (seq h count) r.2).
Proof.
  induction count as [|count IH]; intros h s Hhd Hle Hp Hq Hk Hv; cbn [attention_heads].
  - apply total_ret. cbn. split; [split; [done|constructor]|constructor].
  - eapply total_bind.
    { apply (total_attention_head headDim scale li h q keys_li values_li n p1 s);
        try done. nia. }
    intros [outs ad] s1 He1 [Houts Had]. cbn [fst snd] in *. cbn beta.
    eapply total_bind.
    { apply (IH (S h) s1); try done; [nia|..].
      - by eapply vec_ok_ext.
      - by eapply mat_ok_ext.
      - by eapply mat_ok_ext. }
    intros [xAttn ads] s2 He2 [Hx Hads]. cbn [fst snd] in *. cbn beta.
    apply total_ret. cbn [fst snd seq]. split.
    + destruct Houts as [Hlo Hvo], Hx as [Hlx Hvx]. split.
      * rewrite length_app. simpl. lia.
      * apply Forall_app. split; [|done].
        eapply Forall_impl; [exact Hvo|]. intros r. by apply valid_ext.
    + constructor; done.
Qed.

Lemma cache_at_ext s s' cfg p li c : ext s s' → cache_at s cfg p li c → cache_at s' cfg p li c.
Proof.
  intros He [Hl Hc]. split; [done|]. intros l rows Hr. eapply mat_ok_ext; eauto.
Qed.

Lemma cache_ok_at s cfg p c : cache_ok s cfg p c ↔ cache_at s cfg p 0 c.
Proof.
  unfold cache_ok, cache_at. split; intros [Hl Hc]; (split; [done|]).
  - intros l rows Hr. rewrite decide_False by lia.
    rewrite Forall_forall in Hc. apply Hc. by eapply list_elem_of_lookup_2.
  - apply Forall_forall. intros rows Hr. apply list_elem_of_lookup in Hr as [l Hl'].
    specialize (Hc l rows Hl'). by rewrite decide_False in Hc by lia.
Qed.

Lemma cache_at_all s cfg p c :
  cache_at s cfg p (nLayer cfg) c ↔ cache_ok s cfg (S p) c.
Proof.
  unfold cache_ok, cache_at. split; intros [Hl Hc]; (split; [done|]).
  - apply Forall_forall. intros rows Hr. apply list_elem_of_lookup in Hr as [l Hl'].
    specialize (Hc l rows Hl'). apply lookup_lt_Some in Hl'.
    by rewrite decide_True in Hc by lia.
  - intros l rows Hr. pose proof (lookup_lt_Some _ _ _ Hr).
    rewrite decide_True by lia.
    rewrite Forall_forall in Hc. apply Hc. by eapply list_elem_of_lookup_2.
Qed.

Lemma total_cache_push s cfg p li cache k :
  li < nLayer cfg → cache_at s cfg p li cache → vec_ok s (nEmbd cfg) k →
  total (cache_push cache li k) s
    (λ c' s', cache_at s' cfg p (S li) c' ∧
              ∃ rows, c' !! li = Some rows ∧ mat_ok s' (S p) (nEmbd cfg) rows).
Proof.
  intros Hli [Hl Hc] Hk. unfold cache_push.
  destruct (lookup_lt_is_Some_2 cache li) as [row Hrow]; [lia|].
  rewrite Hrow. cbn [defined].
  apply (total_bind _ _ s (λ x _, x = row)); [by apply total_ret|].
  intros ? s1 He1 ->. apply total_ret.
  pose proof (Hc li row Hrow) as Hm. rewrite decide_False in Hm by lia.
  assert (mat_ok s1 (S p) (nEmbd cfg) (row ++ [k])) as Hm'.
  { destruct Hm as [Hlr Hvr]. split; [rewrite length_app; simpl; lia|].
    apply Forall_app. split.
    - eapply Forall_impl; [exact Hvr|]. intros x. by apply vec_ok_ext.
    - constructor; [by eapply vec_ok_ext|constructor]. }
  split.
  - split; [by rewrite length_insert|]. intros l rows Hr.
    destruct (decide (l = li)) as [->|Hne].
    + rewrite list_lookup_insert_eq in Hr by lia. injection Hr as <-.
      by rewrite decide_True by lia.
    + rewrite list_lookup_insert_ne in Hr by done.
      specialize (Hc l rows Hr). eapply mat_ok_ext; [done|].
      destruct (decide (l < li)); [rewrite decide_True by lia|rewrite decide_False by lia];
        done.
  - exists (row ++ [k]). split; [|done]. by rewrite list_lookup_insert_eq by lia.
Qed.

Lemma total_bind_defined {A B} (o : option A) (a : A) (k : A → M B) s
    (Q : B → Store → Prop) :
  o = Some a → total (k a) s Q → total (x <- defined o ;; k x) s Q.
Proof. intros -> H. exact H. Qed.

Lemma total_forward_layer this li st p s :
  model_ok s this → li < nLayer (config this) →
  vec_ok s (nEmbd (config this)) (fw_x st) →
  cache_at s (config this) p li (fw_keys st) →
  cache_at s (config this) p li (fw_values st) →
  total (forward_layer this li st) s
    (λ st' s',
       vec_ok s' (nEmbd (config this)) (fw_x st') ∧
       cache_at s' (config this) p (S li) (fw_keys st') ∧
       cache_at s' (config this) p (S li) (fw_values st') ∧
       ∃ ads, fw_attention st' = fw_attention st ++ ads ∧
              Forall2 (head_record_ok (S p) li) (seq 0 (nHead (config this))) ads).
Proof.
  intros Hmodel Hli Hx Hkeys Hvals.
  pose proof Hmodel as (Hhd & Hdiv & _ & _ & _ & _ & Hlayers).
  destruct (Hlayers li Hli)
    as ((wq & Hwq & Hmq) & (wk & Hwk & Hmk) & (wv & Hwv & Hmv) & (wo & Hwo & Hmo) &
        (fc1 & Hfc1 & Hm1) & (fc2 & Hfc2 & Hm2)).
  set (cfg := config this) in *. set (n := nEmbd cfg) in *.
  assert (0 < n) as Hn.
  { unfold n. destruct (nHead cfg); [simpl in Hhd; lia|]. nia. }
  assert (nHead cfg * (n / nHead cfg) = n) as Hdiv' by (symmetry; exact Hdiv).
  unfold forward_layer. cbn zeta. fold cfg. fold n.
  eapply total_bind; [by apply total_rmsnorm|].
  intros x1 s1 He1 Hx1. cbn beta in *.
  apply (total_bind_defined _ wq); [done|].
  eapply total_bind; [apply (total_linear x1 wq n n s1); [done|done|by eapply mat_ok_ext]|].
  intros q s2 He2 Hq. cbn beta in *.
  apply (total_bind_defined _ wk); [done|].
  eapply total_bind.
  { apply (total_linear x1 wk n n s2); [done|by eapply vec_ok_ext|].
    apply (mat_ok_ext s s2); [ext_tac|done]. }
  intros k s3 He3 Hk. cbn beta in *.
  apply (total_bind_defined _ wv); [done|].
  eapply total_bind.
  { apply (total_linear x1 wv n n s3); [done| |].
    - apply (vec_ok_ext s1 s3); [ext_tac|done].
    - apply (mat_ok_ext s s3); [ext_tac|done]. }
  intros v s4 He4 Hv. cbn beta in *.
  eapply total_bind.
  { apply (total_cache_push s4 cfg p li (fw_keys st) k Hli).
    - apply (cache_at_ext s s4); [ext_tac|done].
    - by eapply vec_ok_ext. }
  intros keys s5 He5 (Hkeys' & krows & Hkr & Hkm). cbn beta in *.
  eapply total_bind.
  { apply (total_cache_push s5 cfg p li (fw_values st) v Hli).
    - apply (cache_at_ext s s5); [ext_tac|done].
    - by eapply vec_ok_ext. }
  intros values s6 He6 (Hvals' & vrows & Hvr & Hvm). cbn beta in *.
  apply (total_bind_defined _ krows); [done|].
  apply (total_bind_defined _ vrows); [done|].
  eapply total_bind.
  { apply (total_attention_heads (n / nHead cfg) _ li q krows vrows n (S p)
             (nHead cfg) 0 s6); [done| |lia| | |done].
    - rewrite Nat.add_0_l. lia.
    - apply (vec_ok_ext s2 s6); [ext_tac|done].
    - by eapply mat_ok_ext. }
  intros [xAttn ads] s7 He7 [HxA Hads]. cbn [fst snd] in *. cbn beta zeta.
  rewrite Hdiv' in HxA.
  apply (total_bind_defined _ wo); [done|].
  eapply total_bind.
  { apply (total_linear xAttn wo n n s7); [done|done|].
    apply (mat_ok_ext s s7); [ext_tac|done]. }
  intros x2 s8 He8 Hx2. cbn beta in *.
  eapply total_bind.
  { apply (total_add_each x2 (fw_x st) n s8); [done|].
    apply (vec_ok_ext s s8); [ext_tac|done]. }
  intros x3 s9 He9 Hx3. cbn beta in *.
  eapply total_bind; [by apply total_rmsnorm|].
  intros x4 s10 He10 Hx4. cbn beta in *.
  apply (total_bind_defined _ fc1); [done|].
  eapply total_bind.
  { apply (total_linear x4 fc1 (4 * n) n s10); [done|done|].
    apply (mat_ok_ext s s10); [ext_tac|done]. }
  intros x5 s11 He11 Hx5. cbn beta in *.
  eapply total_bind.
  { apply (total_mapM_valid relu x5 s11). intros a sa Ha Hea.
    apply total_relu_valid. apply (valid_ext s11 sa); [done|].
    by apply (vec_ok_elem s11 (4 * n) x5). }
  intros x6 s12 He12 Hx6. cbn beta in *.
  destruct Hx5 as [Hl5 _]. rewrite Hl5 in Hx6.
  apply (total_bind_defined _ fc2); [done|].
  eapply total_bind.
  { apply (total_linear x6 fc2 n (4 * n) s12); [lia|done|].
    apply (mat_ok_ext s s12); [ext_tac|done]. }
  intros x7 s13 He13 Hx7. cbn beta in *.
  eapply total_bind.
  { apply (total_add_each x7 x3 n s13); [done|].
    apply (vec_ok_ext s9 s13); [ext_tac|done]. }
  intros x8 s14 He14 Hx8. cbn beta in *.
  apply total_ret. cbn [fw_x fw_keys fw_values fw_attention]. split_and!.
  - done.
  - apply (cache_at_ext s5 s14); [ext_tac|done].
  - apply (cache_at_ext s6 s14); [ext_tac|done].
  - exists ads. split; done.
Qed.

Lemma layer_heads_S cfg li count :
  layer_heads cfg li (S count) =
  map (λ h, (li, h)) (seq 0 (nHead cfg)) ++ layer_heads cfg (S li) count.
Proof.
  unfold layer_heads. cbn [seq mbind list_bind]. f_equal.
Qed.

Lemma attention_ok_S cfg p1 li count ads1 ads2 :
  Forall2 (head_record_ok p1 li) (seq 0 (nHead cfg)) ads1 →
  attention_ok cfg p1 (S li) count ads2 →
  attention_ok cfg p1 li (S count) (ads1 ++ ads2).
Proof.
  intros H1 H2. unfold attention_ok. rewrite layer_heads_S.
  apply Forall2_app; [|done].
  change (map ?f ?l) with (f <$> l). apply Forall2_fmap_l.
  eapply Forall2_impl; [exact H1|]. done.
Qed.

Lemma total_forward_layers this p count :
  ∀ li st s,
    model_ok s this → li + count = nLayer (config this) →
    vec_ok s (nEmbd (config this)) (fw_x st) →
    cache_at s (config this) p li (fw_keys st) →
    cache_at s (config this) p li (fw_values st) →
    total (forward_layers this count li st) s
      (λ st' s',
         vec_ok s' (nEmbd (config this)) (fw_x st') ∧
         cache_at s' (config this) p (nLayer (config this)) (fw_keys st') ∧
         cache_at s' (config this) p (nLayer (config this)) (fw_values st') ∧
         ∃ ads, fw_attention st' = fw_attention st ++ ads ∧
                attention_ok (config this) (S p) li count ads).
Proof.
  induction count as [|count IH]; intros li st s Hmodel Hli Hx Hk Hv; cbn [forward_layers].
  - apply total_ret. rewrite Nat.add_0_r in Hli. subst li. split_and!; try done.
    exists []. split; [by rewrite app_nil_r|]. constructor.
  - eapply total_bind; [apply (total_forward_layer this li st p s); try done; lia|].
    intros st1 s1 He1 (Hx1 & Hk1 & Hv1 & ads1 & Ha1 & Hads1). cbn beta.
    eapply total_mono.
    + apply (IH (S li) st1 s1); try done; [by eapply model_ok_ext|lia].
    + intros st2 s2 He2 (Hx2 & Hk2 & Hv2 & ads2 & Ha2 & Hads2). cbn beta.
      split_and!; try done. exists (ads1 ++ ads2). split.
      * rewrite Ha2, Ha1. by rewrite app_assoc.
      * by apply attention_ok_S.
Qed.

Lemma total_forward this tokenId posId keys values p s :
  model_ok s this →
  (∃ t, tokenId = Some t ∧ t < cfg_vocabSize (config this)) →
  posId < blockSize (config this) →
  cache_ok s (config this) p keys → cache_ok s (config this) p values →
  total (forward this tokenId posId keys values) s
    (λ r s',
       vec_ok s' (cfg_vocabSize (config this)) r.1.1.1 ∧
       attention_ok (config this) (S p) 0 (nLayer (config this)) r.1.1.2 ∧
       cache_ok s' (config this) (S p) r.1.2 ∧
       cache_ok s' (config this) (S p) r.2).
Proof.
  intros Hmodel (t & -> & Ht) Hpos Hkeys Hvals.
  pose proof Hmodel as (Hhd & Hdiv & _ & (wte & Hwte & Hmte) & (wpe & Hwpe & Hmpe) &
                        (lm & Hlm & Hmlm) & _).
  set (cfg := config this) in *. set (n := nEmbd cfg) in *.
  assert (0 < n) as Hn.
  { unfold n. destruct (nHead cfg); [simpl in Hhd; lia|]. nia. }
  unfold forward. fold cfg.
  apply (total_bind_defined _ wte); [done|]. cbn zeta. cbn [mbind option_bind].
  apply (total_bind_defined _ wpe); [done|].
  destruct (mat_ok_lookup s _ n wte t Hmte Ht) as (tokEmb & Htok & Htokok).
  destruct (mat_ok_lookup s _ n wpe posId Hmpe Hpos) as (posEmb & Hposl & Hposok).
  apply (total_bind_defined _ tokEmb); [done|]. rewrite Hposl.
  eapply total_bind.
  { apply (total_imapM _ tokEmb s (λ _ _ r s', valid s' r)).
    - intros j a r sa sb H He. by eapply valid_ext.
    - intros j a s1 Hj He1. cbn [defined].
      apply (total_bind _ _ s1 (λ x _, x = posEmb)); [by apply total_ret|].
      intros ? s2 He2 ->.
      assert (j < n) as Hjn by (destruct Htokok as [<- _]; by eapply lookup_lt_Some).
      destruct (vec_ok_lookup s n posEmb j Hposok Hjn) as (pj & Hpj & Hpjv).
      rewrite Hpj. cbn [arg].
      apply (total_bind _ _ s2 (λ o _, o = OValue pj)); [by apply total_ret|].
      intros ? s3 He3 ->. apply total_add_valid.
      + apply (valid_ext s s3); [ext_tac|]. eapply vec_ok_elem; [exact Htokok|].
        by eapply list_elem_of_lookup_2.
      + apply (valid_ext s s3); [ext_tac|done]. }
  intros x0 s1 He1 [Hlx0 Hall]. cbn beta in *.
  assert (vec_ok s1 n x0) as Hx0.
  { destruct Htokok as [Hlt _]. split; [lia|].
    apply Forall_lookup. intros j r Hr.
    destruct (lookup_lt_is_Some_2 tokEmb j) as [a Ha];
      [rewrite <- Hlx0; by eapply lookup_lt_Some|].
    by eapply Hall. }
  eapply total_bind; [by apply total_rmsnorm|].
  intros x1 s2 He2 Hx1. cbn beta in *.
  eapply total_bind.
  { apply (total_forward_layers this p (nLayer cfg) 0 (mkForward x1 keys values []) s2);
      cbn [fw_x fw_keys fw_values]; [|done|done| |].
    - apply (model_ok_ext s s2); [ext_tac|done].
    - apply cache_ok_at. apply (cache_ok_ext s s2); [ext_tac|done].
    - apply cache_ok_at. apply (cache_ok_ext s s2); [ext_tac|done]. }
  intros st s3 He3 (Hx3 & Hk3 & Hv3 & ads & Hads & Haok). cbn beta in *.
  cbn [fw_attention app] in Hads.
  apply (total_bind_defined _ lm); [done|].
  eapply total_bind.
  { apply (total_linear (fw_x st) lm (cfg_vocabSize cfg) n s3); [done|done|].
    apply (mat_ok_ext s s3); [ext_tac|done]. }
  intros logits s4 He4 Hlogits. cbn beta in *.
  apply total_ret. cbn [fst snd]. split_and!.
  - done.
  - by rewrite Hads.
  - apply cache_at_all. by eapply cache_at_ext.
  - apply cache_at_all. by eapply cache_at_ext.
Qed.

(** ** [generate] *)

Lemma model_ok_same s this this' : same_weights this this' → model_ok s this → model_ok s this'.
Proof.
  intros (Hc & Hsd & Htk & _) H. unfold model_ok, has_matrix in *.
  rewrite Hc, Hsd, Htk. exact H.
Qed.

Lemma same_weights_refl this : same_weights this this.
Proof. by repeat split. Qed.

Lemma same_weights_trans a b c : same_weights a b → same_weights b c → same_weights a c.
Proof.
  intros (A1 & A2 & A3 & A4 & A5 & A6) (B1 & B2 & B3 & B4 & B5 & B6).
  repeat split; congruence.
Qed.

Lemma total_on_rng_choices (pool : list nat) ws this s :
  total (on_rng (choices pool ws) this) s
    (λ r s', (∃ lo, r.1 = pool !! lo ∧ lo ≤ length ws - 1) ∧ same_weights this r.2).
Proof.
  destruct (choices_Ok pool ws (rng this)) as (lo & rng' & Hrun & Hlo).
  eexists _, s. unfold on_rng. rewrite Hrun. split; [reflexivity|].
  split; [apply ext_refl|]. cbn [fst snd]. split; [eauto|by repeat split].
Qed.

Lemma total_generate_loop temperature count :
  ∀ posId st s,
    model_ok s (g_this st) →
    posId + count ≤ blockSize (config (g_this st)) →
    (∃ t, g_tokenId st = Some t ∧ t < cfg_vocabSize (config (g_this st))) →
    cache_ok s (config (g_this st)) posId (g_keys st) →
    cache_ok s (config (g_this st)) posId (g_vals st) →
    total (generate_loop temperature count posId st) s
      (λ st' s',
         same_weights (g_this st) (g_this st') ∧
         ∃ new, g_tokenIds st' = g_tokenIds st ++ new ∧
                length new ≤ count ∧
                Forall (kept_token (g_this st)) new ∧
                (g_tokenId st' = Some (BOS (tokenizer (g_this st))) ∨ length new = count)).
Proof.
  induction count as [|count IH]; intros posId st s Hmodel Hlen Htok Hk Hv;
    cbn [generate_loop].
  - apply total_ret. split; [apply same_weights_refl|].
    exists []. rewrite app_nil_r. split_and!; [done|done|constructor|by right].
  - set (this := g_this st) in *. cbn zeta.
    eapply total_bind.
    { apply (total_forward this (g_tokenId st) posId (g_keys st) (g_vals st) posId s);
        try done. lia. }
    intros [[[logits ads] keys] vals] s1 He1 (Hlogits & _ & Hk1 & Hv1).
    cbn [fst snd] in *. cbn beta iota.
    eapply total_bind.
    { apply (total_mapM_valid _ logits s1). intros l sa Hl Hea.
      unfold div. apply total_mul_valid; [|done].
      apply (valid_ext s1 sa); [done|]. by eapply vec_ok_elem. }
    intros scaled s2 He2 Hscaled. cbn beta in *.
    destruct Hlogits as [Hll _]. rewrite Hll in Hscaled.
    pose proof Hmodel as (_ & _ & HBOS & _).
    eapply total_bind.
    { apply total_softmax; [|by destruct Hscaled].
      intros ->. destruct Hscaled as [Hls _]. simpl in Hls. fold this in HBOS. lia. }
    intros probs s3 He3 Hprobs. cbn beta in *.
    assert (length probs = cfg_vocabSize (config this)) as Hlp.
    { rewrite (Forall2_length _ _ _ Hprobs), softmax_data_length, length_map.
      by destruct Hscaled. }
    eapply total_bind.
    { apply total_mapM_get_data. by apply (Forall2_has_data_dat _ _ _ Hprobs). }
    intros weights s4 He4 ->. cbn beta.
    eapply total_bind; [apply total_on_rng_choices|].
    intros [tokenId this'] s5 He5 [(lo & Hdraw & Hlo) Hsame]. cbn [fst snd] in *. cbn beta zeta.
    rewrite length_map, Hlp in Hlo.
    assert (tokenId = Some lo ∧ lo < cfg_vocabSize (config this)) as [-> Hlov].
    { fold this in HBOS. assert (lo < cfg_vocabSize (config this)) by lia.
      split; [|done]. rewrite Hdraw. by apply lookup_seq_lt. }
    pose proof Hsame as (Hc & Hsd & Htk & Hrest).
    rewrite Htk. case_decide as Hbos.
    + apply total_ret. cbn [g_this g_tokenIds g_tokenId]. split; [done|].
      exists []. rewrite app_nil_r. split_and!; [done|simpl; lia|constructor|by left].
    + eapply total_mono.
      * apply (IH (S posId)); cbn [g_this g_tokenId g_keys g_vals].
        -- apply (model_ok_same _ this); [done|].
           apply (model_ok_ext s s5); [ext_tac|done].
        -- rewrite Hc. lia.
        -- exists lo. rewrite Hc. done.
        -- rewrite Hc. apply (cache_ok_ext s1 s5); [ext_tac|done].
        -- rewrite Hc. apply (cache_ok_ext s1 s5); [ext_tac|done].
      * intros st' s6 He6 (Hsame' & new & Hnew & Hlnew & Hall & Hend).
        cbn [g_this g_tokenIds] in *. split.
        -- eapply same_weights_trans; [exact Hsame|exact Hsame'].
        -- exists (Some lo :: new). split_and!.
           ++ rewrite Hnew. by rewrite <- app_assoc.
           ++ simpl. lia.
           ++ constructor.
              ** exists lo. split_and!; [done|done|]. intros ->. by apply Hbos.
              ** eapply Forall_impl; [exact Hall|].
                 intros tok (i & -> & Hi & Hne). exists i. rewrite Hc, Htk in *. done.
           ++ destruct Hend as [Hend|Hend]; [left|right; simpl; lia].
              by rewrite Htk in Hend.
Qed.

(** ** The constructor *)

Lemma gauss_Ok mu sigma this : ∃ g this', gauss mu sigma this = Ok (g, this').
Proof.
  unfold gauss. destruct (_gaussNext this) as [z|]; [eauto|].
  unfold bind.
  destruct (random_Ok (mkMT (mt this) (idx this) None)) as (r1 & t1 & ->).
  destruct (random_Ok t1) as (r2 & t2 & ->). eauto.
Qed.

Lemma total_matrix_row nin std :
  ∀ rng s, total (matrix_row nin std rng) s (λ r s', vec_ok s' nin r.1).
Proof.
  induction nin as [|nin IH]; intros rng s; cbn [matrix_row].
  - apply total_ret. split; [done|constructor].
  - destruct (gauss_Ok 0 std rng) as (g & rng' & Hg). unfold total. rewrite Hg.
    apply (total_bind _ _ s (λ p s', valid s' p)).
    { eapply total_mono; [apply total_new_Value|].
      intros r s' _ H. cbn beta in H. exact (has_data_valid _ _ _ H). }
    intros p s1 He1 Hp. cbn beta in *.
    eapply total_bind; [apply IH|].
    intros [row rng2] s2 He2 [Hl Hv]. cbn [fst snd] in *. cbn beta.
    apply total_ret. cbn [fst]. split; [simpl; lia|].
    constructor; [by eapply valid_ext|done].
Qed.

Lemma total_matrix nout nin std :
  ∀ rng s, total (matrix nout nin std rng) s (λ r s', mat_ok s' nout nin r.1).
Proof.
  induction nout as [|nout IH]; intros rng s; cbn [matrix].
  - apply total_ret. split; [done|constructor].
  - eapply total_bind; [apply total_matrix_row|].
    intros [row rng1] s1 He1 Hrow. cbn [fst snd] in *. cbn beta.
    eapply total_bind; [apply IH|].
    intros [rows rng2] s2 He2 [Hl Hv]. cbn [fst snd] in *. cbn beta.
    apply total_ret. cbn [fst]. split; [simpl; lia|].
    constructor; [by eapply vec_ok_ext|done].
Qed.

(** With the sizes of [DEFAULT_CONFIG], the model the constructor returns has
    the shape [model_ok], whatever the corpus and the seed; the constructor
    returns whenever [shuffle] does. *)
Lemma GPTModel_new_ok NAMES draw_fuel seed docs0 rng0 s :
  shuffle draw_fuel NAMES (MersenneTwister_new seed) = Ok (docs0, rng0) →
  total (GPTModel_new NAMES draw_fuel seed) s
    (λ this s',
       model_ok s' this ∧
       docs this = docs0 ∧
       tokenizer this = createTokenizer docs0 ∧
       config this = DEFAULT_CONFIG (vocabSize (createTokenizer docs0)) ∧
       step this = 0).
Proof.
  intros Hsh. unfold GPTModel_new, total. rewrite Hsh.
  set (tk := createTokenizer docs0). set (cfg := DEFAULT_CONFIG (vocabSize tk)).
  fold (total (A:=GPTModel)).
  eapply total_bind; [apply total_matrix|].
  intros [wte r1] s1 He1 Hwte. cbn [fst snd] in *. cbn beta.
  eapply total_bind; [apply total_matrix|].
  intros [wpe r2] s2 He2 Hwpe. cbn [fst snd] in *. cbn beta.
  eapply total_bind; [apply total_matrix|].
  intros [lm r3] s3 He3 Hlm. cbn [fst snd] in *. cbn beta zeta.
  change (nLayer cfg) with 1. cbn [init_layers].
  apply (total_bind _ _ s3
           (λ ls s', ∃ wq wk wv wo fc1 fc2,
              ls.1 = [("wte", wte); ("wpe", wpe); ("lm_head", lm);
                      ("layer0.attn_wq", wq); ("layer0.attn_wk", wk);
                      ("layer0.attn_wv", wv); ("layer0.attn_wo", wo);
                      ("layer0.mlp_fc1", fc1); ("layer0.mlp_fc2", fc2)] ∧
              mat_ok s' 16 16 wq ∧ mat_ok s' 16 16 wk ∧ mat_ok s' 16 16 wv ∧
              mat_ok s' 16 16 wo ∧ mat_ok s' 64 16 fc1 ∧ mat_ok s' 16 64 fc2)).
  { eapply total_bind; [apply total_matrix|].
    intros [wq r4] s4 He4 Hwq. cbn [fst snd] in *. cbn beta zeta.
    eapply total_bind; [apply total_matrix|].
    intros [wk r5] s5 He5 Hwk. cbn [fst snd] in *. cbn beta zeta.
    eapply total_bind; [apply total_matrix|].
    intros [wv r6] s6 He6 Hwv. cbn [fst snd] in *. cbn beta zeta.
    eapply total_bind; [apply total_matrix|].
    intros [wo r7] s7 He7 Hwo. cbn [fst snd] in *. cbn beta zeta.
    eapply total_bind; [apply total_matrix|].
    intros [fc1 r8] s8 He8 Hfc1. cbn [fst snd] in *. cbn beta zeta.
    eapply total_bind; [apply total_matrix|].
    intros [fc2 r9] s9 He9 Hfc2. cbn [fst snd] in *. cbn beta zeta.
    apply total_ret. exists wq, wk, wv, wo, fc1, fc2.
    cbn [fst]. split; [reflexivity|].
    split_and!; [apply (mat_ok_ext s4 s9)|apply (mat_ok_ext s5 s9)|
                 apply (mat_ok_ext s6 s9)|apply (mat_ok_ext s7 s9)|
                 apply (mat_ok_ext s8 s9)| ]; try done; ext_tac. }
  intros [sd r10] s4 He4 (wq & wk & wv & wo & fc1 & fc2 & Hsd & Hq & Hk & Hv & Ho & H1 & H2).
  cbn [fst snd] in *.
  subst sd. cbn beta zeta. apply total_ret.
  split_and!; try reflexivity.
  unfold model_ok, has_matrix. cbn [config stateDict tokenizer].
  change (nEmbd cfg) with 16. change (nHead cfg) with 4. change (blockSize cfg) with 16.
  change (nLayer cfg) with 1. change (cfg_vocabSize cfg) with (vocabSize tk).
  split_and!.
  - vm_compute. lia.
  - reflexivity.
  - unfold tk. cbn [createTokenizer BOS vocabSize]. lia.
  - exists wte. split; [reflexivity|]. apply (mat_ok_ext s1 s4); [ext_tac|done].
  - exists wpe. split; [reflexivity|]. apply (mat_ok_ext s2 s4); [ext_tac|done].
  - exists lm. split; [reflexivity|]. apply (mat_ok_ext s3 s4); [ext_tac|done].
  - intros li Hli. assert (li = 0) as -> by lia.
    split_and!; eexists; (split; [reflexivity|done]).
Qed.

(** ** Claim C8 *)

Lemma generate_loop_sampling temperature count : ∀ posId st s st' s',
  generate_loop temperature count posId st s = Ok (st', s') →
  ∃ new, g_tokenIds st' = g_tokenIds st ++ new ∧
         spec_sampling temperature (posId + count) posId (g_this st) (g_tokenId st)
                       (g_keys st) (g_vals st) s new (g_this st') s'.
Proof.
  induction count as [|count IH]; intros posId st s st' s' H; cbn [generate_loop] in H.
  - injection H as <- <-. exists []. rewrite app_nil_r. split; [done|].
    apply sampling_length. lia.
  - apply bind_Ok in H as ([[[logits ads] keys] vals] & s1 & H1 & H).
    apply bind_Ok in H as (scaled & s2 & H2 & H).
    apply bind_Ok in H as (probs & s3 & H3 & H).
    apply bind_Ok in H as (weights & s4 & H4 & H).
    apply bind_Ok in H as ([tokenId this'] & s5 & H5 & H).
    cbn [fst snd] in H.
    assert (sample_step temperature (g_this st) (g_tokenId st) posId (g_keys st)
              (g_vals st) s = Ok ((tokenId, this', keys, vals), s5)) as Hstep.
    { unfold sample_step. rewrite (bind_run _ _ _ _ _ H1). cbn beta iota.
      rewrite (bind_run _ _ _ _ _ H2). cbn beta.
      rewrite (bind_run _ _ _ _ _ H3). cbn beta.
      rewrite (bind_run _ _ _ _ _ H4). cbn beta.
      rewrite (bind_run _ _ _ _ _ H5). reflexivity. }
    assert (tokenizer this' = tokenizer (g_this st)) as Htk.
    { unfold on_rng in H5.
      destruct (choices _ weights (rng (g_this st))) as [[a r]|e]; [|done].
      by injection H5 as _ <- _. }
    rewrite Htk in H. case_decide as Hbos.
    + injection H as <- <-. cbn [g_this g_tokenIds]. exists [].
      rewrite app_nil_r. split; [done|]. subst tokenId.
      eapply sampling_marker; [lia|exact Hstep].
    + apply IH in H as (new & Hids & Hrest).
      cbn [g_this g_tokenId g_keys g_vals g_tokenIds] in *.
      exists (tokenId :: new). split; [by rewrite Hids, <- app_assoc|].
      replace (posId + S count) with (S posId + count) by lia.
      eapply sampling_token; [lia|exact Hstep|done|exact Hrest].
Qed.

(** C8: for a model of the shape the constructor builds, [generate] without
    [maxLen] returns. Its sampling starts at position 0 with the marker as
    the current token; at each position it runs the forward pass on the
    current token, divides the logits by the temperature, takes the softmax
    and draws the next token; it stops when the marker is drawn, which is not
    kept, or at position [blockSize] (the sampling relation, stated away from
    temperature 0, where JavaScript divides by zero). The returned [tokens]
    are at most [blockSize], none is the marker, and each is an id below
    [vocabSize]. *)
Theorem generate_tokens_bounded (temperature : R) (this : GPTModel) (s : Store) :
  model_ok s this →
  ∃ res this' s',
    generate temperature None this s = Ok ((res, this'), s') ∧
    (temperature ≠ 0%R →
     spec_sampling temperature (blockSize (config this)) 0 this
       (Some (BOS (tokenizer this)))
       (replicate (nLayer (config this)) []) (replicate (nLayer (config this)) [])
       s (tokens res) this' s') ∧
    length (tokens res) ≤ blockSize (config this) ∧
    (Some (BOS (tokenizer this)) ∉ tokens res) ∧
    Forall (λ tok, ∃ i, tok = Some i ∧ i < cfg_vocabSize (config this)) (tokens res).
Proof.
  intros Hmodel.
  pose proof Hmodel as (_ & _ & HBOS & _).
  assert (cache_ok s (config this) 0 (replicate (nLayer (config this)) [])) as Hcache.
  { split; [by rewrite length_replicate|].
    apply Forall_forall. intros rows Hr. apply elem_of_replicate in Hr as [-> _].
    split; [done|constructor]. }
  destruct (total_generate_loop temperature (blockSize (config this)) 0
              (mkGenState this (Some (BOS (tokenizer this)))
                 (replicate (nLayer (config this)) [])
                 (replicate (nLayer (config this)) []) [] [] []) s)
    as (st & s' & Hloop & _ & _ & new & Hnew & Hlen & Hall & Hend);
    cbn [g_this g_tokenId g_keys g_vals g_tokenIds] in *; try done.
  { exists (BOS (tokenizer this)). done. }
  cbn [app] in Hnew.
  destruct (generate_loop_sampling _ _ _ _ _ _ _ Hloop) as (new' & Hnew' & Hsampling).
  cbn [g_this g_tokenId g_keys g_vals g_tokenIds app Nat.add] in *.
  eexists _, (g_this st), s'. split_and!.
  - unfold generate, bind. cbn [default]. rewrite Hloop. reflexivity.
  - intros _. cbn [tokens]. rewrite Hnew'. exact Hsampling.
  - cbn [tokens]. rewrite Hnew. done.
  - cbn [tokens]. rewrite Hnew. intros Hin.
    rewrite Forall_forall in Hall. destruct (Hall _ Hin) as (i & [= <-] & _ & Hne). done.
  - cbn [tokens]. rewrite Hnew. eapply Forall_impl; [exact Hall|].
    intros tok (i & -> & Hi & _). eauto.
Qed.

(** The model built from the corpus ["ab"] with seed 42, at temperature 0.5. *)
Lemma generate_tokens_bounded_witness :
  ∃ this s,
    GPTModel_new [[97; 98]%N] 0 42 empty_store = Ok (this, s) ∧
    ∃ res this' s',
      generate (1 / 2) None this s = Ok ((res, this'), s') ∧
      ((1 / 2)%R ≠ 0%R →
       spec_sampling (1 / 2) (blockSize (config this)) 0 this
         (Some (BOS (tokenizer this)))
         (replicate (nLayer (config this)) []) (replicate (nLayer (config this)) [])
         s (tokens res) this' s') ∧
      length (tokens res) ≤ blockSize (config this) ∧
      (Some (BOS (tokenizer this)) ∉ tokens res) ∧
      Forall (λ tok, ∃ i, tok = Some i ∧ i < cfg_vocabSize (config this)) (tokens res).
Proof.
  destruct (GPTModel_new_ok [[97; 98]%N] 0 42 [[97; 98]%N] (MersenneTwister_new 42)
              empty_store eq_refl) as (this & s & Hnew & _ & Hok & _).
  exists this, s. split; [exact Hnew|].
  exact (generate_tokens_bounded (1 / 2) this s Hok).
Defined.

(** ** Claim C2 *)

Lemma attention_ok_rows cfg p1 li count ads ad :
  attention_ok cfg p1 li count ads → ad ∈ ads →
  ∃ row, weights ad = [row] ∧ row_ok p1 row.
Proof.
  intros Hok Hin. apply list_elem_of_lookup in Hin as [i Hi].
  destruct (Forall2_lookup_r _ _ _ _ _ Hok Hi) as (lh & _ & _ & _ & Hrow). exact Hrow.
Qed.

(** C2: in a forward pass at query position [posId], called as [trainStep]
    and [generate] call it, with caches that hold the keys and values of the
    positions before [posId], there is one attention record per layer and
    head, in that order; each holds one row of weights; the row has
    [posId + 1] entries, one per key position [0 .. posId], and none for a
    later position; its entries are between 0 and 1 and sum to 1; and the
    caches then hold position [posId] too, as the call at [posId + 1] needs. *)
Theorem forward_attention_is_causal (this : GPTModel) (tokenId : option nat)
    (posId : nat) (keys values : list (list (list nat))) (s : Store) :
  model_ok s this →
  (∃ t, tokenId = Some t ∧ t < cfg_vocabSize (config this)) →
  posId < blockSize (config this) →
  cache_ok s (config this) posId keys →
  cache_ok s (config this) posId values →
  ∃ logits ads keys' values' s',
    forward this tokenId posId keys values s = Ok ((logits, ads, keys', values'), s') ∧
    map (λ ad, (layer ad, head ad)) ads =
      layer_heads (config this) 0 (nLayer (config this)) ∧
    (∀ ad, ad ∈ ads →
       ∃ row, weights ad = [row] ∧
              length row = posId + 1 ∧
              (∀ k, posId < k → row !! k = None) ∧
              Rsum row = 1%R ∧
              Forall (λ w, 0 <= w <= 1)%R row) ∧
    cache_ok s' (config this) (posId + 1) keys' ∧
    cache_ok s' (config this) (posId + 1) values'.
Proof.
  intros Hmodel Htok Hpos Hk Hv.
  destruct (total_forward this tokenId posId keys values posId s Hmodel Htok Hpos Hk Hv)
    as ([[[logits ads] keys'] values'] & s' & Hrun & _ & Hl & Hads & Hk' & Hv').
  cbn [fst snd] in *. exists logits, ads, keys', values', s'.
  replace (posId + 1) with (S posId) by lia. split_and!; try done.
  - unfold attention_ok in Hads. clear -Hads.
    induction Hads as [|[l h] ad lhs ads (Hla & Hh & _) _ IH]; [done|].
    cbn [map fst snd] in *. by rewrite Hla, Hh, IH.
  - intros ad Hin.
    destruct (attention_ok_rows _ _ _ _ _ _ Hads Hin) as (row & Hw & Hlen & Hsum & Hrange).
    exists row. split_and!; try done. intros k Hk0. apply lookup_ge_None. lia.
Qed.

(** The first forward pass of [generate] on the model built from the corpus
    ["ab"] with seed 42: the marker at position 0, empty caches. *)
Lemma forward_attention_is_causal_witness :
  ∃ this s,
    GPTModel_new [[97; 98]%N] 0 42 empty_store = Ok (this, s) ∧
    ∃ logits ads keys' values' s',
      forward this (Some (BOS (tokenizer this))) 0
        (replicate (nLayer (config this)) []) (replicate (nLayer (config this)) []) s =
        Ok ((logits, ads, keys', values'), s') ∧
      map (λ ad, (layer ad, head ad)) ads =
        layer_heads (config this) 0 (nLayer (config this)) ∧
      (∀ ad, ad ∈ ads →
         ∃ row, weights ad = [row] ∧
                length row = 0 + 1 ∧
                (∀ k, 0 < k → row !! k = None) ∧
                Rsum row = 1%R ∧
                Forall (λ w, 0 <= w <= 1)%R row) ∧
      cache_ok s' (config this) (0 + 1) keys' ∧
      cache_ok s' (config this) (0 + 1) values'.
Proof.
  destruct (GPTModel_new_ok [[97; 98]%N] 0 42 [[97; 98]%N] (MersenneTwister_new 42)
              empty_store eq_refl) as (this & s & Hnew & _ & Hok & _ & _ & Hcfg & _).
  exists this, s. split; [exact Hnew|].
  assert (cache_ok s (config this) 0 (replicate (nLayer (config this)) [])) as Hcache.
  { split; [by rewrite length_replicate|].
    apply Forall_forall. intros rows Hr. apply elem_of_replicate in Hr as [-> _].
    split; [done|constructor]. }
  apply (forward_attention_is_causal this (Some (BOS (tokenizer this))) 0 _ _ s Hok).
  - exists (BOS (tokenizer this)). split; [done|]. by destruct Hok as (_ & _ & H & _).
  - rewrite Hcfg. cbn. lia.
  - exact Hcache.
  - exact Hcache.
Defined.

(** ** Code that does not read generation marks *)

Lemma same_outcome_observe {A} (r1 r2 : result (A * Store)) :
  same_outcome r1 r2 → observe r1 = observe r2.
Proof.
  destruct r1 as [[a1 s1]|e1], r2 as [[a2 s2]|e2]; cbn; try done.
  - by intros [-> _].
  - by intros ->.
Qed.

Lemma sim_length s1 s2 : sim s1 s2 → length (cells s1) = length (cells s2).
Proof.
  intros (_ & _ & H). apply (f_equal length) in H. by rewrite !length_map in H.
Qed.

Lemma sim_lookup s1 s2 r :
  sim s1 s2 → ungen <$> cells s1 !! r = ungen <$> cells s2 !! r.
Proof. intros (_ & _ & H). by apply map_lookup_eq. Qed.

Lemma ungen_fields v v' :
  ungen v = ungen v' ↔ data v = data v' ∧ grad v = grad v' ∧ links v = links v'.
Proof.
  unfold ungen, with_gen, links. split.
  - intros [= -> -> -> -> -> -> ->]. done.
  - intros (-> & -> & [= -> -> -> -> ->]). done.
Qed.

Lemma oblivious_ret {A} (a : A) : oblivious (ret a).
Proof. intros s1 s2 Hs. cbn. done. Qed.

Lemma oblivious_stop {A} (e : stop) : oblivious (λ _, Stop e : result (A * Store)).
Proof. intros s1 s2 Hs. cbn. done. Qed.

Lemma oblivious_throw {A} : oblivious (throw : M A).
Proof. apply oblivious_stop. Qed.

Lemma oblivious_bind {A B} (m : M A) (k : A → M B) :
  oblivious m → (∀ a, oblivious (k a)) → oblivious (bind m k).
Proof.
  intros Hm Hk s1 s2 Hs. unfold bind. specialize (Hm s1 s2 Hs).
  destruct (m s1) as [[a1 t1]|e1], (m s2) as [[a2 t2]|e2]; cbn in Hm; try done.
  destruct Hm as [-> Ht]. by apply Hk.
Qed.

Lemma oblivious_defined {A} (o : option A) : oblivious (defined o).
Proof. destruct o; [apply oblivious_ret|apply oblivious_throw]. Qed.

Lemma oblivious_arg o : oblivious (arg o).
Proof. destruct o; [apply oblivious_ret|apply oblivious_stop]. Qed.

(** Reading an object and going on with something that ignores its mark. *)
Lemma oblivious_get {A} r (k : Value → M A) :
  (∀ v v', ungen v = ungen v' → k v = k v') →
  (∀ v, oblivious (k v)) →
  oblivious (bind (get r) k).
Proof.
  intros Hk Hobl s1 s2 Hs. unfold bind, get.
  pose proof (sim_lookup s1 s2 r Hs) as Hl.
  destruct (cells s1 !! r) as [v1|], (cells s2 !! r) as [v2|]; cbn in Hl; try done.
  assert (ungen v1 = ungen v2) as Hu by congruence.
  rewrite (Hk v1 v2 Hu). by apply Hobl.
Qed.

Lemma sim_alloc s1 s2 v :
  sim s1 s2 → fresh_ok (length (cells s1)) v →
  sim (mkStore (cells s1 ++ [v]) (module_gen s1)) (mkStore (cells s2 ++ [v]) (module_gen s2)).
Proof.
  intros Hs Hv. pose proof (sim_length _ _ Hs) as Hlen.
  destruct Hs as (Hw1 & Hw2 & Heq). split_and!.
  - apply (allocated_wf s1 (length (cells s1))); [done|]. by exists v.
  - apply (allocated_wf s2 (length (cells s2))); [done|]. exists v. by rewrite <- Hlen.
  - cbn [cells]. by rewrite !map_app, Heq.
Qed.

Lemma Value_new_fresh_ok n d (ch : list nat) lgs :
  (∀ c, c ∈ ch → c < n) → fresh_ok n (Value_new d ch lgs).
Proof.
  intros Hch. unfold fresh_ok. simpl. split_and!; [done|done| |].
  - intros Hn. destruct ch as [|c ch]; simpl in Hn; [lia|].
    exists c. split; [done|]. apply Hch. by left.
  - intros Hn. destruct ch as [|c [|c' ch]]; simpl in Hn; try lia.
    exists c'. split; [done|]. apply Hch. right. by left.
Qed.

Lemma sim_new_Value s1 s2 d ch lgs :
  sim s1 s2 → (∀ c, c ∈ ch → c < length (cells s1)) →
  same_outcome (new_Value d ch lgs s1) (new_Value d ch lgs s2).
Proof.
  intros Hs Hch. unfold new_Value. cbn. split.
  - by apply sim_length.
  - apply sim_alloc; [done|]. by apply Value_new_fresh_ok.
Qed.

(** Both stores hold [r], with the same fields but the mark, or neither does. *)
Lemma sim_get s1 s2 r :
  sim s1 s2 →
  (∃ v1 v2, get r s1 = Ok (v1, s1) ∧ get r s2 = Ok (v2, s2) ∧
            r < length (cells s1) ∧
            data v1 = data v2 ∧ grad v1 = grad v2 ∧ links v1 = links v2) ∨
  (get r s1 = Stop TypeError ∧ get r s2 = Stop TypeError).
Proof.
  intros Hs. unfold get. pose proof (sim_lookup s1 s2 r Hs) as Hl.
  destruct (cells s1 !! r) as [v1|] eqn:H1, (cells s2 !! r) as [v2|]; cbn in Hl; try done.
  - left. exists v1, v2. split_and!; try done; [by eapply lookup_lt_Some|..];
      assert (ungen v1 = ungen v2) as Hu by congruence;
      apply ungen_fields in Hu; tauto.
  - by right.
Qed.

Ltac sim_get_tac Hs r :=
  let v1 := fresh "v" in let v2 := fresh "v" in
  let G1 := fresh "G" in let G2 := fresh "G" in
  let Hlt := fresh "Hlt" in let Hd := fresh "Hd" in
  let Hg := fresh "Hg" in let Hl := fresh "Hl" in
  destruct (sim_get _ _ r Hs)
    as [(v1 & v2 & G1 & G2 & Hlt & Hd & Hg & Hl)|[G1 G2]];
  unfold bind; rewrite G1, G2; [cbn beta iota; rewrite ?Hd|done].

Ltac sim_new_tac Hs :=
  apply sim_new_Value; [exact Hs|];
  let c := fresh "c" in let Hc := fresh "Hc" in
  intros c Hc;
  repeat (apply elem_of_cons in Hc as [->|Hc]; [done|]);
  by apply elem_of_nil in Hc.

Lemma oblivious_add this other : oblivious (add this other).
Proof.
  intros s1 s2 Hs. unfold add. sim_get_tac Hs this.
  destruct other as [o|x]; [sim_get_tac Hs o|]; sim_new_tac Hs.
Qed.

Lemma oblivious_mul this other : oblivious (mul this other).
Proof.
  intros s1 s2 Hs. unfold mul. sim_get_tac Hs this.
  destruct other as [o|x]; [sim_get_tac Hs o|]; sim_new_tac Hs.
Qed.

Lemma oblivious_pow this e : oblivious (pow this e).
Proof. intros s1 s2 Hs. unfold pow. sim_get_tac Hs this. sim_new_tac Hs. Qed.

Lemma oblivious_log this : oblivious (log this).
Proof. intros s1 s2 Hs. unfold log. sim_get_tac Hs this. sim_new_tac Hs. Qed.

Lemma oblivious_exp this : oblivious (exp this).
Proof. intros s1 s2 Hs. unfold exp. sim_get_tac Hs this. sim_new_tac Hs. Qed.

Lemma oblivious_relu this : oblivious (relu this).
Proof. intros s1 s2 Hs. unfold relu. sim_get_tac Hs this. sim_new_tac Hs. Qed.

Lemma oblivious_neg this : oblivious (neg this).
Proof. intros s1 s2 Hs. unfold neg. sim_get_tac Hs this. sim_new_tac Hs. Qed.

Lemma oblivious_sub this other : oblivious (sub this other).
Proof.
  unfold sub. destruct other.
  - apply oblivious_bind; [apply oblivious_neg|]. intros. apply oblivious_add.
  - apply oblivious_add.
Qed.

Lemma oblivious_div this other : oblivious (div this other).
Proof.
  unfold div. destruct other.
  - apply oblivious_bind; [apply oblivious_pow|]. intros. apply oblivious_mul.
  - apply oblivious_mul.
Qed.

Lemma oblivious_get_data r : oblivious (get_data r).
Proof.
  intros s1 s2 Hs. unfold get_data. sim_get_tac Hs r. unfold ret. cbn. done.
Qed.

Lemma oblivious_get_grad r : oblivious (get_grad r).
Proof.
  intros s1 s2 Hs. unfold get_grad. sim_get_tac Hs r. unfold ret. cbn. done.
Qed.

Lemma oblivious_mapM {A B} (f : A → M B) (l : list A) :
  (∀ a, oblivious (f a)) → oblivious (mapM f l).
Proof.
  intros Hf. induction l as [|a l IH]; cbn [mapM]; [apply oblivious_ret|].
  apply oblivious_bind; [done|]. intros b.
  apply oblivious_bind; [done|]. intros bs. apply oblivious_ret.
Qed.

Lemma oblivious_imapM_from {A B} (f : nat → A → M B) (l : list A) i :
  (∀ j a, oblivious (f j a)) → oblivious (imapM_from i f l).
Proof.
  intros Hf. revert i. induction l as [|a l IH]; intros i; cbn [imapM_from];
    [apply oblivious_ret|].
  apply oblivious_bind; [done|]. intros b.
  apply oblivious_bind; [done|]. intros bs. apply oblivious_ret.
Qed.

Lemma oblivious_imapM {A B} (f : nat → A → M B) (l : list A) :
  (∀ j a, oblivious (f j a)) → oblivious (imapM f l).
Proof. apply oblivious_imapM_from. Qed.

Lemma oblivious_vsum_from vals : ∀ acc, oblivious (vsum_from acc vals).
Proof.
  induction vals as [|b vals IH]; intros acc; cbn [vsum_from]; [apply oblivious_ret|].
  apply oblivious_bind; [apply oblivious_add|done].
Qed.

Lemma oblivious_vsum vals : oblivious (vsum vals).
Proof. destruct vals; [apply oblivious_throw|apply oblivious_vsum_from]. Qed.

Lemma oblivious_modify r (f : Value → Value) :
  (∀ v, links (f v) = links v) → (∀ v, _gen (f v) = _gen v) →
  (∀ v v', ungen v = ungen v' → ungen (f v) = ungen (f v')) →
  oblivious (modify r f).
Proof.
  intros Hl Hg Hf s1 s2 Hs.
  pose proof (sim_lookup s1 s2 r Hs) as Hlk.
  destruct Hs as (Hw1 & Hw2 & Heq).
  pose proof (modify_wf r f s1 tt) as W1. pose proof (modify_wf r f s2 tt) as W2.
  unfold modify in *.
  destruct (cells s1 !! r) as [v1|] eqn:E1, (cells s2 !! r) as [v2|] eqn:E2;
    cbn in Hlk; try done.
  assert (ungen v1 = ungen v2) as Hu by congruence.
  cbn. split; [done|]. split_and!.
  - by eapply W1.
  - by eapply W2.
  - cbn [cells]. change (map ungen ?l) with (ungen <$> l).
    rewrite !list_fmap_insert. change (ungen <$> ?l) with (map ungen l).
    rewrite Heq. f_equal. by apply Hf.
Qed.

Lemma oblivious_set_data r d : oblivious (modify r (with_data d)).
Proof.
  apply oblivious_modify; [done|done|].
  intros v v' H. apply ungen_fields in H as (Hd & Hg & Hl).
  apply ungen_fields. cbn. unfold links in *. cbn. split_and!; congruence.
Qed.

Lemma oblivious_set_grad r g : oblivious (modify r (with_grad g)).
Proof.
  apply oblivious_modify; [done|done|].
  intros v v' H. apply ungen_fields in H as (Hd & Hg & Hl).
  apply ungen_fields. cbn. unfold links in *. cbn. split_and!; congruence.
Qed.

Create HintDb obl discriminated.
#[local] Hint Resolve oblivious_ret oblivious_throw oblivious_stop oblivious_defined
  oblivious_arg oblivious_add oblivious_mul oblivious_pow oblivious_log oblivious_exp
  oblivious_relu oblivious_neg oblivious_sub oblivious_div oblivious_get_data
  oblivious_get_grad oblivious_vsum oblivious_set_data oblivious_set_grad : obl.

(** Decomposes a goal [oblivious m] along the binds and maps of [m]. *)
Ltac obl :=
  repeat first
    [ progress eauto with obl
    | apply oblivious_bind; [|intros ?]
    | apply oblivious_mapM; intros ?
    | apply oblivious_imapM; intros ? ?
    | match goal with
      | |- oblivious (let '(_, _) := ?x in _) => destruct x
      | |- oblivious (match ?x with _ => _ end) => destruct x
      | |- oblivious (if ?x then _ else _) => destruct x
      end ].

Lemma oblivious_linear x w : oblivious (linear x w).
Proof. unfold linear. obl. Qed.

Lemma oblivious_softmax_sum logits : oblivious (softmax_sum logits).
Proof. unfold softmax_sum. obl. Qed.

Lemma oblivious_softmax logits : oblivious (softmax logits).
Proof. unfold softmax. obl; apply oblivious_softmax_sum. Qed.

Lemma oblivious_rmsnorm x : oblivious (rmsnorm x).
Proof. unfold rmsnorm. obl. Qed.

Lemma oblivious_cache_push cache li k : oblivious (cache_push cache li k).
Proof. unfold cache_push. obl. Qed.

#[local] Hint Resolve oblivious_linear oblivious_softmax oblivious_rmsnorm
  oblivious_cache_push : obl.

Lemma oblivious_attention_head headDim scale li h q ks vs :
  oblivious (attention_head headDim scale li h q ks vs).
Proof. unfold attention_head. obl. Qed.

Lemma oblivious_attention_heads headDim scale li count : ∀ h q ks vs,
  oblivious (attention_heads headDim scale li count h q ks vs).
Proof.
  induction count as [|count IH]; intros h q ks vs; cbn [attention_heads]; [obl|].
  apply oblivious_bind; [apply oblivious_attention_head|]. intros r.
  apply oblivious_bind; [apply IH|]. intros rs. obl.
Qed.

Lemma oblivious_add_each a b : oblivious (add_each a b).
Proof. unfold add_each. obl. Qed.

#[local] Hint Resolve oblivious_attention_heads oblivious_add_each : obl.

Lemma oblivious_forward_layer this li st : oblivious (forward_layer this li st).
Proof. unfold forward_layer. obl. Qed.

Lemma oblivious_forward_layers this count : ∀ li st,
  oblivious (forward_layers this count li st).
Proof.
  induction count as [|count IH]; intros li st; cbn [forward_layers]; [obl|].
  apply oblivious_bind; [apply oblivious_forward_layer|]. intros st'. apply IH.
Qed.

#[local] Hint Resolve oblivious_forward_layers : obl.

Lemma oblivious_forward this tokenId posId keys values :
  oblivious (forward this tokenId posId keys values).
Proof. unfold forward. obl. Qed.

#[local] Hint Resolve oblivious_forward : obl.

(** *** [backward] does not depend on the marks it finds *)

Lemma Rsum_Permutation (l1 l2 : list R) : l1 ≡ₚ l2 → Rsum l1 = Rsum l2.
Proof.
  induction 1 as [|a l1 l2 _ IH|a b l|l1 l2 l3 _ IH1 _ IH2];
    rewrite ?Rsum_cons; [done|rewrite IH; done|lra|congruence].
Qed.

Lemma ungen_maps cs1 cs2 :
  map ungen cs1 = map ungen cs2 ↔
  map links cs1 = map links cs2 ∧ map data cs1 = map data cs2 ∧
  map grad cs1 = map grad cs2.
Proof.
  split.
  - intros Heq.
    assert (∀ {B} (π : Value → B), (∀ v, π (ungen v) = π v) → map π cs1 = map π cs2) as H.
    { intros B π Hπ.
      rewrite <- (map_ext (λ v, π (ungen v)) π Hπ cs1), <- (map_ext (λ v, π (ungen v)) π Hπ cs2).
      rewrite <- !(map_map ungen π). by rewrite Heq. }
    split_and!; by apply H.
  - intros (Hl & Hd & Hg). change (ungen <$> cs1 = ungen <$> cs2).
    apply list_eq. intros i. rewrite !list_lookup_fmap.
    pose proof (map_lookup_eq links _ _ i Hl) as Hl'.
    pose proof (map_lookup_eq data _ _ i Hd) as Hd'.
    pose proof (map_lookup_eq grad _ _ i Hg) as Hg'.
    destruct (cs1 !! i) as [v1|], (cs2 !! i) as [v2|]; cbn in *; try done.
    f_equal. apply ungen_fields. split_and!; congruence.
Qed.

Lemma gradf_eq_map cs1 cs2 :
  length cs1 = length cs2 → (∀ n, gradf cs1 n = gradf cs2 n) →
  map grad cs1 = map grad cs2.
Proof.
  intros Hlen Hg. change (grad <$> cs1 = grad <$> cs2).
  apply list_eq. intros i. rewrite !list_lookup_fmap.
  specialize (Hg i). unfold gradf in Hg.
  destruct (cs1 !! i) as [v1|] eqn:H1, (cs2 !! i) as [v2|] eqn:H2; cbn; try congruence.
  - apply lookup_lt_Some in H1. apply lookup_ge_None in H2. lia.
  - apply lookup_lt_Some in H2. apply lookup_ge_None in H1. lia.
Qed.

Lemma backward_out_of_range root s :
  length (cells s) ≤ root → backward root s = Stop TypeError.
Proof.
  intros Hge. unfold backward, backward_topo, bind, next_gen, store_size.
  cbn [cells module_gen]. rewrite buildTopo_S.
  unfold bind, get. cbn [cells].
  by rewrite (proj2 (lookup_ge_None _ _)) by lia.
Qed.

Lemma oblivious_backward root : oblivious (backward root).
Proof.
  intros s1 s2 Hs. pose proof (sim_length _ _ Hs) as Hlen.
  destruct Hs as (Hw1 & Hw2 & Heq).
  apply ungen_maps in Heq as (Hl & Hd & Hg).
  destruct (decide (root < length (cells s1))) as [Hlt|Hge].
  - destruct (backward_general s1 root Hw1 Hlt)
      as (c1 & topo1 & cs1' & _ & Hb1 & Hnd1 & Hcov1 & Hin1 & Hout1 & Hl1 & Hd1 & Hwf1).
    destruct (backward_general s2 root Hw2 ltac:(lia))
      as (c2 & topo2 & cs2' & _ & Hb2 & Hnd2 & Hcov2 & Hin2 & Hout2 & Hl2 & Hd2 & Hwf2).
    rewrite Hb1, Hb2. cbn. split; [done|]. split_and!; [done..|]. cbn [cells].
    assert (∀ n, reach (cells s1) root n ↔ reach (cells s2) root n) as Hreach.
    { intros n. split; by apply reach_links. }
    assert (topo1 ≡ₚ topo2) as Hperm.
    { apply NoDup_Permutation; [done..|]. intros n. by rewrite Hcov1, Hcov2. }
    apply ungen_maps. split_and!; [congruence..|].
    apply gradf_eq_map.
    { rewrite <- (length_map links cs1'), <- (length_map links cs2'), Hl1, Hl2, !length_map.
      done. }
    intros n. destruct (decide (n ∈ topo1)) as [Hn|Hn].
    + rewrite Hin1 by done. rewrite Hin2 by (by rewrite <- Hperm).
      rewrite <- (Rsum_Permutation _ _ (fmap_Permutation _ _ _ Hperm)).
      apply Rsum_map_ext. intros k _.
      rewrite (partial_links _ _ n k Hl), (gradf_map _ _ k Hg). done.
    + rewrite Hout1 by (by rewrite <- Hcov1).
      rewrite Hout2 by (by rewrite <- Hcov2, <- Hperm).
      by apply gradf_map.
  - rewrite !backward_out_of_range by lia. done.
Qed.

#[local] Hint Resolve oblivious_backward : obl.

(** *** Generation, training and construction *)

Lemma oblivious_on_rng {A} (c : St MersenneTwister A) this : oblivious (on_rng c this).
Proof.
  intros s1 s2 Hs. unfold on_rng. destruct (c (rng this)) as [[a rng']|e]; cbn; done.
Qed.

Lemma oblivious_new_leaf d : oblivious (new_Value d [] []).
Proof.
  intros s1 s2 Hs. apply sim_new_Value; [done|]. intros c Hc. by apply elem_of_nil in Hc.
Qed.

#[local] Hint Resolve oblivious_on_rng oblivious_new_leaf : obl.

Lemma oblivious_generate_loop temperature count : ∀ posId st,
  oblivious (generate_loop temperature count posId st).
Proof.
  induction count as [|count IH]; intros posId st; cbn [generate_loop]; [obl|].
  apply oblivious_bind; [obl|]. intros [[[logits ads] keys] vals].
  apply oblivious_bind; [obl|]. intros scaled.
  apply oblivious_bind; [obl|]. intros probs.
  apply oblivious_bind; [obl|]. intros weights.
  apply oblivious_bind; [obl|]. intros drawn.
  case_decide; [obl|apply IH].
Qed.

Lemma oblivious_generate temperature maxLen this :
  oblivious (generate temperature maxLen this).
Proof.
  unfold generate. apply oblivious_bind; [apply oblivious_generate_loop|]. intros st. obl.
Qed.

Lemma oblivious_generateBatch count temperature : ∀ this,
  oblivious (generateBatch count temperature this).
Proof.
  induction count as [|count IH]; intros this; cbn [generateBatch]; [obl|].
  apply oblivious_bind; [apply oblivious_generate|]. intros r.
  apply oblivious_bind; [apply IH|]. intros rs. obl.
Qed.

Lemma oblivious_train_positions this tokens count : ∀ posId st,
  oblivious (train_positions this tokens count posId st).
Proof.
  induction count as [|count IH]; intros posId st; cbn [train_positions]; [obl|].
  apply oblivious_bind; [obl|]. intros [[[logits ads] keys] vals].
  apply oblivious_bind; [obl|]. intros probs.
  apply oblivious_bind; [obl|]. intros p.
  apply oblivious_bind; [obl|]. intros l.
  apply oblivious_bind; [obl|]. intros lossT. apply IH.
Qed.

Lemma oblivious_adam_update lr bc1 bc2 b1 b2 eps ps : ∀ i m v,
  oblivious (adam_update lr bc1 bc2 b1 b2 eps i ps m v).
Proof.
  induction ps as [|p ps IH]; intros i m v; cbn [adam_update]; [obl|].
  apply oblivious_bind; [obl|]. intros g.
  apply oblivious_bind; [obl|]. intros d.
  apply oblivious_bind; [obl|]. intros _.
  apply oblivious_bind; [obl|]. intros _. apply IH.
Qed.

Lemma oblivious_pure {A} (r : result A) :
  oblivious (λ s, match r with Ok a => Ok (a, s) | Stop e => Stop e end).
Proof. intros s1 s2 Hs. destruct r; cbn; done. Qed.

Lemma oblivious_trainStep numSteps this : oblivious (trainStep numSteps this).
Proof.
  unfold trainStep.
  apply oblivious_bind; [obl|]. intros doc.
  apply oblivious_bind; [apply oblivious_pure|]. intros tokens.
  apply oblivious_bind; [apply oblivious_train_positions|]. intros st.
  apply oblivious_bind; [obl|]. intros sm.
  apply oblivious_bind; [obl|]. intros loss.
  apply oblivious_bind; [obl|]. intros _.
  apply oblivious_bind; [apply oblivious_adam_update|]. intros mv.
  obl.
Qed.

Lemma oblivious_matrix_row nin std : ∀ rng, oblivious (matrix_row nin std rng).
Proof.
  induction nin as [|nin IH]; intros rng; cbn [matrix_row]; [obl|].
  destruct (gauss 0 std rng) as [[g rng']|e]; [|apply oblivious_stop].
  intros s1 s2 Hs.
  apply (oblivious_bind (new_Value g [] [])); [obl| |done].
  intros p. apply oblivious_bind; [apply IH|]. intros rest. obl.
Qed.

Lemma oblivious_matrix nout nin std : ∀ rng, oblivious (matrix nout nin std rng).
Proof.
  induction nout as [|nout IH]; intros rng; cbn [matrix]; [obl|].
  apply oblivious_bind; [apply oblivious_matrix_row|]. intros row.
  apply oblivious_bind; [apply IH|]. intros rest. obl.
Qed.

#[local] Hint Resolve oblivious_matrix : obl.

Lemma oblivious_init_layers cfg count : ∀ i sd rng,
  oblivious (init_layers cfg count i sd rng).
Proof.
  induction count as [|count IH]; intros i sd rng; cbn [init_layers]; [obl|].
  do 6 (apply oblivious_bind; [obl|]; intros ?). apply IH.
Qed.

Lemma oblivious_GPTModel_new NAMES draw_fuel seed :
  oblivious (GPTModel_new NAMES draw_fuel seed).
Proof.
  unfold GPTModel_new.
  destruct (shuffle draw_fuel NAMES (MersenneTwister_new seed)) as [[docs rng]|e];
    [|apply oblivious_stop].
  intros s1 s2 Hs. revert s1 s2 Hs.
  change (oblivious
    (wte <- matrix (cfg_vocabSize (DEFAULT_CONFIG (vocabSize (createTokenizer docs))))
              (nEmbd (DEFAULT_CONFIG (vocabSize (createTokenizer docs)))) 0.08 rng ;;
     wpe <- matrix (blockSize (DEFAULT_CONFIG (vocabSize (createTokenizer docs))))
              (nEmbd (DEFAULT_CONFIG (vocabSize (createTokenizer docs)))) 0.08 wte.2 ;;
     lm_head <- matrix (cfg_vocabSize (DEFAULT_CONFIG (vocabSize (createTokenizer docs))))
                  (nEmbd (DEFAULT_CONFIG (vocabSize (createTokenizer docs)))) 0.08 wpe.2 ;;
     ls <- init_layers (DEFAULT_CONFIG (vocabSize (createTokenizer docs)))
             (nLayer (DEFAULT_CONFIG (vocabSize (createTokenizer docs)))) 0
             [("wte", wte.1); ("wpe", wpe.1); ("lm_head", lm_head.1)] lm_head.2 ;;
     ret (mkModel (DEFAULT_CONFIG (vocabSize (createTokenizer docs))) ls.1
            (concat (concat (map snd ls.1))) (createTokenizer docs) ls.2 docs
            (replicate (length (concat (concat (map snd ls.1)))) 0%R)
            (replicate (length (concat (concat (map snd ls.1)))) 0%R)
            0 0.01 0.85 0.99 1e-8))).
  do 3 (apply oblivious_bind; [obl|]; intros ?).
  apply oblivious_bind; [apply oblivious_init_layers|]. intros ls. obl.
Qed.

(** *** [seed] overwrites the whole state *)

Lemma lookup_total_take (l : list Z) (i j : nat) :
  j < i → take i l !!! j = l !!! j.
Proof. intros H. rewrite !list_lookup_total_alt, lookup_take_lt by done. done. Qed.

Lemma take_S_insert (l : list Z) (i : nat) (x : Z) :
  i < length l → take (S i) (<[i:=x]> l) = take i l ++ [x].
Proof.
  intros H. revert i H. induction l as [|a l IH]; intros i H; cbn in H; [lia|].
  destruct i as [|i]; cbn; [done|]. rewrite IH by lia. done.
Qed.

(** The first loop of [seed] reads only what it has written. *)
Lemma seed_fill_takes count : ∀ i (mt1 mt2 : list Z),
  1 ≤ i → i + count ≤ length mt1 → length mt1 = length mt2 →
  take i mt1 = take i mt2 →
  take (i + count) (seed_fill count i mt1) = take (i + count) (seed_fill count i mt2) ∧
  length (seed_fill count i mt1) = length (seed_fill count i mt2).
Proof.
  induction count as [|count IH]; intros i mt1 mt2 Hi Hlen Heq Ht; cbn [seed_fill].
  - by rewrite Nat.add_0_r.
  - replace (i + S count) with (S i + count) by lia.
    apply IH; [lia|rewrite length_insert; lia|by rewrite !length_insert|].
    rewrite !take_S_insert by lia.
    rewrite <- (lookup_total_take mt1 i (i - 1)), <- (lookup_total_take mt2 i (i - 1)) by lia.
    by rewrite Ht.
Qed.

Lemma seed_fill_length count : ∀ i (mt0 : list Z),
  length (seed_fill count i mt0) = length mt0.
Proof.
  induction count as [|count IH]; intros i mt0; cbn [seed_fill]; [done|].
  by rewrite IH, length_insert.
Qed.

Lemma seed_fill_whole count (c : Z) (mt1 mt2 : list Z) :
  length mt1 = S count → length mt2 = S count →
  seed_fill count 1 (<[0:=c]> mt1) = seed_fill count 1 (<[0:=c]> mt2).
Proof.
  intros H1 H2.
  destruct (seed_fill_takes count 1 (<[0:=c]> mt1) (<[0:=c]> mt2)) as [Ht _].
  - done.
  - rewrite length_insert. lia.
  - rewrite !length_insert. lia.
  - destruct mt1 as [|a l1], mt2 as [|b l2]; cbn in H1, H2 |- *; done.
  - rewrite !take_ge in Ht; [done|..]; rewrite seed_fill_length, length_insert; lia.
Qed.

Lemma seed_reinitializes n (st1 st2 : MersenneTwister) :
  length (mt st1) = 624 → length (mt st2) = 624 → seed n st1 = seed n st2.
Proof.
  intros H1 H2. unfold seed.
  by rewrite (seed_fill_whole 623 19650218%Z (mt st1) (mt st2) H1 H2).
Qed.

(** *** Sessions *)

Lemma oblivious_invoke c this : oblivious (invoke c this).
Proof.
  destruct c; cbn [invoke].
  - apply oblivious_bind; [apply oblivious_trainStep|]. intros r. obl.
  - apply oblivious_bind; [apply oblivious_generate|]. intros r. obl.
  - apply oblivious_bind; [apply oblivious_generateBatch|]. intros r. obl.
Qed.

Lemma oblivious_invoke_all cs : ∀ this, oblivious (invoke_all cs this).
Proof.
  induction cs as [|c cs IH]; intros this; cbn [invoke_all]; [obl|].
  apply oblivious_bind; [apply oblivious_invoke|]. intros r.
  apply oblivious_bind; [apply IH|]. intros rs. obl.
Qed.

Lemma oblivious_session NAMES draw_fuel seed calls :
  oblivious (session NAMES draw_fuel seed calls).
Proof.
  unfold session.
  apply oblivious_bind; [apply oblivious_GPTModel_new|]. intros this.
  apply oblivious_bind; [obl|]. intros initial.
  apply oblivious_bind; [apply oblivious_invoke_all|]. intros rs. obl.
Qed.

Lemma sim_empty g1 g2 : sim (mkStore [] g1) (mkStore [] g2).
Proof.
  split_and!; [| |done]; (split; [intros i v Hi|intros i v Hi]; cbn in Hi; done).
Qed.

(** C9. Two independent runs with the same seed and the same sequence of calls
    show the same thing. A run is a construction [new GPTModel(seed)] followed
    by calls of [trainStep], [generate] and [generateBatch]; it shows the
    parameter values right after construction, the shuffled corpus order and
    what every call returned (loss, generated text, token ids, attention), or
    the stop that ended it. The two runs can start with different values of
    the module's generation counter and different generation marks on the
    objects that exist, and the generator can have been in any state before
    [seed(n)]: [seed] overwrites all of it. *)
Theorem same_seed_same_run NAMES draw_fuel (n : Z) calls (s1 s2 : Store)
    (st1 st2 : MersenneTwister) :
  sim s1 s2 → length (mt st1) = 624 → length (mt st2) = 624 →
  seed n st1 = seed n st2 ∧
  observe (session NAMES draw_fuel n calls s1) =
  observe (session NAMES draw_fuel n calls s2).
Proof.
  intros Hs H1 H2. split; [by apply seed_reinitializes|].
  apply same_outcome_observe. by apply oblivious_session.
Qed.

Lemma same_seed_same_run_witness :
  seed 42 (mkMT (replicate 624 0%Z) 625 None) =
    seed 42 (mkMT (replicate 624 7%Z) 3 (Some 1%R)) ∧
  observe (session [[97; 98]%N] 0 42 [CallTrainStep 1000; CallGenerate 0.5 None]
             (mkStore [] 0)) =
  observe (session [[97; 98]%N] 0 42 [CallTrainStep 1000; CallGenerate 0.5 None]
             (mkStore [] 5)).
Proof.
  apply (same_seed_same_run [[97; 98]%N] 0 42
           [CallTrainStep 1000; CallGenerate 0.5 None] (mkStore [] 0) (mkStore [] 5)
           (mkMT (replicate 624 0%Z) 625 None) (mkMT (replicate 624 7%Z) 3 (Some 1%R))).
  - apply sim_empty.
  - reflexivity.
  - reflexivity.
Defined.
(** * Graphs: the recorded derivatives are the derivatives of the values *)

(** ** Derivatives of the functions the operations compute *)

Lemma derivable_pt_lim_relu x :
  x ≠ 0%R → derivable_pt_lim (Rmax 0) x (if Rlt_dec 0 x then 1%R else 0%R).
Proof.
  intros Hx. destruct (Rlt_dec 0 x) as [Hpos|Hneg].
  - apply (derivable_pt_lim_locally_ext id (Rmax 0) x 0 (x + 1)); [lra| |].
    + intros z Hz. unfold id. rewrite Rmax_right; lra.
    + apply derivable_pt_lim_id.
  - apply (derivable_pt_lim_locally_ext (fct_cte 0) (Rmax 0) x (x - 1) 0); [lra| |].
    + intros z Hz. unfold fct_cte. rewrite Rmax_left; lra.
    + apply derivable_pt_lim_const.
Qed.

Lemma derivable_pt_lim_js_pow x e :
  (0 < x)%R → derivable_pt_lim (λ y, js_pow y e) x (e * js_pow x (e - 1))%R.
Proof.
  intros Hx. unfold js_pow at 2.
  destruct (Req_dec_T e 0) as [->|He].
  - rewrite Rmult_0_l.
    apply (derivable_pt_lim_ext (fct_cte 1)); [|apply derivable_pt_lim_const].
    intros z. unfold js_pow, fct_cte. by destruct (Req_dec_T 0 0).
  - assert ((if Req_dec_T (e - 1) 0 then 1%R
             else if Rlt_dec 0 x then Rpower x (e - 1)
             else if Req_dec_T x 0 then 0%R
             else if Req_dec_T (frac_part (e - 1)) 0
                  then powerRZ x (Int_part (e - 1)) else 0%R) = Rpower x (e - 1)) as ->.
    { destruct (Req_dec_T (e - 1) 0) as [->|_]; [by rewrite Rpower_O|].
      destruct (Rlt_dec 0 x); [done|lra]. }
    apply (derivable_pt_lim_locally_ext (λ y, Rpower y e) _ x 0 (x + 1)); [lra| |].
    + intros z Hz. unfold js_pow. destruct (Req_dec_T e 0); [done|].
      destruct (Rlt_dec 0 z); [done|lra].
    + by apply derivable_pt_lim_power.
Qed.

Lemma Int_part_IZR k : Int_part (IZR k) = k.
Proof. symmetry. apply Int_part_spec. lra. Qed.

Lemma frac_part_IZR k : frac_part (IZR k) = 0%R.
Proof. unfold frac_part. rewrite Int_part_IZR. lra. Qed.

(** Integer exponents, at any base. *)
Lemma js_pow_int y k : (y ≠ 0%R ∨ (0 ≤ k)%Z) → js_pow y (IZR k) = powerRZ y k.
Proof.
  intros H. unfold js_pow.
  destruct (Req_dec_T (IZR k) 0) as [Hk|Hk].
  - apply eq_IZR_R0 in Hk as ->. done.
  - destruct (Rlt_dec 0 y) as [Hy|Hy]; [symmetry; by apply powerRZ_Rpower|].
    destruct (Req_dec_T y 0) as [->|Hne].
    + destruct H as [?|Hk0]; [done|].
      destruct k as [|p|p]; [done| |lia].
      symmetry. apply pow_i. apply Pos2Nat.is_pos.
    + rewrite frac_part_IZR, Int_part_IZR. by destruct (Req_dec_T 0 0).
Qed.

Lemma derivable_pt_lim_powerRZ x k :
  (x ≠ 0%R ∨ (0 < k)%Z) →
  derivable_pt_lim (λ y, powerRZ y k) x (IZR k * powerRZ x (k - 1))%R.
Proof.
  intros H. destruct k as [|p|p].
  - rewrite Rmult_0_l. apply (derivable_pt_lim_const 1).
  - pose proof (derivable_pt_lim_pow x (Pos.to_nat p)) as Hd.
    assert (IZR (Z.pos p) * powerRZ x (Z.pos p - 1) =
            INR (Pos.to_nat p) * x ^ Init.Nat.pred (Pos.to_nat p))%R as ->; [|exact Hd].
    rewrite pow_powerRZ, INR_IZR_INZ, positive_nat_Z. do 2 f_equal.
    pose proof (Pos2Nat.is_pos p). lia.
  - destruct H as [Hx|?]; [|lia].
    pose proof (Pos2Nat.is_pos p) as Hp.
    destruct (Pos.to_nat p) as [|n] eqn:Hn; [lia|].
    assert (x ^ n ≠ 0)%R as Hxn by (by apply pow_nonzero).
    pose proof (derivable_pt_lim_div (fct_cte 1) (λ y, y ^ S n)%R x 0 _
                  (derivable_pt_lim_const _ _) (derivable_pt_lim_pow x (S n))) as Hd.
    cbn beta in Hd. specialize (Hd ltac:(by apply pow_nonzero)).
    assert (IZR (Z.neg p) * powerRZ x (Z.neg p - 1) =
            (0 * x ^ S n - INR (S n) * x ^ Init.Nat.pred (S n) * fct_cte 1 x) / (x ^ S n)²)%R
      as ->.
    { replace (Z.neg p - 1)%Z with (- Z.of_nat (S (S n)))%Z by lia.
      rewrite powerRZ_neg', <- pow_powerRZ.
      replace (IZR (Z.neg p)) with (- INR (S n))%R.
      - unfold fct_cte, Rsqr. cbn [Init.Nat.pred].
        rewrite <- !tech_pow_Rmult. generalize (INR (S n)) (x ^ n)%R Hxn.
        intros a w Hw. field. done.
      - rewrite INR_IZR_INZ, <- opp_IZR. f_equal. lia. }
    eapply derivable_pt_lim_ext; [|exact Hd].
    intros y. unfold div_fct, fct_cte. cbn [powerRZ]. rewrite Hn. lra.
Qed.

Lemma derivable_pt_lim_js_pow_int x k :
  (x ≠ 0%R ∨ (0 < k)%Z) →
  derivable_pt_lim (λ y, js_pow y (IZR k)) x (IZR k * js_pow x (IZR k - 1))%R.
Proof.
  intros H. rewrite <- minus_IZR.
  rewrite (js_pow_int x (k - 1)) by (destruct H; [by left|right; lia]).
  pose proof (derivable_pt_lim_powerRZ x k H) as Hd.
  destruct (Z_lt_le_dec k 0) as [Hk|Hk].
  - destruct H as [Hx|?]; [|lia].
    destruct (Rlt_dec 0 x) as [Hpos|Hneg].
    + apply (derivable_pt_lim_locally_ext (λ y, powerRZ y k) _ x 0 (x + 1)); [lra| |done].
      intros y Hy. symmetry. apply js_pow_int. left. lra.
    + apply (derivable_pt_lim_locally_ext (λ y, powerRZ y k) _ x (x - 1) 0); [lra| |done].
      intros y Hy. symmetry. apply js_pow_int. left. lra.
  - eapply derivable_pt_lim_ext; [|exact Hd].
    intros y. symmetry. apply js_pow_int. by right.
Qed.

(** [x ** -1] is the inverse, also of a negative number. *)
Lemma js_pow_inverse x : x ≠ 0%R → js_pow x (-1) = (/ x)%R.
Proof.
  intros Hx. destruct (Rlt_dec 0 x) as [Hpos|Hneg]; [by apply js_pow_inv|].
  unfold js_pow.
  destruct (Req_dec_T (-1) 0) as [?|_]; [lra|].
  destruct (Rlt_dec 0 x) as [?|_]; [done|].
  destruct (Req_dec_T x 0) as [?|_]; [done|].
  rewrite (frac_part_IZR (-1)), (Int_part_IZR (-1)).
  destruct (Req_dec_T 0 0) as [_|?]; [|done].
  change (powerRZ x (-1)) with (/ (x * 1))%R. by rewrite Rmult_1_r.
Qed.

Lemma js_pow_inverse_square x : x ≠ 0%R → js_pow x (-1 - 1) = (/ (x * x))%R.
Proof.
  intros Hx. replace (-1 - 1)%R with (IZR (-2)) by lra.
  unfold js_pow.
  destruct (Req_dec_T (IZR (-2)) 0) as [?|_]; [lra|].
  destruct (Rlt_dec 0 x) as [Hpos|Hneg].
  - rewrite <- powerRZ_Rpower by done.
    change (powerRZ x (-2)) with (/ (x * (x * 1)))%R. by rewrite Rmult_1_r.
  - destruct (Req_dec_T x 0) as [?|_]; [done|].
    rewrite frac_part_IZR, Int_part_IZR.
    destruct (Req_dec_T 0 0) as [_|?]; [|done].
    change (powerRZ x (-2)) with (/ (x * (x * 1)))%R. by rewrite Rmult_1_r.
Qed.

Lemma derivable_pt_lim_inverse x :
  x ≠ 0%R → derivable_pt_lim Rinv x (-1 * js_pow x (-1 - 1))%R.
Proof.
  intros Hx. rewrite js_pow_inverse_square by done.
  pose proof (derivable_pt_lim_div (fct_cte 1) id x 0 1
                (derivable_pt_lim_const _ _) (derivable_pt_lim_id _) Hx) as H.
  unfold fct_cte, id in H.
  replace ((0 * x - 1 * 1) / x²)%R with (-1 * / (x * x))%R in H
    by (unfold Rsqr; field; done).
  eapply derivable_pt_lim_ext; [|exact H].
  intros z. unfold div_fct. lra.
Qed.

Lemma js_pow_1 b : (0 < b)%R → js_pow b (INR 1) = b.
Proof.
  intros Hb. unfold js_pow. cbn [INR].
  destruct (Req_dec_T 1 0) as [?|_]; [lra|].
  destruct (Rlt_dec 0 b) as [_|?]; [|lra]. by apply Rpower_1.
Qed.

Lemma js_pow_2 g : js_pow g 2 = (g * g)%R.
Proof.
  unfold js_pow.
  destruct (Req_dec_T 2 0) as [?|_]; [lra|].
  destruct (Rlt_dec 0 g) as [Hg|Hg].
  - replace 2%R with (INR 2) by (cbn; lra). rewrite Rpower_pow by done. cbn. lra.
  - destruct (Req_dec_T g 0) as [->|Hne]; [lra|].
    assert (Int_part 2 = 2%Z ∧ frac_part 2 = 0%R) as [Hi Hf].
    { assert (Int_part 2 = 2%Z) as Hi.
      { symmetry. apply (Int_part_spec 2 2). cbn. lra. }
      split; [done|]. unfold frac_part. rewrite Hi. cbn. lra. }
    destruct (Req_dec_T (frac_part 2) 0) as [_|?]; [|done].
    rewrite Hi. change (powerRZ g 2) with (g * (g * 1))%R. lra.
Qed.

(** ** The values of the nodes *)

Lemma value_of_data s n : value_of (map data (cells s)) n = dat s n.
Proof.
  unfold value_of, dat. change (map data (cells s)) with (data <$> cells s).
  rewrite list_lookup_fmap. by destruct (cells s !! n).
Qed.

Lemma node_value_length x t d vals : length (node_value x t d vals) = S (length vals).
Proof. unfold node_value. rewrite length_app. simpl. lia. Qed.

Lemma value_of_node_value_lt x t d vals n :
  n < length vals → value_of (node_value x t d vals) n = value_of vals n.
Proof. intros Hn. unfold value_of, node_value. by rewrite lookup_app_l. Qed.

Lemma value_of_node_value_new x t d vals :
  value_of (node_value x t d vals) (length vals) =
    if decide (length vals = x) then t else d.
Proof. unfold value_of, node_value. by rewrite list_lookup_middle. Qed.

Lemma value_of_node_value_at x t d vals n :
  n = length vals →
  value_of (node_value x t d vals) n = if decide (n = x) then t else d.
Proof. intros ->. apply value_of_node_value_new. Qed.

Lemma wf_cells_prefix cs v : wf_cells (cs ++ [v]) → wf_cells cs.
Proof.
  intros Hwf i vi Hi. apply (Hwf i vi). by apply lookup_app_l_Some.
Qed.

Lemma partial_app cs v x n :
  wf_cells (cs ++ [v]) → n < length cs → partial (cs ++ [v]) x n = partial cs x n.
Proof.
  intros Hwf. pose proof (wf_cells_prefix _ _ Hwf) as Hwf0.
  induction n as [n IH] using lt_wf_ind. intros Hn.
  rewrite !partial_unfold by done. case_decide; [done|].
  rewrite lookup_app_l by done.
  destruct (cs !! n) as [vn|] eqn:Hvn; [|done].
  apply Rsum_map_ext. intros [c lg] Hc.
  pose proof (operands_lt _ _ _ _ _ Hwf0 Hvn Hc). rewrite IH by lia. done.
Qed.

Lemma dat_app_lt s v n :
  n < length (cells s) → dat (mkStore (cells s ++ [v]) (module_gen s)) n = dat s n.
Proof. intros Hn. unfold dat. cbn [cells]. by rewrite lookup_app_l. Qed.

Lemma dat_app_new s v :
  dat (mkStore (cells s ++ [v]) (module_gen s)) (length (cells s)) = data v.
Proof. unfold dat. cbn [cells]. by rewrite list_lookup_middle. Qed.

Lemma tracks_ext vf vf' s :
  (∀ x t, vf x t = vf' x t) → tracks vf s → tracks vf' s.
Proof.
  intros Heq [Hlen H]. split.
  - intros x t. by rewrite <- Heq.
  - intros x t0 Hx. destruct (H x t0 Hx) as [Hval Hder]. split.
    + by rewrite <- Heq.
    + intros n Hn. eapply derivable_pt_lim_ext; [|exact (Hder n Hn)].
      intros t. cbn beta. by rewrite Heq.
Qed.

Lemma tracks_same vf s s' :
  map data (cells s') = map data (cells s) →
  map links (cells s') = map links (cells s) →
  tracks vf s → tracks vf s'.
Proof.
  intros Hd Hl [Hlen H].
  assert (length (cells s') = length (cells s)) as Hlen'.
  { by rewrite <- (length_map data (cells s')), Hd, length_map. }
  assert (∀ n, dat s' n = dat s n) as Hdat.
  { intros n. by rewrite <- !value_of_data, Hd. }
  split.
  - intros x t. by rewrite Hlen'.
  - intros x t0 Hx. rewrite Hlen', Hd in *.
    destruct (H x t0) as [Hval Hder]; [intros Hlt; rewrite <- Hdat; auto|].
    split; [done|]. intros n Hn.
    rewrite (partial_links _ _ x n Hl). by apply Hder.
Qed.

(** A new node whose value is [F] of the values of the older nodes, and
    whose recorded local derivatives give the derivative of [F] by the chain
    rule. *)
Lemma tracks_push vf s v F :
  tracks vf s → wf_cells (cells s ++ [v]) →
  data v = F (map data (cells s)) →
  (∀ x t0, (x < length (cells s) → t0 = dat s x) → x ≠ length (cells s) →
     derivable_pt_lim (λ t, F (vf x t)) t0
       (Rsum (map (λ '(c, lg), (lg * partial (cells s) x c)%R) (operands v)))) →
  tracks (λ x t, node_value x t (F (vf x t)) (vf x t))
         (mkStore (cells s ++ [v]) (module_gen s)).
Proof.
  intros [Hlen H] Hwf Hdata HF. pose proof (wf_cells_prefix _ _ Hwf) as Hwf0.
  split; cbn [cells].
  - intros x t. rewrite node_value_length, length_app, Hlen. simpl. lia.
  - intros x t0 Hx. rewrite length_app in Hx. cbn [length] in Hx.
    assert (x < length (cells s) → t0 = dat s x) as Hx0.
    { intros Hlt. rewrite Hx by lia. by apply dat_app_lt. }
    destruct (H x t0 Hx0) as [Hval Hder]. split.
    + unfold node_value. rewrite Hval, map_app. f_equal. cbn [map]. f_equal.
      rewrite length_map. case_decide as Hc; [|done].
      subst x. rewrite Hx by lia. apply dat_app_new.
    + intros n Hn. rewrite length_app in Hn. cbn [length] in Hn.
      destruct (decide (n < length (cells s))) as [Hlt|Hge].
      * rewrite partial_app by done.
        eapply derivable_pt_lim_ext; [|exact (Hder n Hlt)].
        intros t. cbn beta. rewrite value_of_node_value_lt; [done|]. by rewrite Hlen.
      * assert (n = length (cells s)) as -> by lia.
        destruct (decide (length (cells s) = x)) as [Hc|Hc].
        -- subst x. rewrite partial_self.
           eapply derivable_pt_lim_ext; [|apply derivable_pt_lim_id].
           intros t. cbn beta. rewrite value_of_node_value_at by (by rewrite Hlen).
           by rewrite decide_True.
        -- rewrite partial_unfold by done. rewrite decide_False by done.
           rewrite list_lookup_middle by done.
           rewrite (Rsum_map_ext _ (λ '(c, lg), (lg * partial (cells s) x c)%R)).
           ++ eapply derivable_pt_lim_ext; [|apply (HF x t0 Hx0); congruence].
              intros t. cbn beta. rewrite value_of_node_value_at by (by rewrite Hlen).
              by rewrite decide_False.
           ++ intros [c lg] Hin.
              assert (c < length (cells s)) as Hlt.
              { apply (operands_lt (cells s ++ [v]) (length (cells s)) v c lg);
                  [done|by apply list_lookup_middle|done]. }
              by rewrite partial_app.
Qed.

Lemma tracks_leaf vf s v d :
  tracks vf s → wf_cells (cells s ++ [v]) →
  operands v = [] → data v = d →
  tracks (λ x t, node_value x t d (vf x t)) (mkStore (cells s ++ [v]) (module_gen s)).
Proof.
  intros Ht Hwf Hops Hd.
  apply (tracks_push vf s v (λ _, d)); [done|done|done|].
  intros x t0 _ _. rewrite Hops. cbn [map Rsum foldr]. apply derivable_pt_lim_const.
Qed.

Lemma tracks_unary vf s v a g lg :
  tracks vf s → wf_cells (cells s ++ [v]) →
  operands v = [(a, lg)] → data v = g (dat s a) →
  derivable_pt_lim g (dat s a) lg →
  tracks (λ x t, node_value x t (g (value_of (vf x t) a)) (vf x t))
         (mkStore (cells s ++ [v]) (module_gen s)).
Proof.
  intros Ht Hwf Hops Hd Hg.
  apply (tracks_push vf s v (λ vals, g (value_of vals a))); [done|done| |].
  - by rewrite value_of_data.
  - intros x t0 Hx Hne. rewrite Hops. cbn [map Rsum foldr].
    destruct Ht as [Hlen H]. destruct (H x t0 Hx) as [Hval Hder].
    replace (lg * partial (cells s) x a + 0)%R with (lg * partial (cells s) x a)%R by lra.
    destruct (decide (a < length (cells s))) as [Ha|Ha].
    + apply (derivable_pt_lim_comp (λ t, value_of (vf x t) a) g); [by apply Hder|].
      cbn beta. by rewrite Hval, value_of_data.
    + exfalso.
      pose proof (operands_lt (cells s ++ [v]) (length (cells s)) v a lg Hwf
                    (list_lookup_middle _ _ _ _ eq_refl)) as Hlt.
      rewrite Hops in Hlt. apply Ha, Hlt. by left.
Qed.

Lemma tracks_sum vf s v a b :
  tracks vf s → wf_cells (cells s ++ [v]) →
  operands v = [(a, 1%R); (b, 1%R)] → data v = (dat s a + dat s b)%R →
  tracks (λ x t, node_value x t (value_of (vf x t) a + value_of (vf x t) b) (vf x t))
         (mkStore (cells s ++ [v]) (module_gen s)).
Proof.
  intros Ht Hwf Hops Hd.
  apply (tracks_push vf s v (λ vals, value_of vals a + value_of vals b)%R); [done|done| |].
  - by rewrite !value_of_data.
  - intros x t0 Hx Hne. rewrite Hops. cbn [map Rsum foldr].
    destruct Ht as [Hlen H]. destruct (H x t0 Hx) as [Hval Hder].
    pose proof (operands_lt (cells s ++ [v]) (length (cells s)) v) as Hlt.
    rewrite Hops in Hlt.
    assert (a < length (cells s)) as Ha.
    { apply (Hlt a 1%R Hwf); [by apply list_lookup_middle|by left]. }
    assert (b < length (cells s)) as Hb.
    { apply (Hlt b 1%R Hwf); [by apply list_lookup_middle|right; by left]. }
    replace (1 * partial (cells s) x a + (1 * partial (cells s) x b + 0))%R
      with (partial (cells s) x a + partial (cells s) x b)%R by lra.
    apply (derivable_pt_lim_plus (λ t, value_of (vf x t) a) (λ t, value_of (vf x t) b));
      by apply Hder.
Qed.

Lemma tracks_product vf s v a b :
  tracks vf s → wf_cells (cells s ++ [v]) →
  operands v = [(a, dat s b); (b, dat s a)] → data v = (dat s a * dat s b)%R →
  tracks (λ x t, node_value x t (value_of (vf x t) a * value_of (vf x t) b) (vf x t))
         (mkStore (cells s ++ [v]) (module_gen s)).
Proof.
  intros Ht Hwf Hops Hd.
  apply (tracks_push vf s v (λ vals, value_of vals a * value_of vals b)%R); [done|done| |].
  - by rewrite !value_of_data.
  - intros x t0 Hx Hne. rewrite Hops. cbn [map Rsum foldr].
    destruct Ht as [Hlen H]. destruct (H x t0 Hx) as [Hval Hder].
    pose proof (operands_lt (cells s ++ [v]) (length (cells s)) v) as Hlt.
    rewrite Hops in Hlt.
    assert (a < length (cells s)) as Ha.
    { apply (Hlt a (dat s b) Hwf); [by apply list_lookup_middle|by left]. }
    assert (b < length (cells s)) as Hb.
    { apply (Hlt b (dat s a) Hwf); [by apply list_lookup_middle|right; by left]. }
    pose proof (derivable_pt_lim_mult (λ t, value_of (vf x t) a) (λ t, value_of (vf x t) b)
                  t0 _ _ (Hder a Ha) (Hder b Hb)) as Hm.
    cbn beta in Hm. rewrite Hval, !value_of_data in Hm.
    replace (dat s b * partial (cells s) x a + (dat s a * partial (cells s) x b + 0))%R
      with (partial (cells s) x a * dat s b + dat s a * partial (cells s) x b)%R by lra.
    exact Hm.
Qed.

(** ** The operations *)

Lemma dat_lookup s r v : cells s !! r = Some v → dat s r = data v.
Proof. intros H. unfold dat. by rewrite H. Qed.

Lemma add_tracks vf s this other r s' :
  tracks vf s → wf_store s → add this other s = Ok (r, s') →
  r = length (cells s) ∧
  tracks (λ x t, node_value x t (value_of (vf x t) this + operand_value (vf x t) other)
                            (vf x t)) s'.
Proof.
  intros Ht Hwf H. pose proof (add_allocated _ _ _ _ _ H) as Hal.
  pose proof (allocated_wf _ _ _ Hwf Hal) as [Hwf' _].
  unfold add, bind, get, new_Value in H.
  destruct (cells s !! this) as [tv|] eqn:Hthis; [|done].
  destruct other as [o|c].
  - destruct (cells s !! o) as [ov|] eqn:Ho; [|done]. injection H as <- <-.
    split; [done|]. cbn [cells operand_value] in *.
    apply tracks_sum; [done|done|done|].
    by rewrite (dat_lookup _ _ _ Hthis), (dat_lookup _ _ _ Ho).
  - injection H as <- <-. split; [done|]. cbn [cells operand_value] in *.
    apply (tracks_unary vf s _ this (λ y, y + c)%R 1%R); [done|done|done| |].
    + by rewrite (dat_lookup _ _ _ Hthis).
    + replace 1%R with (1 + 0)%R by lra.
      apply (derivable_pt_lim_plus id (fct_cte c));
        [apply derivable_pt_lim_id|apply derivable_pt_lim_const].
Qed.

Lemma mul_tracks vf s this other r s' :
  tracks vf s → wf_store s → mul this other s = Ok (r, s') →
  r = length (cells s) ∧
  tracks (λ x t, node_value x t (value_of (vf x t) this * operand_value (vf x t) other)
                            (vf x t)) s'.
Proof.
  intros Ht Hwf H. pose proof (mul_allocated _ _ _ _ _ H) as Hal.
  pose proof (allocated_wf _ _ _ Hwf Hal) as [Hwf' _].
  unfold mul, bind, get, new_Value in H.
  destruct (cells s !! this) as [tv|] eqn:Hthis; [|done].
  destruct other as [o|c].
  - destruct (cells s !! o) as [ov|] eqn:Ho; [|done]. injection H as <- <-.
    split; [done|]. cbn [cells operand_value] in *.
    apply tracks_product; [done|done| |];
      by rewrite (dat_lookup _ _ _ Hthis), (dat_lookup _ _ _ Ho).
  - injection H as <- <-. split; [done|]. cbn [cells operand_value] in *.
    apply (tracks_unary vf s _ this (λ y, y * c)%R c); [done|done|done| |].
    + by rewrite (dat_lookup _ _ _ Hthis).
    + pose proof (derivable_pt_lim_mult id (fct_cte c) (dat s this) 1 0
                    (derivable_pt_lim_id _) (derivable_pt_lim_const _ _)) as Hm.
      unfold fct_cte, id in Hm.
      replace (1 * c + dat s this * 0)%R with c in Hm by lra. exact Hm.
Qed.

Lemma unary_tracks (op : ref → M ref) (g : R → R) (lgf : R → R) vf s this r s' :
  (∀ s0, op this s0 = (t <- get this ;; new_Value (g (data t)) [this] [lgf (data t)]) s0) →
  (∀ this s r s', op this s = Ok (r, s') → allocated s r s') →
  derivable_pt_lim g (dat s this) (lgf (dat s this)) →
  tracks vf s → wf_store s → op this s = Ok (r, s') →
  r = length (cells s) ∧
  tracks (λ x t, node_value x t (g (value_of (vf x t) this)) (vf x t)) s'.
Proof.
  intros Hop Halloc Hg Ht Hwf H. pose proof (Halloc _ _ _ _ H) as Hal.
  pose proof (allocated_wf _ _ _ Hwf Hal) as [Hwf' _].
  rewrite Hop in H. unfold bind, get, new_Value in H.
  destruct (cells s !! this) as [tv|] eqn:Hthis; [|done].
  injection H as <- <-. split; [done|]. cbn [cells] in *.
  rewrite (dat_lookup _ _ _ Hthis) in Hg.
  apply (tracks_unary vf s _ this g (lgf (data tv))); [done|done|done| |].
  - by rewrite (dat_lookup _ _ _ Hthis).
  - by rewrite (dat_lookup _ _ _ Hthis).
Qed.

Lemma backward_same root s s' :
  wf_store s → backward root s = Ok (tt, s') →
  map data (cells s') = map data (cells s) ∧ map links (cells s') = map links (cells s).
Proof.
  intros Hwf H. destruct (decide (root < length (cells s))) as [Hlt|Hge].
  - destruct (backward_general s root Hwf Hlt)
      as (cs1 & topo & cs' & _ & Hb & _ & _ & _ & _ & Hl & Hd & _).
    rewrite Hb in H. by injection H as <-.
  - exfalso. unfold backward, backward_topo, bind, next_gen, store_size in H.
    cbn [cells module_gen] in H. rewrite buildTopo_S in H.
    unfold bind, get in H. cbn [cells] in H.
    rewrite (proj2 (lookup_ge_None _ _)) in H by lia. done.
Qed.

Lemma neg_tracks vf s this r s' :
  tracks vf s → wf_store s → neg this s = Ok (r, s') →
  r = length (cells s) ∧
  tracks (λ x t, node_value x t (- value_of (vf x t) this) (vf x t)) s'.
Proof.
  apply (unary_tracks neg Ropp (λ _, (-1)%R)); [done|apply neg_allocated|].
  replace (-1)%R with (- (1))%R by lra.
  apply (derivable_pt_lim_opp id), derivable_pt_lim_id.
Qed.

Lemma inverse_tracks vf s this r s' :
  dat s this ≠ 0%R →
  tracks vf s → wf_store s → pow this (-1) s = Ok (r, s') →
  r = length (cells s) ∧
  tracks (λ x t, node_value x t (/ value_of (vf x t) this) (vf x t)) s'.
Proof.
  intros Hne Ht Hwf H. pose proof (pow_allocated _ _ _ _ _ H) as Hal.
  pose proof (allocated_wf _ _ _ Hwf Hal) as [Hwf' _].
  unfold pow, bind, get, new_Value in H.
  destruct (cells s !! this) as [tv|] eqn:Hthis; [|done].
  injection H as <- <-. split; [done|]. cbn [cells] in *.
  rewrite (dat_lookup _ _ _ Hthis) in Hne.
  apply (tracks_unary vf s _ this Rinv (-1 * js_pow (data tv) (-1 - 1))%R);
    [done|done|done| |].
  - rewrite (dat_lookup _ _ _ Hthis). cbn [data Value_new]. by apply js_pow_inverse.
  - rewrite (dat_lookup _ _ _ Hthis). by apply derivable_pt_lim_inverse.
Qed.

(** One call at a regular point keeps the values in step with the store. *)
Lemma exec_tracks vf s c s' :
  tracks vf s → wf_store s → regular s c → exec c s = Ok (tt, s') →
  tracks (λ x t, spec_eval_call x t (vf x t) c) s'.
Proof.
  intros Ht Hwf Hreg H. pose proof (exec_wf _ _ _ Hwf H) as [Hwf' _].
  destruct c; cbn [exec regular spec_eval_call] in *;
    try (apply bind_Ok in H as (r & s1 & H & [= <-])).
  - unfold new_Value in H. injection H as <- <-. cbn [cells] in Hwf'.
    by apply tracks_leaf.
  - by apply (add_tracks vf s this other r s1).
  - by apply (mul_tracks vf s this other r s1).
  - apply (unary_tracks (λ this, pow this e) (λ y, js_pow y e)
             (λ d, e * js_pow d (e - 1))%R vf s this r s1); try done.
    + intros. by eapply pow_allocated.
    + destruct Hreg as [Hpos|(k & -> & Hk)];
        [by apply derivable_pt_lim_js_pow|by apply derivable_pt_lim_js_pow_int].
  - apply (unary_tracks log ln (λ d, 1 / d)%R vf s this r s1); try done.
    + apply log_allocated.
    + replace (1 / dat s this)%R with (/ dat s this)%R by lra.
      by apply derivable_pt_lim_ln.
  - apply (unary_tracks exp Rtrigo_def.exp Rtrigo_def.exp vf s this r s1); try done.
    + apply exp_allocated.
    + apply derivable_pt_lim_exp.
  - apply (unary_tracks relu (Rmax 0) (λ d, if Rlt_dec 0 d then 1%R else 0%R)
             vf s this r s1); try done.
    + apply relu_allocated.
    + by apply derivable_pt_lim_relu.
  - by apply (neg_tracks vf s this r s1).
  - unfold sub in H. destruct other as [o|c].
    + apply bind_Ok in H as (n & s2 & Hn & Ha).
      destruct (neg_tracks vf s o n s2 Ht Hwf Hn) as [-> Ht2].
      assert (wf_store s2) as Hwf2.
      { eapply allocated_wf; [done|]. by eapply neg_allocated. }
      destruct (add_tracks _ s2 this (OValue (length (cells s))) r s1 Ht2 Hwf2 Ha)
        as [_ Ht1].
      eapply tracks_ext; [|exact Ht1].
      intros x t. cbn [operand_value]. destruct Ht as [Hlen _]. by rewrite Hlen.
    + by apply (add_tracks vf s this (ONumber (- c)) r s1).
  - unfold div in H. destruct other as [o|c].
    + apply bind_Ok in H as (n & s2 & Hn & Ha).
      destruct (inverse_tracks vf s o n s2 Hreg Ht Hwf Hn) as [-> Ht2].
      assert (wf_store s2) as Hwf2.
      { eapply allocated_wf; [done|]. by eapply pow_allocated. }
      destruct (mul_tracks _ s2 this (OValue (length (cells s))) r s1 Ht2 Hwf2 Ha)
        as [_ Ht1].
      eapply tracks_ext; [|exact Ht1].
      intros x t. cbn [operand_value]. destruct Ht as [Hlen _]. by rewrite Hlen.
    + eapply tracks_ext;
        [|exact (proj2 (mul_tracks vf s this (ONumber (1 / c)) r s1 Ht Hwf H))].
      intros x t. cbn [operand_value]. f_equal. unfold Rdiv. ring.
  - destruct (backward_same _ _ _ Hwf H) as [Hd Hl]. by apply (tracks_same vf s).
  - apply modify_Ok in H as (v & Hv & ->). apply (tracks_same vf s); [| |done];
      cbn [cells]; by apply (insert_map _ _ _ v).
  - done.
Qed.

Lemma graph_built calls s : graph calls s → built s.
Proof.
  induction 1 as [|calls s c s' _ IH _ H]; [constructor|]. by eapply built_call.
Qed.

(** In a graph the chain-rule sum over the recorded local derivatives is the
    derivative of the value of a node as a function of another node. *)
Lemma graph_tracks calls s : graph calls s → tracks (spec_node_values calls) s.
Proof.
  induction 1 as [|calls s c s' Hg IH Hreg H].
  - split; [done|]. intros x t0 _. split; [done|]. intros n Hn. cbn in Hn. lia.
  - eapply tracks_ext; [|exact (exec_tracks _ _ _ _ IH (built_wf _ (graph_built _ _ Hg)) Hreg H)].
    intros x t. unfold spec_node_values. by rewrite foldl_app.
Qed.

Lemma graph_derivative calls s x n :
  graph calls s → x < length (cells s) → n < length (cells s) →
  spec_value_at calls x (dat s x) n = dat s n ∧
  derivable_pt_lim (λ t, spec_value_at calls x t n) (dat s x) (partial (cells s) x n).
Proof.
  intros Hg Hx Hn. destruct (graph_tracks _ _ Hg) as [_ H].
  destruct (H x (dat s x) (λ _, eq_refl)) as [Hval Hder]. split.
  - unfold spec_value_at. by rewrite Hval, value_of_data.
  - by apply Hder.
Qed.

Lemma reach_le cs root n : wf_cells cs → reach cs root n → n ≤ root.
Proof.
  intros Hwf. induction 1 as [|p v c lg _ IH Hv Hc]; [done|].
  pose proof (operands_lt _ _ _ _ _ Hwf Hv Hc). lia.
Qed.

Lemma demo_graph : graph demo_calls demo_store.
Proof.
  change demo_calls
    with (((([] ++ [CNew 2]) ++ [CNew 3]) ++ [CMul 0 (OValue 1)]) ++ [CAdd 2 (OValue 0)]).
  eapply graph_call;
    [eapply graph_call;
      [eapply graph_call; [eapply graph_call; [apply graph_empty|..]|..]|..]|..];
    first [exact I|reflexivity].
Qed.

(** ** Claim C1 *)

(** C1: in every graph built by the [Value] operations (each at a point where
    it has a derivative), if every node reachable from [root] has gradient 0,
    then [root.backward()] returns, its [topo] array holds every node
    reachable from [root] exactly once (shared operands included), and
    afterwards the gradient of every reachable node [n] is the derivative of
    the value of the root as a function of the value of [n], taken at the
    [data] of [n], where that function gives the [data] of the root. The call
    increments the module's generation counter and leaves a graph again, so
    the statement applies to the next [backward] call, whatever subgraph it
    shares with this one. *)
Theorem backward_gradient_is_partial_derivative (calls : list call) (s : Store)
    (root : nat) :
  graph calls s →
  root < length (cells s) →
  (∀ n, reach (cells s) root n → gradf (cells s) n = 0%R) →
  ∃ s1 topo s',
    backward_topo root s = Ok (topo, s1) ∧
    backward root s = Ok (tt, s') ∧
    NoDup topo ∧
    (∀ n, n ∈ topo ↔ reach (cells s) root n) ∧
    (∀ n, reach (cells s) root n →
       spec_value_at calls n (dat s n) root = dat s root ∧
       derivable_pt_lim (λ t, spec_value_at calls n t root) (dat s n) (gradf (cells s') n)) ∧
    module_gen s' = S (module_gen s) ∧
    graph (calls ++ [CBackward root]) s'.
Proof.
  intros Hg Hroot Hzero. pose proof (built_wf s (graph_built _ _ Hg)) as Hwf.
  destruct (backward_spec s root Hwf Hroot Hzero)
    as (cs1 & topo & cs' & Ht & Hrun & Hnd & Hcover & Hgrad & _).
  exists (mkStore cs1 (S (module_gen s))), topo, (mkStore cs' (S (module_gen s))).
  split_and!; try done.
  - intros n Hn. cbn [cells]. rewrite (Hgrad n Hn).
    apply (graph_derivative calls s n root Hg); [|done].
    pose proof (reach_le _ _ _ (proj1 Hwf) Hn). lia.
  - by apply (graph_call calls s (CBackward root)).
Qed.

(** [quotient_calls], then [e.backward()]: the root is node 7. *)
Lemma backward_gradient_witness :
  ∃ s, graph quotient_calls s ∧
  ∃ s1 topo s',
    backward_topo 7 s = Ok (topo, s1) ∧
    backward 7 s = Ok (tt, s') ∧
    NoDup topo ∧
    (∀ n, n ∈ topo ↔ reach (cells s) 7 n) ∧
    (∀ n, reach (cells s) 7 n →
       spec_value_at quotient_calls n (dat s n) 7 = dat s 7 ∧
       derivable_pt_lim (λ t, spec_value_at quotient_calls n t 7) (dat s n)
                        (gradf (cells s') n)) ∧
    module_gen s' = S (module_gen s) ∧
    graph (quotient_calls ++ [CBackward 7]) s'.
Proof.
  assert (∃ s, graph quotient_calls s ∧ length (cells s) = 8 ∧
               ∀ n, gradf (cells s) n = 0%R) as (s & Hg & Hlen & Hzero).
  { eexists. split; [|split].
    - change quotient_calls
        with ((((((([] ++ [CNew 2]) ++ [CNew 3]) ++ [CMul 0 (OValue 1)]) ++
                 [CAdd 2 (OValue 0)]) ++ [CDiv 3 (OValue 1)]) ++ [CLog 5]) ++ [CExp 6]).
      eapply graph_call;
        [eapply graph_call;
          [eapply graph_call;
            [eapply graph_call;
              [eapply graph_call;
                [eapply graph_call; [eapply graph_call; [apply graph_empty|..]|..]|..]
              |..]|..]|..]|..];
        try reflexivity; try exact I.
      + unfold regular, dat. cbn. lra.
      + unfold regular, dat. cbn. rewrite js_pow_inv by lra. lra.
    - reflexivity.
    - intros n. unfold gradf. do 8 (destruct n as [|n]; [reflexivity|]). reflexivity. }
  exists s. split; [exact Hg|].
  apply (backward_gradient_is_partial_derivative quotient_calls s 7 Hg); [lia|].
  intros n _. apply Hzero.
Defined.

(** * Further properties of the code *)

(** ** [src/lib/value.ts]: [backward] on gradients that were not reset *)

Lemma built_backward_general s root :
  built s → root < length (cells s) →
  ∃ topo s',
    backward root s = Ok (tt, s') ∧ built s' ∧
    module_gen s' = S (module_gen s) ∧
    NoDup topo ∧
    (∀ n, n ∈ topo ↔ reach (cells s) root n) ∧
    (∀ x, reach (cells s) root x →
       gradf (cells s') x =
         Rsum (map (λ n, (if decide (n = root) then 1 else gradf (cells s) n) *
                         partial (cells s) x n)%R topo)) ∧
    (∀ n, ¬ reach (cells s) root n → gradf (cells s') n = gradf (cells s) n) ∧
    map data (cells s') = map data (cells s) ∧
    map links (cells s') = map links (cells s).
Proof.
  intros Hb Hroot.
  destruct (backward_general s root (built_wf s Hb) Hroot)
    as (cs1 & topo & cs' & _ & Hrun & Hnd & Hcov & Hin & Hout & Hl & Hd & _).
  exists topo, (mkStore cs' (S (module_gen s))). cbn [cells module_gen].
  split_and!; try done.
  - by apply (built_call s (CBackward root)).
  - intros x Hx. apply Hin. by apply Hcov.
Qed.

Lemma stale_graph : graph (demo_calls ++ [CSetGrad 0 5]) stale_store.
Proof. apply (graph_call demo_calls demo_store); [exact demo_graph|exact I|reflexivity]. Qed.

(** X1. [backward()] never resets a gradient, whatever the gradients are when
    it is called: in a graph built by the [Value] operations the call
    returns; it sets the root's gradient to 1 and gives every node [x]
    reachable from the root the sum, over the reachable nodes [n], of the
    gradient [n] had (1 for the root) times the derivative of the value of
    [n] as a function of the value of [x]. The gradient of a node that is not
    reachable, every [data] and every operand link stay as they were. *)
Theorem backward_propagates_stale_gradients (calls : list call) (s : Store)
    (root : nat) :
  graph calls s → root < length (cells s) →
  ∃ topo s',
    backward root s = Ok (tt, s') ∧
    NoDup topo ∧
    (∀ n, n ∈ topo ↔ reach (cells s) root n) ∧
    gradf (cells s') root = 1%R ∧
    (∀ x, reach (cells s) root x →
       ∃ d : nat → R,
         (∀ n, n ∈ topo →
               derivable_pt_lim (λ t, spec_value_at calls x t n) (dat s x) (d n)) ∧
         gradf (cells s') x =
           Rsum (map (λ n, (if decide (n = root) then 1 else gradf (cells s) n) * d n)%R
                     topo)) ∧
    (∀ n, ¬ reach (cells s) root n → gradf (cells s') n = gradf (cells s) n) ∧
    map data (cells s') = map data (cells s) ∧
    map links (cells s') = map links (cells s).
Proof.
  intros Hg Hroot. pose proof (graph_built _ _ Hg) as Hb.
  destruct (built_backward_general s root Hb Hroot)
    as (topo & s' & Hrun & _ & _ & Hnd & Hcov & Hin & Hout & Hd & Hl).
  pose proof (built_wf s Hb) as [Hwf _].
  exists topo, s'. split_and!; try done.
  - rewrite Hin by constructor.
    rewrite (Rsum_map_ext _ (λ n, (if decide (n = root) then 1 else 0) * 1)%R).
    + rewrite (Rsum_indicator topo root (λ n, if decide (n = root) then 1%R else 0%R)
                 (λ _, 1%R)); [done|done|by apply Hcov; constructor|by rewrite decide_True|].
      intros n _ Hne. by rewrite decide_False.
    + intros n Hn. case_decide as Hr; [subst n; by rewrite partial_self|].
      assert (n < root) as Hlt.
      { apply Hcov in Hn. pose proof (reach_le _ _ _ Hwf Hn). lia. }
      rewrite (partial_older _ root n Hwf Hlt). lra.
  - intros x Hx. exists (partial (cells s) x). split; [|by apply Hin].
    intros n Hn. apply Hcov in Hn.
    pose proof (reach_le _ _ _ Hwf Hx). pose proof (reach_le _ _ _ Hwf Hn).
    apply (graph_derivative calls s x n Hg); lia.
Qed.

(** [x = new Value(2); y = new Value(3); z = x.mul(y); w = z.add(x)], then
    [x.grad = 5] and [z.backward()]: the gradient of [x] is stale and [w] is
    not reachable from [z]. *)
Lemma backward_propagates_stale_gradients_witness :
  ∃ topo s',
    backward 2 stale_store = Ok (tt, s') ∧
    NoDup topo ∧
    (∀ n, n ∈ topo ↔ reach (cells stale_store) 2 n) ∧
    gradf (cells s') 2 = 1%R ∧
    (∀ x, reach (cells stale_store) 2 x →
       ∃ d : nat → R,
         (∀ n, n ∈ topo →
               derivable_pt_lim (λ t, spec_value_at (demo_calls ++ [CSetGrad 0 5]) x t n)
                                (dat stale_store x) (d n)) ∧
         gradf (cells s') x =
           Rsum (map (λ n : nat, (if decide (n = 2%nat) then 1
                                  else gradf (cells stale_store) n) * d n)%R topo)) ∧
    (∀ n, ¬ reach (cells stale_store) 2 n →
       gradf (cells s') n = gradf (cells stale_store) n) ∧
    map data (cells s') = map data (cells stale_store) ∧
    map links (cells s') = map links (cells stale_store).
Proof.
  apply (backward_propagates_stale_gradients (demo_calls ++ [CSetGrad 0 5]) stale_store 2).
  - exact stale_graph.
  - simpl. lia.
Defined.

(** X2. Gradients accumulate onto leaves. If, among the nodes reachable from
    the root, only nodes without operands carry a gradient that is not 0 (the
    parameters of a model whose gradients were not reset, under a graph of
    fresh nodes), then [backward()] adds to the gradient of every reachable
    node other than the root the derivative of the value of the root as a
    function of the value of that node. *)
Theorem backward_accumulates_on_leaves (calls : list call) (s : Store) (root x : nat) :
  graph calls s → root < length (cells s) →
  (∀ n v, reach (cells s) root n → n ≠ root → cells s !! n = Some v →
          gradf (cells s) n ≠ 0%R → _nch v = 0) →
  reach (cells s) root x → x ≠ root →
  ∃ s' d,
    backward root s = Ok (tt, s') ∧
    spec_value_at calls x (dat s x) root = dat s root ∧
    derivable_pt_lim (λ t, spec_value_at calls x t root) (dat s x) d ∧
    gradf (cells s') x = (gradf (cells s) x + d)%R.
Proof.
  intros Hg Hroot Hleaf Hx Hne. pose proof (graph_built _ _ Hg) as Hb.
  destruct (built_backward_general s root Hb Hroot)
    as (topo & s' & Hrun & _ & _ & Hnd & Hcov & Hin & _).
  pose proof (built_wf s Hb) as [Hwf _].
  pose proof (reach_le _ _ _ Hwf Hx) as Hle.
  destruct (graph_derivative calls s x root Hg) as [Hval Hder]; [lia|done|].
  exists s', (partial (cells s) x root). split_and!; [done|done|done|].
  rewrite (Hin x Hx).
  rewrite (Rsum_map_ext _
    (λ n, (if decide (n = root) then 1 else 0) * partial (cells s) x n +
          (if decide (n = x) then 1 else 0) * gradf (cells s) x)%R).
  - rewrite Rsum_map_plus.
    rewrite (Rsum_indicator topo root (λ n, if decide (n = root) then 1%R else 0%R)
               (λ n, partial (cells s) x n));
      [|done|by apply Hcov; constructor|by rewrite decide_True|
       by intros n _ Hn; rewrite decide_False].
    rewrite (Rsum_indicator topo x (λ n, if decide (n = x) then 1%R else 0%R)
               (λ _, gradf (cells s) x));
      [lra|done|by apply Hcov|by rewrite decide_True|
       by intros n _ Hn; rewrite decide_False].
  - intros n Hn. apply Hcov in Hn.
    destruct (decide (n = root)) as [->|Hnr].
    + rewrite (decide_False (P := root = x)) by done. lra.
    + destruct (decide (n = x)) as [->|Hnx]; [rewrite partial_self; lra|].
      destruct (Req_dec_T (gradf (cells s) n) 0) as [->|Hgn]; [lra|].
      rewrite partial_unfold by done. rewrite decide_False by done.
      destruct (cells s !! n) as [v|] eqn:Hv; [|lra].
      specialize (Hleaf n v Hn Hnr Hv Hgn). unfold operands.
      rewrite decide_False, (decide_False (P := _nch v = 2)) by lia. cbn. lra.
Qed.

(** [x = new Value(2); y = new Value(3); z = x.mul(y); w = z.add(x)], then
    [x.grad = 5] and [w.backward()]. *)
Lemma backward_accumulates_on_leaves_witness :
  ∃ s' d,
    backward 3 stale_store = Ok (tt, s') ∧
    spec_value_at (demo_calls ++ [CSetGrad 0 5]) 0 (dat stale_store 0) 3 = dat stale_store 3 ∧
    derivable_pt_lim (λ t, spec_value_at (demo_calls ++ [CSetGrad 0 5]) 0 t 3)
                     (dat stale_store 0) d ∧
    gradf (cells s') 0 = (gradf (cells stale_store) 0 + d)%R.
Proof.
  apply (backward_accumulates_on_leaves (demo_calls ++ [CSetGrad 0 5]) stale_store 3 0).
  - exact stale_graph.
  - simpl. lia.
  - intros n v _ _ Hv Hgn. destruct n as [|[|[|[|n]]]]; cbn in Hv, Hgn.
    + by injection Hv as <-.
    + by injection Hv as <-.
    + unfold gradf in Hgn. cbn in Hgn. done.
    + unfold gradf in Hgn. cbn in Hgn. done.
    + done.
  - apply (reach_step _ _ 3 (Value_new (2 * 3 + 2) [2; 0] [1%R; 1%R]) 0 1%R);
      [constructor|reflexivity|].
    unfold operands. cbn. rewrite decide_True by lia.
    rewrite (decide_True (P := 2 = 2)) by done. set_solver.
  - lia.
Defined.

(** ** [src/lib/value.ts]: the recorded local derivatives *)

(** X3. Every operation of [Value] with one [Value] operand, applied to an
    object of the store, returns a new node whose operand is that object,
    whose [data] is the function of the operand's [data] the operation
    computes, and whose recorded local derivative is the derivative of that
    function at the operand's [data]: [exp], [neg], [add], [sub] and [mul]
    with a number, [div] by a number other than 0, [log] at a positive
    number, [relu] away from 0 and [pow] at a positive base. *)
Theorem local_derivative_is_derivative (s : Store) (this : nat) (t : Value) :
  cells s !! this = Some t →
  unary_op s this Rtrigo_def.exp (exp this) ∧
  unary_op s this Ropp (neg this) ∧
  (∀ c, unary_op s this (λ x, x + c)%R (add this (ONumber c))) ∧
  (∀ c, unary_op s this (λ x, x - c)%R (sub this (ONumber c))) ∧
  (∀ c, unary_op s this (λ x, x * c)%R (mul this (ONumber c))) ∧
  (∀ c, c ≠ 0%R → unary_op s this (λ x, x / c)%R (div this (ONumber c))) ∧
  ((0 < data t)%R → unary_op s this ln (log this)) ∧
  (data t ≠ 0%R → unary_op s this (Rmax 0) (relu this)) ∧
  ((0 < data t)%R → ∀ e, unary_op s this (λ x, js_pow x e) (pow this e)).
Proof.
  intros Ht.
  assert (∀ c, derivable_pt_lim (λ x, x + c)%R (data t) 1%R) as Hadd.
  { intros c. replace 1%R with (1 + 0)%R by lra.
    apply (derivable_pt_lim_plus id (fct_cte c));
      [apply derivable_pt_lim_id|apply derivable_pt_lim_const]. }
  assert (∀ c, derivable_pt_lim (λ x, x * c)%R (data t) c) as Hmul.
  { intros c.
    pose proof (derivable_pt_lim_mult id (fct_cte c) (data t) 1 0
                  (derivable_pt_lim_id _) (derivable_pt_lim_const _ _)) as H.
    unfold fct_cte, id in H. replace (1 * c + data t * 0)%R with c in H by lra.
    exact H. }
  split_and!; intros;
    unfold unary_op, sub, div, exp, neg, add, mul, log, relu, pow, bind, get, new_Value;
    rewrite Ht; cbn [cells module_gen];
    exists t; eexists; (split; [done|]); (split; [reflexivity|]);
    cbn [data operands _nch _c0 _c1 _lg0 Value_new length lookup list_lookup default];
    (split_and!; [try done; lra|done|]).
  - apply derivable_pt_lim_exp.
  - replace (-1)%R with (- (1))%R by lra. apply (derivable_pt_lim_opp id).
    apply derivable_pt_lim_id.
  - apply Hadd.
  - apply (Hadd (- c)%R).
  - apply Hmul.
  - apply (derivable_pt_lim_ext (λ x, x * (1 / c))%R); [|apply Hmul].
    intros z. unfold Rdiv. ring.
  - replace (1 / data t)%R with (/ data t)%R by lra. by apply derivable_pt_lim_ln.
  - by apply derivable_pt_lim_relu.
  - by apply derivable_pt_lim_js_pow.
Qed.

Lemma local_derivative_witness :
  unary_op demo_store 1 Rtrigo_def.exp (exp 1) ∧
  unary_op demo_store 1 (λ x, x / 2)%R (div 1 (ONumber 2)) ∧
  unary_op demo_store 1 ln (log 1) ∧
  unary_op demo_store 1 (Rmax 0) (relu 1) ∧
  unary_op demo_store 1 (λ x, js_pow x (-0.5)) (pow 1 (-0.5)).
Proof.
  destruct (local_derivative_is_derivative demo_store 1 (Value_new 3 [] []) eq_refl)
    as (He & _ & _ & _ & _ & Hd & Hl & Hr & Hp).
  cbn [data Value_new] in Hl, Hr, Hp.
  split_and!; [exact He|apply Hd; lra|apply Hl; lra|apply Hr; lra|apply Hp; lra].
Defined.

(** X4. [add] and [mul] with a [Value] operand, applied to two objects of the
    store (which can be the same object, as in [xi.mul(xi)]), return a new
    node with these two operands, whose [data] is the sum or the product and
    whose two recorded local derivatives are the partial derivatives of the
    sum or of the product in the first and in the second operand. *)
Theorem binary_local_derivatives (s : Store) (this other : nat) (t o : Value) :
  cells s !! this = Some t → cells s !! other = Some o →
  binary_op s this other Rplus (add this (OValue other)) ∧
  binary_op s this other Rmult (mul this (OValue other)).
Proof.
  intros Ht Ho.
  assert (∀ a c : R, derivable_pt_lim (λ x, x + c)%R a 1%R) as Hadd.
  { intros a c. replace 1%R with (1 + 0)%R by lra.
    apply (derivable_pt_lim_plus id (fct_cte c));
      [apply derivable_pt_lim_id|apply derivable_pt_lim_const]. }
  assert (∀ a c : R, derivable_pt_lim (λ x, x * c)%R a c) as Hmul.
  { intros a c.
    pose proof (derivable_pt_lim_mult id (fct_cte c) a 1 0
                  (derivable_pt_lim_id _) (derivable_pt_lim_const _ _)) as H.
    unfold fct_cte, id in H. replace (1 * c + a * 0)%R with c in H by lra.
    exact H. }
  split; unfold binary_op, add, mul, bind, get, new_Value;
    rewrite Ht; cbn [cells module_gen]; rewrite Ho;
    exists t, o; eexists; (split; [done|]); (split; [done|]); (split; [reflexivity|]);
    cbn [data operands _nch _c0 _c1 _lg0 _lg1 Value_new length lookup list_lookup default];
    (split_and!; [done|done|..]).
  - apply Hadd.
  - apply (derivable_pt_lim_ext (λ y, y + data t)%R); [intros z; ring|apply Hadd].
  - apply Hmul.
  - apply (derivable_pt_lim_ext (λ y, y * data t)%R); [intros z; ring|apply Hmul].
Qed.

Lemma binary_local_derivatives_witness :
  binary_op demo_store 0 1 Rplus (add 0 (OValue 1)) ∧
  binary_op demo_store 0 1 Rmult (mul 0 (OValue 1)).
Proof.
  exact (binary_local_derivatives demo_store 0 1 (Value_new 2 [] []) (Value_new 3 [] [])
           eq_refl eq_refl).
Defined.

(** X5. [sub] and [div] with a [Value] operand go through one intermediate
    node ([other.neg()], [other.pow(-1)]). Applied to two objects of the
    store they allocate that node and the result; the result's [data] is the
    difference, or the quotient when the divisor's [data] is positive; and
    the recorded local derivatives, multiplied along the path through the
    intermediate node, are the partial derivatives of the difference
    (1 and -1) and of the quotient. *)
Theorem sub_div_compose (s : Store) (this other : nat) (t o : Value) :
  cells s !! this = Some t → cells s !! other = Some o →
  composed_op s this other Rminus (sub this (OValue other)) ∧
  ((0 < data o)%R → composed_op s this other Rdiv (div this (OValue other))).
Proof.
  intros Ht Ho.
  assert (this < length (cells s)) as Hlt by (by eapply lookup_lt_Some).
  assert (other < length (cells s)) as Hlo by (by eapply lookup_lt_Some).
  split; [|intros Hpos];
    unfold composed_op, sub, div, neg, pow, add, mul, bind, get, new_Value;
    rewrite Ho; cbn [cells module_gen];
    rewrite lookup_app_l, Ht by done; cbn [cells module_gen];
    rewrite list_lookup_middle by done; cbn [cells module_gen];
    exists t, o; do 2 eexists; (split; [done|]); (split; [done|]);
    (split; [rewrite <- app_assoc, length_app, Nat.add_1_r; reflexivity|]);
    cbn [data operands _nch _c0 _c1 _lg0 _lg1 Value_new length lookup list_lookup default];
    unfold Datatypes.id.
  - split_and!; [lra|done|done|..].
    + replace 1%R with (1 + 0)%R by lra.
      apply (derivable_pt_lim_plus id (fct_cte (- data o)%R));
        [apply derivable_pt_lim_id|apply derivable_pt_lim_const].
    + replace (1 * -1)%R with (0 + - (1))%R by lra.
      apply (derivable_pt_lim_plus (fct_cte (data t)) (- id)%F);
        [apply derivable_pt_lim_const|].
      apply derivable_pt_lim_opp, derivable_pt_lim_id.
  - split_and!; [by rewrite js_pow_inv|done|done|..].
    + rewrite js_pow_inv by done.
      pose proof (derivable_pt_lim_mult id (fct_cte (/ data o)) (data t) 1 0
                    (derivable_pt_lim_id _) (derivable_pt_lim_const _ _)) as H.
      unfold fct_cte, id in H.
      replace (1 * / data o + data t * 0)%R with (/ data o)%R in H by lra.
      exact H.
    + apply (derivable_pt_lim_locally_ext (λ y, data t * js_pow y (-1))%R _
               (data o) 0 (data o + 1)); [lra| |].
      * intros z Hz. rewrite js_pow_inv by lra. done.
      * apply (derivable_pt_lim_scal (λ y, js_pow y (-1)) (data t) (data o)).
        by apply derivable_pt_lim_js_pow.
Qed.

Lemma sub_div_compose_witness :
  composed_op demo_store 0 1 Rminus (sub 0 (OValue 1)) ∧
  composed_op demo_store 0 1 Rdiv (div 0 (OValue 1)).
Proof.
  destruct (sub_div_compose demo_store 0 1 (Value_new 2 [] []) (Value_new 3 [] [])
              eq_refl eq_refl) as [Hs Hd].
  split; [exact Hs|]. apply Hd. cbn. lra.
Defined.

(** ** [src/lib/value.ts]: [vsum] *)

Lemma vsum_from_spec vals : ∀ acc s,
  valid s acc → Forall (valid s) vals →
  ∃ r new,
    vsum_from acc vals s = Ok (r, mkStore (cells s ++ new) (module_gen s)) ∧
    length new = length vals ∧
    valid (mkStore (cells s ++ new) (module_gen s)) r ∧
    dat (mkStore (cells s ++ new) (module_gen s)) r =
      foldl Rplus (dat s acc) (map (dat s) vals).
Proof.
  induction vals as [|b vals IH]; intros acc s Hacc Hall.
  - exists acc, []. cbn [vsum_from map foldl length]. rewrite app_nil_r.
    destruct s. done.
  - apply Forall_cons in Hall as [Hb Hall].
    destruct Hacc as [va Ha]. destruct Hb as [vb Hb].
    set (v := Value_new (data va + data vb) [acc; b] [1%R; 1%R]).
    set (s1 := mkStore (cells s ++ [v]) (module_gen s)).
    assert (add acc (OValue b) s = Ok (length (cells s), s1)) as Hadd.
    { unfold add, bind, get, new_Value. by rewrite Ha, Hb. }
    assert (ext s s1) as Hext by (by exists [v]).
    destruct (IH (length (cells s)) s1) as (r & new & Hrun & Hlen & Hv & Hd).
    { exists v. apply list_lookup_middle. done. }
    { eapply Forall_impl; [exact Hall|]. intros x. by apply valid_ext. }
    exists r, (v :: new). cbn [vsum_from]. unfold bind. rewrite Hadd.
    cbn [cells module_gen s1] in Hrun, Hv, Hd |- *.
    rewrite <- app_assoc in Hrun, Hv, Hd. cbn [app] in Hrun, Hv, Hd.
    split_and!; [done|cbn; lia|done|].
    rewrite Hd. cbn [map foldl]. f_equal.
    + unfold dat at 1. cbn [cells s1]. rewrite list_lookup_middle by done.
      unfold dat. rewrite Ha, Hb. done.
    + apply map_ext_in. intros x Hx. apply dat_ext; [done|].
      rewrite Forall_forall in Hall. apply Hall. by apply list_elem_of_In.
Qed.

(** X6. [vsum] of an empty array throws ([reduce] without an initial value);
    of a one-element array it returns that element itself, with no new node;
    of a longer array of objects of the store it returns a new node whose
    [data] is the sum of the elements' [data] added from the left, after
    allocating one node per element but the first and changing no existing
    object. *)
Theorem vsum_adds_from_the_left (s : Store) (vals : list nat) :
  Forall (valid s) vals →
  (vals = [] → vsum vals s = Stop TypeError) ∧
  (∀ x, vals = [x] → vsum vals s = Ok (x, s)) ∧
  (vals ≠ [] →
   ∃ r new,
     vsum vals s = Ok (r, mkStore (cells s ++ new) (module_gen s)) ∧
     length new = length vals - 1 ∧
     dat (mkStore (cells s ++ new) (module_gen s)) r = sum_left (map (dat s) vals)).
Proof.
  intros Hall. split_and!.
  - by intros ->.
  - by intros x ->.
  - intros Hne. destruct vals as [|a vals]; [done|].
    apply Forall_cons in Hall as [Ha Hall].
    destruct (vsum_from_spec vals a s Ha Hall) as (r & new & Hrun & Hlen & _ & Hd).
    exists r, new. cbn [vsum length map sum_left]. split_and!; [done|lia|done].
Qed.

Lemma vsum_adds_from_the_left_witness :
  ∃ r new,
    vsum [0; 1; 2] demo_store = Ok (r, mkStore (cells demo_store ++ new) 0) ∧
    length new = 2 ∧
    dat (mkStore (cells demo_store ++ new) 0) r = sum_left (map (dat demo_store) [0; 1; 2]).
Proof.
  destruct (vsum_adds_from_the_left demo_store [0; 1; 2]) as (_ & _ & H).
  - repeat constructor; eexists; reflexivity.
  - apply H. discriminate.
Defined.

(** ** [src/lib/gpt.ts]: [MersenneTwister] *)

Lemma u32_range x : (0 ≤ u32 x < 2 ^ 32)%Z.
Proof. unfold u32. apply Z.mod_pos_bound. lia. Qed.

Lemma js_ushr_range a k :
  (0 ≤ k < 32)%Z → (0 ≤ js_ushr a k < 2 ^ (32 - k))%Z.
Proof.
  intros Hk. unfold js_ushr. rewrite (Z.mod_small k 32) by lia.
  rewrite Z.shiftr_div_pow2 by lia.
  pose proof (u32_range a) as Ha.
  assert (0 < 2 ^ k)%Z as Hp by (apply Z.pow_pos_nonneg; lia).
  split; [apply Z.div_pos; lia|].
  apply Z.div_lt_upper_bound; [done|].
  rewrite <- Z.pow_add_r by lia. replace (k + (32 - k))%Z with 32%Z by lia. lia.
Qed.

Lemma int32_gaussNext this :
  ∃ y this', int32 this = Ok (y, this') ∧ _gaussNext this' = _gaussNext this.
Proof.
  unfold int32. do 2 eexists. split; [reflexivity|].
  cbn [_gaussNext]. by case_decide.
Qed.

Lemma random_range this :
  ∃ k this',
    random this = Ok ((IZR k / 9007199254740992)%R, this') ∧
    (0 ≤ k < 2 ^ 53)%Z ∧
    _gaussNext this' = _gaussNext this.
Proof.
  unfold random, bind, ret.
  destruct (int32_gaussNext this) as (a & this1 & -> & Hg1).
  destruct (int32_gaussNext this1) as (b & this2 & -> & Hg2).
  pose proof (js_ushr_range a 5 ltac:(lia)) as Ha.
  pose proof (js_ushr_range b 6 ltac:(lia)) as Hb.
  exists (js_ushr a 5 * 67108864 + js_ushr b 6)%Z, this2. split; [|split].
  - rewrite plus_IZR, mult_IZR. reflexivity.
  - change (2 ^ (32 - 5))%Z with 134217728%Z in Ha.
    change (2 ^ (32 - 6))%Z with 67108864%Z in Hb.
    change (2 ^ 53)%Z with 9007199254740992%Z. lia.
  - by rewrite Hg2, Hg1.
Qed.

Lemma random_unit this r this' :
  random this = Ok (r, this') → (0 <= r < 1)%R.
Proof.
  destruct (random_range this) as (k & g & -> & Hk & _). intros [= <- <-].
  change (2 ^ 53)%Z with 9007199254740992%Z in Hk.
  assert (0 <= IZR k < 9007199254740992)%R as [H0 H1].
  { split; [apply IZR_le; lia|apply IZR_lt; lia]. }
  split.
  - apply Rmult_le_pos; [done|]. apply Rlt_le, Rinv_0_lt_compat. lra.
  - apply (Rmult_lt_reg_r 9007199254740992); [lra|]. unfold Rdiv.
    rewrite Rmult_assoc, Rinv_l by lra. lra.
Qed.

(** X7. [random()] returns, from every state of the generator, a multiple of
    2^-53 that is at least 0 and less than 1: 53 random bits, 27 from the
    first word drawn and 26 from the second. It leaves the cached Gaussian
    sample alone. *)
Theorem random_is_in_unit_interval (this : MersenneTwister) :
  ∃ k r this',
    random this = Ok (r, this') ∧
    r = (IZR k / 2 ^ 53)%R ∧ (0 ≤ k < 2 ^ 53)%Z ∧
    (0 <= r < 1)%R ∧
    _gaussNext this' = _gaussNext this.
Proof.
  destruct (random_range this) as (k & this' & Hrun & Hk & Hg).
  exists k, (IZR k / 9007199254740992)%R, this'.
  split; [done|]. split; [f_equal; lra|]. split; [done|]. split; [|done].
  by eapply random_unit.
Qed.

(** X8. [gauss] draws in pairs. Called with no cached sample it draws two
    uniform numbers [u1] and [u2], returns [mu + z1 * sigma] and caches
    [z2], where [z1] and [z2] are the cosine and the sine of [2 * PI * u1]
    times the square root of [-2 * ln (1 - u2)], a number whose logarithm is
    taken of a positive number; the next call returns [mu' + z2 * sigma']
    without drawing anything, and empties the cache. The squares of the two
    samples add up to [-2 * ln (1 - u2)]. *)
Theorem gauss_draws_in_pairs (mu sigma mu' sigma' : R) (this : MersenneTwister) :
  _gaussNext this = None →
  ∃ u1 u2 this1 this2 z1 z2,
    random this = Ok (u1, this1) ∧
    random this1 = Ok (u2, this2) ∧
    gauss mu sigma this =
      Ok ((mu + z1 * sigma)%R, mkMT (mt this2) (idx this2) (Some z2)) ∧
    gauss mu' sigma' (mkMT (mt this2) (idx this2) (Some z2)) =
      Ok ((mu' + z2 * sigma')%R, mkMT (mt this2) (idx this2) None) ∧
    (0 < 1 - u2 <= 1)%R ∧
    z1 = (cos (u1 * 2 * PI) * sqrt (-2 * ln (1 - u2)))%R ∧
    z2 = (sin (u1 * 2 * PI) * sqrt (-2 * ln (1 - u2)))%R ∧
    (z1 * z1 + z2 * z2 = -2 * ln (1 - u2))%R.
Proof.
  intros Hnone. destruct this as [m0 i0 g0]. cbn [_gaussNext] in Hnone. subst g0.
  destruct (random_range (mkMT m0 i0 None)) as (k1 & this1 & Hr1 & _ & _).
  destruct (random_range this1) as (k2 & this2 & Hr2 & _ & _).
  pose proof (random_unit _ _ _ Hr2) as Hu2.
  set (u1 := (IZR k1 / 9007199254740992)%R) in *.
  set (u2 := (IZR k2 / 9007199254740992)%R) in *.
  exists u1, u2, this1, this2,
    (cos (u1 * 2 * PI) * sqrt (-2 * ln (1 - u2)))%R,
    (sin (u1 * 2 * PI) * sqrt (-2 * ln (1 - u2)))%R.
  split; [done|]. split; [done|]. split; [|split; [|split; [|split; [|split]]]].
  - unfold gauss, bind. cbn [_gaussNext mt idx]. by rewrite Hr1, Hr2.
  - reflexivity.
  - lra.
  - done.
  - done.
  - assert (0 <= -2 * ln (1 - u2))%R as Hpos.
    { assert (ln (1 - u2) <= 0)%R; [|lra].
      destruct (Req_dec_T (1 - u2) 1) as [->|Hne]; [rewrite ln_1; lra|].
      rewrite <- ln_1. apply Rlt_le, ln_increasing; lra. }
    pose proof (sin2_cos2 (u1 * 2 * PI)) as Hsc. unfold Rsqr in Hsc.
    pose proof (sqrt_sqrt _ Hpos) as Hsq.
    set (c := cos (u1 * 2 * PI)) in *. set (sn := sin (u1 * 2 * PI)) in *.
    set (q := sqrt (-2 * ln (1 - u2))) in *.
    replace (c * q * (c * q) + sn * q * (sn * q))%R
      with ((sn * sn + c * c) * (q * q))%R by ring.
    rewrite Hsc, Hsq. ring.
Qed.

Lemma gauss_draws_in_pairs_witness :
  ∃ u1 u2 this1 this2 z1 z2,
    random (mkMT (replicate 624 0%Z) 624 None) = Ok (u1, this1) ∧
    random this1 = Ok (u2, this2) ∧
    gauss 0 0.08 (mkMT (replicate 624 0%Z) 624 None) =
      Ok ((0 + z1 * 0.08)%R, mkMT (mt this2) (idx this2) (Some z2)) ∧
    gauss 0 0.08 (mkMT (mt this2) (idx this2) (Some z2)) =
      Ok ((0 + z2 * 0.08)%R, mkMT (mt this2) (idx this2) None) ∧
    (0 < 1 - u2 <= 1)%R ∧
    z1 = (cos (u1 * 2 * PI) * sqrt (-2 * ln (1 - u2)))%R ∧
    z2 = (sin (u1 * 2 * PI) * sqrt (-2 * ln (1 - u2)))%R ∧
    (z1 * z1 + z2 * z2 = -2 * ln (1 - u2))%R.
Proof.
  exact (gauss_draws_in_pairs 0 0.08 0 0.08 (mkMT (replicate 624 0%Z) 624 None) eq_refl).
Defined.

Lemma swap_Permutation {A} (arr : list A) i r : swap arr i r ≡ₚ arr.
Proof.
  unfold swap. destruct (arr !! i) as [t|] eqn:Hi, (arr !! r) as [x|] eqn:Hr; try done.
  by apply Permutation_insert_swap.
Qed.

Lemma shuffle_from_Permutation {A} fuel count : ∀ (arr arr' : list A) g g',
  shuffle_from fuel count arr g = Ok (arr', g') → arr' ≡ₚ arr.
Proof.
  induction count as [|count IH]; intros arr arr' g g' H; cbn [shuffle_from] in H.
  - by injection H as <- _.
  - unfold bind in H.
    destruct (shuffle_draw fuel (S count) _ g) as [[r g1]|e]; [|done].
    rewrite (IH _ _ _ _ H). apply swap_Permutation.
Qed.

(** X9. Whenever [shuffle] returns, the array it leaves is a permutation of
    the array it was given: every step exchanges two elements. On an array
    of at most one element it returns at once, drawing nothing. *)
Theorem shuffle_permutes {A} (fuel : nat) (arr arr' : list A) (g g' : MersenneTwister) :
  shuffle fuel arr g = Ok (arr', g') →
  arr' ≡ₚ arr ∧ length arr' = length arr ∧ (length arr ≤ 1 → arr' = arr ∧ g' = g).
Proof.
  intros H. pose proof (shuffle_from_Permutation _ _ _ _ _ _ H) as Hp.
  split; [done|]. split; [by rewrite Hp|].
  intros Hlen. unfold shuffle in H.
  replace (length arr - 1) with 0 in H by lia. by injection H as <- <-.
Qed.

(** The names [1 .. 5] shuffled by the generator seeded with 42. *)
Lemma shuffle_permutes_witness :
  ∃ arr' g',
    shuffle 64 [1; 2; 3; 4; 5] (MersenneTwister_new 42) = Ok (arr', g') ∧
    arr' ≡ₚ [1; 2; 3; 4; 5] ∧ length arr' = length [1; 2; 3; 4; 5] ∧
    (length [1; 2; 3; 4; 5] ≤ 1 → arr' = [1; 2; 3; 4; 5] ∧ g' = MersenneTwister_new 42).
Proof.
  destruct (shuffle 64 [1; 2; 3; 4; 5] (MersenneTwister_new 42)) as [[arr' g']|e] eqn:H.
  - exists arr', g'. split; [reflexivity|].
    exact (shuffle_permutes 64 [1; 2; 3; 4; 5] arr' (MersenneTwister_new 42) g' H).
  - exfalso. vm_compute in H. discriminate H.
Defined.

(** *** [choices] *)

Lemma choices_search_inv fuel x cum : ∀ lo hi,
  lo ≤ hi → hi - lo ≤ fuel →
  js_lt x (cum !! hi) = true →
  (lo = 0 ∨ js_lt x (cum !! (lo - 1)) = false) →
  js_lt x (cum !! choices_search fuel x cum lo hi) = true ∧
  (choices_search fuel x cum lo hi = 0 ∨
   js_lt x (cum !! (choices_search fuel x cum lo hi - 1)) = false).
Proof.
  induction fuel as [|fuel IH]; intros lo hi Hle Hfuel Hhi Hlo; cbn [choices_search].
  - replace lo with hi by lia. split; [done|]. by replace hi with lo by lia.
  - case_decide as Hlt.
    + pose proof (Nat.div_mod (lo + hi) 2 ltac:(lia)).
      pose proof (Nat.mod_upper_bound (lo + hi) 2 ltac:(lia)).
      destruct (js_lt x (cum !! ((lo + hi) / 2))) eqn:Hmid.
      * apply IH; [lia|lia|done|done].
      * apply IH; [lia|lia|done|]. right.
        by replace ((lo + hi) / 2 + 1 - 1) with ((lo + hi) / 2) by lia.
    + replace lo with hi by lia. split; [done|]. by replace hi with lo by lia.
Qed.

Lemma cum_from_lookup ws : ∀ prev j w,
  ws !! j = Some w →
  cum_from prev ws !! j =
    Some (match j with
          | 0 => prev
          | S j' => default 0%R (cum_from prev ws !! j')
          end + w)%R.
Proof.
  induction ws as [|w0 ws IH]; intros prev j w Hj; [done|].
  destruct j as [|j]; cbn [cum_from]; [by injection Hj as ->|].
  cbn [lookup list_lookup] in Hj |- *. change (ws !! j = Some w) in Hj.
  change ((?a :: ?l) !! S ?i) with (l !! i).
  rewrite (IH _ _ _ Hj). destruct j as [|j]; [done|].
  change ((?a :: ?l) !! S ?i) with (l !! i). done.
Qed.

Lemma cum_of_lookup ws j w :
  ws !! j = Some w →
  cum_of ws !! j =
    Some (match j with
          | 0 => 0
          | S j' => default 0%R (cum_of ws !! j')
          end + w)%R.
Proof.
  destruct ws as [|w0 ws]; [done|]. intros Hj. cbn [cum_of].
  destruct j as [|j]; [injection Hj as ->; cbn; f_equal; lra|].
  change ((?a :: ?l) !! S ?i) with (l !! i) in *.
  rewrite (cum_from_lookup _ _ _ _ Hj). destruct j as [|j]; [done|].
  change ((?a :: ?l) !! S ?i) with (l !! i). done.
Qed.

Lemma last_cum_from ws : ∀ c, last (c :: cum_from c ws) = Some (foldl Rplus c ws).
Proof.
  induction ws as [|w ws IH]; intros c; [done|].
  cbn [cum_from foldl]. rewrite <- IH. done.
Qed.

Lemma last_cum_of ws : ws ≠ [] → last (cum_of ws) = Some (sum_left ws).
Proof. destruct ws as [|w ws]; [done|]. intros _. apply last_cum_from. Qed.

(** X10. When the weights, added from the left, have a positive sum,
    [choices] returns the element of the population at an index whose own
    weight is positive: an entry of weight 0 is never drawn. (The claim on
    weights that add up to 0 is about the other case.) *)
Theorem choices_picks_positive_weight {A} (population : list A) (weights : list R)
    (this : MersenneTwister) :
  (0 < sum_left weights)%R →
  ∃ lo w this',
    choices population weights this = Ok (population !! lo, this') ∧
    weights !! lo = Some w ∧ (0 < w)%R.
Proof.
  intros Hsum.
  assert (weights ≠ []) as Hne by (intros ->; cbn in Hsum; lra).
  unfold choices, bind.
  destruct (random_range this) as (k & this' & Hr & _ & _).
  pose proof (random_unit _ _ _ Hr) as Hu. rewrite Hr.
  set (r := (IZR k / 9007199254740992)%R) in *.
  rewrite (last_cum_of _ Hne). cbn [fmap option_fmap option_map].
  set (x := Some (r * sum_left weights)%R).
  set (cum := cum_of weights).
  assert (length cum = length weights) as Hlen by apply cum_of_length.
  assert (0 < length weights) as Hpos by (destruct weights; [done|cbn; lia]).
  assert (cum !! (length cum - 1) = Some (sum_left weights)) as Hlast.
  { replace (length cum - 1) with (Init.Nat.pred (length cum)) by lia.
    rewrite <- last_lookup. by apply last_cum_of. }
  destruct (choices_search_inv (length cum) x cum 0 (length cum - 1)) as [Hhit Hprev];
    [lia|lia| |by left|].
  { rewrite Hlast. cbn [js_lt x]. apply bool_decide_eq_true. nra. }
  pose proof (choices_search_bounds (length cum) x cum 0 (length cum - 1) ltac:(lia)) as Hb.
  set (lo := choices_search (length cum) x cum 0 (length cum - 1)) in *.
  destruct (lookup_lt_is_Some_2 weights lo) as [w Hw]; [lia|].
  exists lo, w, this'. split; [reflexivity|]. split; [done|].
  pose proof (cum_of_lookup _ _ _ Hw) as Hc. fold cum in Hc.
  rewrite Hc in Hhit. cbn [js_lt x] in Hhit. apply bool_decide_eq_true in Hhit.
  destruct lo as [|j].
  - assert (0 <= r * sum_left weights)%R by nra. lra.
  - destruct Hprev as [?|Hprev]; [done|].
    replace (S j - 1) with j in Hprev by lia.
    destruct (lookup_lt_is_Some_2 cum j) as [c Hcj]; [lia|].
    rewrite Hcj in Hprev, Hhit. cbn [js_lt x default] in Hprev, Hhit.
    apply bool_decide_eq_false in Hprev. unfold Datatypes.id in Hhit. lra.
Qed.

Lemma choices_picks_positive_weight_witness :
  ∃ lo w this',
    choices [10; 11; 12] [0; 1; 0]%R (MersenneTwister_new 42) =
      Ok ([10; 11; 12] !! lo, this') ∧
    [0; 1; 0]%R !! lo = Some w ∧ (0 < w)%R.
Proof.
  apply (choices_picks_positive_weight [10; 11; 12] [0; 1; 0]%R (MersenneTwister_new 42)).
  cbn. lra.
Defined.

(** X11. Seeds that are not positive all give the generator of seed 0: the
    loop that splits the seed into 32-bit words runs only while the value is
    positive, and an empty key is replaced by the key [0]. So
    [new GPTModel(-1)] is [new GPTModel(0)]. *)
Theorem seed_not_positive_is_seed_zero (n : Z) (this : MersenneTwister) :
  (n ≤ 0)%Z →
  key_of_seed n = [0%Z] ∧ seed n this = seed 0 this ∧
  MersenneTwister_new n = MersenneTwister_new 0.
Proof.
  intros Hn.
  assert (key_of_seed n = [0%Z]) as Hkey.
  { unfold key_of_seed. cbn [seed_key]. by rewrite decide_False by lia. }
  assert (∀ g, seed n g = seed 0 g) as Hseed.
  { intros g. unfold seed. rewrite Hkey. reflexivity. }
  split; [done|]. split; [apply Hseed|]. apply Hseed.
Qed.

Lemma seed_not_positive_is_seed_zero_witness :
  key_of_seed (-1) = [0%Z] ∧
  seed (-1) (mkMT (replicate 624 0%Z) 625 None) = seed 0 (mkMT (replicate 624 0%Z) 625 None) ∧
  MersenneTwister_new (-1) = MersenneTwister_new 0.
Proof.
  apply (seed_not_positive_is_seed_zero (-1) (mkMT (replicate 624 0%Z) 625 None)). lia.
Defined.

(** ** [src/lib/gpt.ts]: [createTokenizer] *)

Lemma units_ltb_irrefl a : units_ltb a a = false.
Proof.
  induction a as [|x a IH]; [done|]. cbn [units_ltb].
  by rewrite N.ltb_irrefl.
Qed.

Lemma units_ltb_trans a : ∀ b c,
  units_ltb a b = true → units_ltb b c = true → units_ltb a c = true.
Proof.
  induction a as [|x a IH]; intros [|y b] [|z c] Hab Hbc; try done.
  cbn [units_ltb] in *.
  destruct (N.ltb_spec x y), (N.ltb_spec y x), (N.ltb_spec y z), (N.ltb_spec z y),
           (N.ltb_spec x z), (N.ltb_spec z x); try done; try lia.
  by apply (IH b c).
Qed.

Lemma units_ltb_total a : ∀ b,
  units_ltb a b = false → units_ltb b a = false → a = b.
Proof.
  induction a as [|x a IH]; intros [|y b] Hab Hba; try done.
  cbn [units_ltb] in *.
  destruct (N.ltb_spec x y), (N.ltb_spec y x); try done; try lia.
  f_equal; [lia|by apply IH].
Qed.

Lemma utf16_inj c d : utf16 c = utf16 d → c = d.
Proof.
  unfold utf16. destruct (decide (c < 65536)%N) as [Hc|Hc], (decide (d < 65536)%N) as [Hd|Hd];
    intros Heq; simplify_eq; [done|].
  assert (c - 65536 = d - 65536)%N; [|lia].
  rewrite (N.div_mod (c - 65536) 1024), (N.div_mod (d - 65536) 1024) by done.
  assert ((c - 65536) / 1024 = (d - 65536) / 1024)%N as -> by lia.
  assert ((c - 65536) mod 1024 = (d - 65536) mod 1024)%N as -> by lia.
  done.
Qed.

Lemma char_ltb_irrefl c : char_ltb c c = false.
Proof. apply units_ltb_irrefl. Qed.

Lemma char_ltb_trans c d e :
  char_ltb c d = true → char_ltb d e = true → char_ltb c e = true.
Proof. apply units_ltb_trans. Qed.

Lemma char_ltb_total c d : char_ltb c d = false → char_ltb d c = false → c = d.
Proof. intros H1 H2. apply utf16_inj. by apply units_ltb_total. Qed.

Lemma char_ltb_asym c d : char_ltb c d = true → char_ltb d c = false.
Proof.
  intros H. destruct (char_ltb d c) eqn:H'; [|done].
  by rewrite <- (char_ltb_irrefl c), <- (char_ltb_trans c d c H H').
Qed.

Lemma sort_insert_sorted c l :
  StronglySorted (λ a b, char_ltb b a = false) l →
  StronglySorted (λ a b, char_ltb b a = false) (sort_insert c l).
Proof.
  induction 1 as [|d l Hs IH Hd]; cbn [sort_insert].
  - repeat constructor.
  - destruct (char_ltb c d) eqn:Hcd.
    + constructor; [by constructor|]. constructor; [by apply char_ltb_asym|].
      eapply Forall_impl; [exact Hd|]. cbn. intros e Hde.
      destruct (char_ltb e c) eqn:Hec; [|done].
      by rewrite <- Hde, (char_ltb_trans e c d).
    + constructor; [done|]. rewrite sort_insert_perm. by constructor.
Qed.

Lemma sort_sorted l : StronglySorted (λ a b, char_ltb b a = false) (sort l).
Proof.
  induction l as [|c l IH]; cbn [sort foldr]; [constructor|].
  by apply sort_insert_sorted.
Qed.

Lemma sorted_NoDup_strict l :
  StronglySorted (λ a b, char_ltb b a = false) l → NoDup l →
  StronglySorted (λ a b, char_ltb a b = true) l.
Proof.
  induction 1 as [|c l Hs IH Hc]; intros Hnd; [constructor|].
  apply NoDup_cons in Hnd as [Hin Hnd]. constructor; [by apply IH|].
  rewrite Forall_forall in *. intros e He.
  destruct (char_ltb c e) eqn:Hce; [done|].
  assert (c = e) as -> by (apply char_ltb_total; [done|by apply Hc]). done.
Qed.

Lemma strict_sorted_unique l1 : ∀ l2,
  StronglySorted (λ a b, char_ltb a b = true) l1 →
  StronglySorted (λ a b, char_ltb a b = true) l2 →
  (∀ x, x ∈ l1 ↔ x ∈ l2) → l1 = l2.
Proof.
  induction l1 as [|a l1 IH]; intros l2 H1 H2 Heq.
  - destruct l2 as [|b l2]; [done|].
    exfalso. apply (elem_of_nil b). apply Heq. by left.
  - destruct l2 as [|b l2].
    { exfalso. apply (elem_of_nil a). apply Heq. by left. }
    apply StronglySorted_inv in H1 as [H1 Ha]. apply StronglySorted_inv in H2 as [H2 Hb].
    rewrite Forall_forall in Ha, Hb.
    assert (a = b) as ->.
    { destruct (decide (a = b)) as [|Hne]; [done|]. exfalso.
      assert (a ∈ l2) as Ha2.
      { assert (a ∈ b :: l2) as Hin by (apply Heq; by left).
        apply elem_of_cons in Hin as [?|?]; done. }
      assert (b ∈ l1) as Hb1.
      { assert (b ∈ a :: l1) as Hin by (apply Heq; by left).
        apply elem_of_cons in Hin as [?|?]; done. }
      pose proof (char_ltb_trans a b a (Ha b Hb1) (Hb a Ha2)) as Hc.
      by rewrite char_ltb_irrefl in Hc. }
    f_equal. apply IH; [done..|]. intros x. split; intros Hx.
    + assert (x ∈ b :: l2) as Hin by (apply Heq; by right).
      apply elem_of_cons in Hin as [->|?]; [|done].
      specialize (Ha b Hx). by rewrite char_ltb_irrefl in Ha.
    + assert (x ∈ b :: l1) as Hin by (apply Heq; by right).
      apply elem_of_cons in Hin as [->|?]; [|done].
      specialize (Hb b Hx). by rewrite char_ltb_irrefl in Hb.
Qed.

Lemma uchars_strict docs :
  StronglySorted (λ a b, char_ltb a b = true) (uchars (createTokenizer docs)).
Proof.
  apply sorted_NoDup_strict; [apply sort_sorted|apply uchars_NoDup].
Qed.

Lemma charToId_uchars docs i ch :
  uchars (createTokenizer docs) !! i = Some ch →
  charToId (createTokenizer docs) !! ch = Some i.
Proof.
  intros Hi.
  destruct (charToId_is_Some docs ch) as [j Hj]; [by eapply list_elem_of_lookup_2|].
  rewrite Hj. f_equal. apply charToId_Some in Hj.
  by eapply NoDup_lookup; [apply uchars_NoDup|..].
Qed.

(** X12. The vocabulary [createTokenizer] builds is canonical: [uchars] holds
    exactly the characters of the corpus, each once, in strictly increasing
    order of their UTF-16 code units; the id of [uchars[i]] is [i]; the
    marker is the next id, [uchars.length], and [vocabSize] is one more. *)
Theorem vocabulary_is_sorted_and_indexed (docs : list (list N)) :
  let tk := createTokenizer docs in
  StronglySorted (λ a b, char_ltb a b = true) (uchars tk) ∧
  NoDup (uchars tk) ∧
  (∀ ch, ch ∈ uchars tk ↔ ∃ doc, doc ∈ docs ∧ ch ∈ doc) ∧
  (∀ i ch, uchars tk !! i = Some ch ↔ charToId tk !! ch = Some i) ∧
  BOS tk = length (uchars tk) ∧ vocabSize tk = BOS tk + 1.
Proof.
  cbn zeta. split_and!.
  - apply uchars_strict.
  - apply uchars_NoDup.
  - apply uchars_elem.
  - intros i ch. split; [apply charToId_uchars|apply charToId_Some].
  - done.
  - done.
Qed.

(** X13. The tokenizer depends only on the set of characters of the corpus,
    not on the order of the documents or on how often a character occurs: two
    corpora with the same characters get the same vocabulary, the same ids
    and the same marker. *)
Theorem tokenizer_depends_on_characters_only (docs docs' : list (list N)) :
  (∀ ch, (∃ doc, doc ∈ docs ∧ ch ∈ doc) ↔ (∃ doc, doc ∈ docs' ∧ ch ∈ doc)) →
  createTokenizer docs = createTokenizer docs'.
Proof.
  intros Hsame.
  assert (uchars (createTokenizer docs) = uchars (createTokenizer docs')) as Hu.
  { apply strict_sorted_unique; [apply uchars_strict..|].
    intros x. by rewrite !uchars_elem. }
  unfold createTokenizer in Hu |- *. cbn [uchars] in Hu. cbn zeta. by rewrite Hu.
Qed.

Lemma tokenizer_depends_on_characters_only_witness :
  createTokenizer [[97; 98]%N; [98]%N] = createTokenizer [[98; 98]%N; [97]%N].
Proof.
  apply (tokenizer_depends_on_characters_only [[97; 98]%N; [98]%N] [[98; 98]%N; [97]%N]).
  intros ch. split; intros (doc & Hd & Hc);
    repeat (apply elem_of_cons in Hd as [->|Hd]); try (by apply elem_of_nil in Hd);
    repeat (apply elem_of_cons in Hc as [->|Hc]); try (by apply elem_of_nil in Hc);
    first [ exists [97%N]; split; by repeat constructor
          | exists [98; 98]%N; split; by repeat constructor
          | exists [97; 98]%N; split; by repeat constructor ].
Defined.

Lemma charToId_cases docs ch :
  (ch ∈ uchars (createTokenizer docs) ∧
   ∃ i, charToId (createTokenizer docs) !! ch = Some i ∧
        uchars (createTokenizer docs) !! i = Some ch ∧ i ≠ BOS (createTokenizer docs)) ∨
  ((ch ∉ uchars (createTokenizer docs)) ∧ charToId (createTokenizer docs) !! ch = None).
Proof.
  destruct (decide (ch ∈ uchars (createTokenizer docs))) as [Hin|Hout].
  - left. split; [done|]. destruct (charToId_is_Some docs ch Hin) as [i Hi].
    exists i. pose proof (charToId_Some docs ch i Hi) as Hu. split_and!; [done..|].
    apply lookup_lt_Some in Hu. cbn [createTokenizer BOS uchars] in *. lia.
  - right. split; [done|]. by apply charToId_None.
Qed.

(** X14. For every string (the list of its characters, in which no lone high
    surrogate is followed by a lone low one), whatever its characters:
    [encode] returns two ids more than the string has characters; [decode]
    of it is the string without the characters that are not in the
    vocabulary (provided that dropping them brings no lone high surrogate in
    front of a lone low one, which [join] would pair); and [tokenToChar]
    shows the encoded string as
    ["<BOS>"], then each character of the vocabulary as itself and each
    other character as ["?"], then ["<BOS>"]. *)
Theorem encode_decode_any_string (docs : list (list N)) (s : list N) :
  well_paired s = true →
  well_paired (filter (λ ch, ch ∈ uchars (createTokenizer docs)) s) = true →
  let tk := createTokenizer docs in
  ∃ toks,
    encode tk s = Ok toks ∧
    length toks = length s + 2 ∧
    decode tk toks = Ok (filter (λ ch, ch ∈ uchars tk) s) ∧
    map (tokenToChar tk) toks =
      [str_BOS] ++
      map (λ ch, if decide (ch ∈ uchars tk) then [ch] else str_question) s ++
      [str_BOS].
Proof.
  intros _ _. cbn zeta. eexists. split; [reflexivity|]. split_and!.
  - rewrite !length_app, length_map. cbn. lia.
  - unfold decode. f_equal. cbn [app].
    rewrite filter_cons_False by (intros H; by apply H).
    induction s as [|ch s IH]; cbn [map app].
    + rewrite filter_cons_False by (intros H; by apply H). done.
    + destruct (charToId_cases docs ch) as [(Hin & i & Hi & Hu & Hne)|[Hout Hi]];
        rewrite Hi.
      * rewrite filter_cons_True by congruence. cbn [map concat uchars_at].
        rewrite Hu, IH. by rewrite (filter_cons_True _ ch) by done.
      * rewrite filter_cons_True by congruence. cbn [map concat uchars_at].
        rewrite IH. by rewrite (filter_cons_False _ ch) by done.
  - cbn [app map]. unfold tokenToChar at 1. rewrite decide_True by done. f_equal.
    rewrite map_app. cbn [map]. unfold tokenToChar at 2. rewrite decide_True by done.
    f_equal. rewrite map_map. apply map_ext. intros ch.
    destruct (charToId_cases docs ch) as [(Hin & i & Hi & Hu & Hne)|[Hout Hi]];
      rewrite Hi; unfold tokenToChar.
    + rewrite decide_False by congruence. cbn [uchars_at]. rewrite Hu.
      by rewrite decide_True.
    + rewrite decide_False by congruence. cbn [uchars_at]. by rewrite decide_False.
Qed.

(** The vocabulary of ["ab"] and the string ["azb"]: [z] is dropped. *)
Lemma encode_decode_any_string_witness :
  ∃ toks,
    encode (createTokenizer [[97; 98]%N]) [97; 122; 98]%N = Ok toks ∧
    length toks = length [97; 122; 98]%N + 2 ∧
    decode (createTokenizer [[97; 98]%N]) toks =
      Ok (filter (λ ch, ch ∈ uchars (createTokenizer [[97; 98]%N])) [97; 122; 98]%N) ∧
    map (tokenToChar (createTokenizer [[97; 98]%N])) toks =
      [str_BOS] ++
      map (λ ch, if decide (ch ∈ uchars (createTokenizer [[97; 98]%N]))
                 then [ch] else str_question) [97; 122; 98]%N ++
      [str_BOS].
Proof.
  apply (encode_decode_any_string [[97; 98]%N] [97; 122; 98]%N);
    vm_compute; reflexivity.
Defined.

(** ** [src/lib/gpt.ts]: [softmax] and [rmsnorm] *)

Lemma Rsum_map_exp_shift (ds : list R) (c : R) :
  Rsum (map (λ d, Rtrigo_def.exp (d + c)) ds) =
  (Rtrigo_def.exp c * Rsum (map Rtrigo_def.exp ds))%R.
Proof.
  induction ds as [|d ds IH]; cbn [map]; rewrite ?Rsum_cons, ?Rsum_nil; [lra|].
  rewrite IH, exp_plus. lra.
Qed.

Lemma Rsum_map_exp_pos (ds : list R) : ds ≠ [] → (0 < Rsum (map Rtrigo_def.exp ds))%R.
Proof.
  destruct ds as [|d ds]; [done|]. intros _. cbn [map]. rewrite Rsum_cons.
  pose proof (exp_pos d).
  assert (0 <= Rsum (map Rtrigo_def.exp ds))%R; [|lra].
  apply Rsum_nonneg. intros x Hx. apply list_elem_of_fmap in Hx as (y & -> & _).
  apply Rlt_le, exp_pos.
Qed.

Lemma softmax_data_textbook ds :
  ds ≠ [] →
  softmax_data ds =
    map (λ d, Rtrigo_def.exp d / Rsum (map Rtrigo_def.exp ds))%R ds.
Proof.
  intros Hne. unfold softmax_data, softmax_exps. rewrite map_map.
  apply map_ext. intros d.
  pose proof (softmax_total_ge_1 ds Hne) as Hge.
  rewrite js_pow_inv by lra.
  unfold softmax_total, softmax_exps in *. rewrite sum_left_Rsum in *.
  rewrite Rsum_map_exp_shift in *. rewrite exp_plus.
  pose proof (Rsum_map_exp_pos ds Hne). pose proof (exp_pos (- Math_max ds)).
  field. split; lra.
Qed.

(** X15. Subtracting the largest logit changes nothing in the result: for
    every non-empty list of logits, [softmax] returns nodes whose [data] are
    [exp(x_i)] divided by the sum of all [exp(x_j)], the logits' own [data]
    with no shift, and it changes no existing object. *)
Theorem softmax_is_exp_over_sum (s : Store) (logits : list nat) :
  logits ≠ [] → Forall (valid s) logits →
  ∃ outs s',
    softmax logits s = Ok (outs, s') ∧ ext s s' ∧
    map (dat s') outs =
      map (λ x, Rtrigo_def.exp (dat s x) /
                Rsum (map (λ y, Rtrigo_def.exp (dat s y)) logits))%R logits.
Proof.
  intros Hne Hv.
  destruct (total_softmax logits s Hne Hv) as (outs & s' & Hrun & Hext & Hout).
  exists outs, s'. split; [done|]. split; [done|].
  destruct (Forall2_has_data_dat _ _ _ Hout) as [-> _].
  rewrite softmax_data_textbook by (by destruct logits).
  by rewrite !map_map.
Qed.

Lemma softmax_is_exp_over_sum_witness :
  ∃ outs s',
    softmax [0; 1] demo_store = Ok (outs, s') ∧ ext demo_store s' ∧
    map (dat s') outs =
      map (λ x, Rtrigo_def.exp (dat demo_store x) /
                Rsum (map (λ y, Rtrigo_def.exp (dat demo_store y)) [0; 1]%nat))%R [0; 1].
Proof.
  apply (softmax_is_exp_over_sum demo_store [0; 1]).
  - discriminate.
  - repeat constructor; eexists; reflexivity.
Defined.

Lemma total_mapM_data {A} (f : A → M nat) (g : A → R) (l : list A) s :
  (∀ a s1, a ∈ l → ext s s1 → total (f a) s1 (λ b s', has_data s' b (g a))) →
  total (mapM f l) s (λ bs s', Forall2 (has_data s') bs (map g l)).
Proof.
  intros Hf. eapply total_mono.
  - apply (total_mapM f l s (λ a b s', has_data s' b (g a))); [|done].
    intros a b s1 s2 Hd He. by eapply has_data_ext.
  - intros bs s' _ H. cbn beta in H.
    change (map g l) with (g <$> l). apply Forall2_fmap_r, Forall2_flip.
    eapply Forall2_impl; [exact H|]. done.
Qed.

Lemma total_rmsnorm_data x s :
  x ≠ [] → Forall (valid s) x →
  total (rmsnorm x) s (λ y s', Forall2 (has_data s') y (rmsnorm_data (map (dat s) x))).
Proof.
  intros Hne Hv. unfold rmsnorm. rewrite Forall_forall in Hv.
  eapply total_bind.
  { apply (total_mapM_data _ (λ xi, dat s xi * dat s xi)%R x s). intros xi s1 Hin He.
    assert (has_data s1 xi (dat s xi)) as Hd.
    { eapply has_data_ext; [done|]. apply valid_has_data. by apply Hv. }
    by apply total_mul. }
  intros sq s1 He1 Hsq. cbn beta in *.
  eapply total_bind.
  { apply (total_vsum sq s1 (map (λ xi, dat s xi * dat s xi)%R x)); [|exact Hsq].
    intros ->. apply Forall2_length in Hsq. rewrite length_map in Hsq.
    destruct x; [done|cbn in Hsq; lia]. }
  intros sm s2 He2 Hsm. cbn beta in *.
  eapply total_bind; [eapply total_mul; [exact Hsm|reflexivity]|].
  intros ms s3 He3 Hms. cbn beta in *.
  eapply total_bind; [eapply total_add; [exact Hms|reflexivity]|].
  intros a s4 He4 Ha. cbn beta in *.
  eapply total_bind; [by apply (total_pow a _ s4 _ Ha)|].
  intros sc s5 He5 Hsc. cbn beta in *.
  eapply total_mono.
  - apply (total_mapM_data _
             (λ xi, dat s xi *
                    js_pow (sum_left (map (λ xi, dat s xi * dat s xi) x) *
                            (1 / INR (length x)) + 1e-5) (-0.5))%R x s5).
    intros xi s6 Hin He6. apply total_mul.
    + apply (has_data_ext s s6); [ext_tac|]. apply valid_has_data. by apply Hv.
    + cbn [operand_data]. by eapply has_data_ext.
  - intros y s' _ Hy. cbn beta in Hy. unfold rmsnorm_data.
    rewrite !map_map, length_map. exact Hy.
Qed.

Lemma js_pow_inv_sqrt a : (0 < a)%R → js_pow a (-0.5) = (/ sqrt a)%R.
Proof.
  intros Ha. unfold js_pow.
  destruct (Req_dec_T (-0.5) 0) as [?|_]; [lra|].
  destruct (Rlt_dec 0 a) as [_|?]; [|lra].
  replace (-0.5)%R with (- / 2)%R by lra.
  by rewrite Rpower_Ropp, Rpower_sqrt.
Qed.

Lemma Rsum_squares_nonneg (ds : list R) : (0 <= Rsum (map (λ d, d * d) ds))%R.
Proof.
  apply Rsum_nonneg. intros x Hx. apply list_elem_of_fmap in Hx as (d & -> & _). nra.
Qed.

(** X16. [rmsnorm] of a non-empty vector of objects returns, without changing
    an existing object, the vector divided by the square root of (the mean
    of its squares plus 1e-5): there is no centering and no learned scale,
    and the squares of the result add up to [n * ms / (ms + 1e-5)], less
    than the length [n] of the vector. *)
Theorem rmsnorm_divides_by_root_mean_square (s : Store) (x : list nat) :
  x ≠ [] → Forall (valid s) x →
  ∃ y s' ms,
    rmsnorm x s = Ok (y, s') ∧ ext s s' ∧
    ms = (Rsum (map (λ xi, dat s xi * dat s xi) x) / INR (length x))%R ∧
    map (dat s') y = map (λ xi, dat s xi / sqrt (ms + 1e-5))%R x ∧
    Rsum (map (λ yi, dat s' yi * dat s' yi)%R y) =
      (INR (length x) * ms / (ms + 1e-5))%R ∧
    (Rsum (map (λ yi, dat s' yi * dat s' yi)%R y) < INR (length x))%R.
Proof.
  intros Hne Hv.
  destruct (total_rmsnorm_data x s Hne Hv) as (y & s' & Hrun & Hext & Hy).
  destruct (Forall2_has_data_dat _ _ _ Hy) as [Hmap _].
  set (ms := (Rsum (map (λ xi, dat s xi * dat s xi) x) / INR (length x))%R).
  exists y, s', ms. split; [done|]. split; [done|]. split; [done|].
  assert (0 < INR (length x))%R as Hn.
  { apply lt_0_INR. destruct x; [done|cbn; lia]. }
  assert (0 <= Rsum (map (λ xi, dat s xi * dat s xi) x))%R as Hsq.
  { rewrite <- (map_map (dat s) (λ d, d * d)%R). apply Rsum_squares_nonneg. }
  assert (0 <= ms)%R as Hms.
  { unfold ms. apply Rmult_le_pos; [done|]. apply Rlt_le, Rinv_0_lt_compat. done. }
  assert (map (dat s') y = map (λ xi, dat s xi / sqrt (ms + 1e-5))%R x) as Hform.
  { rewrite Hmap. unfold rmsnorm_data. rewrite map_map, length_map.
    apply map_ext. intros xi. rewrite sum_left_Rsum, map_map.
    replace (Rsum (map (λ x0, dat s x0 * dat s x0) x) * (1 / INR (length x)))%R
      with ms by (unfold ms, Rdiv; ring).
    rewrite js_pow_inv_sqrt by lra. done. }
  split; [done|].
  assert (Rsum (map (λ yi, dat s' yi * dat s' yi)%R y) =
          (INR (length x) * ms / (ms + 1e-5))%R) as Hsum.
  { rewrite <- (map_map (dat s') (λ d, d * d)%R), Hform, map_map.
    pose proof (sqrt_lt_R0 (ms + 1e-5) ltac:(lra)) as Hroot.
    pose proof (sqrt_sqrt (ms + 1e-5) ltac:(lra)) as Hrr.
    rewrite (Rsum_map_ext _ (λ xi, / (ms + 1e-5) * (dat s xi * dat s xi))%R).
    - rewrite Rsum_map_scale. unfold ms. field. split; [lra|].
      fold ms. lra.
    - intros xi _. set (r := sqrt (ms + 1e-5)) in *. rewrite <- Hrr. field. lra. }
  split; [done|]. rewrite Hsum.
  apply (Rmult_lt_reg_r (ms + 1e-5)); [lra|].
  unfold Rdiv. rewrite Rmult_assoc, Rinv_l by lra. nra.
Qed.

Lemma rmsnorm_divides_by_root_mean_square_witness :
  ∃ y s' ms,
    rmsnorm [0; 1] demo_store = Ok (y, s') ∧ ext demo_store s' ∧
    ms = (Rsum (map (λ xi, dat demo_store xi * dat demo_store xi) [0; 1]%nat) /
          INR (length [0; 1]%nat))%R ∧
    map (dat s') y = map (λ xi, dat demo_store xi / sqrt (ms + 1e-5))%R [0; 1] ∧
    Rsum (map (λ yi, dat s' yi * dat s' yi)%R y) =
      (INR (length [0; 1]%nat) * ms / (ms + 1e-5))%R ∧
    (Rsum (map (λ yi, dat s' yi * dat s' yi)%R y) < INR (length [0; 1]%nat))%R.
Proof.
  apply (rmsnorm_divides_by_root_mean_square demo_store [0; 1]).
  - discriminate.
  - repeat constructor; eexists; reflexivity.
Defined.

(** X17. [softmax], [rmsnorm] and [linear] throw only on empty input. On
    nodes of the store, [softmax] and [rmsnorm] throw a [TypeError] exactly
    when the vector is empty (their [vsum] reduces an empty array), and
    [linear] throws exactly when the matrix has rows and they are empty; in
    every other case they return. *)
Theorem vector_operations_throw_only_on_empty (s : Store) (x : list nat)
    (w : list (list nat)) (rows n : nat) :
  vec_ok s n x → mat_ok s rows n w →
  (softmax x s = Stop TypeError ↔ n = 0) ∧
  (rmsnorm x s = Stop TypeError ↔ n = 0) ∧
  (linear x w s = Stop TypeError ↔ n = 0 ∧ 0 < rows) ∧
  (0 < n → ∃ a b c sa sb sc,
     softmax x s = Ok (a, sa) ∧ rmsnorm x s = Ok (b, sb) ∧ linear x w s = Ok (c, sc)).
Proof.
  intros Hx Hw. destruct (decide (n = 0)) as [->|Hn].
  - destruct Hx as [Hlx _]. apply nil_length_inv in Hlx as ->.
    split_and!; [done|done| |lia].
    destruct Hw as [Hlw Hrows]. destruct w as [|wo w].
    + cbn in Hlw. subst rows. split; [discriminate|lia].
    + apply Forall_cons in Hrows as [[Hwo _] _]. apply nil_length_inv in Hwo as ->.
      cbn in Hlw. split; [intros _; lia|done].
  - assert (0 < n) as Hpos by lia.
    destruct (total_softmax x s) as (a & sa & Ha & _).
    { intros ->. destruct Hx as [Hlx _]. cbn in Hlx. lia. }
    { by destruct Hx. }
    destruct (total_rmsnorm x n s Hpos Hx) as (b & sb & Hb & _).
    destruct (total_linear x w rows n s Hpos Hx Hw) as (c & sc & Hc & _).
    rewrite Ha, Hb, Hc. split_and!; try (split; [discriminate|lia]).
    intros _. by exists a, b, c, sa, sb, sc.
Qed.

(** The vector of the two leaves of the demo store, and the matrix with that
    one row. *)
Lemma vector_operations_throw_only_on_empty_witness :
  (softmax [0; 1] demo_store = Stop TypeError ↔ 2 = 0) ∧
  (rmsnorm [0; 1] demo_store = Stop TypeError ↔ 2 = 0) ∧
  (linear [0; 1] [[0; 1]] demo_store = Stop TypeError ↔ 2 = 0 ∧ 0 < 1) ∧
  (0 < 2 → ∃ a b c sa sb sc,
     softmax [0; 1] demo_store = Ok (a, sa) ∧ rmsnorm [0; 1] demo_store = Ok (b, sb) ∧
     linear [0; 1] [[0; 1]] demo_store = Ok (c, sc)).
Proof.
  assert (vec_ok demo_store 2 [0; 1]) as Hx.
  { split; [done|]. repeat constructor; eexists; reflexivity. }
  apply (vector_operations_throw_only_on_empty demo_store [0; 1] [[0; 1]] 1 2 Hx).
  split; [done|]. constructor; [exact Hx|constructor].
Defined.

(** ** [src/lib/gpt.ts]: [forward] outside the tables *)

(** X18. [forward] throws when the token is not a row of the token table
    ([undefined], as [encode] gives for an unknown character, or an id of
    [vocabSize] or more), and when the position is not a row of the position
    table ([blockSize] or more): the context cannot be longer than
    [blockSize]. It throws before it allocates any node. *)
Theorem forward_throws_outside_tables (this : GPTModel) (tokenId : option nat)
    (posId : nat) (keys values : list (list (list nat))) (s : Store) :
  model_ok s this →
  (∀ t, tokenId = Some t → cfg_vocabSize (config this) ≤ t) ∨
  blockSize (config this) ≤ posId →
  forward this tokenId posId keys values s = Stop TypeError.
Proof.
  intros (Hhd & Hsplit & _ & (wte & Hwte & Hwl & Hwv) & (wpe & Hwpe & Hpl & Hpv) & _) Hbad.
  unfold forward, bind. rewrite Hwte. cbn [defined ret]. rewrite Hwpe. cbn [defined ret].
  destruct (tokenId ≫= (wte !!.)) as [tokEmb|] eqn:Htok; [|done].
  destruct tokenId as [t|]; [|done]. cbn [mbind option_bind] in Htok.
  destruct Hbad as [Hbad|Hbad].
  { specialize (Hbad t eq_refl). apply lookup_lt_Some in Htok. lia. }
  rewrite (proj2 (lookup_ge_None wpe posId)) by lia. cbn [defined ret].
  assert (vec_ok s (nEmbd (config this)) tokEmb) as [Hlen _].
  { rewrite Forall_forall in Hwv. apply Hwv. by eapply list_elem_of_lookup_2. }
  destruct tokEmb as [|e tokEmb]; [|done].
  exfalso. cbn in Hlen. rewrite <- Hlen in Hhd.
  destruct (nHead (config this)); cbn in Hhd; lia.
Qed.

(** The model built from the corpus ["ab"] with seed 42, at position 16. *)
Lemma forward_throws_outside_tables_witness :
  ∃ this s,
    GPTModel_new [[97; 98]%N] 0 42 empty_store = Ok (this, s) ∧
    forward this (Some (BOS (tokenizer this))) 16
      (replicate (nLayer (config this)) []) (replicate (nLayer (config this)) []) s =
    Stop TypeError.
Proof.
  destruct (GPTModel_new_ok [[97; 98]%N] 0 42 [[97; 98]%N] (MersenneTwister_new 42)
              empty_store eq_refl) as (this & s & Hnew & _ & Hok & _ & _ & Hcfg & _).
  exists this, s. split; [exact Hnew|].
  apply (forward_throws_outside_tables this _ 16 _ _ s Hok).
  right. rewrite Hcfg. cbn. lia.
Defined.

(** ** [src/lib/gpt.ts]: the constructor *)

Lemma matrix_row_alloc nin std : ∀ rng s,
  ∃ gs rng',
    matrix_row nin std rng s =
      Ok ((seq (length (cells s)) nin, rng'),
          mkStore (cells s ++ map leaf gs) (module_gen s)) ∧
    length gs = nin.
Proof.
  induction nin as [|nin IH]; intros rng s; cbn [matrix_row].
  - exists [], rng. cbn [map seq]. rewrite app_nil_r. by destruct s.
  - destruct (gauss_Ok 0 std rng) as (g & rng1 & ->).
    unfold bind, new_Value.
    destruct (IH rng1 (mkStore (cells s ++ [Value_new g [] []]) (module_gen s)))
      as (gs & rng' & Hrun & Hlen).
    rewrite Hrun. cbn [cells module_gen fst snd ret].
    exists (g :: gs), rng'. split; [|cbn; lia].
    rewrite length_app, <- app_assoc. cbn [length map app seq].
    by rewrite Nat.add_1_r.
Qed.

Lemma matrix_alloc nout nin std : ∀ rng s,
  ∃ gs rng' rows,
    matrix nout nin std rng s =
      Ok ((rows, rng'), mkStore (cells s ++ map leaf gs) (module_gen s)) ∧
    length gs = nout * nin ∧
    concat rows = seq (length (cells s)) (nout * nin).
Proof.
  induction nout as [|nout IH]; intros rng s; cbn [matrix].
  - exists [], rng, []. cbn [map]. rewrite app_nil_r. by destruct s.
  - destruct (matrix_row_alloc nin std rng s) as (gs1 & rng1 & Hrow & Hl1).
    unfold bind. rewrite Hrow. cbn [fst snd].
    destruct (IH rng1 (mkStore (cells s ++ map leaf gs1) (module_gen s)))
      as (gs2 & rng2 & rows & Hrun & Hl2 & Hcat).
    rewrite Hrun. cbn [cells module_gen fst snd ret] in *.
    exists (gs1 ++ gs2), rng2, (seq (length (cells s)) nin :: rows). split_and!.
    + by rewrite map_app, app_assoc.
    + rewrite length_app. lia.
    + cbn [concat]. rewrite Hcat, length_app, length_map, Hl1.
      by rewrite <- seq_app.
Qed.

Lemma allocs_bind {A B} (m : M A) (k : A → M B) s
    (Q1 : A → list R → Prop) (Q : B → list R → Prop) :
  allocs m s Q1 →
  (∀ a gs, Q1 a gs →
     allocs (k a) (mkStore (cells s ++ map leaf gs) (module_gen s))
            (λ b gs2, Q b (gs ++ gs2))) →
  allocs (bind m k) s Q.
Proof.
  intros (a & gs & Hm & HQ1) Hk.
  destruct (Hk a gs HQ1) as (b & gs2 & Hka & HQ).
  exists b, (gs ++ gs2). split; [|done].
  unfold bind. rewrite Hm, Hka. cbn [cells module_gen].
  by rewrite map_app, app_assoc.
Qed.

Lemma allocs_ret {A} (a : A) s (Q : A → list R → Prop) : Q a [] → allocs (ret a) s Q.
Proof.
  intros HQ. exists a, []. split; [|done]. cbn [map]. rewrite app_nil_r. by destruct s.
Qed.

Lemma allocs_matrix nout nin std rng s :
  allocs (matrix nout nin std rng) s
    (λ r gs, length gs = nout * nin ∧
             concat r.1 = seq (length (cells s)) (nout * nin)).
Proof.
  destruct (matrix_alloc nout nin std rng s) as (gs & rng' & rows & H & Hl & Hc).
  by exists (rows, rng'), gs.
Qed.

Lemma GPTModel_new_alloc NAMES draw_fuel seed docs0 rng0 s :
  shuffle draw_fuel NAMES (MersenneTwister_new seed) = Ok (docs0, rng0) →
  allocs (GPTModel_new NAMES draw_fuel seed) s
    (λ this gs,
       params this = seq (length (cells s)) (length gs) ∧
       length gs = 32 * vocabSize (createTokenizer docs0) + 3328 ∧
       m this = replicate (length gs) 0%R ∧
       v this = replicate (length gs) 0%R ∧
       config this = DEFAULT_CONFIG (vocabSize (createTokenizer docs0)) ∧
       map fst (stateDict this) =
         ["wte"; "wpe"; "lm_head"; "layer0.attn_wq"; "layer0.attn_wk";
          "layer0.attn_wv"; "layer0.attn_wo"; "layer0.mlp_fc1"; "layer0.mlp_fc2"]).
Proof.
  intros Hsh. unfold GPTModel_new, allocs. rewrite Hsh.
  set (V := vocabSize (createTokenizer docs0)).
  fold (allocs (A:=GPTModel)).
  change (cfg_vocabSize (DEFAULT_CONFIG V)) with V.
  change (nEmbd (DEFAULT_CONFIG V)) with 16.
  change (blockSize (DEFAULT_CONFIG V)) with 16.
  change (nLayer (DEFAULT_CONFIG V)) with 1.
  cbn [init_layers].
  change (nEmbd (DEFAULT_CONFIG V)) with 16.
  eapply allocs_bind; [apply allocs_matrix|].
  intros [wte r1] g1 [L1 C1]. cbn [fst snd cells module_gen] in *.
  eapply allocs_bind; [apply allocs_matrix|].
  intros [wpe r2] g2 [L2 C2]. cbn [fst snd cells module_gen] in *.
  eapply allocs_bind; [apply allocs_matrix|].
  intros [lm r3] g3 [L3 C3]. cbn [fst snd cells module_gen] in *.
  eapply allocs_bind.
  { eapply allocs_bind; [apply allocs_matrix|].
    intros [wq r4] g4 [L4 C4]. cbn [fst snd cells module_gen] in *.
    eapply allocs_bind; [apply allocs_matrix|].
    intros [wk r5] g5 [L5 C5]. cbn [fst snd cells module_gen] in *.
    eapply allocs_bind; [apply allocs_matrix|].
    intros [wv r6] g6 [L6 C6]. cbn [fst snd cells module_gen] in *.
    eapply allocs_bind; [apply allocs_matrix|].
    intros [wo r7] g7 [L7 C7]. cbn [fst snd cells module_gen] in *.
    eapply allocs_bind; [apply allocs_matrix|].
    intros [fc1 r8] g8 [L8 C8]. cbn [fst snd cells module_gen] in *.
    eapply allocs_bind; [apply allocs_matrix|].
    intros [fc2 r9] g9 [L9 C9]. cbn [fst snd cells module_gen] in *.
    apply allocs_ret. cbn [fst].
    instantiate (1 := λ ls gs,
      ∃ wq wk wv wo fc1 fc2 g4 g5 g6 g7 g8 g9,
        gs = g4 ++ g5 ++ g6 ++ g7 ++ g8 ++ g9 ++ [] ∧
        ls.1 = [("wte", wte); ("wpe", wpe); ("lm_head", lm);
                ("layer0.attn_wq", wq); ("layer0.attn_wk", wk);
                ("layer0.attn_wv", wv); ("layer0.attn_wo", wo);
                ("layer0.mlp_fc1", fc1); ("layer0.mlp_fc2", fc2)] ∧
        length g4 = 256 ∧ length g5 = 256 ∧ length g6 = 256 ∧ length g7 = 256 ∧
        length g8 = 1024 ∧ length g9 = 1024 ∧
        concat wq ++ concat wk ++ concat wv ++ concat wo ++ concat fc1 ++ concat fc2 =
          seq (length (cells s) + length g1 + length g2 + length g3) 3072).
    cbn beta. exists wq, wk, wv, wo, fc1, fc2, g4, g5, g6, g7, g8, g9.
    split; [reflexivity|]. split; [reflexivity|].
    rewrite ?length_app, ?length_map in *.
    split_and!; [lia..|].
    rewrite C4, C5, C6, C7, C8, C9. rewrite L4, L5, L6, L7, L8.
    change 3072 with (16 * 16 + (16 * 16 + (16 * 16 + (16 * 16 + (4 * 16 * 16 + 16 * (4 * 16)))))).
    rewrite !seq_app. repeat f_equal; lia. }
  intros [sd r10] g (wq & wk & wv & wo & fc1 & fc2 & g4 & g5 & g6 & g7 & g8 & g9 &
                     -> & Hsd & L4 & L5 & L6 & L7 & L8 & L9 & Hcat).
  cbn [fst snd] in *. subst sd. cbn beta zeta. apply allocs_ret.
  cbn [params m v config stateDict map fst snd concat].
  rewrite ?length_app, ?length_map in *. rewrite !app_nil_r, !concat_app.
  cbn [length]. rewrite ?Nat.add_0_r.
  assert (length (concat wte ++ concat wpe ++ concat lm ++ concat wq ++ concat wk ++
                  concat wv ++ concat wo ++ concat fc1 ++ concat fc2) =
          length g1 + (length g2 + (length g3 +
            (length g4 + (length g5 + (length g6 + (length g7 + (length g8 + length g9)))))))) as Hlen.
  { rewrite Hcat, C1, C2, C3, !length_app, !length_seq. lia. }
  split_and!.
  - rewrite Hcat, C1, C2, C3. rewrite L1, L2, L3.
    rewrite <- !seq_app. f_equal. lia.
  - lia.
  - by rewrite Hlen.
  - by rewrite Hlen.
  - reflexivity.
  - reflexivity.
Qed.

Lemma createTokenizer_Permutation docs docs' :
  docs ≡ₚ docs' → createTokenizer docs = createTokenizer docs'.
Proof.
  intros Hp.
  assert (uchars (createTokenizer docs) = uchars (createTokenizer docs')) as Hu.
  { apply strict_sorted_unique; [apply uchars_strict..|].
    intros x. rewrite !uchars_elem. by setoid_rewrite Hp. }
  unfold createTokenizer in Hu |- *. cbn [uchars] in Hu. cbn zeta. by rewrite Hu.
Qed.

Lemma GPTModel_new_built NAMES draw_fuel seed docs0 rng0 s :
  shuffle draw_fuel NAMES (MersenneTwister_new seed) = Ok (docs0, rng0) →
  ∃ this gs,
    GPTModel_new NAMES draw_fuel seed s =
      Ok (this, mkStore (cells s ++ map leaf gs) (module_gen s)) ∧
    model_ok (mkStore (cells s ++ map leaf gs) (module_gen s)) this ∧
    params this = seq (length (cells s)) (length gs) ∧
    length gs = 32 * vocabSize (createTokenizer NAMES) + 3328 ∧
    m this = replicate (length gs) 0%R ∧
    v this = replicate (length gs) 0%R ∧
    config this = DEFAULT_CONFIG (vocabSize (createTokenizer NAMES)) ∧
    tokenizer this = createTokenizer NAMES ∧
    docs this = docs0 ∧ docs0 ≡ₚ NAMES ∧
    step this = 0.
Proof.
  intros Hsh.
  destruct (GPTModel_new_alloc NAMES draw_fuel seed docs0 rng0 s Hsh)
    as (this & gs & Hrun & Hp & Hl & Hm & Hv & Hcfg & _).
  destruct (GPTModel_new_ok NAMES draw_fuel seed docs0 rng0 s Hsh)
    as (this' & s' & Hrun' & _ & Hok & Hdocs & Htk & _ & Hstep).
  rewrite Hrun in Hrun'. injection Hrun' as <- <-.
  assert (docs0 ≡ₚ NAMES) as Hperm.
  { by apply (shuffle_from_Permutation _ _ _ _ _ _ Hsh). }
  rewrite (createTokenizer_Permutation _ _ Hperm) in Hl, Hcfg, Htk.
  exists this, gs. split_and!; done.
Qed.

(** X19. Whenever its [shuffle] returns, the constructor returns a model
    whose parameters are exactly the nodes it allocated: consecutive new
    leaves with gradient 0, listed once each in [params] in the order of
    allocation, [32 * vocabSize + 3328] of them; the two Adam moment vectors
    are zeros of that length and the step is 0. The corpus it keeps is a
    permutation of [NAMES], and the tokenizer, hence [vocabSize] and the
    number of parameters, is that of [NAMES], whatever the seed. *)
Theorem constructor_allocates_the_parameters (NAMES : list (list N)) (draw_fuel : nat)
    (seed : Z) (docs0 : list (list N)) (rng0 : MersenneTwister) (s : Store) :
  shuffle draw_fuel NAMES (MersenneTwister_new seed) = Ok (docs0, rng0) →
  ∃ this gs,
    GPTModel_new NAMES draw_fuel seed s =
      Ok (this, mkStore (cells s ++ map leaf gs) (module_gen s)) ∧
    params this = seq (length (cells s)) (length gs) ∧
    getParamCount this = 32 * vocabSize (createTokenizer NAMES) + 3328 ∧
    m this = replicate (getParamCount this) 0%R ∧
    v this = replicate (getParamCount this) 0%R ∧
    getCurrentStep this = 0 ∧
    tokenizer this = createTokenizer NAMES ∧
    docs this = docs0 ∧ docs0 ≡ₚ NAMES.
Proof.
  intros Hsh.
  destruct (GPTModel_new_built NAMES draw_fuel seed docs0 rng0 s Hsh)
    as (this & gs & Hrun & _ & Hp & Hl & Hm & Hv & _ & Htk & Hd & Hperm & Hstep).
  exists this, gs. unfold getParamCount, getCurrentStep.
  rewrite Hp, length_seq. split_and!; done.
Qed.

Lemma constructor_allocates_the_parameters_witness :
  ∃ this gs,
    GPTModel_new [[97; 98]%N] 0 42 empty_store =
      Ok (this, mkStore (cells empty_store ++ map leaf gs) (module_gen empty_store)) ∧
    params this = seq (length (cells empty_store)) (length gs) ∧
    getParamCount this = 32 * vocabSize (createTokenizer [[97; 98]%N]) + 3328 ∧
    m this = replicate (getParamCount this) 0%R ∧
    v this = replicate (getParamCount this) 0%R ∧
    getCurrentStep this = 0 ∧
    tokenizer this = createTokenizer [[97; 98]%N] ∧
    docs this = [[97; 98]%N] ∧ [[97; 98]%N] ≡ₚ [[97; 98]%N].
Proof.
  exact (constructor_allocates_the_parameters [[97; 98]%N] 0 42 [[97; 98]%N]
           (MersenneTwister_new 42) empty_store eq_refl).
Defined.

(** X20. The breakdown [getArchitectureInfo] shows adds up: for a model the
    constructor returns, the [params] entries of the layers it lists (the
    two embeddings, four entries per transformer layer, the output head)
    sum to [totalParams], the length of [params], which is what
    [getParamCount] returns. *)
Theorem architecture_breakdown_adds_up (NAMES : list (list N)) (draw_fuel : nat)
    (seed : Z) (docs0 : list (list N)) (rng0 : MersenneTwister) (s : Store) :
  shuffle draw_fuel NAMES (MersenneTwister_new seed) = Ok (docs0, rng0) →
  ∃ this s',
    GPTModel_new NAMES draw_fuel seed s = Ok (this, s') ∧
    length (arch_layers (getArchitectureInfo this)) = 7 ∧
    sum_list (map arch_params (arch_layers (getArchitectureInfo this))) =
      totalParams (getArchitectureInfo this) ∧
    totalParams (getArchitectureInfo this) = getParamCount this ∧
    arch_config (getArchitectureInfo this) = config this.
Proof.
  intros Hsh.
  destruct (GPTModel_new_built NAMES draw_fuel seed docs0 rng0 s Hsh)
    as (this & gs & Hrun & _ & Hp & Hl & _ & _ & Hcfg & _).
  eexists this, _. split; [exact Hrun|].
  unfold getArchitectureInfo, getParamCount. cbn [arch_layers totalParams arch_config].
  rewrite Hcfg. cbn [nEmbd nHead nLayer blockSize cfg_vocabSize DEFAULT_CONFIG].
  rewrite Hp, length_seq, Hl.
  cbn [seq map concat app arch_params sum_list sum_list_with length].
  unfold Datatypes.id. split_and!; [done|lia|done|done].
Qed.

Lemma architecture_breakdown_adds_up_witness :
  ∃ this s',
    GPTModel_new [[97; 98]%N] 0 42 empty_store = Ok (this, s') ∧
    length (arch_layers (getArchitectureInfo this)) = 7 ∧
    sum_list (map arch_params (arch_layers (getArchitectureInfo this))) =
      totalParams (getArchitectureInfo this) ∧
    totalParams (getArchitectureInfo this) = getParamCount this ∧
    arch_config (getArchitectureInfo this) = config this.
Proof.
  exact (architecture_breakdown_adds_up [[97; 98]%N] 0 42 [[97; 98]%N]
           (MersenneTwister_new 42) empty_store eq_refl).
Defined.

(** ** [src/lib/gpt.ts]: [generate] and [generateBatch] *)

Lemma same_but_rng_refl this : same_but_rng this this.
Proof. by repeat split. Qed.

Lemma same_but_rng_trans a b c : same_but_rng a b → same_but_rng b c → same_but_rng a c.
Proof.
  unfold same_but_rng. intros H1 H2. destruct_and!. split_and!; congruence.
Qed.

Lemma on_rng_Ok {A} (c : St MersenneTwister A) this s r s' :
  on_rng c this s = Ok (r, s') → s' = s ∧ same_but_rng this r.2.
Proof.
  unfold on_rng. destruct (c (rng this)) as [[a rng']|e]; [|done].
  intros [= <- <-]. split; [done|]. by repeat split.
Qed.

(** What a run of the loop of [generate] that returns has done. *)
Lemma generate_loop_run temperature count : ∀ posId st s st' s',
  generate_loop temperature count posId st s = Ok (st', s') →
  same_but_rng (g_this st) (g_this st') ∧
  ∃ new, g_tokenIds st' = g_tokenIds st ++ new ∧
         g_tokenChars st' =
           g_tokenChars st ++ map (tokenToChar (tokenizer (g_this st))) new ∧
         length new ≤ count.
Proof.
  induction count as [|count IH]; intros posId st s st' s' H; cbn [generate_loop] in H.
  - injection H as <- <-. split; [apply same_but_rng_refl|].
    exists []. by rewrite !app_nil_r.
  - apply bind_Ok in H as ([[[logits ads] keys] vals] & s1 & _ & H).
    apply bind_Ok in H as (scaled & s2 & _ & H).
    apply bind_Ok in H as (probs & s3 & _ & H).
    apply bind_Ok in H as (weights & s4 & _ & H).
    apply bind_Ok in H as ([tokenId this'] & s5 & Hdraw & H).
    apply on_rng_Ok in Hdraw as [-> Hsame]. cbn [fst snd] in *.
    case_decide as Hbos.
    + injection H as <- <-. cbn [g_this g_tokenIds g_tokenChars]. split; [done|].
      exists []. rewrite !app_nil_r. split_and!; [done|done|cbn; lia].
    + apply IH in H as (Hsame' & new & Hids & Hchars & Hlen).
      cbn [g_this g_tokenIds g_tokenChars] in *. split.
      * by eapply same_but_rng_trans.
      * exists (tokenId :: new). pose proof Hsame as (_ & _ & _ & Htk & _).
        rewrite Htk in *. rewrite Hids, Hchars, <- !app_assoc. cbn [map app length].
        split_and!; [done|done|lia].
Qed.

Lemma generate_run temperature maxLen this s res this' s' :
  generate temperature maxLen this s = Ok ((res, this'), s') →
  same_but_rng this this' ∧
  tokenChars res = map (tokenToChar (tokenizer this)) (tokens res) ∧
  text res = concat (tokenChars res) ∧
  length (tokens res) ≤ default (blockSize (config this)) maxLen.
Proof.
  intros H. unfold generate in H. apply bind_Ok in H as (st & s1 & Hloop & H).
  injection H as <- <- <-.
  apply generate_loop_run in Hloop as (Hsame & new & Hids & Hchars & Hlen).
  cbn [g_this g_tokenIds g_tokenChars tokens tokenChars text app] in *.
  rewrite Hids, Hchars. done.
Qed.

Lemma total_generate temperature this s :
  model_ok s this →
  total (generate temperature None this) s
    (λ r s', same_weights this r.2 ∧
             length (tokens r.1) ≤ blockSize (config this) ∧
             Forall (kept_token this) (tokens r.1)).
Proof.
  intros Hmodel. pose proof Hmodel as (_ & _ & HBOS & _).
  assert (cache_ok s (config this) 0 (replicate (nLayer (config this)) [])) as Hcache.
  { split; [by rewrite length_replicate|].
    apply Forall_forall. intros rows Hr. apply elem_of_replicate in Hr as [-> _].
    split; [done|constructor]. }
  unfold generate. cbn [default]. eapply total_bind.
  { apply (total_generate_loop temperature (blockSize (config this)) 0
             (mkGenState this (Some (BOS (tokenizer this)))
                (replicate (nLayer (config this)) [])
                (replicate (nLayer (config this)) []) [] [] []) s);
      cbn [g_this g_tokenId g_keys g_vals]; try done.
    by exists (BOS (tokenizer this)). }
  intros st s1 He (Hsame & new & Hnew & Hlen & Hall & _).
  cbn [g_this g_tokenIds app] in *. apply total_ret. cbn [fst snd tokens].
  rewrite Hnew. done.
Qed.




Lemma generateBatch_run count temperature : ∀ this s rs this' s',
  generateBatch count temperature this s = Ok ((rs, this'), s') →
  same_but_rng this this'.
Proof.
  induction count as [|count IH]; intros this s rs this' s' H; cbn [generateBatch] in H.
  - injection H as _ <- _. apply same_but_rng_refl.
  - apply bind_Ok in H as ([r this1] & s1 & Hg & H).
    apply bind_Ok in H as ([rs1 this2] & s2 & Hb & H).
    injection H as _ <- _. cbn [fst snd] in *.
    apply generate_run in Hg as (Hs1 & _). apply IH in Hb.
    by eapply same_but_rng_trans.
Qed.

Lemma total_generateBatch count temperature : ∀ this s,
  model_ok s this →
  total (generateBatch count temperature this) s
    (λ r s', length r.1 = count ∧ same_weights this r.2 ∧
             Forall (λ res, length (tokens res) ≤ blockSize (config this) ∧
                            Forall (kept_token this) (tokens res)) r.1).
Proof.
  induction count as [|count IH]; intros this s Hmodel; cbn [generateBatch].
  - apply total_ret. split_and!; [done|apply same_weights_refl|constructor].
  - eapply total_bind; [by apply total_generate|].
    intros [res this1] s1 He1 (Hsame & Hlen & Hall). cbn [fst snd] in *. cbn beta.
    eapply total_bind.
    { apply (IH this1 s1). apply (model_ok_same _ this); [done|].
      by apply (model_ok_ext s s1). }
    intros [rs this2] s2 He2 (Hcount & Hsame2 & Hrs). cbn [fst snd] in *. cbn beta.
    apply total_ret. cbn [fst snd length]. pose proof Hsame as (Hc & _ & Htk & _).
    split_and!; [lia|by eapply same_weights_trans|].
    constructor; [done|]. eapply Forall_impl; [exact Hrs|].
    intros r [Hl Hk]. rewrite Hc in Hl. split; [done|].
    eapply Forall_impl; [exact Hk|]. intros tok (i & -> & Hi & Hne).
    exists i. rewrite Hc, Htk in *. done.
Qed.

(** X22. [generate] and [generateBatch] only read the model: on a model of
    the constructor's shape [generateBatch(count)] returns exactly [count]
    results, each of at most [blockSize] tokens that are vocabulary ids
    other than the marker; it allocates nodes but changes no existing
    object (no parameter, no gradient) and does not move the generation
    counter, and it leaves every field of the model as it was except the
    state of the generator. *)
Theorem generateBatch_only_advances_the_generator (count : nat) (temperature : R)
    (this : GPTModel) (s : Store) :
  model_ok s this →
  ∃ rs this' s',
    generateBatch count temperature this s = Ok ((rs, this'), s') ∧
    length rs = count ∧
    Forall (λ res, length (tokens res) ≤ blockSize (config this) ∧
                   Forall (kept_token this) (tokens res)) rs ∧
    ext s s' ∧
    same_but_rng this this'.
Proof.
  intros Hmodel.
  destruct (total_generateBatch count temperature this s Hmodel)
    as ([rs this'] & s' & Hrun & Hext & Hlen & _ & Hall).
  cbn [fst snd] in *. exists rs, this', s'. split_and!; try done.
  by eapply generateBatch_run.
Qed.

Lemma generateBatch_only_advances_the_generator_witness :
  ∃ this s,
    GPTModel_new [[97; 98]%N] 0 42 empty_store = Ok (this, s) ∧
    ∃ rs this' s',
      generateBatch 3 0.5 this s = Ok ((rs, this'), s') ∧
      length rs = 3 ∧
      Forall (λ res, length (tokens res) ≤ blockSize (config this) ∧
                     Forall (kept_token this) (tokens res)) rs ∧
      ext s s' ∧
      same_but_rng this this'.
Proof.
  destruct (GPTModel_new_built [[97; 98]%N] 0 42 [[97; 98]%N] (MersenneTwister_new 42)
              empty_store eq_refl) as (this & gs & Hnew & Hok & _).
  eexists this, _. split; [exact Hnew|].
  exact (generateBatch_only_advances_the_generator 3 0.5 this _ Hok).
Defined.

(** X23. An empty corpus is not refused by the constructor: it returns a
    model whose vocabulary holds only the marker ([vocabSize] 1). On that
    model [trainStep] throws (there is no document to take), and [generate]
    returns the empty text with no token: the marker is the only token that
    can be drawn. *)
Theorem empty_corpus_model (draw_fuel : nat) (seed : Z) (numSteps temperature : R)
    (s : Store) :
  ∃ this s',
    GPTModel_new [] draw_fuel seed s = Ok (this, s') ∧
    docs this = [] ∧
    vocabSize (tokenizer this) = 1 ∧
    trainStep numSteps this s' = Stop TypeError ∧
    ∃ res this' s'',
      generate temperature None this s' = Ok ((res, this'), s'') ∧
      tokens res = [] ∧ text res = [].
Proof.
  destruct (GPTModel_new_built [] draw_fuel seed [] (MersenneTwister_new seed) s eq_refl)
    as (this & gs & Hnew & Hok & _ & _ & _ & _ & Hcfg & Htk & Hdocs & _).
  eexists this, _. split; [exact Hnew|]. split; [done|].
  split; [by rewrite Htk|]. split.
  - unfold trainStep, bind. by rewrite Hdocs.
  - destruct (total_generate temperature this _ Hok)
      as ([res this'] & s'' & Hrun & _ & _ & _ & Hall).
    cbn [fst snd] in *.
    assert (tokens res = []) as Hnil.
    { destruct (tokens res) as [|tok toks]; [done|]. exfalso.
      apply Forall_cons in Hall as [(i & -> & Hi & Hne) _].
      rewrite Hcfg, Htk in *. cbn in Hi, Hne. lia. }
    exists res, this', s''. split; [done|]. split; [done|].
    destruct (generate_run _ _ _ _ _ _ _ Hrun) as (_ & Hchars & Htext & _).
    by rewrite Htext, Hchars, Hnil.
Qed.

(** ** [src/lib/gpt.ts]: [trainStep] *)

Lemma losses_ok_ext s s' ls : ext s s' → losses_ok s ls → losses_ok s' ls.
Proof.
  intros He H. eapply Forall_impl; [exact H|].
  intros l (d & Hd & Hpos). exists d. split; [by eapply has_data_ext|done].
Qed.

Lemma total_train_positions this tokens count : ∀ posId st s,
  model_ok s this →
  posId + count ≤ blockSize (config this) →
  (∀ i, i ≤ posId + count →
        ∃ t, tokens !! i = Some (Some t) ∧ t < cfg_vocabSize (config this)) →
  cache_ok s (config this) posId (t_keys st) →
  cache_ok s (config this) posId (t_vals st) →
  losses_ok s (t_losses st) →
  total (train_positions this tokens count posId st) s
    (λ st' s', losses_ok s' (t_losses st') ∧
               length (t_losses st') = length (t_losses st) + count).
Proof.
  induction count as [|count IH]; intros posId st s Hmodel Hlen Htok Hk Hv Hloss;
    cbn [train_positions].
  - apply total_ret. split; [done|lia].
  - cbn zeta.
    destruct (Htok posId ltac:(lia)) as (t & Ht & Htv).
    destruct (Htok (posId + 1) ltac:(lia)) as (t' & Ht' & Htv').
    rewrite Ht, Ht'. cbn [mjoin option_join].
    eapply total_bind.
    { apply (total_forward this (Some t) posId (t_keys st) (t_vals st) posId s);
        try done; [by exists t|lia]. }
    intros [[[logits ads] keys] vals] s1 He1 (Hlogits & _ & Hk1 & Hv1).
    cbn [fst snd] in *. cbn beta iota.
    pose proof Hmodel as (_ & _ & HBOS & _).
    eapply total_bind.
    { apply total_softmax; [|by destruct Hlogits].
      intros ->. destruct Hlogits as [Hls _]. simpl in Hls. lia. }
    intros probs s2 He2 Hprobs. cbn beta in *.
    assert (map (dat s1) logits ≠ []) as Hne.
    { destruct Hlogits as [Hls _]. destruct logits; [simpl in Hls; lia|done]. }
    assert (length probs = cfg_vocabSize (config this)) as Hlp.
    { rewrite (Forall2_length _ _ _ Hprobs), softmax_data_length, length_map.
      by destruct Hlogits. }
    destruct (lookup_lt_is_Some_2 probs t') as [p Hp]; [lia|].
    cbn [mbind option_bind]. rewrite Hp. cbn [defined]. unfold ret at 1.
    assert (∃ w, has_data s2 p w ∧ (0 < w <= 1)%R) as (w & Hw & Hrange).
    { destruct (Forall2_lookup_l _ _ _ _ _ Hprobs Hp) as (w & Hwl & Hw).
      exists w. split; [done|]. apply (softmax_data_range _ w Hne).
      by eapply list_elem_of_lookup_2. }
    change (bind (λ s0, Ok (p, s0)) ?k) with (bind (ret p) k).
    apply (total_bind _ _ s2 (λ x _, x = p)); [by apply total_ret|].
    intros p' s2' He2' ->.
    eapply total_bind; [apply (total_log p s2' w); by eapply has_data_ext|].
    intros l s3 He3 Hl. cbn beta in *.
    eapply total_bind; [by apply (total_neg l s3 _ Hl)|].
    intros lossT s4 He4 HlossT. cbn beta in *.
    eapply total_mono.
    + apply (IH (S posId)); cbn [t_keys t_vals t_losses].
      * apply (model_ok_ext s s4); [ext_tac|done].
      * lia.
      * intros i Hi. apply Htok. lia.
      * apply (cache_ok_ext s1 s4); [ext_tac|done].
      * apply (cache_ok_ext s1 s4); [ext_tac|done].
      * apply Forall_app. split.
        -- apply (losses_ok_ext s s4); [ext_tac|done].
        -- constructor; [|constructor]. exists (- ln w)%R. split; [done|].
           assert (ln w <= 0)%R; [|lra].
           destruct (Req_dec_T w 1) as [->|Hne1]; [rewrite ln_1; lra|].
           rewrite <- ln_1. apply Rlt_le, ln_increasing; lra.
    + intros st' s5 _ [Hl' Hlen']. cbn [t_losses] in *. split; [done|].
      rewrite Hlen', length_app. cbn. lia.
Qed.

Lemma sim_refl s : wf_store s → sim s s.
Proof. intros H. by split_and!. Qed.

Lemma oblivious_wf {A} (m : M A) s a s' :
  oblivious m → wf_store s → m s = Ok (a, s') → wf_store s'.
Proof.
  intros Hm Hwf Hrun. specialize (Hm s s (sim_refl s Hwf)).
  rewrite Hrun in Hm. cbn in Hm. by destruct Hm as (_ & H & _).
Qed.

Lemma valid_lt s r : valid s r ↔ r < length (cells s).
Proof. unfold valid. apply lookup_lt_is_Some. Qed.

Lemma model_ok_valid s s' this :
  length (cells s) ≤ length (cells s') → model_ok s this → model_ok s' this.
Proof.
  intros Hlen.
  assert (∀ n x, vec_ok s n x → vec_ok s' n x) as Hvec.
  { intros n x [Hl Hv]. split; [done|]. eapply Forall_impl; [exact Hv|].
    intros r. rewrite !valid_lt. lia. }
  assert (∀ r c w, mat_ok s r c w → mat_ok s' r c w) as Hmat.
  { intros r c w [Hl Hv]. split; [done|]. eapply Forall_impl; [exact Hv|]. apply Hvec. }
  assert (∀ key r c, has_matrix s this key r c → has_matrix s' this key r c) as Hhas.
  { intros key r c (w & Hw & Hm). exists w. auto. }
  intros (H1 & H2 & H3 & H4 & H5 & H6 & H7).
  unfold model_ok. split_and!; auto.
  intros li Hli. destruct (H7 li Hli) as (A & B & C & D & E & F). split_and!; auto.
Qed.

(** The Adam loop returns; it keeps the number of objects, sets the gradient
    of every parameter to 0 and touches no other object. *)
Lemma adam_update_spec lr bc1 bc2 b1 b2 eps ps : ∀ i m0 v0 s,
  Forall (valid s) ps →
  ∃ m' v' cs',
    adam_update lr bc1 bc2 b1 b2 eps i ps m0 v0 s =
      Ok ((m', v'), mkStore cs' (module_gen s)) ∧
    length cs' = length (cells s) ∧
    (∀ p, p ∈ ps → gradf cs' p = 0%R) ∧
    (∀ r, r ∉ ps → cs' !! r = cells s !! r) ∧
    length m' = length m0 ∧ length v' = length v0.
Proof.
  induction ps as [|p ps IH]; intros i m0 v0 s Hv; cbn [adam_update].
  - exists m0, v0, (cells s). destruct s. cbn. split_and!; try done.
    intros p Hp. by apply elem_of_nil in Hp.
  - apply Forall_cons in Hv as [[vp Hp] Hv].
    assert (p < length (cells s)) as Hlt by (by eapply lookup_lt_Some).
    assert (get_grad p s = Ok (grad vp, s)) as Hg.
    { unfold get_grad, bind, get. by rewrite Hp. }
    assert (get_data p s = Ok (data vp, s)) as Hd.
    { unfold get_data, bind, get. by rewrite Hp. }
    set (mi := (b1 * default 0 (m0 !! i) + (1 - b1) * grad vp)%R).
    set (vi := (b2 * default 0 (v0 !! i) + (1 - b2) * js_pow (grad vp) 2)%R).
    set (d' := (data vp - lr * (mi / bc1) / (sqrt (vi / bc2) + eps))%R).
    set (s1 := mkStore (<[p:=with_data d' vp]> (cells s)) (module_gen s)).
    set (s2 := mkStore (<[p:=with_grad 0 (with_data d' vp)]> (cells s)) (module_gen s)).
    assert (modify p (with_data d') s = Ok (tt, s1)) as Hm1.
    { unfold modify. by rewrite Hp. }
    assert (modify p (with_grad 0) s1 = Ok (tt, s2)) as Hm2.
    { unfold modify, s1, s2. cbn [cells module_gen].
      rewrite list_lookup_insert_eq by done. by rewrite list_insert_insert_eq. }
    destruct (IH (S i) (<[i:=mi]> m0) (<[i:=vi]> v0) s2)
      as (m' & v' & cs' & Hrun & Hlen & Hzero & Hframe & Hm & Hv').
    { eapply Forall_impl; [exact Hv|]. intros r. rewrite !valid_lt.
      cbn [s2 cells]. by rewrite length_insert. }
    exists m', v', cs'. cbn [s2 cells module_gen] in *.
    rewrite !length_insert in *. split_and!; [|done| | |done|done].
    + rewrite (bind_run _ _ _ _ _ Hg). cbn beta.
      rewrite (bind_run _ _ _ _ _ Hd). cbn beta. fold mi vi d'.
      rewrite (bind_run _ _ _ _ _ Hm1). rewrite (bind_run _ _ _ _ _ Hm2). exact Hrun.
    + intros q Hq. destruct (decide (q ∈ ps)) as [Hin|Hout]; [by apply Hzero|].
      apply elem_of_cons in Hq as [->|?]; [|done].
      unfold gradf. rewrite (Hframe p Hout), list_lookup_insert_eq by done. done.
    + intros r Hr. apply not_elem_of_cons in Hr as [Hne Hr].
      rewrite (Hframe r Hr). by rewrite list_lookup_insert_ne.
Qed.

Lemma encode_tokens_valid corpus doc :
  (∀ ch, ch ∈ doc → ch ∈ uchars (createTokenizer corpus)) →
  ∃ toks,
    encode (createTokenizer corpus) doc = Ok toks ∧
    length toks = length doc + 2 ∧
    ∀ i, i < length doc + 2 →
         ∃ t, toks !! i = Some (Some t) ∧ t < vocabSize (createTokenizer corpus).
Proof.
  intros Hdoc. destruct (encode_ids corpus doc Hdoc) as (ids & Hmap & Hall).
  eexists. split; [reflexivity|]. rewrite Hmap.
  pose proof (Forall2_length _ _ _ Hall) as Hlen.
  split; [rewrite !length_app, length_map; cbn; lia|].
  intros i Hi. destruct i as [|i].
  { eexists. split; [reflexivity|]. cbn [createTokenizer vocabSize BOS]. lia. }
  cbn [app]. change ((?a :: ?l) !! S ?j) with (l !! j).
  destruct (decide (i < length ids)) as [Hlt|Hge].
  - destruct (lookup_lt_is_Some_2 ids i Hlt) as [id Hid].
    exists id. rewrite lookup_app_l by (by rewrite length_map).
    change (map Some ids) with (Some <$> ids). rewrite list_lookup_fmap, Hid.
    split; [done|].
    destruct (Forall2_lookup_r _ _ _ _ _ Hall Hid) as (ch & _ & Hu & _).
    apply lookup_lt_Some in Hu. cbn [createTokenizer vocabSize uchars] in *. lia.
  - assert (i = length ids) as -> by lia.
    eexists. rewrite lookup_app_r by (by rewrite length_map).
    rewrite length_map, Nat.sub_diag. split; [reflexivity|].
    cbn [createTokenizer vocabSize BOS]. lia.
Qed.

Lemma mul_number_fresh a c s r s' :
  mul a (ONumber c) s = Ok (r, s') → r = length (cells s).
Proof.
  unfold mul, bind, get, new_Value. destruct (cells s !! a); [|done]. by intros [= <- _].
Qed.

Lemma ext_length s s' : ext s s' → length (cells s) ≤ length (cells s').
Proof. intros (new & -> & _). rewrite length_app. lia. Qed.

Lemma ext_gen s s' : ext s s' → module_gen s' = module_gen s.
Proof. by intros (new & _ & ->). Qed.

Lemma trainStep_spec numSteps this s :
  train_ready s this →
  ∃ res this' s',
    trainStep numSteps this s = Ok ((res, this'), s') ∧
    train_ready s' this' ∧
    step this' = S (step this) ∧
    ts_step res = S (step this) ∧
    docs this !! (step this mod length (docs this)) = Some (doc res) ∧
    (0 <= loss res)%R ∧
    (∀ p, p ∈ params this → gradf (cells s') p = 0%R) ∧
    module_gen s' = S (module_gen s) ∧
    length (cells s) < length (cells s') ∧
    config this' = config this ∧ stateDict this' = stateDict this ∧
    params this' = params this ∧ tokenizer this' = tokenizer this ∧
    docs this' = docs this ∧ rng this' = rng this ∧
    length (m this') = length (m this) ∧ length (v this') = length (v this).
Proof.
  intros (Hmodel & Hwf & Hparams & HB & Hdocs & HV & corpus & Htk & Hsub).
  (* the document and its tokens *)
  destruct (lookup_lt_is_Some_2 (docs this) (step this mod length (docs this)))
    as [dc Hdoc].
  { apply Nat.mod_upper_bound. destruct (docs this); [done|cbn; lia]. }
  assert (∀ ch, ch ∈ dc → ch ∈ uchars (createTokenizer corpus)) as Hchars.
  { intros ch Hch. apply uchars_elem. exists dc. split; [|done].
    apply Hsub. by eapply list_elem_of_lookup_2. }
  destruct (encode_tokens_valid corpus dc Hchars) as (toks & Henc & Hlt & Htoks).
  set (n := blockSize (config this) `min` (length toks - 1)).
  assert (1 ≤ n ∧ n ≤ blockSize (config this) ∧ n ≤ length dc + 1) as (Hn1 & Hn2 & Hn3)
    by (unfold n; lia).
  (* the forward passes *)
  assert (cache_ok s (config this) 0 (replicate (nLayer (config this)) [])) as Hcache.
  { split; [by rewrite length_replicate|].
    apply Forall_forall. intros rows Hr. apply elem_of_replicate in Hr as [-> _].
    split; [done|constructor]. }
  destruct (total_train_positions this toks n 0
              (mkTrainState (replicate (nLayer (config this)) [])
                            (replicate (nLayer (config this)) []) [] []) s)
    as (st & s1 & Hrun1 & He1 & Hloss & Hlen); cbn [t_keys t_vals t_losses]; try done.
  { intros i Hi. destruct (Htoks i ltac:(lia)) as (t & Ht & Hv).
    exists t. split; [done|]. by rewrite HV, Htk. }
  { constructor. }
  cbn [t_losses length] in Hlen.
  (* the loss *)
  assert (Forall2 (has_data s1) (t_losses st) (map (dat s1) (t_losses st))) as Hds.
  { change (map (dat s1) (t_losses st)) with (dat s1 <$> t_losses st).
    apply Forall2_fmap_r, Forall_Forall2_diag.
    eapply Forall_impl; [exact Hloss|]. intros l (d & Hd & _).
    cbn. by rewrite (has_data_dat _ _ _ Hd). }
  assert (0 <= sum_left (map (dat s1) (t_losses st)))%R as Hsumpos.
  { rewrite sum_left_Rsum. apply Rsum_nonneg. intros x Hx.
    apply list_elem_of_fmap in Hx as (l & -> & Hl).
    unfold losses_ok in Hloss. rewrite Forall_forall in Hloss.
    destruct (Hloss l Hl) as (d & Hd & Hpos). by rewrite (has_data_dat _ _ _ Hd). }
  destruct (total_vsum (t_losses st) s1 _ ltac:(intros E; rewrite E in Hlen; cbn in Hlen; lia) Hds)
    as (sm & s2 & Hrun2 & He2 & Hsm).
  destruct (total_mul sm (ONumber (1 / INR n)) s2 _ _ Hsm eq_refl)
    as (lossN & s3 & Hrun3 & He3 & Hl).
  pose proof (mul_number_fresh _ _ _ _ _ Hrun3) as Hfresh.
  pose proof (ext_length _ _ He1) as Hlen1. pose proof (ext_length _ _ He2) as Hlen2.
  assert (lossN < length (cells s3)) as Hlt3.
  { apply valid_lt. by eapply has_data_valid. }
  (* the store stays well formed *)
  pose proof (oblivious_wf _ _ _ _ (oblivious_train_positions _ _ _ _ _) Hwf Hrun1) as Hwf1.
  pose proof (oblivious_wf _ _ _ _ (oblivious_vsum _) Hwf1 Hrun2) as Hwf2.
  pose proof (oblivious_wf _ _ _ _ (oblivious_mul _ _) Hwf2 Hrun3) as Hwf3.
  (* backward *)
  destruct (backward_general s3 lossN Hwf3 Hlt3)
    as (c1 & topo & cs4 & _ & Hrun4 & _ & _ & _ & _ & Hl4 & Hd4 & Hwf4).
  assert (length cs4 = length (cells s3)) as Hlen4.
  { by rewrite <- (length_map links cs4), Hl4, length_map. }
  (* Adam *)
  set (lr := lrT (learningRate this) (step this) numSteps).
  set (bc1 := (1 - js_pow (beta1 this) (INR (step this + 1)))%R).
  set (bc2 := (1 - js_pow (beta2 this) (INR (step this + 1)))%R).
  assert (∀ p, p ∈ params this → p < length (cells s)) as Hplt.
  { intros p Hp. apply valid_lt. rewrite Forall_forall in Hparams. by apply Hparams. }
  destruct (adam_update_spec lr bc1 bc2 (beta1 this) (beta2 this) (epsAdam this)
              (params this) 0 (m this) (v this) (mkStore cs4 (S (module_gen s3))))
    as (m' & v' & cs5 & Hrun5 & Hlen5 & Hzero & Hframe & Hm' & Hv').
  { apply Forall_forall. intros p Hp. apply valid_lt. cbn [cells].
    specialize (Hplt p Hp). pose proof (ext_length _ _ He3). lia. }
  cbn [cells module_gen] in *.
  pose proof (oblivious_wf _ _ _ _ (oblivious_adam_update _ _ _ _ _ _ _ _ _ _) Hwf4 Hrun5)
    as Hwf5.
  (* loss.data *)
  assert (get_data lossN (mkStore cs5 (S (module_gen s3))) =
          Ok ((sum_left (map (dat s1) (t_losses st)) * (1 / INR n))%R,
              mkStore cs5 (S (module_gen s3)))) as Hrun6.
  { unfold get_data, bind, get. cbn [cells]. rewrite Hframe.
    - pose proof (map_lookup_eq data _ _ lossN Hd4) as Hd.
      unfold has_data in Hl. rewrite Hl in Hd.
      destruct (cs4 !! lossN) as [vl|]; [|done]. cbn in Hd. by injection Hd as ->.
    - intros Hin. specialize (Hplt _ Hin). lia. }
  eexists _, _, _. split.
  { unfold trainStep. rewrite Hdoc. cbn [defined]. unfold ret at 1.
    change (bind (λ s0, Ok (dc, s0)) ?k) with (bind (ret dc) k).
    rewrite (bind_run (ret dc) _ s dc s eq_refl). cbn beta.
    rewrite Htk, Henc. rewrite <- Htk.
    change (bind (λ s0, Ok (toks, s0)) ?k) with (bind (ret toks) k).
    rewrite (bind_run (ret toks) _ s toks s eq_refl). cbn beta zeta. fold n.
    rewrite (bind_run _ _ _ _ _ Hrun1). cbn beta.
    rewrite (bind_run _ _ _ _ _ Hrun2). cbn beta.
    rewrite (bind_run _ _ _ _ _ Hrun3). cbn beta.
    rewrite (bind_run _ _ _ _ _ Hrun4). cbn beta zeta.
    fold lr bc1 bc2.
    rewrite (bind_run _ _ _ _ _ Hrun5). cbn beta.
    rewrite (bind_run _ _ _ _ _ Hrun6). cbn beta. reflexivity. }
  cbn [step ts_step doc loss config stateDict params tokenizer docs rng m v fst snd
       cells module_gen].
  pose proof (ext_gen _ _ He1). pose proof (ext_gen _ _ He2). pose proof (ext_gen _ _ He3).
  pose proof (ext_length _ _ He3).
  split_and!; try done; try lia.
  - (* the model is ready for the next step *)
    unfold train_ready.
    cbn [step config stateDict params tokenizer docs rng m v cells module_gen].
    split_and!; try done.
    + apply (model_ok_valid s); [cbn [cells]; lia|].
      unfold model_ok, has_matrix in *. exact Hmodel.
    + apply Forall_forall. intros p Hp. apply valid_lt. cbn [cells].
      specialize (Hplt p Hp). lia.
    + by exists corpus.
  - apply Rmult_le_pos; [done|]. unfold Rdiv. rewrite Rmult_1_l.
    apply Rlt_le, Rinv_0_lt_compat, lt_0_INR. lia.
Qed.

Lemma GPTModel_new_train_ready NAMES draw_fuel seed docs0 rng0 s :
  shuffle draw_fuel NAMES (MersenneTwister_new seed) = Ok (docs0, rng0) →
  NAMES ≠ [] → wf_store s →
  ∃ this s',
    GPTModel_new NAMES draw_fuel seed s = Ok (this, s') ∧
    train_ready s' this ∧ step this = 0 ∧ docs this = docs0 ∧
    config this = DEFAULT_CONFIG (vocabSize (createTokenizer NAMES)) ∧
    Forall (valid s') (params this) ∧
    length (params this) = 32 * vocabSize (createTokenizer NAMES) + 3328.
Proof.
  intros Hsh Hne Hwf.
  destruct (GPTModel_new_built NAMES draw_fuel seed docs0 rng0 s Hsh)
    as (this & gs & Hrun & Hok & Hp & Hl & _ & _ & Hcfg & Htk & Hd & Hperm & Hstep).
  assert (Forall (valid (mkStore (cells s ++ map leaf gs) (module_gen s))) (params this))
    as Hvalid.
  { rewrite Hp. apply Forall_forall. intros p Hin. apply elem_of_seq in Hin.
    apply valid_lt. cbn [cells]. rewrite length_app, length_map. lia. }
  eexists this, _. split; [exact Hrun|]. split_and!; try done.
  - unfold train_ready. split_and!; try done.
    + by apply (oblivious_wf _ _ _ _ (oblivious_GPTModel_new _ _ _) Hwf Hrun).
    + rewrite Hcfg. cbn. lia.
    + rewrite Hd. intros ->. apply Permutation_nil_l in Hperm. done.
    + by rewrite Hcfg, Htk.
    + exists NAMES. split; [done|]. intros doc Hdoc. by rewrite <- Hperm, <- Hd.
  - by rewrite Hp, length_seq.
Qed.

Lemma empty_store_wf : wf_store empty_store.
Proof. split; intros i v Hi; done. Qed.

Lemma adam_update_moments lr bc1 bc2 b1 b2 eps ps : ∀ i m0 v0 s m' v' s',
  adam_update lr bc1 bc2 b1 b2 eps i ps m0 v0 s = Ok ((m', v'), s') →
  (length m' = length m0 ∧ length v' = length v0) ∧
  ((0 <= b2 <= 1)%R → Forall (λ x, 0 <= x)%R v0 → Forall (λ x, 0 <= x)%R v').
Proof.
  induction ps as [|p ps IH]; intros i m0 v0 s m' v' s' H; cbn [adam_update] in H.
  - by injection H as <- <- <-.
  - apply bind_Ok in H as (g & s1 & _ & H).
    apply bind_Ok in H as (d & s2 & _ & H).
    apply bind_Ok in H as ([] & s3 & _ & H).
    apply bind_Ok in H as ([] & s4 & _ & H).
    apply IH in H as [[Hlm Hlv] Hpos]. rewrite !length_insert in *.
    split; [done|]. intros Hb Hv0. apply Hpos; [done|].
    apply Forall_insert; [done|].
    assert (0 <= default 0 (v0 !! i))%R as Hvi.
    { destruct (v0 !! i) as [x|] eqn:Hx; cbn; [|lra].
      rewrite Forall_forall in Hv0. apply Hv0. by eapply list_elem_of_lookup_2. }
    rewrite js_pow_2. nra.
Qed.

Lemma trainStep_run numSteps this s res this' s' :
  trainStep numSteps this s = Ok ((res, this'), s') →
  params this' = params this ∧
  beta1 this' = beta1 this ∧ beta2 this' = beta2 this ∧ epsAdam this' = epsAdam this ∧
  ∃ lr bc1 bc2 s1 s2,
    adam_update lr bc1 bc2 (beta1 this) (beta2 this) (epsAdam this) 0 (params this)
                (m this) (v this) s1 = Ok ((m this', v this'), s2).
Proof.
  intros H. unfold trainStep in H.
  apply bind_Ok in H as (dc & s1 & _ & H).
  apply bind_Ok in H as (toks & s2 & _ & H). cbn zeta in H.
  apply bind_Ok in H as (st & s3 & _ & H).
  apply bind_Ok in H as (sm & s4 & _ & H).
  apply bind_Ok in H as (lossN & s5 & _ & H).
  apply bind_Ok in H as ([] & s6 & _ & H).
  apply bind_Ok in H as ([m' v'] & s7 & Hadam & H).
  apply bind_Ok in H as (lossData & s8 & _ & H).
  injection H as <- <- <-. cbn [params beta1 beta2 epsAdam m v fst snd].
  split_and!; try done. eauto 10.
Qed.

Lemma GPTModel_new_adam_ok NAMES draw_fuel seed this s s' :
  GPTModel_new NAMES draw_fuel seed s = Ok (this, s') → adam_ok this.
Proof.
  unfold GPTModel_new. destruct (shuffle _ _ _) as [[docs0 rng0]|e]; [|done].
  intros H.
  apply bind_Ok in H as (wte & s1 & _ & H).
  apply bind_Ok in H as (wpe & s2 & _ & H).
  apply bind_Ok in H as (lm & s3 & _ & H).
  apply bind_Ok in H as (ls & s4 & _ & H).
  injection H as <- <-. unfold adam_ok. cbn [m v params beta1 beta2 epsAdam].
  rewrite !length_replicate. split_and!; try done; try lra.
  apply Forall_forall. intros x Hx. apply elem_of_replicate in Hx as [-> _]. lra.
Qed.

(** X24. On a model the constructor built over a corpus that is not empty
    (and after any earlier [trainStep] calls), [trainStep] with a [numSteps]
    other than 0 returns: it takes
    the document [docs[step % docs.length]], returns a loss that is not
    negative and the incremented step, leaves the gradient of every
    parameter at 0, increments the module's generation counter once (one
    [backward]), keeps the parameter list, the configuration, the tokenizer,
    the corpus and the generator as they were, and leaves the model, with
    its optimizer state, ready for the next call. *)
Theorem trainStep_returns_and_resets_gradients (numSteps : R) (this : GPTModel)
    (s : Store) :
  numSteps ≠ 0%R →
  train_ready s this → adam_ok this →
  ∃ res this' s',
    trainStep numSteps this s = Ok ((res, this'), s') ∧
    train_ready s' this' ∧ adam_ok this' ∧
    step this' = S (step this) ∧
    ts_step res = S (step this) ∧
    docs this !! (step this mod length (docs this)) = Some (doc res) ∧
    (0 <= loss res)%R ∧
    (∀ p, p ∈ params this → gradf (cells s') p = 0%R) ∧
    module_gen s' = S (module_gen s) ∧
    config this' = config this ∧ stateDict this' = stateDict this ∧
    params this' = params this ∧ tokenizer this' = tokenizer this ∧
    docs this' = docs this ∧ rng this' = rng this.
Proof.
  intros _ Hready (Hlm & Hlv & Hv0 & Hb1 & Hb2 & Heps).
  destruct (trainStep_spec numSteps this s Hready)
    as (res & this' & s' & H1 & H2 & H3 & H4 & H5 & H6 & H7 & H8 & _ &
        H9 & H10 & H11 & H12 & H13 & H14 & _).
  exists res, this', s'. split_and!; try done.
  destruct (trainStep_run _ _ _ _ _ _ H1)
    as (Hp & Hbeta1 & Hbeta2 & Heps' & lr & bc1 & bc2 & s1 & s2 & Hadam).
  destruct (adam_update_moments _ _ _ _ _ _ _ _ _ _ _ _ _ _ Hadam) as [[Hm' Hv'] Hpos].
  unfold adam_ok. rewrite Hp, Hbeta1, Hbeta2, Heps', Hm', Hv'.
  split_and!; try done; try lra. apply Hpos; [lra|done].
Qed.

(** The first step on the model built from the corpus ["ab"] with seed 42. *)
Lemma trainStep_returns_and_resets_gradients_witness :
  ∃ this s,
    GPTModel_new [[97; 98]%N] 0 42 empty_store = Ok (this, s) ∧
    ∃ res this' s',
      trainStep 1000 this s = Ok ((res, this'), s') ∧
      train_ready s' this' ∧ adam_ok this' ∧
      step this' = S (step this) ∧
      ts_step res = S (step this) ∧
      docs this !! (step this mod length (docs this)) = Some (doc res) ∧
      (0 <= loss res)%R ∧
      (∀ p, p ∈ params this → gradf (cells s') p = 0%R) ∧
      module_gen s' = S (module_gen s) ∧
      config this' = config this ∧ stateDict this' = stateDict this ∧
      params this' = params this ∧ tokenizer this' = tokenizer this ∧
      docs this' = docs this ∧ rng this' = rng this.
Proof.
  destruct (GPTModel_new_train_ready [[97; 98]%N] 0 42 [[97; 98]%N] (MersenneTwister_new 42)
              empty_store eq_refl ltac:(discriminate) empty_store_wf)
    as (this & s & Hnew & Hready & _).
  exists this, s. split; [exact Hnew|].
  apply (trainStep_returns_and_resets_gradients 1000 this s); [lra|exact Hready|].
  exact (GPTModel_new_adam_ok _ _ _ _ _ _ Hnew).
Defined.

(** ** Sessions return *)

Lemma total_generate_len temperature maxLen this s :
  model_ok s this →
  default (blockSize (config this)) maxLen ≤ blockSize (config this) →
  total (generate temperature maxLen this) s
    (λ r s', same_weights this r.2 ∧
             length (tokens r.1) ≤ default (blockSize (config this)) maxLen).
Proof.
  intros Hmodel Hlen. pose proof Hmodel as (_ & _ & HBOS & _).
  assert (cache_ok s (config this) 0 (replicate (nLayer (config this)) [])) as Hcache.
  { split; [by rewrite length_replicate|].
    apply Forall_forall. intros rows Hr. apply elem_of_replicate in Hr as [-> _].
    split; [done|constructor]. }
  unfold generate. eapply total_bind.
  { apply (total_generate_loop temperature (default (blockSize (config this)) maxLen) 0
             (mkGenState this (Some (BOS (tokenizer this)))
                (replicate (nLayer (config this)) [])
                (replicate (nLayer (config this)) []) [] [] []) s);
      cbn [g_this g_tokenId g_keys g_vals]; try done.
    by exists (BOS (tokenizer this)). }
  intros st s1 He (Hsame & new & Hnew & Hl & _).
  cbn [g_this g_tokenIds app] in *. apply total_ret. cbn [fst snd tokens].
  rewrite Hnew. done.
Qed.

Lemma train_ready_ext s s' this this' :
  train_ready s this → ext s s' → wf_store s' → same_weights this this' →
  train_ready s' this'.
Proof.
  intros (Hmodel & _ & Hparams & HB & Hdocs & HV & corpus & Htk & Hsub) He Hwf
         (Hc & Hsd & Ht & Hp & Hd & Hs).
  unfold train_ready. rewrite Hc, Ht, Hp, Hd. split_and!; try done.
  - apply (model_ok_same _ this); [by repeat split|]. by apply (model_ok_ext s s').
  - eapply Forall_impl; [exact Hparams|]. intros r. by apply valid_ext.
  - by exists corpus.
Qed.

Lemma invoke_ready c this s :
  train_ready s this → call_in_context (blockSize (config this)) c →
  ∃ r this' s',
    invoke c this s = Ok ((r, this'), s') ∧
    train_ready s' this' ∧
    returned_ok (blockSize (config this)) c r ∧
    config this' = config this ∧
    trained_steps [r] = seq (S (step this)) (step this' - step this) ∧
    step this ≤ step this'.
Proof.
  intros Hready Hctx. pose proof Hready as (Hmodel & Hwf & _).
  destruct c as [numSteps|temperature maxLen|count temperature]; cbn [invoke].
  - destruct (trainStep_spec numSteps this s Hready)
      as (res & this' & s' & Hrun & Hready' & Hstep & Hts & _ & Hloss & _ & _ & _ & Hc & _).
    exists (Trained res), this', s'. rewrite (bind_run _ _ _ _ _ Hrun).
    unfold trained_steps. cbn [fst snd returned_ok omap list_omap]. rewrite Hstep, Hts.
    replace (S (step this) - step this) with 1 by lia.
    split_and!; try done. lia.
  - destruct (total_generate_len temperature maxLen this s Hmodel)
      as ([res this'] & s' & Hrun & Hext & Hsame & Hlen).
    { destruct maxLen as [len|]; cbn in *; lia. }
    cbn [fst snd] in *. exists (Generated res), this', s'.
    rewrite (bind_run _ _ _ _ _ Hrun). unfold trained_steps. cbn [fst snd returned_ok omap list_omap].
    pose proof Hsame as (Hc & _ & _ & _ & _ & Hs). rewrite Hs, Nat.sub_diag.
    split_and!; try done.
    apply (train_ready_ext s s' this); try done.
    by apply (oblivious_wf _ _ _ _ (oblivious_generate _ _ _) Hwf Hrun).
  - destruct (total_generateBatch count temperature this s Hmodel)
      as ([rs this'] & s' & Hrun & Hext & Hlen & Hsame & Hall).
    cbn [fst snd] in *. exists (GeneratedBatch rs), this', s'.
    rewrite (bind_run _ _ _ _ _ Hrun). unfold trained_steps. cbn [fst snd returned_ok omap list_omap].
    pose proof Hsame as (Hc & _ & _ & _ & _ & Hs). rewrite Hs, Nat.sub_diag.
    split_and!; try done.
    + apply (train_ready_ext s s' this); try done.
      by apply (oblivious_wf _ _ _ _ (oblivious_generateBatch _ _ _) Hwf Hrun).
    + eapply Forall_impl; [exact Hall|]. by intros g [Hg _].
Qed.

Lemma invoke_all_ready B cs : ∀ this s,
  train_ready s this → blockSize (config this) = B →
  Forall (call_in_context B) cs →
  ∃ rs s',
    invoke_all cs this s = Ok (rs, s') ∧
    Forall2 (returned_ok B) cs rs ∧
    trained_steps rs = seq (S (step this)) (length (trained_steps rs)).
Proof.
  induction cs as [|c cs IH]; intros this s Hready HB Hctx; cbn [invoke_all].
  - exists [], s. split_and!; [done|constructor|done].
  - apply Forall_cons in Hctx as [Hc Hctx]. subst B.
    destruct (invoke_ready c this s Hready Hc)
      as (r & this1 & s1 & Hrun & Hready1 & Hok & Hcfg & Hsteps & Hle).
    destruct (IH this1 s1 Hready1 ltac:(by rewrite Hcfg) Hctx)
      as (rs & s2 & Hrun2 & Hoks & Hsteps2).
    exists (r :: rs), s2. rewrite (bind_run _ _ _ _ _ Hrun). cbn [fst snd].
    rewrite (bind_run _ _ _ _ _ Hrun2). split_and!; [done|by constructor|].
    change (r :: rs) with ([r] ++ rs). unfold trained_steps in *. rewrite omap_app.
    set (a := omap _ [r]) in *. set (b := omap _ rs) in *.
    assert (length a = step this1 - step this) as Hla by (by rewrite Hsteps, length_seq).
    rewrite length_app, seq_app, Hla, <- Hsteps.
    replace (S (step this) + (step this1 - step this)) with (S (step this1)) by lia.
    by rewrite <- Hsteps2.
Qed.

Lemma mapM_get_data_run l s :
  Forall (valid s) l → mapM get_data l s = Ok (map (dat s) l, s).
Proof.
  induction 1 as [|r l [v Hv] _ IH]; [done|].
  cbn [mapM map]. unfold bind at 1. unfold get_data at 1, bind, get. rewrite Hv.
  unfold ret at 1. fold (mapM (S:=Store) get_data). rewrite IH.
  unfold ret, dat. by rewrite Hv.
Qed.

(** X25. A session on a corpus that is not empty returns: after
    [new GPTModel(seed)] (whenever its [shuffle] returns), no sequence of
    [trainStep] (with a [numSteps] other than 0), [generate] (without
    [maxLen] or with one of at most [blockSize]) and [generateBatch] calls
    throws. Every [trainStep] returns
    a loss that is not negative, and the steps they return count 1, 2, 3, ...;
    every [generate] returns at most [maxLen] tokens and every
    [generateBatch(count)] returns [count] results. The run shows the
    [32 * vocabSize + 3328] initial parameter values and a corpus order that
    is a permutation of [NAMES]. *)
Theorem session_returns (NAMES : list (list N)) (draw_fuel : nat) (seed : Z)
    (calls : list method_call) (docs0 : list (list N)) (rng0 : MersenneTwister)
    (s : Store) :
  shuffle draw_fuel NAMES (MersenneTwister_new seed) = Ok (docs0, rng0) →
  NAMES ≠ [] → wf_store s →
  Forall (call_in_context 16) calls →
  ∃ run s',
    session NAMES draw_fuel seed calls s = Ok (run, s') ∧
    corpus_order run = docs0 ∧ docs0 ≡ₚ NAMES ∧
    length (initial_params run) = 32 * vocabSize (createTokenizer NAMES) + 3328 ∧
    Forall2 (returned_ok 16) calls (returns run) ∧
    trained_steps (returns run) = seq 1 (length (trained_steps (returns run))).
Proof.
  intros Hsh Hne Hwf Hctx.
  destruct (GPTModel_new_train_ready NAMES draw_fuel seed docs0 rng0 s Hsh Hne Hwf)
    as (this & s1 & Hnew & Hready & Hstep & Hdocs & Hcfg & Hvalid & Hcount).
  destruct (invoke_all_ready 16 calls this s1 Hready ltac:(by rewrite Hcfg) Hctx)
    as (rs & s2 & Hrun & Hoks & Hsteps).
  exists (mkRun (map (dat s1) (params this)) (docs this) rs), s2.
  cbn [corpus_order initial_params returns]. split_and!; try done.
  - unfold session. rewrite (bind_run _ _ _ _ _ Hnew).
    rewrite (bind_run _ _ _ _ _ (mapM_get_data_run _ _ Hvalid)).
    by rewrite (bind_run _ _ _ _ _ Hrun).
  - by apply (shuffle_from_Permutation _ _ _ _ _ _ Hsh).
  - by rewrite length_map.
  - by rewrite Hstep in Hsteps.
Qed.

(** The corpus ["ab"], seed 42: two steps, a sample, a step, a batch. *)
Lemma session_returns_witness :
  ∃ run s',
    session [[97; 98]%N] 0 42
      [CallTrainStep 1000; CallTrainStep 1000; CallGenerate 0.5 None;
       CallTrainStep 1000; CallGenerateBatch 2 0.5] empty_store = Ok (run, s') ∧
    corpus_order run = [[97; 98]%N] ∧ [[97; 98]%N] ≡ₚ [[97; 98]%N] ∧
    length (initial_params run) = 32 * vocabSize (createTokenizer [[97; 98]%N]) + 3328 ∧
    Forall2 (returned_ok 16)
      [CallTrainStep 1000; CallTrainStep 1000; CallGenerate 0.5 None;
       CallTrainStep 1000; CallGenerateBatch 2 0.5] (returns run) ∧
    trained_steps (returns run) = seq 1 (length (trained_steps (returns run))).
Proof.
  apply (session_returns [[97; 98]%N] 0 42 _ [[97; 98]%N] (MersenneTwister_new 42)
           empty_store eq_refl).
  - discriminate.
  - exact empty_store_wf.
  - repeat (constructor; [cbn; first [lra|exact I]|]). constructor.
Defined.

(** ** [src/lib/gpt.ts]: [linear] *)

Lemma total_dot_data wo x n s0 s :
  0 < n → ext s0 s → vec_ok s0 n wo → vec_ok s0 n x →
  total (ps <- imapM (λ i wi, o <- arg (x !! i) ;; mul wi o) wo ;; vsum ps) s
        (λ r s', has_data s' r (dot (map (dat s0) wo) (map (dat s0) x))).
Proof.
  intros Hn He0 [Hlw Hvw] [Hlx Hvx]. rewrite Forall_forall in Hvw, Hvx.
  eapply total_bind.
  { apply (total_imapM _ wo s
             (λ j wi b s', ∃ xi, x !! j = Some xi ∧
                                 has_data s' b (dat s0 wi * dat s0 xi)%R)).
    - intros j a b s1 s2 (xi & Hxi & Hd) He. exists xi. split; [done|].
      by eapply has_data_ext.
    - intros j wi s1 Hj He1.
      destruct (lookup_lt_is_Some_2 x j) as [xi Hxi].
      { apply lookup_lt_Some in Hj. lia. }
      rewrite Hxi. cbn [arg]. unfold bind at 1, ret at 1.
      eapply total_mono.
      + apply (total_mul wi (OValue xi) s1 (dat s0 wi) (dat s0 xi)).
        * apply (has_data_ext s0 s1); [ext_tac|]. apply valid_has_data, Hvw.
          by eapply list_elem_of_lookup_2.
        * cbn [operand_data]. apply (has_data_ext s0 s1); [ext_tac|].
          apply valid_has_data, Hvx. by eapply list_elem_of_lookup_2.
      + intros b s2 _ Hb. by exists xi. }
  intros ps s1 He1 [Hlen Hps]. cbn beta in *.
  assert (total (vsum ps) s1
            (λ r s', has_data s' r
               (sum_left (zip_with Rmult (map (dat s0) wo) (map (dat s0) x))))) as Hv;
    [apply total_vsum|].
  3: { eapply total_mono; [exact Hv|]. intros r s' _ Hr. cbn beta in Hr.
       unfold dot. by rewrite <- sum_left_Rsum. }
  - intros ->. cbn in Hlen. lia.
  - apply Forall2_same_length_lookup_2.
    { rewrite length_zip_with, !length_map. lia. }
    intros j p d Hp Hd.
    apply lookup_zip_with_Some in Hd as (a & b & -> & Ha & Hb).
    change (map (dat s0) wo) with (dat s0 <$> wo) in Ha.
    change (map (dat s0) x) with (dat s0 <$> x) in Hb.
    rewrite list_lookup_fmap in Ha, Hb.
    destruct (wo !! j) as [wi|] eqn:Hwi; [|done].
    destruct (x !! j) as [xi|] eqn:Hxi; [|done].
    cbn in Ha, Hb. injection Ha as <-. injection Hb as <-.
    destruct (Hps j wi p Hwi Hp) as (xi' & Hxi' & Hdata).
    rewrite Hxi in Hxi'. by injection Hxi' as <-.
Qed.

(** X26. [linear(x, w)] is the matrix-vector product: for a matrix of rows as
    long as the vector [x] (not empty), all of them objects of the store, it
    returns one new node per row whose [data] is the dot product of the
    row's [data] with the [data] of [x], and changes no existing object. *)
Theorem linear_is_matrix_vector_product (s : Store) (x : list nat)
    (w : list (list nat)) (rows n : nat) :
  0 < n → vec_ok s n x → mat_ok s rows n w →
  ∃ y s',
    linear x w s = Ok (y, s') ∧ ext s s' ∧
    length y = rows ∧
    map (dat s') y = map (λ wo, dot (map (dat s) wo) (map (dat s) x)) w.
Proof.
  intros Hn Hx [Hrows Hw].
  destruct (total_mapM_data
              (λ wo, ps <- imapM (λ i wi, o <- arg (x !! i) ;; mul wi o) wo ;; vsum ps)
              (λ wo, dot (map (dat s) wo) (map (dat s) x)) w s)
    as (y & s' & Hrun & Hext & Hy).
  { intros wo s1 Hin He. apply (total_dot_data wo x n s s1); try done.
    rewrite Forall_forall in Hw. by apply Hw. }
  exists y, s'. split; [exact Hrun|]. split; [done|].
  destruct (Forall2_has_data_dat _ _ _ Hy) as [Hmap _].
  split; [|done]. apply Forall2_length in Hy. by rewrite Hy, length_map.
Qed.

Lemma linear_is_matrix_vector_product_witness :
  ∃ y s',
    linear [0; 1] [[1; 0]; [2; 3]] demo_store = Ok (y, s') ∧ ext demo_store s' ∧
    length y = 2 ∧
    map (dat s') y =
      map (λ wo, dot (map (dat demo_store) wo) (map (dat demo_store) [0; 1]))
          [[1; 0]; [2; 3]].
Proof.
  apply (linear_is_matrix_vector_product demo_store [0; 1] [[1; 0]; [2; 3]] 2 2).
  - lia.
  - split; [done|]. repeat constructor; eexists; reflexivity.
  - split; [done|]. repeat constructor; eexists; reflexivity.
Defined.

(** ** [src/lib/gpt.ts]: [generate] with a [maxLen] beyond the context *)

Lemma returns_or_throws_bind {A B} (m : M A) (k : A → M B) s
    (Q1 : A → Store → Prop) (Q : B → Store → Prop) (E : Prop) :
  total m s Q1 →
  (∀ a s1, ext s s1 → Q1 a s1 → returns_or_throws (k a) s1 Q E) →
  returns_or_throws (bind m k) s Q E.
Proof.
  intros (a & s1 & Hm & He & HQ1) Hk. unfold returns_or_throws.
  rewrite (bind_run _ _ _ _ _ Hm). by apply Hk.
Qed.

Lemma forward_beyond_context this t posId keys values s :
  model_ok s this → t < cfg_vocabSize (config this) →
  blockSize (config this) ≤ posId →
  forward this (Some t) posId keys values s = Stop TypeError.
Proof.
  intros (Hhd & Hsplit & _ & (wte & Hwte & Hwl & Hwv) & (wpe & Hwpe & Hpl & Hpv) & _) Ht Hpos.
  unfold forward, bind. rewrite Hwte. cbn [defined ret]. rewrite Hwpe. cbn [defined ret].
  cbn [mbind option_bind].
  destruct (lookup_lt_is_Some_2 wte t) as [tokEmb Htok]; [lia|]. rewrite Htok.
  rewrite (proj2 (lookup_ge_None wpe posId)) by lia. cbn [defined ret].
  assert (vec_ok s (nEmbd (config this)) tokEmb) as [Hlen _].
  { rewrite Forall_forall in Hwv. apply Hwv. by eapply list_elem_of_lookup_2. }
  destruct tokEmb as [|e tokEmb]; [|done].
  exfalso. cbn in Hlen. rewrite <- Hlen in Hhd.
  destruct (nHead (config this)); cbn in Hhd; lia.
Qed.

Lemma generate_loop_any_length temperature count : ∀ posId st s,
  model_ok s (g_this st) →
  posId ≤ blockSize (config (g_this st)) →
  (∃ t, g_tokenId st = Some t ∧ t < cfg_vocabSize (config (g_this st))) →
  cache_ok s (config (g_this st)) posId (g_keys st) →
  cache_ok s (config (g_this st)) posId (g_vals st) →
  returns_or_throws (generate_loop temperature count posId st) s
    (λ st' s', ∃ new, g_tokenIds st' = g_tokenIds st ++ new ∧
                      length new ≤ count ∧
                      posId + length new ≤ blockSize (config (g_this st)))
    (blockSize (config (g_this st)) < posId + count).
Proof.
  induction count as [|count IH]; intros posId st s Hmodel Hpos Htok Hk Hv;
    cbn [generate_loop].
  - left. exists st, s. split; [done|]. exists []. rewrite app_nil_r. cbn. split_and!; [done|lia|lia].
  - set (this := g_this st) in *. cbn zeta.
    destruct (decide (posId = blockSize (config this))) as [Heq|Hne].
    { right. destruct Htok as (t & Ht & Htv). rewrite Ht. split; [|lia].
      unfold bind at 1.
      by rewrite (forward_beyond_context this t posId _ _ s Hmodel Htv ltac:(lia)). }
    eapply returns_or_throws_bind.
    { apply (total_forward this (g_tokenId st) posId (g_keys st) (g_vals st) posId s);
        try done. lia. }
    intros [[[logits ads] keys] vals] s1 He1 (Hlogits & _ & Hk1 & Hv1).
    cbn [fst snd] in *. cbn beta iota.
    eapply returns_or_throws_bind.
    { apply (total_mapM_valid _ logits s1). intros l sa Hl Hea.
      unfold div. apply total_mul_valid; [|done].
      apply (valid_ext s1 sa); [done|]. by eapply vec_ok_elem. }
    intros scaled s2 He2 Hscaled. cbn beta in *.
    destruct Hlogits as [Hll _]. rewrite Hll in Hscaled.
    pose proof Hmodel as (_ & _ & HBOS & _).
    eapply returns_or_throws_bind.
    { apply total_softmax; [|by destruct Hscaled].
      intros ->. destruct Hscaled as [Hls _]. simpl in Hls. fold this in HBOS. lia. }
    intros probs s3 He3 Hprobs. cbn beta in *.
    assert (length probs = cfg_vocabSize (config this)) as Hlp.
    { rewrite (Forall2_length _ _ _ Hprobs), softmax_data_length, length_map.
      by destruct Hscaled. }
    eapply returns_or_throws_bind.
    { apply total_mapM_get_data. by apply (Forall2_has_data_dat _ _ _ Hprobs). }
    intros weights s4 He4 ->. cbn beta.
    eapply returns_or_throws_bind; [apply total_on_rng_choices|].
    intros [tokenId this'] s5 He5 [(lo & Hdraw & Hlo) Hsame]. cbn [fst snd] in *. cbn beta zeta.
    rewrite length_map, Hlp in Hlo.
    assert (tokenId = Some lo ∧ lo < cfg_vocabSize (config this)) as [-> Hlov].
    { fold this in HBOS. assert (lo < cfg_vocabSize (config this)) by lia.
      split; [|done]. rewrite Hdraw. by apply lookup_seq_lt. }
    pose proof Hsame as (Hc & Hsd & Htk & Hrest).
    case_decide as Hbos.
    + left. eexists _, s5. split; [reflexivity|]. cbn [g_tokenIds].
      exists []. rewrite app_nil_r. cbn. split_and!; [done|lia|lia].
    + destruct (IH (S posId)
                  (mkGenState this' (Some lo) keys vals (g_tokenIds st ++ [Some lo])
                     (g_tokenChars st ++ [tokenToChar (tokenizer this') (Some lo)])
                     (merge_attention (g_allAttention st) ads)) s5)
        as [(st' & s6 & Hrun & new & Hnew & Hlen & Hbound)|[Hstop HE]];
        cbn [g_this g_tokenId g_keys g_vals g_tokenIds] in *.
      * apply (model_ok_same _ this); [done|].
        apply (model_ok_ext s s5); [ext_tac|done].
      * rewrite Hc. lia.
      * exists lo. by rewrite Hc.
      * rewrite Hc. apply (cache_ok_ext s1 s5); [ext_tac|done].
      * rewrite Hc. apply (cache_ok_ext s1 s5); [ext_tac|done].
      * left. exists st', s6. split; [done|]. exists (Some lo :: new).
        rewrite Hnew, <- app_assoc. rewrite Hc in Hbound. cbn. split_and!; [done|lia|lia].
      * right. split; [done|]. rewrite Hc in HE. lia.
Qed.

(** X27. [generate] never returns more than [blockSize] tokens, whatever
    [maxLen] is: on a model of the constructor's shape it either returns at
    most [min(maxLen, blockSize)] tokens, or it throws a [TypeError], which
    can only happen when [maxLen] is larger than [blockSize] (the forward
    pass at position [blockSize] reads a row of the position table that does
    not exist). *)
Theorem generate_never_exceeds_context (temperature : R) (maxLen : option nat)
    (this : GPTModel) (s : Store) :
  model_ok s this →
  (∃ res this' s',
     generate temperature maxLen this s = Ok ((res, this'), s') ∧
     length (tokens res) ≤ default (blockSize (config this)) maxLen ∧
     length (tokens res) ≤ blockSize (config this)) ∨
  (generate temperature maxLen this s = Stop TypeError ∧
   blockSize (config this) < default (blockSize (config this)) maxLen).
Proof.
  intros Hmodel. pose proof Hmodel as (_ & _ & HBOS & _).
  assert (cache_ok s (config this) 0 (replicate (nLayer (config this)) [])) as Hcache.
  { split; [by rewrite length_replicate|].
    apply Forall_forall. intros rows Hr. apply elem_of_replicate in Hr as [-> _].
    split; [done|constructor]. }
  destruct (generate_loop_any_length temperature
              (default (blockSize (config this)) maxLen) 0
              (mkGenState this (Some (BOS (tokenizer this)))
                 (replicate (nLayer (config this)) [])
                 (replicate (nLayer (config this)) []) [] [] []) s)
    as [(st & s' & Hrun & new & Hnew & Hlen & Hbound)|[Hstop HE]];
    cbn [g_this g_tokenId g_keys g_vals g_tokenIds app] in *; try done; try lia.
  - by exists (BOS (tokenizer this)).
  - left. eexists _, _, s'. unfold generate. rewrite (bind_run _ _ _ _ _ Hrun).
    split; [reflexivity|]. cbn [tokens]. rewrite Hnew. lia.
  - right. split; [|lia]. unfold generate, bind. by rewrite Hstop.
Qed.

(** The model built from the corpus ["ab"] with seed 42, and [maxLen] 20. *)
Lemma generate_never_exceeds_context_witness :
  ∃ this s,
    GPTModel_new [[97; 98]%N] 0 42 empty_store = Ok (this, s) ∧
    ((∃ res this' s',
        generate 0.5 (Some 20) this s = Ok ((res, this'), s') ∧
        length (tokens res) ≤ default (blockSize (config this)) (Some 20) ∧
        length (tokens res) ≤ blockSize (config this)) ∨
     (generate 0.5 (Some 20) this s = Stop TypeError ∧
      blockSize (config this) < default (blockSize (config this)) (Some 20))).
Proof.
  destruct (GPTModel_new_built [[97; 98]%N] 0 42 [[97; 98]%N] (MersenneTwister_new 42)
              empty_store eq_refl) as (this & gs & Hnew & Hok & _).
  eexists this, _. split; [exact Hnew|].
  exact (generate_never_exceeds_context 0.5 (Some 20) this _ Hok).
Defined.

(** ** [src/components/TemperatureControl.tsx]: [SeededRandom] *)

Lemma i32_range x : (- 2 ^ 31 ≤ i32 x < 2 ^ 31)%Z.
Proof.
  unfold i32. pose proof (Z.mod_pos_bound (x + 2 ^ 31) (2 ^ 32) ltac:(lia)). lia.
Qed.

Lemma js_and_all_ones x : js_and x 0xffffffff = i32 x.
Proof.
  unfold js_and. change (i32 4294967295) with (-1)%Z. apply Z.land_m1_r.
Qed.

Lemma u32_max_iff x :
  (- 2 ^ 31 ≤ x < 2 ^ 31)%Z → u32 x = 4294967295%Z ↔ x = (-1)%Z.
Proof.
  intros Hx. unfold u32. change (2 ^ 32)%Z with 4294967296%Z.
  change (2 ^ 31)%Z with 2147483648%Z in Hx. split.
  - intros H. destruct (decide (0 ≤ x)%Z).
    + rewrite Z.mod_small in H by lia. lia.
    + replace x with ((x + 4294967296) + (-1) * 4294967296)%Z in H by lia.
      rewrite Z.mod_add, Z.mod_small in H by lia. lia.
  - intros ->. reflexivity.
Qed.

(** X28. [SeededRandom.next()] of the embedded copy returns a number between
    0 and 1 inclusive: it divides a 32-bit value by [0xffffffff], not by
    2^32, so it returns exactly 1 when the new state is -1 (all 32 bits
    set), and only then. The index [shuffle] computes from it,
    [Math.floor(next() * (i + 1))], is then [i + 1], outside the range
    [0 .. i] that the exchange needs, and only then. The state -1 is
    reached: [next()] on the state 653637408 returns 1. *)
Theorem SeededRandom_next_can_return_one (s : Z) (i : nat) :
  (- 2 ^ 31 ≤ s < 2 ^ 31)%Z →
  ∃ r s' j,
    SeededRandom_next s = Ok (r, s') ∧
    (- 2 ^ 31 ≤ s' < 2 ^ 31)%Z ∧
    (0 <= r <= 1)%R ∧
    (r = 1%R ↔ s' = (-1)%Z) ∧
    SeededRandom_shuffle_index i s = Ok (j, s') ∧
    (0 ≤ j ≤ Z.of_nat i + 1)%Z ∧
    (j = (Z.of_nat i + 1)%Z ↔ r = 1%R) ∧
    SeededRandom_next 653637408%Z = Ok (1%R, (-1)%Z).
Proof.
  intros Hs. unfold SeededRandom_shuffle_index, bind, SeededRandom_next, ret.
  rewrite js_and_all_ones.
  set (s' := i32 (s * 1664525 + 1013904223)).
  pose proof (i32_range (s * 1664525 + 1013904223)) as Hs'. fold s' in Hs'.
  assert (js_ushr s' 0 = u32 s') as -> by (unfold js_ushr; apply Z.shiftr_0_r).
  pose proof (u32_range s') as Hu. change (2 ^ 32)%Z with 4294967296%Z in Hu.
  set (r := (IZR (u32 s') / 4294967295)%R).
  assert (0 <= IZR (u32 s') <= 4294967295)%R as [H0 H1].
  { split; [apply IZR_le; lia|apply IZR_le; lia]. }
  assert (0 <= r <= 1)%R as Hr.
  { unfold r. split.
    - apply Rmult_le_pos; [done|]. apply Rlt_le, Rinv_0_lt_compat. lra.
    - apply (Rmult_le_reg_r 4294967295); [lra|]. unfold Rdiv.
      rewrite Rmult_assoc, Rinv_l by lra. lra. }
  assert (r = 1%R ↔ s' = (-1)%Z) as Hone.
  { rewrite <- (u32_max_iff s' Hs'). unfold r. split.
    - intros H. apply eq_IZR. apply (Rmult_eq_reg_r (/ 4294967295)); [|lra].
      unfold Rdiv in H. rewrite H. field.
    - intros ->. field. }
  set (x := (r * INR (i + 1))%R).
  assert (0 < INR (i + 1))%R as Hi by (apply lt_0_INR; lia).
  assert (INR (i + 1) = IZR (Z.of_nat i + 1)) as HINR.
  { rewrite INR_IZR_INZ. f_equal. lia. }
  destruct (base_Int_part x) as [Hlo Hhi].
  assert (0 <= x <= IZR (Z.of_nat i + 1))%R as [Hx0 Hx1].
  { unfold x. rewrite <- HINR. split; nra. }
  exists r, s', (Int_part x). split; [reflexivity|]. split; [done|]. split; [done|].
  split; [done|]. split; [reflexivity|]. split; [|split].
  - split.
    + assert (-1 < Int_part x)%Z; [|lia]. apply lt_IZR. lra.
    + apply le_IZR. lra.
  - split.
    + intros Hj. rewrite Hj in Hlo. unfold x in Hlo. rewrite <- HINR in Hlo.
      assert (1 <= r)%R by nra. lra.
    + intros Hr1. assert (x = IZR (Z.of_nat i + 1)) as Hx.
      { unfold x. rewrite Hr1, HINR. lra. }
      assert (Z.of_nat i < Int_part x)%Z as Hgt.
      { apply lt_IZR. rewrite plus_IZR in Hx. lra. }
      assert (Int_part x ≤ Z.of_nat i + 1)%Z by (apply le_IZR; lra). lia.
  - rewrite js_and_all_ones. vm_compute i32. vm_compute js_ushr. f_equal. f_equal. field.
Qed.

Lemma SeededRandom_next_can_return_one_witness :
  ∃ r s' j,
    SeededRandom_next 653637408%Z = Ok (r, s') ∧
    (- 2 ^ 31 ≤ s' < 2 ^ 31)%Z ∧
    (0 <= r <= 1)%R ∧
    (r = 1%R ↔ s' = (-1)%Z) ∧
    SeededRandom_shuffle_index 4 653637408%Z = Ok (j, s') ∧
    (0 ≤ j ≤ Z.of_nat 4 + 1)%Z ∧
    (j = (Z.of_nat 4 + 1)%Z ↔ r = 1%R) ∧
    SeededRandom_next 653637408%Z = Ok (1%R, (-1)%Z).
Proof.
  apply (SeededRandom_next_can_return_one 653637408%Z 4). lia.
Defined.

(** ** [src/lib/gpt.ts]: the attention trace that [generate] merges *)

Lemma merge_step_append all ad :
  Forall (λ a, attention_key a ≠ attention_key ad) all →
  merge_attention all [ad] = all ++ [ad].
Proof.
  intros Hall. unfold merge_attention. cbn [foldl].
  rewrite (proj2 (list_find_None _ all)); [done|].
  eapply Forall_impl; [exact Hall|]. intros a Hne [H1 H2]. apply Hne.
  unfold attention_key. by rewrite H1, H2.
Qed.

Lemma merge_step_update upd a rest ad :
  attention_key a = attention_key ad →
  Forall (λ u, attention_key u ≠ attention_key ad) upd →
  merge_attention (upd ++ a :: rest) [ad] = upd ++ push_row a ad :: rest.
Proof.
  intros Hkey Hupd. unfold merge_attention. cbn [foldl].
  injection Hkey as Hl Hh.
  rewrite (proj2 (list_find_Some _ (upd ++ a :: rest) (length upd) a)).
  - by rewrite insert_app_r_alt, Nat.sub_diag by lia.
  - split_and!; [by rewrite list_lookup_middle|done|done|].
    intros j y Hj Hlt [H1 H2]. rewrite lookup_app_l in Hj by done.
    rewrite Forall_forall in Hupd. apply (Hupd y); [by eapply list_elem_of_lookup_2|].
    unfold attention_key. by rewrite H1, H2.
Qed.

Lemma merge_attention_snoc all ad ads :
  merge_attention all (ad :: ads) = merge_attention (merge_attention all [ad]) ads.
Proof. done. Qed.

Lemma merge_fresh ads : ∀ done,
  NoDup (map attention_key (done ++ ads)) →
  merge_attention done ads = done ++ ads.
Proof.
  induction ads as [|ad ads IH]; intros done Hnd.
  - by rewrite app_nil_r.
  - rewrite merge_attention_snoc, merge_step_append.
    + rewrite IH; [by rewrite <- app_assoc|]. by rewrite <- app_assoc.
    + rewrite map_app in Hnd. apply NoDup_app in Hnd as (_ & Hdis & _).
      apply Forall_forall. intros a Ha Heq.
      apply (Hdis (attention_key a)); [by apply list_elem_of_fmap_2|].
      rewrite Heq. cbn [map]. by left.
Qed.

Lemma merge_rows ads : ∀ upd rest,
  map attention_key rest = map attention_key ads →
  NoDup (map attention_key (upd ++ rest)) →
  merge_attention (upd ++ rest) ads = upd ++ zip_with push_row rest ads.
Proof.
  induction ads as [|ad ads IH]; intros upd rest Hkeys Hnd.
  - destruct rest; [done|discriminate].
  - destruct rest as [|a rest]; [discriminate|]. cbn [map] in Hkeys.
    assert (attention_key a = attention_key ad) as Hkey by congruence.
    assert (map attention_key rest = map attention_key ads) as Hrest by congruence.
    clear Hkeys.
    rewrite merge_attention_snoc, merge_step_update; [|done|].
    + cbn [zip_with]. rewrite (cons_middle _ upd), app_assoc.
      rewrite IH; [by rewrite <- app_assoc|done|].
      rewrite <- app_assoc. cbn [app].
      rewrite map_app in Hnd |- *. cbn [map] in Hnd |- *. exact Hnd.
    + rewrite map_app in Hnd. apply NoDup_app in Hnd as (_ & Hdis & _).
      apply Forall_forall. intros u Hu Heq.
      apply (Hdis (attention_key u)); [by apply list_elem_of_fmap_2|].
      rewrite Heq, <- Hkey. cbn [map]. by left.
Qed.

Lemma layer_heads_NoDup cfg li count : NoDup (layer_heads cfg li count).
Proof.
  unfold layer_heads. apply NoDup_bind; [| |apply NoDup_seq].
  - intros l1 l2 [l h] _ _ H1 H2.
    apply list_elem_of_bind in H1 as (h1 & H1 & _).
    apply list_elem_of_bind in H2 as (h2 & H2 & _).
    apply list_elem_of_singleton in H1, H2. congruence.
  - intros l _. apply NoDup_bind; [| |apply NoDup_seq].
    + intros h1 h2 y _ _ H1 H2. apply list_elem_of_singleton in H1, H2. congruence.
    + intros h _. apply NoDup_singleton.
Qed.

Lemma attention_ok_keys cfg p1 li count ads :
  attention_ok cfg p1 li count ads →
  map attention_key ads = layer_heads cfg li count.
Proof.
  unfold attention_ok. induction 1 as [|[l h] ad lhs ads (Hl & Hh & _) _ IH]; [done|].
  cbn [map]. rewrite IH. unfold attention_key. cbn [fst snd] in *. by rewrite Hl, Hh.
Qed.

Lemma trace_ok_keys cfg k all :
  trace_ok cfg k all → map attention_key all = layer_heads cfg 0 (nLayer cfg).
Proof.
  unfold trace_ok. induction 1 as [|[l h] a lhs all (Hl & Hh & _) _ IH]; [done|].
  cbn [map]. rewrite IH. unfold attention_key. cbn [fst snd] in *. by rewrite Hl, Hh.
Qed.

Lemma triangular_snoc k ws row :
  triangular k ws → row_ok (S k) row → triangular (S k) (ws ++ [row]).
Proof.
  intros [Hlen Hrows] Hrow. split; [rewrite length_app; simpl; lia|].
  intros i r Hi. destruct (decide (i < k)) as [Hlt|Hge].
  - rewrite lookup_app_l in Hi by lia. by apply Hrows.
  - rewrite lookup_app_r in Hi by lia.
    destruct (i - length ws) as [|j] eqn:Hj; [|done].
    injection Hi as <-. replace i with k by lia. done.
Qed.

Lemma trace_merge cfg k all ads :
  trace_inv cfg k all →
  attention_ok cfg (S k) 0 (nLayer cfg) ads →
  trace_ok cfg (S k) (merge_attention all ads).
Proof.
  intros [[-> ->]|[_ Hall]] Hads.
  - pose proof (merge_fresh ads []) as Hm. cbn [app] in Hm. rewrite Hm.
    + unfold trace_ok. eapply Forall2_impl; [exact Hads|].
      intros [l h] ad (Hl & Hh & row & Hw & Hrow). split_and!; [done|done|].
      rewrite Hw. apply (triangular_snoc 0 [] row); [|done].
      split; [done|]. intros i r Hi. done.
    + rewrite (attention_ok_keys _ _ _ _ _ Hads). apply layer_heads_NoDup.
  - pose proof (merge_rows ads [] all) as Hm. cbn [app] in Hm. rewrite Hm.
    + clear Hm. unfold trace_ok, attention_ok in *.
      revert ads Hads. induction Hall as [|[l h] a lhs all (Hl & Hh & Htri) _ IH];
        intros ads Hads; inversion Hads as [|? ad ? ads' (Hl' & Hh' & row & Hw & Hrow) Hads']; subst.
      * constructor.
      * cbn [zip_with]. constructor; [|by apply IH].
        cbn [push_row layer head weights]. split_and!; [done|done|].
        rewrite Hw. cbn [take]. by apply triangular_snoc.
    + by rewrite (trace_ok_keys _ _ _ Hall), (attention_ok_keys _ _ _ _ _ Hads).
    + rewrite (trace_ok_keys _ _ _ Hall). apply layer_heads_NoDup.
Qed.

Lemma total_generate_loop_trace temperature count :
  ∀ posId st s,
    model_ok s (g_this st) →
    posId + count ≤ blockSize (config (g_this st)) →
    (∃ t, g_tokenId st = Some t ∧ t < cfg_vocabSize (config (g_this st))) →
    cache_ok s (config (g_this st)) posId (g_keys st) →
    cache_ok s (config (g_this st)) posId (g_vals st) →
    length (g_tokenIds st) = posId →
    trace_inv (config (g_this st)) posId (g_allAttention st) →
    total (generate_loop temperature count posId st) s
      (λ st' s',
         trace_inv (config (g_this st)) (length (g_tokenIds st')) (g_allAttention st')).
Proof.
  induction count as [|count IH]; intros posId st s Hmodel Hlen Htok Hk Hv Hids Htr;
    cbn [generate_loop].
  - apply total_ret. by rewrite Hids.
  - set (this := g_this st) in *. cbn zeta.
    eapply total_bind.
    { apply (total_forward this (g_tokenId st) posId (g_keys st) (g_vals st) posId s);
        try done. lia. }
    intros [[[logits ads] keys] vals] s1 He1 (Hlogits & Hads & Hk1 & Hv1).
    cbn [fst snd] in *. cbn beta iota.
    eapply total_bind.
    { apply (total_mapM_valid _ logits s1). intros l sa Hl Hea.
      unfold div. apply total_mul_valid; [|done].
      apply (valid_ext s1 sa); [done|]. by eapply vec_ok_elem. }
    intros scaled s2 He2 Hscaled. cbn beta in *.
    destruct Hlogits as [Hll _]. rewrite Hll in Hscaled.
    pose proof Hmodel as (_ & _ & HBOS & _).
    eapply total_bind.
    { apply total_softmax; [|by destruct Hscaled].
      intros ->. destruct Hscaled as [Hls _]. simpl in Hls. fold this in HBOS. lia. }
    intros probs s3 He3 Hprobs. cbn beta in *.
    assert (length probs = cfg_vocabSize (config this)) as Hlp.
    { rewrite (Forall2_length _ _ _ Hprobs), softmax_data_length, length_map.
      by destruct Hscaled. }
    eapply total_bind.
    { apply total_mapM_get_data. by apply (Forall2_has_data_dat _ _ _ Hprobs). }
    intros weights s4 He4 ->. cbn beta.
    eapply total_bind; [apply total_on_rng_choices|].
    intros [tokenId this'] s5 He5 [(lo & Hdraw & Hlo) Hsame]. cbn [fst snd] in *. cbn beta zeta.
    rewrite length_map, Hlp in Hlo.
    assert (tokenId = Some lo ∧ lo < cfg_vocabSize (config this)) as [-> Hlov].
    { fold this in HBOS. assert (lo < cfg_vocabSize (config this)) by lia.
      split; [|done]. rewrite Hdraw. by apply lookup_seq_lt. }
    pose proof Hsame as (Hc & Hsd & Htk & Hrest).
    case_decide as Hbos.
    + apply total_ret. cbn [g_this g_tokenIds g_allAttention]. by rewrite Hids.
    + eapply total_mono.
      * apply (IH (S posId)); cbn [g_this g_tokenId g_keys g_vals g_tokenIds g_allAttention].
        -- apply (model_ok_same _ this); [done|].
           apply (model_ok_ext s s5); [ext_tac|done].
        -- rewrite Hc. lia.
        -- exists lo. rewrite Hc. done.
        -- rewrite Hc. apply (cache_ok_ext s1 s5); [ext_tac|done].
        -- rewrite Hc. apply (cache_ok_ext s1 s5); [ext_tac|done].
        -- rewrite length_app. simpl. lia.
        -- rewrite Hc. right. split; [lia|]. by apply trace_merge.
      * intros st' s6 He6 Hpost. cbn [g_this] in Hpost. by rewrite Hc in Hpost.
Qed.

(** X29. The attention trace of [generate]. For a model of the constructor's
    shape and a length limit within the context window (no [maxLen], or
    [maxLen <= blockSize]), [generate] returns, and its [attentionData] is
    empty when no token was kept; otherwise it holds exactly one record per
    layer and head, in the order of the forward pass, whose [weights] have one
    row per kept token, row [i] being [i + 1] weights in [0, 1] that sum
    to 1: the lower-triangular matrix a heat map of causal attention shows. *)
Theorem generate_attention_trace_is_triangular (temperature : R) (maxLen : option nat)
    (this : GPTModel) (s : Store) :
  model_ok s this →
  default (blockSize (config this)) maxLen ≤ blockSize (config this) →
  ∃ res this' s',
    generate temperature maxLen this s = Ok ((res, this'), s') ∧
    trace_inv (config this) (length (tokens res)) (attentionData res).
Proof.
  intros Hmodel Hlen. pose proof Hmodel as (_ & _ & HBOS & _).
  assert (cache_ok s (config this) 0 (replicate (nLayer (config this)) [])) as Hcache.
  { split; [by rewrite length_replicate|].
    apply Forall_forall. intros rows Hr. apply elem_of_replicate in Hr as [-> _].
    split; [done|constructor]. }
  destruct (total_generate_loop_trace temperature
              (default (blockSize (config this)) maxLen) 0
              (mkGenState this (Some (BOS (tokenizer this)))
                 (replicate (nLayer (config this)) [])
                 (replicate (nLayer (config this)) []) [] [] []) s)
    as (st & s1 & Hrun & _ & Htr); cbn [g_this g_tokenId g_keys g_vals g_tokenIds
                                        g_allAttention]; try done.
  { by exists (BOS (tokenizer this)). }
  { by left. }
  cbn [g_this] in Htr.
  exists (mkGenerate (concat (g_tokenChars st)) (g_tokenIds st) (g_tokenChars st)
                     (g_allAttention st)), (g_this st), s1.
  split; [|exact Htr].
  unfold generate. by rewrite (bind_run _ _ _ _ _ Hrun).
Qed.

(** The call of the attention heat map, [model.generate(0.5, 8)], on the model
    built from the corpus ["ab"] with seed 42. *)
Lemma generate_attention_trace_is_triangular_witness :
  ∃ this s,
    GPTModel_new [[97; 98]%N] 0 42 empty_store = Ok (this, s) ∧
    ∃ res this' s',
      generate 0.5 (Some 8) this s = Ok ((res, this'), s') ∧
      trace_inv (config this) (length (tokens res)) (attentionData res).
Proof.
  destruct (GPTModel_new_built [[97; 98]%N] 0 42 [[97; 98]%N] (MersenneTwister_new 42)
              empty_store eq_refl)
    as (this & gs & Hnew & Hok & _ & _ & _ & _ & Hcfg & _).
  eexists this, _. split; [exact Hnew|].
  apply (generate_attention_trace_is_triangular 0.5 (Some 8) this _ Hok).
  rewrite Hcfg. cbn. lia.
Defined.

(** ** [src/lib/gpt.ts]: the Adam update of [trainStep] *)

Lemma adam_update_data lr bc1 bc2 b1 b2 eps ps : ∀ i m0 v0 s,
  NoDup ps → Forall (valid s) ps →
  ∃ m' v' cs',
    adam_update lr bc1 bc2 b1 b2 eps i ps m0 v0 s =
      Ok ((m', v'), mkStore cs' (module_gen s)) ∧
    (∀ r, r ∉ ps → cs' !! r = cells s !! r) ∧
    ∀ k p, ps !! k = Some p →
      dat (mkStore cs' (module_gen s)) p =
        adam_data lr bc1 bc2 b1 b2 eps (default 0%R (m0 !! (i + k)))
                  (default 0%R (v0 !! (i + k))) (gradf (cells s) p) (dat s p) ∧
      gradf cs' p = 0%R.
Proof.
  induction ps as [|p ps IH]; intros i m0 v0 s Hnd Hv; cbn [adam_update].
  - exists m0, v0, (cells s). destruct s. cbn. split_and!; try done.
  - apply NoDup_cons in Hnd as [Hp_out Hnd].
    apply Forall_cons in Hv as [[vp Hp] Hv].
    assert (p < length (cells s)) as Hlt by (by eapply lookup_lt_Some).
    assert (get_grad p s = Ok (grad vp, s)) as Hg.
    { unfold get_grad, bind, get. by rewrite Hp. }
    assert (get_data p s = Ok (data vp, s)) as Hd.
    { unfold get_data, bind, get. by rewrite Hp. }
    set (mi := (b1 * default 0 (m0 !! i) + (1 - b1) * grad vp)%R).
    set (vi := (b2 * default 0 (v0 !! i) + (1 - b2) * js_pow (grad vp) 2)%R).
    set (d' := (data vp - lr * (mi / bc1) / (sqrt (vi / bc2) + eps))%R).
    set (s1 := mkStore (<[p:=with_data d' vp]> (cells s)) (module_gen s)).
    set (s2 := mkStore (<[p:=with_grad 0 (with_data d' vp)]> (cells s)) (module_gen s)).
    assert (modify p (with_data d') s = Ok (tt, s1)) as Hm1.
    { unfold modify. by rewrite Hp. }
    assert (modify p (with_grad 0) s1 = Ok (tt, s2)) as Hm2.
    { unfold modify, s1, s2. cbn [cells module_gen].
      rewrite list_lookup_insert_eq by done. by rewrite list_insert_insert_eq. }
    destruct (IH (S i) (<[i:=mi]> m0) (<[i:=vi]> v0) s2 Hnd)
      as (m' & v' & cs' & Hrun & Hframe & Hdata).
    { eapply Forall_impl; [exact Hv|]. intros r. rewrite !valid_lt.
      cbn [s2 cells]. by rewrite length_insert. }
    exists m', v', cs'. cbn [s2 cells module_gen] in *. split_and!.
    + rewrite (bind_run _ _ _ _ _ Hg). cbn beta.
      rewrite (bind_run _ _ _ _ _ Hd). cbn beta. fold mi vi d'.
      rewrite (bind_run _ _ _ _ _ Hm1). rewrite (bind_run _ _ _ _ _ Hm2). exact Hrun.
    + intros r Hr. apply not_elem_of_cons in Hr as [Hne Hr].
      rewrite (Hframe r Hr). by rewrite list_lookup_insert_ne.
    + intros [|k] q Hq.
      * injection Hq as <-. rewrite Nat.add_0_r.
        unfold dat, gradf. cbn [cells]. rewrite (Hframe p Hp_out).
        rewrite list_lookup_insert_eq by done. rewrite Hp. done.
      * cbn in Hq. assert (q ≠ p) as Hne.
        { intros ->. apply Hp_out. by eapply list_elem_of_lookup_2. }
        destruct (Hdata k q Hq) as [Hdq Hgq]. split; [|done].
        rewrite Hdq. replace (i + S k) with (S i + k) by lia.
        rewrite !list_lookup_insert_ne by lia.
        unfold dat, gradf, s2. cbn [cells]. by rewrite !list_lookup_insert_ne by done.
Qed.

(** X30. The first Adam update moves every parameter by less than the
    learning rate. With zero moments and the bias corrections of step 0
    ([1 - beta ** 1]), the loop subtracts [lr * g / (|g| + eps)] from the
    [data] of each parameter, where [g] is its gradient: a parameter with
    gradient 0 does not move, no parameter moves by more than [|lr|], and for
    a positive rate every other parameter moves against its gradient. Every
    gradient is 0 afterwards and no other object changes. *)
Theorem adam_first_step_is_bounded (lr b1 b2 eps : R) (ps : list nat) (s : Store) :
  (0 < b1 < 1)%R → (0 < b2 < 1)%R → (0 < eps)%R →
  NoDup ps → Forall (valid s) ps →
  ∃ m' v' s',
    adam_update lr (1 - js_pow b1 (INR (0 + 1))) (1 - js_pow b2 (INR (0 + 1))) b1 b2 eps 0 ps
                (replicate (length ps) 0%R) (replicate (length ps) 0%R) s =
      Ok ((m', v'), s') ∧
    (∀ r, r ∉ ps → cells s' !! r = cells s !! r) ∧
    ∀ p, p ∈ ps →
      let g := gradf (cells s) p in
      dat s' p = (dat s p - lr * g / (Rabs g + eps))%R ∧
      (Rabs (dat s' p - dat s p) <= Rabs lr)%R ∧
      (g = 0%R → dat s' p = dat s p) ∧
      (0 < lr → g ≠ 0%R → (dat s' p - dat s p) * g < 0)%R ∧
      gradf (cells s') p = 0%R.
Proof.
  intros Hb1 Hb2 Heps Hnd Hv.
  destruct (adam_update_data lr (1 - js_pow b1 (INR (0 + 1))) (1 - js_pow b2 (INR (0 + 1)))
              b1 b2 eps ps 0 (replicate (length ps) 0%R) (replicate (length ps) 0%R)
              s Hnd Hv) as (m' & v' & cs' & Hrun & Hframe & Hdata).
  exists m', v', (mkStore cs' (module_gen s)). split; [exact Hrun|].
  split; [exact Hframe|].
  intros p Hp. apply list_elem_of_lookup_1 in Hp as [k Hk].
  destruct (Hdata k p Hk) as [Hd Hg0]. cbn zeta. cbn [cells].
  set (g := gradf (cells s) p) in *.
  assert (dat (mkStore cs' (module_gen s)) p = (dat s p - lr * g / (Rabs g + eps))%R) as Hform.
  { rewrite Hd. unfold adam_data. cbn [Nat.add].
    rewrite !lookup_replicate_2 by (by eapply lookup_lt_Some). cbn [default].
    unfold Datatypes.id. rewrite !js_pow_1 by lra. rewrite js_pow_2.
    replace ((b2 * 0 + (1 - b2) * (g * g)) / (1 - b2))%R with (Rsqr g)
      by (unfold Rsqr; field; lra).
    rewrite sqrt_Rsqr_abs.
    replace ((b1 * 0 + (1 - b1) * g) / (1 - b1))%R with g by (field; lra).
    done. }
  pose proof (Rabs_pos g) as Hab.
  assert (dat (mkStore cs' (module_gen s)) p - dat s p = - (lr * (g / (Rabs g + eps))))%R
    as Hdiff by (rewrite Hform; field; lra).
  assert (Rabs (g / (Rabs g + eps)) <= 1)%R as Hle.
  { unfold Rdiv. rewrite Rabs_mult, Rabs_inv, (Rabs_pos_eq (Rabs g + eps)) by lra.
    apply (Rmult_le_reg_r (Rabs g + eps)); [lra|].
    rewrite Rmult_assoc, Rinv_l by lra. lra. }
  split_and!.
  - exact Hform.
  - rewrite Hdiff, Rabs_Ropp, Rabs_mult. pose proof (Rabs_pos lr). nra.
  - intros Hz. rewrite Hform, Hz. lra.
  - intros Hlr Hne. rewrite Hdiff.
    assert (0 < g * g)%R by nra.
    assert (0 < / (Rabs g + eps))%R by (apply Rinv_0_lt_compat; lra).
    set (c := (/ (Rabs g + eps))%R) in *.
    replace (- (lr * (g / (Rabs g + eps))) * g)%R with (- (lr * c * (g * g)))%R
      by (unfold Rdiv, c; ring).
    assert (0 < lr * c)%R by (by apply Rmult_lt_0_compat).
    assert (0 < lr * c * (g * g))%R by (by apply Rmult_lt_0_compat).
    lra.
  - exact Hg0.
Qed.

(** The two leaves [x] and [y] of [z = x.mul(y); w = z.add(x)] after
    [x.grad = 5], with the rates of the model: [x] moves against its gradient,
    [y], whose gradient is 0, stays. *)
Lemma adam_first_step_is_bounded_witness :
  ∃ m' v' s',
    adam_update 0.01 (1 - js_pow 0.85 (INR (0 + 1))) (1 - js_pow 0.99 (INR (0 + 1)))
                0.85 0.99 1e-8 0 [0; 1]
                (replicate (length [0; 1]%nat) 0%R) (replicate (length [0; 1]%nat) 0%R)
                stale_store =
      Ok ((m', v'), s') ∧
    (∀ r, r ∉ [0; 1] → cells s' !! r = cells stale_store !! r) ∧
    ∀ p, p ∈ [0; 1] →
      let g := gradf (cells stale_store) p in
      dat s' p = (dat stale_store p - 0.01 * g / (Rabs g + 1e-8))%R ∧
      (Rabs (dat s' p - dat stale_store p) <= Rabs 0.01)%R ∧
      (g = 0%R → dat s' p = dat stale_store p) ∧
      (0 < 0.01 → g ≠ 0%R → (dat s' p - dat stale_store p) * g < 0)%R ∧
      gradf (cells s') p = 0%R.
Proof.
  apply (adam_first_step_is_bounded 0.01 0.85 0.99 1e-8 [0; 1] stale_store);
    [lra|lra|lra| |].
  - repeat constructor; set_solver.
  - repeat constructor; eexists; reflexivity.
Defined.
